(** * Jungle chess engine (src/engine): position, move generation, make/unmake

    A shallow embedding of [types.h], [board.cpp] and the transposition-table
    score helpers of [search.cpp].  C++ [int] values are modelled as [Z]
    (signed overflow is undefined behaviour and never reached: every counter
    is bounded by [MAX_GAME_LEN]); [int8_t] stores go through [int8];
    [uint64_t] hashes are [Z] combined with [Z.lxor]; fixed-size arrays are
    lists read with [ix] and written with [upd]. *)

From Stdlib Require Import ZArith Lia List Bool String Ascii Permutation FinFun.
From stdpp Require Import base list.
Import ListNotations.

Local Open Scope Z_scope.

(** ** Arrays

    [a[i]] is [ix a i] and [a[i] = v] is [upd a i v].  An index outside the
    array is undefined behaviour in C++; [ix] reads [0] and [upd] leaves the
    array unchanged there, and the theorems carry the hypotheses that keep
    the indices inside.  Where the input alone can drive an index out of its
    array (the text given to [setFEN]) the model stops instead of storing:
    see [fenLoop]. *)

Definition ix (a : list Z) (i : Z) : Z :=
  if i <? 0 then 0 else nth (Z.to_nat i) a 0.

Definition upd {A : Type} (a : list A) (i : Z) (v : A) : list A :=
  if i <? 0 then a else <[Z.to_nat i := v]> a.

Definition ixb (a : list bool) (i : Z) : bool :=
  if i <? 0 then false else nth (Z.to_nat i) a false.

(** [(int8_t)x]: reduction to the signed 8-bit range. *)
Definition int8 (x : Z) : Z := (x + 128) mod 256 - 128.

(** [(int16_t)x]. *)
Definition int16 (x : Z) : Z := (x + 32768) mod 65536 - 32768.

(** ** types.h *)

Definition BOARD_W : Z := 7.
Definition BOARD_H : Z := 9.
Definition NUM_SQ : Z := 63.

(** C++ [/] and [%] truncate towards zero. *)
Definition sqRow (sq : Z) : Z := Z.quot sq BOARD_W.
Definition sqCol (sq : Z) : Z := Z.rem sq BOARD_W.
Definition makeSq (r c : Z) : Z := r * BOARD_W + c.

Definition NONE_PC : Z := 0.
Definition RAT : Z := 1.
Definition CAT : Z := 2.
Definition DOG : Z := 3.
Definition WOLF : Z := 4.
Definition LEOPARD : Z := 5.
Definition TIGER : Z := 6.
Definition LION : Z := 7.
Definition ELEPHANT : Z := 8.
Definition NUM_PIECE_TYPES : Z := 9.

Definition LIGHT : Z := 0.
Definition DARK : Z := 1.

Definition TERRAIN_LAND : Z := 0.
Definition TERRAIN_WATER : Z := 1.
Definition TERRAIN_TRAP_LIGHT : Z := 2.
Definition TERRAIN_TRAP_DARK : Z := 3.
Definition TERRAIN_DEN_LIGHT : Z := 4.
Definition TERRAIN_DEN_DARK : Z := 5.

Definition DEN_LIGHT_SQ : Z := makeSq 0 3.
Definition DEN_DARK_SQ : Z := makeSq 8 3.

Definition DIR_N : Z := 7.
Definition DIR_S : Z := -7.
Definition DIR_E : Z := 1.
Definition DIR_W : Z := -1.
Definition DIRS : list Z := [DIR_N; DIR_S; DIR_E; DIR_W].

(** Move encoding: from in bits 0-5, to in bits 6-11 of a [uint16_t]. *)
Definition MOVE_NONE : Z := 65535.
Definition moveFrom (m : Z) : Z := Z.land m 63.
Definition moveTo (m : Z) : Z := Z.land (Z.shiftr m 6) 63.
Definition encodeMove (from to : Z) : Z :=
  (Z.lor from (Z.shiftl to 6)) mod 65536.

Definition SCORE_INF : Z := 30000.
Definition SCORE_MATE : Z := 29000.
Definition SCORE_DRAW : Z := 0.
Definition MAX_PLY : Z := 128.
Definition MAX_MOVES : Z := 80.
Definition MAX_GAME_LEN : Z := 2048.

Definition canStep (from dir : Z) : bool :=
  let to := from + dir in
  if (to <? 0) || (to >=? NUM_SQ) then false
  else if (dir =? DIR_E) && (sqCol from =? BOARD_W - 1) then false
  else if (dir =? DIR_W) && (sqCol from =? 0) then false
  else true.

(** ** Character helpers ([charToRank], [isupper], [toupper]) *)

Definition code (ch : ascii) : Z := Z.of_nat (nat_of_ascii ch).

Definition toupper (c : Z) : Z :=
  if (97 <=? c) && (c <=? 122) then c - 32 else c.

Definition isupper (c : Z) : bool := (65 <=? c) && (c <=? 90).

(** The table ["RCDWPTLE"] of [charToRank]. *)
Definition rankLetters : list Z := [82; 67; 68; 87; 80; 84; 76; 69].

Fixpoint findLetter (tbl : list Z) (i : Z) (c : Z) : Z :=
  match tbl with
  | [] => 0
  | t :: tbl' => if t =? c then i + 1 else findLetter tbl' (i + 1) c
  end.

Definition charToRank (ch : Z) : Z := findLetter rankLetters 0 (toupper ch).

(** ** Global tables of [initTables] *)

Definition setAll {A : Type} (sqs : list Z) (v : A) (t : list A) : list A :=
  fold_left (fun t sq => upd t sq v) sqs t.

Definition waterSqs : list Z := [22; 23; 29; 30; 36; 37; 25; 26; 32; 33; 39; 40].
Definition lightTraps : list Z := [makeSq 0 2; makeSq 0 4; makeSq 1 3].
Definition darkTraps : list Z := [makeSq 8 2; makeSq 8 4; makeSq 7 3].

Definition terrain : list Z :=
  let t := replicate 63 TERRAIN_LAND in
  let t := setAll waterSqs TERRAIN_WATER t in
  let t := upd t DEN_LIGHT_SQ TERRAIN_DEN_LIGHT in
  let t := upd t DEN_DARK_SQ TERRAIN_DEN_DARK in
  let t := setAll lightTraps TERRAIN_TRAP_LIGHT t in
  setAll darkTraps TERRAIN_TRAP_DARK t.

Definition isWater : list bool := setAll waterSqs true (replicate 63 false).

(** *** Jump table *)

Record JumpEntry := mkJump {
  je_from : Z;
  je_to : Z;
  je_blocking : list Z   (* blocking[0 .. numBlocking-1] *)
}.

Definition horizLeft (r : Z) : list JumpEntry :=
  let a := makeSq r 0 in let b1 := makeSq r 1 in
  let b2 := makeSq r 2 in let d := makeSq r 3 in
  [mkJump a d [b1; b2]; mkJump d a [b2; b1]].

Definition horizRight (r : Z) : list JumpEntry :=
  let d := makeSq r 3 in let e1 := makeSq r 4 in
  let e2 := makeSq r 5 in let g := makeSq r 6 in
  [mkJump d g [e1; e2]; mkJump g d [e2; e1]].

Definition vertical (c : Z) : list JumpEntry :=
  let bot := makeSq 2 c in let top := makeSq 6 c in
  let w1 := makeSq 3 c in let w2 := makeSq 4 c in let w3 := makeSq 5 c in
  [mkJump bot top [w1; w2; w3]; mkJump top bot [w3; w2; w1]].

Definition jumpTable : list JumpEntry :=
  concat (map horizLeft [3; 4; 5]) ++ concat (map horizRight [3; 4; 5])
  ++ concat (map vertical [1; 2]) ++ concat (map vertical [4; 5]).

Definition numJumps : Z := Z.of_nat (length jumpTable).

Record SqJumps := mkSqJumps {
  sj_dest : list Z;          (* dest[MAX_JUMPS_PER_SQ] *)
  sj_blockStart : list Z;    (* blockStart[MAX_JUMPS_PER_SQ] *)
  sj_blockCount : list Z;    (* blockCount[MAX_JUMPS_PER_SQ] *)
  sj_blockingSqs : list Z;   (* blockingSqs[MAX_JUMPS_PER_SQ * 3] *)
  sj_count : Z
}.

(** [memset(sqJumpLookup, 0, ...)] *)
Definition sqJumpsZero : SqJumps :=
  mkSqJumps (replicate 4 0) (replicate 4 0) (replicate 4 0) (replicate 12 0) 0.

Definition ixJ (a : list SqJumps) (i : Z) : SqJumps :=
  if i <? 0 then sqJumpsZero else nth (Z.to_nat i) a sqJumpsZero.

(** The inner loop [blockingSqs[blockStart[idx] + j] = e.blocking[j]]. *)
Fixpoint copyBlocking (bs : list Z) (start j : Z) (dst : list Z) : list Z :=
  match bs with
  | [] => dst
  | b :: bs' => copyBlocking bs' start (j + 1) (upd dst (start + j) b)
  end.

(** One iteration of the loop that builds the per-square lookup. *)
Definition addLookup (tbl : list SqJumps) (e : JumpEntry) : list SqJumps :=
  let sj := ixJ tbl (je_from e) in
  let idx := sj_count sj in
  let dest := upd (sj_dest sj) idx (je_to e) in
  let start :=
    if idx >? 0 then ix (sj_blockStart sj) (idx - 1) + ix (sj_blockCount sj) (idx - 1)
    else 0 in
  let blockStart := upd (sj_blockStart sj) idx start in
  let blockCount := upd (sj_blockCount sj) idx (Z.of_nat (length (je_blocking e))) in
  let blockingSqs := copyBlocking (je_blocking e) start 0 (sj_blockingSqs sj) in
  upd tbl (je_from e) (mkSqJumps dest blockStart blockCount blockingSqs (idx + 1)).

Definition sqJumpLookup : list SqJumps :=
  fold_left addLookup jumpTable (replicate 63 sqJumpsZero).

(** ** search.cpp: mate scores in the transposition table *)

Definition scoreToTT (score ply : Z) : Z :=
  if score >=? SCORE_MATE - MAX_PLY then score + ply
  else if score <=? - SCORE_MATE + MAX_PLY then score - ply
  else score.

Definition scoreFromTT (score ply : Z) : Z :=
  if score >=? SCORE_MATE - MAX_PLY then score - ply
  else if score <=? - SCORE_MATE + MAX_PLY then score + ply
  else score.

(** ** board.h: the position *)

Record UndoInfo := mkUndo {
  u_captured : Z;   (* int8_t *)
  u_hash : Z;
  u_halfmove : Z;
  u_move : Z
}.

Definition undoZero : UndoInfo := mkUndo 0 0 0 0.

Definition ixU (a : list UndoInfo) (i : Z) : UndoInfo :=
  if i <? 0 then undoZero else nth (Z.to_nat i) a undoZero.

(** [pieceSq[2][NUM_PIECE_TYPES]] is kept in its row-major layout: the entry
    of colour [c] and rank [rk] is at index [c * 9 + rk]. *)
Record Board := mkBoard {
  squares : list Z;        (* int8_t squares[NUM_SQ] *)
  sideToMove : Z;
  hash : Z;
  ply : Z;
  halfmove : Z;
  pieceSq : list Z;        (* int8_t pieceSq[2][9] *)
  pieceCount : list Z;     (* int pieceCount[2] *)
  undoStack : list UndoInfo;
  posHistory : list Z;
  histLen : Z
}.

Definition psIdx (color rk : Z) : Z := color * NUM_PIECE_TYPES + rk.

(** [target > 0 ? LIGHT : DARK] *)
Definition colorOf (pc : Z) : Z := if pc >? 0 then LIGHT else DARK.

(** ** Zobrist keys

    [initTables] draws the keys from [std::mt19937_64] seeded with
    [0xDEADBEEF42].  The generator is the 64-bit Mersenne twister fixed by the
    C++ standard: 312 words of state, the recurrence over a sliding window of
    the last 312 words, and the output tempering. *)

Definition W64 : Z := 18446744073709551616.
Definition MT_N : nat := 312.
Definition MT_M : nat := 156.
Definition MT_A : Z := 0xB5026F5AA96619E9.
Definition MT_UPPER : Z := 0xFFFFFFFF80000000.
Definition MT_LOWER : Z := 0x7FFFFFFF.
Definition MT_F : Z := 6364136223846793005.

Fixpoint mtSeedFrom (n : nat) (i : Z) (prev : Z) : list Z :=
  match n with
  | O => []
  | S n' =>
      let x := (MT_F * (Z.lxor prev (Z.shiftr prev 62)) + i) mod W64 in
      x :: mtSeedFrom n' (i + 1) x
  end.

Definition mtSeed (seed : Z) : list Z :=
  let x0 := seed mod W64 in x0 :: mtSeedFrom (MT_N - 1) 1 x0.

Definition mtTemper (x : Z) : Z :=
  let z := Z.lxor x (Z.land (Z.shiftr x 29) 0x5555555555555555) in
  let z := Z.lxor z (Z.land (Z.shiftl z 17) 0x71D67FFFEDA60000) in
  let z := Z.lxor z (Z.land (Z.shiftl z 37) 0xFFF7EEE000000000) in
  Z.lxor z (Z.shiftr z 43).

(** [mtRun k win]: the next [k] outputs, [win] holding the last 312 state
    words, oldest first. *)
Fixpoint mtRun (k : nat) (win : list Z) : list Z :=
  match k with
  | O => []
  | S k' =>
      match win with
      | x0 :: ((x1 :: _) as tl) =>
          let xm := nth (MT_M - 1) tl 0 in
          let y := Z.lor (Z.land x0 MT_UPPER) (Z.land x1 MT_LOWER) in
          let xn := Z.lxor (Z.lxor xm (Z.shiftr y 1)) (if Z.odd y then MT_A else 0) in
          mtTemper xn :: mtRun k' (tl ++ [xn])
      | _ => []
      end
  end.

Definition mt19937_64 (seed : Z) (k : nat) : list Z := mtRun k (mtSeed seed).

(** The loop nest [for sq, for rk = 1..8, for c] filling
    [zobristPiece[sq][rk][c]]; entries of rank 0 stay zero-initialised.  The
    table is kept in the array's layout, index [(sq * 9 + rk) * 2 + c]. *)
Definition range (n : Z) : list Z := map Z.of_nat (seq 0 (Z.to_nat n)).

Definition zobristSlots : list Z :=
  flat_map (fun sq =>
    flat_map (fun rk => map (fun c => (sq * 9 + rk) * 2 + c) [0; 1])
             [1; 2; 3; 4; 5; 6; 7; 8])
    (range NUM_SQ).

Definition zobristStream : list Z := mt19937_64 0xDEADBEEF42 1009.

Definition zobristTableDef : list Z :=
  fold_left (fun t '(slot, key) => upd t slot key)
            (combine zobristSlots zobristStream)
            (replicate (63 * 9 * 2) 0).

Definition zobristTable : list Z := Eval vm_compute in zobristTableDef.

Definition zobristPiece (sq rk c : Z) : Z := ix zobristTable ((sq * 9 + rk) * 2 + c).

Definition zobristSide : Z := Eval vm_compute in nth 1008 zobristStream 0.

(** ** board.cpp *)

(** The contribution of one square to the hash. *)
Definition pieceKey (sq pc : Z) : Z :=
  if pc =? 0 then 0 else zobristPiece sq (Z.abs pc) (colorOf pc).

Definition sideKey (stm : Z) : Z := if stm =? DARK then zobristSide else 0.

Definition hashOf (sqs : list Z) (stm : Z) : Z :=
  Z.lxor
    (fold_left (fun h sq => Z.lxor h (pieceKey sq (ix sqs sq))) (range NUM_SQ) 0)
    (sideKey stm).

(** [Board::computeHash] as a function of the position it reads. *)
Definition computeHash (b : Board) : Z := hashOf (squares b) (sideToMove b).

Definition canCapture (attackerRank defenderRank attackerColor fromSq toSq : Z) : bool :=
  let fromW := ixb isWater fromSq in
  let toW := ixb isWater toSq in
  if negb (Bool.eqb fromW toW) then false
  else if fromW && toW then true
  else if (attackerColor =? LIGHT) && (ix terrain toSq =? TERRAIN_TRAP_LIGHT) then true
  else if (attackerColor =? DARK) && (ix terrain toSq =? TERRAIN_TRAP_DARK) then true
  else if (attackerRank =? RAT) && (defenderRank =? ELEPHANT) then true
  else if (attackerRank =? ELEPHANT) && (defenderRank =? RAT) then false
  else attackerRank >=? defenderRank.

(** The tail shared by a step and a jump: an empty target is a move, an enemy
    target is a move when [canCapture] allows it.  [moves] is the output array
    filled so far. *)
Definition tryTarget (b : Board) (sq rank color to : Z) (moves : list Z) : list Z :=
  let target := ix (squares b) to in
  if target =? 0 then moves ++ [encodeMove sq to]
  else
    let tColor := colorOf target in
    if tColor =? color then moves
    else
      let tRank := Z.abs target in
      if canCapture rank tRank color sq to then moves ++ [encodeMove sq to]
      else moves.

(** One iteration of the loop over [DIRS] in [addNormalMoves]. *)
Definition normalStep (b : Board) (sq rank color : Z) (moves : list Z) (d : Z) : list Z :=
  if negb (canStep sq d) then moves
  else
    let to := sq + d in
    let ter := ix terrain to in
    if (color =? LIGHT) && (ter =? TERRAIN_DEN_LIGHT) then moves
    else if (color =? DARK) && (ter =? TERRAIN_DEN_DARK) then moves
    else if (ter =? TERRAIN_WATER) && negb (rank =? RAT) then moves
    else tryTarget b sq rank color to moves.

Definition addNormalMoves (b : Board) (sq rank color : Z) (moves : list Z) : list Z :=
  fold_left (normalStep b sq rank color) DIRS moves.

(** The inner loop of [addJumpMoves]: some square of the water line is
    occupied. *)
Definition jumpBlocked (b : Board) (sj : SqJumps) (i : Z) : bool :=
  let bStart := ix (sj_blockStart sj) i in
  existsb (fun j => negb (ix (squares b) (ix (sj_blockingSqs sj) (bStart + j)) =? 0))
          (range (ix (sj_blockCount sj) i)).

Definition jumpStep (b : Board) (sq rank color : Z) (sj : SqJumps)
    (moves : list Z) (i : Z) : list Z :=
  let to := ix (sj_dest sj) i in
  if (color =? LIGHT) && (ix terrain to =? TERRAIN_DEN_LIGHT) then moves
  else if (color =? DARK) && (ix terrain to =? TERRAIN_DEN_DARK) then moves
  else if jumpBlocked b sj i then moves
  else tryTarget b sq rank color to moves.

Definition addJumpMoves (b : Board) (sq rank color : Z) (moves : list Z) : list Z :=
  let sj := ixJ sqJumpLookup sq in
  fold_left (jumpStep b sq rank color sj) (range (sj_count sj)) moves.

(** One iteration of the loop over ranks in [generateMoves]. *)
Definition genRank (b : Board) (color : Z) (moves : list Z) (rk : Z) : list Z :=
  let sq := ix (pieceSq b) (psIdx color rk) in
  if sq <? 0 then moves
  else
    let moves := addNormalMoves b sq rk color moves in
    if (rk =? LION) || (rk =? TIGER) then addJumpMoves b sq rk color moves
    else moves.

Definition ranks : list Z := [1; 2; 3; 4; 5; 6; 7; 8].

(** [Board::generateMoves]: the moves written to the output array, in order;
    [count] is the length of the list. *)
Definition generateMoves (b : Board) : list Z :=
  fold_left (genRank b (sideToMove b)) ranks [].

(** The lambda [place] of [Board::init], on the pair (squares, pieceSq). *)
Definition place (color rank sq : Z) (st : list Z * list Z) : list Z * list Z :=
  (upd (fst st) sq (int8 (if color =? LIGHT then rank else - rank)),
   upd (snd st) (psIdx color rank) (int8 sq)).

Definition initPlacement : list Z * list Z :=
  let st := (replicate 63 0, replicate 18 (-1)) in
  let st := place LIGHT ELEPHANT (makeSq 2 0) st in
  let st := place LIGHT LION (makeSq 0 6) st in
  let st := place LIGHT TIGER (makeSq 0 0) st in
  let st := place LIGHT LEOPARD (makeSq 2 4) st in
  let st := place LIGHT WOLF (makeSq 2 2) st in
  let st := place LIGHT DOG (makeSq 1 5) st in
  let st := place LIGHT CAT (makeSq 1 1) st in
  let st := place LIGHT RAT (makeSq 2 6) st in
  let st := place DARK ELEPHANT (makeSq 6 6) st in
  let st := place DARK LION (makeSq 8 0) st in
  let st := place DARK TIGER (makeSq 8 6) st in
  let st := place DARK LEOPARD (makeSq 6 2) st in
  let st := place DARK WOLF (makeSq 6 4) st in
  let st := place DARK DOG (makeSq 7 1) st in
  let st := place DARK CAT (makeSq 7 5) st in
  place DARK RAT (makeSq 6 0) st.

(** [Board::init] overwrites the object it is called on; the undo stack and
    the history beyond entry 0 keep whatever they held. *)
Definition init (b : Board) : Board :=
  let sqs := fst initPlacement in
  let h := hashOf sqs LIGHT in
  mkBoard sqs LIGHT h 0 0 (snd initPlacement)
          (upd (upd (pieceCount b) LIGHT 8) DARK 8)
          (undoStack b) (upd (posHistory b) 0 h) 1.

(** *** FEN *)

(** State of the parsing loop of [setFEN]. *)
Record FenState := mkFen {
  f_squares : list Z;
  f_pieceSq : list Z;
  f_pieceCount : list Z
}.

Inductive FenLoop :=
| FenReject (st : FenState)                   (* [return false] inside the loop *)
| FenDone (st : FenState) (rest : list Z)     (* loop left; [rest] is [fen] from [idx] on *)
| FenOverrun.                                 (* a store outside [squares] *)

(** The [while (idx < fen.size() && row >= 0)] loop over the characters not
    yet read.  The source never compares [col] with the width of the board:
    after enough digits or letters in one row, [sq = makeSq(row, col)] is
    no index of [squares[NUM_SQ]] any more, and [squares[sq] = ...] writes
    into whatever lies behind the array (with the layout of board.h:
    [sideToMove], [hash], [ply], ...).  C++ gives such a store no meaning,
    so the loop stops there with [FenOverrun] and nothing is said about the
    board.  A store with [col > 6] that still hits the array (a row other
    than the top one) is an ordinary store into a square of the row above
    and is kept. *)
Fixpoint fenLoop (fen : list Z) (row col : Z) (st : FenState) : FenLoop :=
  match fen with
  | [] => FenDone st []
  | ch :: fen' =>
      if negb (row >=? 0) then FenDone st fen
      else if ch =? 47 then fenLoop fen' (row - 1) 0 st
      else if ch =? 32 then FenDone st fen'
      else if (ch >=? 49) && (ch <=? 55) then fenLoop fen' row (col + (ch - 48)) st
      else
        let rk := charToRank ch in
        if rk =? 0 then FenReject st
        else
          let color := if isupper ch then LIGHT else DARK in
          let sq := makeSq row col in
          if negb ((0 <=? sq) && (sq <? NUM_SQ)) then FenOverrun
          else
            fenLoop fen' row (col + 1)
              (mkFen (upd (f_squares st) sq (int8 (if color =? LIGHT then rk else - rk)))
                     (upd (f_pieceSq st) (psIdx color rk) (int8 sq))
                     (upd (f_pieceCount st) color (ix (f_pieceCount st) color + 1)))
  end.

(** [while (idx < fen.size() && fen[idx] == ' ') idx++] *)
Fixpoint skipSpaces (fen : list Z) : list Z :=
  match fen with
  | ch :: fen' => if ch =? 32 then skipSpaces fen' else fen
  | [] => []
  end.

Definition fenSide (rest : list Z) : Z :=
  match skipSpaces rest with
  | ch :: _ => if ch =? 98 then DARK else LIGHT
  | [] => LIGHT
  end.

Definition chars (s : string) : list Z := map code (list_ascii_of_string s).

(** [Board::setFEN] on the character codes of the text: the returned flag and
    the position left behind; [None] for a text that makes the loop store
    outside [squares] (see [fenLoop]). *)
Definition setFENc (b : Board) (fen : list Z) : option (bool * Board) :=
  let st0 := mkFen (replicate 63 0) (replicate 18 (-1))
                   (upd (upd (pieceCount b) LIGHT 0) DARK 0) in
  match fenLoop fen 8 0 st0 with
  | FenReject st =>
      Some (false,
            mkBoard (f_squares st) (sideToMove b) (hash b) 0 0 (f_pieceSq st)
                    (f_pieceCount st) (undoStack b) (posHistory b) 0)
  | FenDone st rest =>
      let stm := fenSide rest in
      let h := hashOf (f_squares st) stm in
      Some (true,
            mkBoard (f_squares st) stm h 0 0 (f_pieceSq st) (f_pieceCount st)
                    (undoStack b) (upd (posHistory b) 0 h) 1)
  | FenOverrun => None
  end.

Definition setFEN (b : Board) (fen : string) : option (bool * Board) :=
  setFENc b (chars fen).

(** *** Make / unmake *)

Definition makeMove (b : Board) (m : Z) : Board :=
  let from := moveFrom m in
  let to := moveTo m in
  let piece := ix (squares b) from in
  let rk := Z.abs piece in
  let color := colorOf piece in
  let captured := ix (squares b) to in
  let u := mkUndo captured (hash b) (halfmove b) m in
  let cRk := Z.abs captured in
  let cCol := colorOf captured in
  let ps1 := if captured =? 0 then pieceSq b
             else upd (pieceSq b) (psIdx cCol cRk) (-1) in
  let pc1 := if captured =? 0 then pieceCount b
             else upd (pieceCount b) cCol (ix (pieceCount b) cCol - 1) in
  let h1 := if captured =? 0 then hash b
            else Z.lxor (hash b) (zobristPiece to cRk cCol) in
  let hm1 := if captured =? 0 then halfmove b + 1 else 0 in
  let h2 := Z.lxor (Z.lxor h1 (zobristPiece from rk color)) (zobristPiece to rk color) in
  let sqs := upd (upd (squares b) to piece) from 0 in
  let ps2 := upd ps1 (psIdx color rk) (int8 to) in
  let h3 := Z.lxor h2 zobristSide in
  mkBoard sqs (1 - sideToMove b) h3 (ply b + 1) hm1 ps2 pc1
          (upd (undoStack b) (ply b) u)
          (upd (posHistory b) (histLen b) h3) (histLen b + 1).

Definition unmakeMove (b : Board) : Board :=
  let ply' := ply b - 1 in
  let histLen' := histLen b - 1 in
  let u := ixU (undoStack b) ply' in
  let from := moveFrom (u_move u) in
  let to := moveTo (u_move u) in
  let piece := ix (squares b) to in
  let rk := Z.abs piece in
  let color := colorOf piece in
  let sqs := upd (upd (squares b) from piece) to (u_captured u) in
  let ps1 := upd (pieceSq b) (psIdx color rk) (int8 from) in
  let cRk := Z.abs (u_captured u) in
  let cCol := colorOf (u_captured u) in
  let ps2 := if u_captured u =? 0 then ps1
             else upd ps1 (psIdx cCol cRk) (int8 to) in
  let pc := if u_captured u =? 0 then pieceCount b
            else upd (pieceCount b) cCol (ix (pieceCount b) cCol + 1) in
  mkBoard sqs (1 - sideToMove b) (u_hash u) ply' (u_halfmove u) ps2 pc
          (undoStack b) (posHistory b) histLen'.

Definition makeNullMove (b : Board) : Board :=
  let u := mkUndo 0 (hash b) (halfmove b) MOVE_NONE in
  let h := Z.lxor (hash b) zobristSide in
  mkBoard (squares b) (1 - sideToMove b) h (ply b + 1) (halfmove b)
          (pieceSq b) (pieceCount b)
          (upd (undoStack b) (ply b) u)
          (upd (posHistory b) (histLen b) h) (histLen b + 1).

Definition unmakeNullMove (b : Board) : Board :=
  let ply' := ply b - 1 in
  let u := ixU (undoStack b) ply' in
  mkBoard (squares b) (1 - sideToMove b) (u_hash u) ply' (u_halfmove u)
          (pieceSq b) (pieceCount b) (undoStack b) (posHistory b)
          (histLen b - 1).

(** *** Repetition *)

(** The loop [for (i = histLen - 3; i >= 0; i -= 2)] with its counter; [n]
    bounds the number of iterations. *)
Fixpoint repLoop (n : nat) (hist : list Z) (h : Z) (i count : Z) : bool :=
  match n with
  | O => false
  | S n' =>
      if negb (i >=? 0) then false
      else if ix hist i =? h then
        if count + 1 >=? 2 then true else repLoop n' hist h (i - 2) (count + 1)
      else repLoop n' hist h (i - 2) count
  end.

Definition isRepetition (b : Board) : bool :=
  if histLen b <? 5 then false
  else repLoop (Z.to_nat (histLen b)) (posHistory b) (hash b) (histLen b - 3) 0.

(** *** Game over *)

Definition checkGameOver (b : Board) : Z :=
  let opp := 1 - sideToMove b in
  let ourDen := if sideToMove b =? LIGHT then DEN_LIGHT_SQ else DEN_DARK_SQ in
  let pc := ix (squares b) ourDen in
  if negb (pc =? 0) && (colorOf pc =? opp) then -1
  else if ix (pieceCount b) (sideToMove b) =? 0 then -1
  else if ix (pieceCount b) opp =? 0 then 1
  else 0.

(** ** Specification-side definitions *)

Definition isWaterSq (sq : Z) : bool := ixb isWater sq.

(** The square is a trap of the attacker's own side. *)
Definition ownTrap (color sq : Z) : bool :=
  ((color =? LIGHT) && (ix terrain sq =? TERRAIN_TRAP_LIGHT))
  || ((color =? DARK) && (ix terrain sq =? TERRAIN_TRAP_DARK)).

Definition ownDen (color sq : Z) : bool :=
  ((color =? LIGHT) && (ix terrain sq =? TERRAIN_DEN_LIGHT))
  || ((color =? DARK) && (ix terrain sq =? TERRAIN_DEN_DARK)).

(** The capture rule in the words of the specification (section 4.C, rule 3,
    without the colour test that the callers make): cross-terrain bar;
    water against water needs two Rats; own-side trap; Rat beats Elephant;
    Elephant cannot take Rat; otherwise by rank. *)
Definition captureRule (attacker defender color from to : Z) : bool :=
  if negb (Bool.eqb (isWaterSq from) (isWaterSq to)) then false
  else if isWaterSq from then (attacker =? RAT) && (defender =? RAT)
  else if ownTrap color to then true
  else if (attacker =? RAT) && (defender =? ELEPHANT) then true
  else if (attacker =? ELEPHANT) && (defender =? RAT) then false
  else attacker >=? defender.

(** Invariant 5 of the specification: a water square holds at most a Rat. *)
Definition waterInv (b : Board) : bool :=
  forallb (fun sq => negb (isWaterSq sq)
                     || (ix (squares b) sq =? 0)
                     || (Z.abs (ix (squares b) sq) =? RAT))
          (range NUM_SQ).

(** *** River jumps by geometry

    [waterLine n sq dir] follows the board from [sq] in direction [dir] over
    water cells and returns them with the first non-water cell reached. *)
Fixpoint waterLine (n : nat) (sq dir : Z) : option (list Z * Z) :=
  match n with
  | O => None
  | S n' =>
      if canStep sq dir then
        let nxt := sq + dir in
        if isWaterSq nxt then
          match waterLine n' nxt dir with
          | Some (ws, land) => Some (nxt :: ws, land)
          | None => None
          end
        else Some ([], nxt)
      else None
  end.

(** A jump exists in a direction when the immediate neighbour is water. *)
Definition jumpLine (sq dir : Z) : option (list Z * Z) :=
  if canStep sq dir && isWaterSq (sq + dir) then waterLine 9 sq dir else None.

Definition holdsRat (b : Board) (sq : Z) : bool := Z.abs (ix (squares b) sq) =? RAT.

(** The landing square obeys the rules of a step: not the own den, and empty
    or an enemy that may be captured. *)
Definition landingOk (b : Board) (sq rank color to : Z) : bool :=
  negb (ownDen color to)
  && ((ix (squares b) to =? 0)
      || (negb (colorOf (ix (squares b) to) =? color)
          && canCapture rank (Z.abs (ix (squares b) to)) color sq to)).

(** The jump rule of the specification: some direction has a water line that
    ends on [to], no cell of the line holds a Rat, and the landing is legal. *)
Definition jumpRule (b : Board) (sq rank color to : Z) : bool :=
  existsb (fun dir =>
    match jumpLine sq dir with
    | Some (ws, land) =>
        (land =? to) && negb (existsb (holdsRat b) ws) && landingOk b sq rank color to
    | None => false
    end) DIRS.

(** The same rule with the test the code makes: a cell of the line blocks
    when it is occupied at all. *)
Definition jumpRuleOccupied (b : Board) (sq rank color to : Z) : bool :=
  existsb (fun dir =>
    match jumpLine sq dir with
    | Some (ws, land) =>
        (land =? to)
        && negb (existsb (fun w => negb (ix (squares b) w =? 0)) ws)
        && landingOk b sq rank color to
    | None => false
    end) DIRS.

(** The entries of the per-square lookup decoded: landing square and the
    squares tested for blocking. *)
Definition jumpsOf (sq : Z) : list (Z * list Z) :=
  let sj := ixJ sqJumpLookup sq in
  map (fun i =>
         (ix (sj_dest sj) i,
          map (fun j => ix (sj_blockingSqs sj) (ix (sj_blockStart sj) i + j))
              (range (ix (sj_blockCount sj) i))))
      (range (sj_count sj)).

Definition geomJumps (sq : Z) : list (Z * list Z) :=
  flat_map (fun dir =>
    match jumpLine sq dir with
    | Some (ws, land) => [(land, ws)]
    | None => []
    end) DIRS.

(** *** Game status *)

(** An enemy piece stands on the den of the side to move. *)
Definition enemyOnOwnDen (b : Board) : bool :=
  let den := if sideToMove b =? LIGHT then DEN_LIGHT_SQ else DEN_DARK_SQ in
  negb (ix (squares b) den =? 0)
  && (colorOf (ix (squares b) den) =? 1 - sideToMove b).

(** *** Repetition *)

(** The live part of the history stack. *)
Definition history (b : Board) : list Z :=
  firstn (Z.to_nat (histLen b)) (posHistory b).

(** Indices of the earlier entries with the same side to move as the current
    one (entry [histLen - 1]): every second entry below it. *)
Definition sameSidePrior (len : Z) : list Z :=
  List.filter (fun j => Z.even (len - 1 - j)) (range (len - 1)).

(** How often the current hash occurs among them. *)
Definition priorOccurrences (b : Board) : nat :=
  length (List.filter (fun j => ix (posHistory b) j =? hash b)
                      (sameSidePrior (histLen b))).

(** *** Well-formed positions *)

(** The piece of colour [c] and rank [rk] as stored in [squares]. *)
Definition signed (c rk : Z) : Z := if c =? LIGHT then rk else - rk.

(** Invariant 2, from the reverse index to the board. *)
Definition indexToBoard (b : Board) : bool :=
  forallb (fun c =>
    forallb (fun rk =>
      let s := ix (pieceSq b) (psIdx c rk) in
      (s =? -1) || ((0 <=? s) && (s <? NUM_SQ) && (ix (squares b) s =? signed c rk)))
      ranks) [LIGHT; DARK].

(** Invariant 2, from the board to the reverse index. *)
Definition boardToIndex (b : Board) : bool :=
  forallb (fun s =>
    let v := ix (squares b) s in
    (v =? 0)
    || ((1 <=? Z.abs v) && (Z.abs v <=? 8)
        && (ix (pieceSq b) (psIdx (colorOf v) (Z.abs v)) =? s)))
    (range NUM_SQ).

Record wf (b : Board) : Prop := mkWf {
  wf_squares : length (squares b) = 63%nat;
  wf_pieceSq : length (pieceSq b) = 18%nat;
  wf_pieceCount : length (pieceCount b) = 2%nat;
  wf_undo : length (undoStack b) = Z.to_nat MAX_GAME_LEN;
  wf_hist : length (posHistory b) = Z.to_nat MAX_GAME_LEN;
  wf_side : sideToMove b = LIGHT \/ sideToMove b = DARK;
  wf_index : indexToBoard b = true;
  wf_board : boardToIndex b = true;
  wf_hash : hash b = computeHash b;
  wf_ply : 0 <= ply b;
  wf_len : histLen b = ply b + 1;
  wf_top : ix (posHistory b) (histLen b - 1) = hash b
}.

(** The storage a [Board] object provides, whatever it holds. *)
Definition storage (b : Board) : Prop :=
  length (pieceCount b) = 2%nat
  /\ length (undoStack b) = Z.to_nat MAX_GAME_LEN
  /\ length (posHistory b) = Z.to_nat MAX_GAME_LEN.

(** [Q] is [P] up to the dead entries of the two stacks: every field agrees,
    and so do the undo records below [ply] and the history below [histLen]. *)
Definition sameLive (P Q : Board) : Prop :=
  squares Q = squares P /\ sideToMove Q = sideToMove P /\ hash Q = hash P
  /\ ply Q = ply P /\ halfmove Q = halfmove P
  /\ pieceSq Q = pieceSq P /\ pieceCount Q = pieceCount P
  /\ histLen Q = histLen P
  /\ length (undoStack Q) = length (undoStack P)
  /\ length (posHistory Q) = length (posHistory P)
  /\ firstn (Z.to_nat (ply P)) (undoStack Q) = firstn (Z.to_nat (ply P)) (undoStack P)
  /\ firstn (Z.to_nat (histLen P)) (posHistory Q)
     = firstn (Z.to_nat (histLen P)) (posHistory P).

(** Positions of a game: the start position, or a loaded text that places
    every piece at most once, followed by legal moves and null moves within
    the capacity of the stacks.  [unmakeMove] and [unmakeNullMove] lead back
    to the position before, except that a dead stack entry has been
    overwritten; the set is closed under such changes. *)
Inductive reachable : Board -> Prop :=
| reach_init b : storage b -> reachable (init b)
| reach_fen b fen P :
    storage b -> setFEN b fen = Some (true, P) ->
    indexToBoard P = true ->
    boardToIndex P = true ->
    reachable P
| reach_make P m :
    reachable P -> In m (generateMoves P) -> histLen P < MAX_GAME_LEN ->
    reachable (makeMove P m)
| reach_null P :
    reachable P -> histLen P < MAX_GAME_LEN -> reachable (makeNullMove P)
| reach_dead P Q : reachable P -> sameLive P Q -> reachable Q.

(** A freshly allocated (zero-initialised) board object. *)
Definition zeroBoard : Board :=
  mkBoard (replicate 63 0) 0 0 0 0 (replicate 18 0) (replicate 2 0)
          (replicate 2048 undoZero) (replicate 2048 0) 0.

(** The board of a result of [setFEN] ([zeroBoard] where there is none). *)
Definition boardOf (r : option (bool * Board)) : Board :=
  match r with
  | Some (_, b) => b
  | None => zeroBoard
  end.

(** The position [setFEN] leaves on a fresh board. *)
Definition fenBoard (fen : string) : Board := boardOf (setFEN zeroBoard fen).

(** Playing a list of moves. *)
Definition playMoves (b : Board) (ms : list Z) : Board := fold_left makeMove ms b.

(** The indices visited by the loop of [isRepetition] started at [i] with at
    most [n] iterations. *)
Fixpoint descFrom (n : nat) (i : Z) : list Z :=
  match n with
  | O => []
  | S n' => if negb (i >=? 0) then [] else i :: descFrom n' (i - 2)
  end.

(** Occurrences of [h] in [hist] at the indices [l]. *)
Definition matches (hist : list Z) (h : Z) (l : list Z) : Z :=
  Z.of_nat (length (List.filter (fun j => ix hist j =? h) l)).

(** [isRepetition] on a history stack given as a list. *)
Definition repOn (hist : list Z) (h : Z) : bool :=
  let len := Z.of_nat (length hist) in
  if len <? 5 then false else repLoop (length hist) hist h (len - 3) 0.

(** The positions passed through when playing a list of moves. *)
Fixpoint trace (b : Board) (ms : list Z) : list Board :=
  match ms with
  | [] => []
  | m :: ms' => makeMove b m :: trace (makeMove b m) ms'
  end.

(** Four reversible moves from the start position: both Tigers step forward
    and back. *)
Definition a1a2 : Z := encodeMove 0 7.
Definition g9g8 : Z := encodeMove 62 55.
Definition a2a1 : Z := encodeMove 7 0.
Definition g8g9 : Z := encodeMove 55 62.
Definition tigerCycle : list Z := [a1a2; g9g8; a2a1; g8g9].
Definition tigerCycle2 : list Z := tigerCycle ++ tigerCycle.

Definition occupied (b : Board) (sq : Z) : bool := negb (ix (squares b) sq =? 0).

(** A step onto [to] is allowed: legal landing, and water only for the Rat. *)
Definition stepOk (b : Board) (sq rank color to : Z) : bool :=
  landingOk b sq rank color to
  && negb ((ix terrain to =? TERRAIN_WATER) && negb (rank =? RAT)).

Fixpoint listEqb (l l' : list Z) : bool :=
  match l, l' with
  | [], [] => true
  | x :: l, y :: l' => (x =? y) && listEqb l l'
  | _, _ => false
  end.

Definition jumpEqb (x y : Z * list Z) : bool :=
  (fst x =? fst y) && listEqb (snd x) (snd y).

Definition inSq (sq : Z) : bool := (0 <=? sq) && (sq <? NUM_SQ).

(** Every entry of the lookup of a square starts on land, lands on another
    land square of the board, and tests water squares of the board. *)
Definition jumpEntryOk (sq : Z) (e : Z * list Z) : bool :=
  negb (isWaterSq sq) && inSq (fst e) && negb (fst e =? sq)
  && negb (isWaterSq (fst e))
  && forallb (fun w => inSq w && isWaterSq w) (snd e).

Definition jumpTableOk : bool :=
  forallb (fun sq => forallb (jumpEntryOk sq) (jumpsOf sq)) (range NUM_SQ).

(** On land squares the lookup holds the jumps of the geometry, and only
    them. *)
Definition jumpsMatchGeometry : bool :=
  forallb (fun sq =>
    isWaterSq sq
    || (forallb (fun e => existsb (jumpEqb e) (geomJumps sq)) (jumpsOf sq)
        && forallb (fun e => existsb (jumpEqb e) (jumpsOf sq)) (geomJumps sq)))
    (range NUM_SQ).

Definition encodeOk : bool :=
  forallb (fun f => forallb (fun t =>
      (moveFrom (encodeMove f t) =? f) && (moveTo (encodeMove f t) =? t))
    (range 64)) (range 64).

(** Scenario S4: Light Lion on a3, Dark Rat on b4. *)
Definition s4Board : Board := fenBoard "7/7/7/7/7/1r5/L6/7/7 w".
(** Light Lion on a4 next to the river, Dark Rat on b4. *)
Definition lionRatBoard : Board := fenBoard "7/7/7/7/7/Lr5/7/7/7 w".
(** The same with a Dark Cat in the water instead of the Rat. *)
Definition lionCatBoard : Board := fenBoard "7/7/7/7/7/Lc5/7/7/7 w".
(** The Lion alone. *)
Definition lionBoard : Board := fenBoard "7/7/7/7/7/L6/7/7/7 w".

Definition a3d3 : Z := encodeMove 14 17.
Definition a4d4 : Z := encodeMove 21 24.

(** The piece part of the hash over a list of squares. *)
Definition xorKeys (sqs : list Z) (idx : list Z) (h : Z) : Z :=
  fold_left (fun h sq => Z.lxor h (pieceKey sq (ix sqs sq))) idx h.

(** What a generated move is made of: the square [sq] of a live piece of rank
    [rk] of the side to move, and a different target square that is empty or
    holds an enemy piece. *)
Record legalAt (b : Board) (m rk sq to : Z) : Prop := mkLegalAt {
  la_rk : In rk ranks;
  la_sq : sq = ix (pieceSq b) (psIdx (sideToMove b) rk);
  la_sq_range : 0 <= sq < NUM_SQ;
  la_to_range : 0 <= to < NUM_SQ;
  la_ne : to <> sq;
  la_m : m = encodeMove sq to;
  la_piece : ix (squares b) sq = signed (sideToMove b) rk;
  la_target : ix (squares b) to = 0 \/ colorOf (ix (squares b) to) <> sideToMove b
}.

(** The position after a legal move, field by field. *)
Definition moved (b : Board) (m rk sq to : Z) : Board :=
  let stm := sideToMove b in
  let piece := signed stm rk in
  let cap := ix (squares b) to in
  let h := Z.lxor (Z.lxor (Z.lxor (Z.lxor (hash b) (pieceKey to cap))
                                  (pieceKey sq piece))
                          (pieceKey to piece))
                  zobristSide in
  mkBoard (upd (upd (squares b) to piece) sq 0) (1 - stm) h
    (ply b + 1) (if cap =? 0 then halfmove b + 1 else 0)
    (upd (if cap =? 0 then pieceSq b
          else upd (pieceSq b) (psIdx (colorOf cap) (Z.abs cap)) (-1))
         (psIdx stm rk) to)
    (if cap =? 0 then pieceCount b
     else upd (pieceCount b) (colorOf cap) (ix (pieceCount b) (colorOf cap) - 1))
    (upd (undoStack b) (ply b) (mkUndo cap (hash b) (halfmove b) m))
    (upd (posHistory b) (histLen b) h) (histLen b + 1).

Definition a3a4 : Z := encodeMove 14 21.

(** Every move of the list is generated in the position it is played in. *)
Fixpoint legalChain (b : Board) (ms : list Z) : Prop :=
  match ms with
  | [] => True
  | m :: ms' => In m (generateMoves b) /\ legalChain (makeMove b m) ms'
  end.

(** How many of [hs (k - 2)], [hs (k - 4)], ... down to index 0 or 1 equal
    [h]. *)
Fixpoint countBack (hs : nat -> Z) (h : Z) (k : nat) : Z :=
  match k with
  | S (S k') => (if hs k' =? h then 1 else 0) + countBack hs h k'
  | _ => 0
  end.

(** The positions along a cycle of moves played twice. *)
Definition along (P : Board) (cyc : list Z) (k : nat) : Board :=
  playMoves P (firstn k (cyc ++ cyc)).

(** ** types.h: squares and moves as text

    Texts are lists of character codes in 0..255.  [charOf] is the
    conversion of an [int] to [char] when a character is built from
    arithmetic.  A code above 127, negative as a signed [char], is no file
    or rank letter whichever way it is read. *)
Definition charOf (x : Z) : Z := x mod 256.

Definition sqToStr (sq : Z) : list Z :=
  [charOf (97 + sqCol sq)] ++ [charOf (49 + sqRow sq)].

Definition strToSq (s : list Z) : Z :=
  match s with
  | c0 :: c1 :: _ =>
      let c := c0 - 97 in
      let r := c1 - 49 in
      if (c <? 0) || (c >=? BOARD_W) || (r <? 0) || (r >=? BOARD_H) then -1
      else makeSq r c
  | _ => -1
  end.

(** The text ["0000"]. *)
Definition noMoveText : list Z := [48; 48; 48; 48].

Definition moveToStr (m : Z) : list Z :=
  if m =? MOVE_NONE then noMoveText
  else sqToStr (moveFrom m) ++ sqToStr (moveTo m).

(** [s.substr(pos, 2)] for [pos] within the text. *)
Definition substr2 (s : list Z) (pos : nat) : list Z := firstn 2 (skipn pos s).

Definition strToMove (s : list Z) : Z :=
  if Z.of_nat (length s) <? 4 then MOVE_NONE
  else
    let f := strToSq (substr2 s 0) in
    let t := strToSq (substr2 s 2) in
    if (f <? 0) || (t <? 0) then MOVE_NONE else encodeMove f t.

Definition rowColOk : bool :=
  forallb (fun r => forallb (fun c =>
      (sqRow (makeSq r c) =? r) && (sqCol (makeSq r c) =? c))
    (range BOARD_W)) (range BOARD_H).

Definition sqRowColOk : bool :=
  forallb (fun sq =>
      (makeSq (sqRow sq) (sqCol sq) =? sq)
      && (0 <=? sqRow sq) && (sqRow sq <? BOARD_H)
      && (0 <=? sqCol sq) && (sqCol sq <? BOARD_W))
    (range NUM_SQ).

(** *** Board::generateCaptures *)

(** One iteration of the loop over [DIRS] in [generateCaptures]. *)
Definition capStep (b : Board) (sq rk color : Z) (moves : list Z) (d : Z) : list Z :=
  if negb (canStep sq d) then moves
  else
    let to := sq + d in
    let ter := ix terrain to in
    if (color =? LIGHT) && (ter =? TERRAIN_DEN_LIGHT) then moves
    else if (color =? DARK) && (ter =? TERRAIN_DEN_DARK) then moves
    else if (ter =? TERRAIN_WATER) && negb (rk =? RAT) then moves
    else
      let target := ix (squares b) to in
      if target =? 0 then moves
      else
        let tColor := colorOf target in
        if tColor =? color then moves
        else
          let tRank := Z.abs target in
          if canCapture rk tRank color sq to then moves ++ [encodeMove sq to]
          else moves.

(** One iteration of the loop over the jumps of a square in
    [generateCaptures]. *)
Definition capJumpStep (b : Board) (sq rk color : Z) (sj : SqJumps)
    (moves : list Z) (i : Z) : list Z :=
  let to := ix (sj_dest sj) i in
  if (color =? LIGHT) && (ix terrain to =? TERRAIN_DEN_LIGHT) then moves
  else if (color =? DARK) && (ix terrain to =? TERRAIN_DEN_DARK) then moves
  else
    let target := ix (squares b) to in
    if target =? 0 then moves
    else
      let tColor := colorOf target in
      if tColor =? color then moves
      else if jumpBlocked b sj i then moves
      else
        let tRank := Z.abs target in
        if canCapture rk tRank color sq to then moves ++ [encodeMove sq to]
        else moves.

(** One iteration of the loop over ranks in [generateCaptures]. *)
Definition capRank (b : Board) (color : Z) (moves : list Z) (rk : Z) : list Z :=
  let sq := ix (pieceSq b) (psIdx color rk) in
  if sq <? 0 then moves
  else
    let moves := fold_left (capStep b sq rk color) DIRS moves in
    if (rk =? LION) || (rk =? TIGER) then
      let sj := ixJ sqJumpLookup sq in
      fold_left (capJumpStep b sq rk color sj) (range (sj_count sj)) moves
    else moves.

Definition generateCaptures (b : Board) : list Z :=
  fold_left (capRank b (sideToMove b)) ranks [].

(** A move whose target square is occupied. *)
Definition isCapture (b : Board) (m : Z) : bool := occupied b (moveTo m).

(** Light Lion on a3 beside a Dark Rat on b3, Dark Cat on a4. *)
Definition lionPreyBoard : Board := fenBoard "7/7/7/7/7/c6/Lr5/7/7 w".

(** [isWater] marks the squares whose terrain is water. *)
Definition waterTerrainOk : bool :=
  forallb (fun sq => Bool.eqb (isWaterSq sq) (ix terrain sq =? TERRAIN_WATER))
          (range NUM_SQ).

(** The directions in which a piece of rank [rk] on [sq] may step at all:
    on the board, and not into water unless it is the Rat. *)
Definition stepDirs (sq rk : Z) : list Z :=
  List.filter (fun d => canStep sq d
                        && negb ((ix terrain (sq + d) =? TERRAIN_WATER)
                                 && negb (rk =? RAT)))
              DIRS.

(** From every square, the jumps of the lookup and the land steps together
    are at most four: a jump replaces the step into the water. *)
Definition jumpBudgetOk : bool :=
  forallb (fun sq =>
     (0 <=? sj_count (ixJ sqJumpLookup sq))
     && (Z.of_nat (length (stepDirs sq LION)) + sj_count (ixJ sqJumpLookup sq) <=? 4))
    (range NUM_SQ).

(** *** Invariants of the position *)

(** No piece stands on the den of its own side. *)
Definition denInv (b : Board) : bool :=
  forallb (fun sq => (ix (squares b) sq =? 0)
                     || negb (ownDen (colorOf (ix (squares b) sq)) sq))
          (range NUM_SQ).

(** The square holds a piece of colour [c]. *)
Definition holdsColor (c v : Z) : bool := negb (v =? 0) && (colorOf v =? c).

(** The number of pieces of colour [c] on the board. *)
Definition piecesOn (sqs : list Z) (c : Z) : Z :=
  Z.of_nat (length (List.filter (fun sq => holdsColor c (ix sqs sq)) (range NUM_SQ))).

(** [pieceCount] holds the number of pieces of each colour. *)
Definition countInv (b : Board) : bool :=
  forallb (fun c => ix (pieceCount b) c =? piecesOn (squares b) c) [LIGHT; DARK].

(** The den of the side [c]. *)
Definition denOf (c : Z) : Z := if c =? LIGHT then DEN_LIGHT_SQ else DEN_DARK_SQ.

(** Light Rat on d8 next to the Dark den, Dark Rat on g9. *)
Definition denBoard : Board := fenBoard "6r/3R3/7/7/7/7/7/7/7 w".

(** *** Board::perft *)

(** Arithmetic of [uint64_t]. *)
Definition u64 (x : Z) : Z := x mod 2 ^ 64.

(** [Board::perft] for a depth that is not negative, returning the count
    and the board it leaves behind.  The moves are generated once, before
    the loop; each one is made on the board as the iteration before left
    it. *)
Fixpoint perft (depth : nat) (b : Board) : Z * Board :=
  match depth with
  | O => (1, b)
  | S d =>
      if negb (checkGameOver b =? 0) then (0, b)
      else
        fold_left (fun (st : Z * Board) (m : Z) =>
                     let r := perft d (makeMove (snd st) m) in
                     (u64 (fst st + fst r), unmakeMove (snd r)))
                  (generateMoves b) (0, b)
  end.

(** The number of lines of play of the given length, counted on positions
    that are never taken back; a position where the game is over has none. *)
Fixpoint leafCount (depth : nat) (b : Board) : Z :=
  match depth with
  | O => 1
  | S d =>
      if negb (checkGameOver b =? 0) then 0
      else fold_right (fun m acc => leafCount d (makeMove b m) + acc) 0
                      (generateMoves b)
  end.

(** ** search.h, search.cpp: the transposition table *)

Definition TT_NONE : Z := 0.
Definition TT_EXACT : Z := 1.
Definition TT_ALPHA : Z := 2.
Definition TT_BETA : Z := 3.

Record TTEntry := mkTT {
  tt_key : Z;        (* uint64_t *)
  tt_score : Z;      (* int16_t *)
  tt_bestMove : Z;   (* Move *)
  tt_depth : Z;      (* int8_t *)
  tt_flag : Z        (* uint8_t *)
}.

(** An entry after [memset] with 0. *)
Definition ttZero : TTEntry := mkTT 0 0 0 0 0.

(** [sizeof(TTEntry)]: 8 + 2 + 2 + 1 + 1 bytes, padded to the alignment of
    [uint64_t]. *)
Definition TT_ENTRY_SIZE : Z := 16.

(** The table fields of [Search]. *)
Record Table := mkTable {
  tt : list TTEntry;
  ttMask : Z;
  ttEntries : Z
}.

Definition ixT (a : list TTEntry) (i : Z) : TTEntry :=
  if i <? 0 then ttZero else nth (Z.to_nat i) a ttZero.

(** [while (p * 2 <= ttEntries) p *= 2] in [size_t] arithmetic; [fuel]
    bounds the number of iterations. *)
Fixpoint roundDown (fuel : nat) (p n : Z) : Z :=
  match fuel with
  | O => p
  | S fuel' => if u64 (p * 2) <=? n then roundDown fuel' (u64 (p * 2)) n else p
  end.

(** The table part of [Search::init]. *)
Definition ttInit (ttSizeMB : Z) : Table :=
  let bytes := u64 (u64 (ttSizeMB * 1024) * 1024) in
  let n := bytes / TT_ENTRY_SIZE in
  let p := roundDown 64 1 n in
  mkTable (replicate (Z.to_nat p) ttZero) (p - 1) p.

(** [Search::probeTT]: the entry found, or [None] for [nullptr]. *)
Definition probeTT (s : Table) (key : Z) : option TTEntry :=
  let e := ixT (tt s) (Z.land key (ttMask s)) in
  if negb (tt_flag e =? TT_NONE) && (tt_key e =? key) then Some e else None.

Definition storeTT (s : Table) (key score bestMove depth flag : Z) : Table :=
  let i := Z.land key (ttMask s) in
  let e := ixT (tt s) i in
  if (tt_flag e =? TT_NONE) || (tt_key e =? key) || (tt_depth e <=? depth) then
    mkTable (upd (tt s) i (mkTT key (int16 score) bestMove (int8 depth) flag))
            (ttMask s) (ttEntries s)
  else s.

(** A table as [Search::init] lays it out: [ttMask + 1] entries. *)
Definition tableOk (s : Table) : Prop :=
  0 <= ttMask s /\ Z.of_nat (length (tt s)) = ttMask s + 1.

(** The slot of a key. *)
Definition slot (s : Table) (key : Z) : Z := Z.land key (ttMask s).

(** ** search.cpp: move ordering *)

(** [std::swap(a[i], a[j])]. *)
Definition swap (a : list Z) (i j : Z) : list Z := upd (upd a i (ix a j)) j (ix a i).

(** One iteration of the loop of [pickBest] on the pair (bestIdx, bestScore). *)
Definition pickStep (scores : list Z) (st : Z * Z) (i : Z) : Z * Z :=
  if ix scores i >? snd st then (i, ix scores i) else st.

(** The loop [for (i = cur + 1; i < count; i++)] of [pickBest]. *)
Definition pickLoop (scores : list Z) (count cur : Z) : Z * Z :=
  fold_left (pickStep scores)
            (map (fun k => cur + 1 + k) (range (count - (cur + 1))))
            (cur, ix scores cur).

(** [Search::pickBest] on the two parallel arrays. *)
Definition pickBest (moves scores : list Z) (count cur : Z) : list Z * list Z :=
  let bestIdx := fst (pickLoop scores count cur) in
  if negb (bestIdx =? cur) then (swap moves cur bestIdx, swap scores cur bestIdx)
  else (moves, scores).

(** The way the search loops use it: [pickBest(moves, scores, count, i)] at
    the head of iteration [i], for [i] from 0 to [n - 1]. *)
Definition pickUpTo (moves scores : list Z) (count : Z) (n : nat) : list Z * list Z :=
  fold_left (fun st i => pickBest (fst st) (snd st) count i)
            (map Z.of_nat (seq 0 n)) (moves, scores).

(** Material values, indexed by rank. *)
Definition MATERIAL_VAL : list Z := [0; 400; 250; 300; 450; 650; 950; 1050; 1000].

(** The move-ordering tables of [Search], in their row-major layout:
    [killers[ply][k]] at [ply * 2 + k], [history[col][from][to]] at
    [(col * NUM_SQ + from) * NUM_SQ + to]. *)
Record Ordering := mkOrdering {
  killers : list Z;     (* killers[MAX_PLY][2] *)
  historyTab : list Z   (* history[2][NUM_SQ][NUM_SQ] *)
}.

Definition killerIdx (ply k : Z) : Z := ply * 2 + k.
Definition historyIdx (col from to : Z) : Z := (col * NUM_SQ + from) * NUM_SQ + to.

(** [Search::clearHistory]. *)
Definition clearHistory : Ordering :=
  mkOrdering (replicate (Z.to_nat (MAX_PLY * 2)) 0)
             (replicate (Z.to_nat (2 * NUM_SQ * NUM_SQ)) 0).

(** [Search::scoreMove] on the squares of [board]. *)
Definition scoreMove (sqs : list Z) (o : Ordering) (m ply hashMove : Z) : Z :=
  if m =? hashMove then 1000000
  else
    let from := moveFrom m in
    let to := moveTo m in
    let target := ix sqs to in
    let piece := ix sqs from in
    let color := colorOf piece in
    let oppDen := if color =? LIGHT then DEN_DARK_SQ else DEN_LIGHT_SQ in
    if to =? oppDen then 900000
    else if negb (target =? 0) then
      let victimVal := ix MATERIAL_VAL (Z.abs target) in
      let attackerVal := ix MATERIAL_VAL (Z.abs piece) in
      500000 + victimVal * 10 - attackerVal
    else if (ply <? MAX_PLY) && (m =? ix (killers o) (killerIdx ply 0)) then 400000
    else if (ply <? MAX_PLY) && (m =? ix (killers o) (killerIdx ply 1)) then 399000
    else
      let col := colorOf piece in
      ix (historyTab o) (historyIdx col from to).

(** The history update of [Search::alphaBeta] after a quiet move has failed
    high: the bonus [depth * depth] is added to the entry of the move, and
    when the entry passes 100000 every entry of the table is halved. *)
Definition historyBonus (h : list Z) (stm from to depth : Z) : list Z :=
  let i := historyIdx stm from to in
  let bonus := depth * depth in
  let h1 := upd h i (ix h i + bonus) in
  if ix h1 i >? 100000 then map (fun v => Z.quot v 2) h1 else h1.

(** Every entry of the history table lies between 0 and 100000. *)
Definition historyOk (h : list Z) : Prop := Forall (fun v => 0 <= v <= 100000) h.

(** ** types.h: piece letters; board.cpp: Board::toFEN *)

(** The table [" RCDWPTLE"] of [rankToChar]. *)
Definition rankTable : list Z := [32; 82; 67; 68; 87; 80; 84; 76; 69].

Definition rankToChar (rank : Z) : Z :=
  if (rank >=? 1) && (rank <=? 8) then ix rankTable rank else 63.

Definition tolower (c : Z) : Z :=
  if (65 <=? c) && (c <=? 90) then c + 32 else c.

Definition pieceChar (rank color : Z) : Z :=
  let c := rankToChar rank in
  if color =? DARK then charOf (tolower c) else c.

(** [if (empty > 0) fen += (char)('0' + empty)] *)
Definition fenFlush (fen : list Z) (empty : Z) : list Z :=
  if empty >? 0 then fen ++ [charOf (48 + empty)] else fen.

(** One iteration of the loop over columns in [toFEN], on the pair
    (fen, empty). *)
Definition fenCol (sqs : list Z) (r : Z) (st : list Z * Z) (c : Z) : list Z * Z :=
  let sq := makeSq r c in
  if ix sqs sq =? 0 then (fst st, snd st + 1)
  else
    let fen := fenFlush (fst st) (snd st) in
    let rk := Z.abs (ix sqs sq) in
    let color := colorOf (ix sqs sq) in
    (fen ++ [pieceChar rk color], 0).

(** One iteration of the loop over rows in [toFEN]. *)
Definition fenRow (sqs : list Z) (fen : list Z) (r : Z) : list Z :=
  let st := fold_left (fenCol sqs r) (range 7) (fen, 0) in
  let fen := fenFlush (fst st) (snd st) in
  if r >? 0 then fen ++ [47] else fen.

(** The rows in the order of the text: 8 down to 0. *)
Fixpoint rowsDownFrom (n : nat) : list Z :=
  match n with
  | O => [0]
  | S n' => Z.of_nat n :: rowsDownFrom n'
  end.

(** [Board::toFEN], as character codes. *)
Definition toFEN (b : Board) : list Z :=
  let fen := fold_left (fenRow (squares b)) (rowsDownFrom 8) [] in
  (fen ++ [32]) ++ [if sideToMove b =? LIGHT then 119 else 98].

(** The characters written for the columns [cs] of row [r] with [e] empty
    squares pending. *)
Fixpoint fenEmit (sqs : list Z) (r : Z) (cs : list Z) (e : Z) : list Z :=
  match cs with
  | [] => fenFlush [] e
  | c :: cs' =>
      let v := ix sqs (makeSq r c) in
      if v =? 0 then fenEmit sqs r cs' (e + 1)
      else fenFlush [] e ++ [pieceChar (Z.abs v) (colorOf v)] ++ fenEmit sqs r cs' 0
  end.

(** The text of the rows [rows]. *)
Definition fenRows (sqs : list Z) (rows : list Z) : list Z :=
  flat_map (fun r => fenEmit sqs r (range 7) 0 ++ (if r >? 0 then [47] else [])) rows.

(** What [setFEN] does for one square of the board [sqs] it reads back. *)
Definition placeCell (sqs : list Z) (st : FenState) (sq : Z) : FenState :=
  let v := ix sqs sq in
  if v =? 0 then st
  else mkFen (upd (f_squares st) sq v)
             (upd (f_pieceSq st) (psIdx (colorOf v) (Z.abs v)) sq)
             (upd (f_pieceCount st) (colorOf v) (ix (f_pieceCount st) (colorOf v) + 1)).

(** The squares in the order of the text. *)
Definition cellsOf (rows : list Z) : list Z :=
  flat_map (fun r => map (makeSq r) (range 7)) rows.

(** Every piece letter is read back as its rank and colour, and is none of
    the characters with a meaning of their own. *)
Definition pieceCharOk : bool :=
  forallb (fun color => forallb (fun rk =>
      let ch := pieceChar rk color in
      (charToRank ch =? rk) && Bool.eqb (isupper ch) (color =? LIGHT)
      && negb (ch =? 47) && negb (ch =? 32) && negb ((ch >=? 49) && (ch <=? 55)))
    ranks) [LIGHT; DARK].

(** The squares of the text cover the board. *)
Definition cellsCover : bool :=
  forallb (fun s => existsb (Z.eqb s) (cellsOf (rowsDownFrom 8))) (range NUM_SQ)
  && forallb (fun s => (0 <=? s) && (s <? NUM_SQ)) (cellsOf (rowsDownFrom 8)).

(** The landing squares of the jumps of a square are distinct, and none of
    them is a neighbour of the square. *)
Definition jumpDestsOk : bool :=
  forallb (fun sq =>
     let sj := ixJ sqJumpLookup sq in
     forallb (fun i =>
        forallb (fun j => (i =? j) || negb (ix (sj_dest sj) i =? ix (sj_dest sj) j))
                (range (sj_count sj))
        && forallb (fun d => negb (ix (sj_dest sj) i =? sq + d)) DIRS)
       (range (sj_count sj)))
    (range NUM_SQ).

(** ** board.cpp: distance tables ([computeBFS]) *)

(** [if (nd < dist[ns]) { dist[ns] = nd; q.push(ns); }] on the pair
    (dist, queue). *)
Definition relax (nd : Z) (st : list Z * list Z) (ns : Z) : list Z * list Z :=
  if nd <? ix (fst st) ns then (upd (fst st) ns nd, snd st ++ [ns]) else st.

(** One iteration of the loop over [DIRS] in [computeBFS]. *)
Definition bfsDir (type sq nd : Z) (st : list Z * list Z) (d : Z) : list Z * list Z :=
  if negb (canStep sq d) then st
  else
    let ns := sq + d in
    if (type =? 0) && ixb isWater ns then st
    else if (type =? 1) && ixb isWater ns then st
    else relax nd st ns.

(** The body of the [while] loop for the square [sq] taken from the queue. *)
Definition bfsVisit (type : Z) (st : list Z * list Z) (sq : Z) : list Z * list Z :=
  let nd := ix (fst st) sq + 1 in
  let st := fold_left (bfsDir type sq nd) DIRS st in
  if type =? 1 then
    let sj := ixJ sqJumpLookup sq in
    fold_left (fun st i => relax nd st (ix (sj_dest sj) i)) (range (sj_count sj)) st
  else st.

(** [while (!q.empty())], at most [fuel] iterations. *)
Fixpoint bfsLoop (fuel : nat) (type : Z) (st : list Z * list Z) : list Z * list Z :=
  match fuel with
  | O => st
  | S fuel' =>
      match snd st with
      | [] => st
      | sq :: q => bfsLoop fuel' type (bfsVisit type (fst st, q) sq)
      end
  end.

(** [computeBFS]: the distances and the queue left after at most 4096
    iterations. *)
Definition computeBFS (denSq type : Z) : list Z * list Z :=
  bfsLoop 4096 type (upd (replicate 63 99) denSq 0, [denSq]).

(** The tables, indexed by den side. *)
Definition denSqOf (den : Z) : Z := if den =? 0 then DEN_LIGHT_SQ else DEN_DARK_SQ.

Definition distLand : list (list Z) :=
  Eval vm_compute in map (fun den => fst (computeBFS (denSqOf den) 0)) [0; 1].
Definition distJumper : list (list Z) :=
  Eval vm_compute in map (fun den => fst (computeBFS (denSqOf den) 1)) [0; 1].
Definition distSwimmer : list (list Z) :=
  Eval vm_compute in map (fun den => fst (computeBFS (denSqOf den) 2)) [0; 1].

(** [dist[den][sq]] *)
Definition ix2 (t : list (list Z)) (i j : Z) : Z :=
  ix (if i <? 0 then [] else nth (Z.to_nat i) t []) j.

(** The table of a walker type: 0 by land, 1 by land and jumps, 2 by land
    and water. *)
Definition distOf (type den : Z) : list Z :=
  fst (computeBFS (denSqOf den) type).

(** The squares a walker of the given type reaches in one move from [sq]. *)
Definition succs (type sq : Z) : list Z :=
  map (fun d => sq + d)
      (List.filter (fun d => canStep sq d
                             && ((type =? 2) || negb (isWaterSq (sq + d)))) DIRS)
  ++ (if type =? 1
      then map (fun i => ix (sj_dest (ixJ sqJumpLookup sq)) i)
               (range (sj_count (ixJ sqJumpLookup sq)))
      else []).

(** A walk of [n] moves from [s] to [t]. *)
Inductive walk (type : Z) (s : Z) : Z -> nat -> Prop :=
| walk_here : walk type s s 0
| walk_step t u n : walk type s t n -> In u (succs type t) -> walk type s u (S n).

(** The conditions that make a table the table of shortest distances: the
    search ended with an empty queue; the den is at 0; every entry is 99 or
    at most 62; no move from a reached square shortens by more than one; and
    every reached square other than the den has a neighbour one step
    nearer. *)
Definition bfsTableOk (type den : Z) : bool :=
  let r := computeBFS (denSqOf den) type in
  let dist := fst r in
  (match snd r with [] => true | _ => false end)
  && (ix dist (denSqOf den) =? 0)
  && forallb (fun s => (ix dist s =? 99) || ((0 <=? ix dist s) && (ix dist s <=? 62)))
             (range NUM_SQ)
  && forallb (fun t => (ix dist t =? 99)
                       || forallb (fun u => (0 <=? u) && (u <? NUM_SQ)
                                            && (ix dist u <=? ix dist t + 1))
                                  (succs type t))
             (range NUM_SQ)
  && forallb (fun u => (ix dist u =? 99) || (u =? denSqOf den)
                       || existsb (fun t => (ix dist t + 1 =? ix dist u)
                                            && existsb (Z.eqb u) (succs type t))
                                  (range NUM_SQ))
             (range NUM_SQ).

(** ** board.cpp: piece-square tables and [Board::evaluate] *)

Definition rowBonus : list Z := [-5; 0; 5; 15; 25; 35; 55; 85; 120].
Definition colBonus : list Z := [0; 5; 15; 30; 15; 5; 0].

Definition basePST : list Z :=
  map (fun sq => if ixb isWater sq then 0
                 else ix rowBonus (sqRow sq) + ix colBonus (sqCol sq))
      (range NUM_SQ).

(** [t[i][j] = v] and [t[i][j] += v] on a table of rows. *)
Definition upd2 (t : list (list Z)) (i j v : Z) : list (list Z) :=
  upd t i (upd (if i <? 0 then [] else nth (Z.to_nat i) t []) j v).
Definition add2 (t : list (list Z)) (i j v : Z) : list (list Z) :=
  upd2 t i j (ix2 t i j + v).

(** The part of [initTables] that fills [PST[rank][sq]]; row 0 stays zero. *)
Definition initPST : list (list Z) :=
  let t := replicate 63 0 :: replicate 8 basePST in
  let t := fold_left (fun t sq =>
             if ixb isWater sq then upd2 t RAT sq (20 + sqRow sq * 5) else t)
           (range NUM_SQ) t in
  let t := fold_left (fun t e =>
             add2 (add2 t LION (je_from e) 15) TIGER (je_from e) 15)
           jumpTable t in
  fold_left (fun t sq =>
     if ixb isWater sq then t
     else
       let dd := ix2 distLand 1 sq in
       if dd <=? 8 then
         let bonus := Z.max 0 (130 - dd * 15) in
         fold_left (fun t rk => add2 t rk sq bonus) ranks t
       else t)
    (range NUM_SQ) t.

Definition PST : list (list Z) := Eval vm_compute in initPST.

(** The distance table [evaluate] picks for a rank. *)
Definition pieceDist (rk targetDen sq : Z) : Z :=
  if rk =? RAT then ix2 distSwimmer targetDen sq
  else if (rk =? LION) || (rk =? TIGER) then ix2 distJumper targetDen sq
  else ix2 distLand targetDen sq.

(** [abs(sqRow(a) - sqRow(b)) + abs(sqCol(a) - sqCol(b))] *)
Definition manhattan (a b : Z) : Z :=
  Z.abs (sqRow a - sqRow b) + Z.abs (sqCol a - sqCol b).

(** Material and piece-square tables. *)
Definition evalMaterial (b : Board) (stm : Z) (score : Z) : Z :=
  fold_left (fun score color =>
      let sign := if color =? stm then 1 else -1 in
      fold_left (fun score rk =>
          let sq := ix (pieceSq b) (psIdx color rk) in
          if sq <? 0 then score
          else
            let score := score + sign * ix MATERIAL_VAL rk in
            let pstSq := if color =? LIGHT then sq else NUM_SQ - 1 - sq in
            score + sign * ix2 PST rk pstSq)
        ranks score)
    [0; 1] score.

(** Den proximity. *)
Definition evalProximity (b : Board) (stm : Z) (score : Z) : Z :=
  fold_left (fun score color =>
      let sign := if color =? stm then 1 else -1 in
      let targetDen := if color =? LIGHT then 1 else 0 in
      fold_left (fun score rk =>
          let sq := ix (pieceSq b) (psIdx color rk) in
          if sq <? 0 then score
          else
            let d := pieceDist rk targetDen sq in
            if d <=? 1 then score + sign * 250
            else if d =? 2 then score + sign * 120
            else if d =? 3 then score + sign * 60
            else if d <=? 5 then score + sign * 20
            else score)
        ranks score)
    [0; 1] score.

(** Trap control. *)
Definition evalTraps (b : Board) (stm opp : Z) (score : Z) : Z :=
  fold_left (fun score sq =>
      if ix (squares b) sq =? 0 then score
      else
        let pc := ix (squares b) sq in
        let pcColor := colorOf pc in
        let pcRank := Z.abs pc in
        if pcColor =? stm then
          if ((stm =? LIGHT) && (ix terrain sq =? TERRAIN_TRAP_DARK))
             || ((stm =? DARK) && (ix terrain sq =? TERRAIN_TRAP_LIGHT))
          then score - Z.quot (ix MATERIAL_VAL pcRank) 3
          else score
        else
          if ((opp =? LIGHT) && (ix terrain sq =? TERRAIN_TRAP_DARK))
             || ((opp =? DARK) && (ix terrain sq =? TERRAIN_TRAP_LIGHT))
          then score + Z.quot (ix MATERIAL_VAL pcRank) 3
          else score)
    (range NUM_SQ) score.

(** Rat against Elephant. *)
Definition evalRatElephant (b : Board) (stm opp : Z) (score : Z) : Z :=
  let score :=
    if (ix (pieceSq b) (psIdx stm RAT) >=? 0)
       && (ix (pieceSq b) (psIdx opp ELEPHANT) >=? 0) then
      let ratSq := ix (pieceSq b) (psIdx stm RAT) in
      let eleSq := ix (pieceSq b) (psIdx opp ELEPHANT) in
      let dist := manhattan ratSq eleSq in
      let score := score + 40 in
      let score := if dist <=? 2 then score + 60 else score in
      if dist =? 1 then score + 80 else score
    else score in
  if (ix (pieceSq b) (psIdx opp RAT) >=? 0)
     && (ix (pieceSq b) (psIdx stm ELEPHANT) >=? 0) then
    let ratSq := ix (pieceSq b) (psIdx opp RAT) in
    let eleSq := ix (pieceSq b) (psIdx stm ELEPHANT) in
    let dist := manhattan ratSq eleSq in
    let score := score - 30 in
    let score := if dist <=? 2 then score - 40 else score in
    if dist =? 1 then score - 60 else score
  else score.

(** Den safety. *)
Definition evalDenSafety (b : Board) (stm opp : Z) (score : Z) : Z :=
  let ourDenSq := if stm =? LIGHT then DEN_LIGHT_SQ else DEN_DARK_SQ in
  fold_left (fun score rk =>
      let sq := ix (pieceSq b) (psIdx opp rk) in
      if sq <? 0 then score
      else
        let dist := manhattan sq ourDenSq in
        if dist <=? 1 then score - 300
        else if dist =? 2 then score - 100
        else if dist =? 3 then score - 30
        else score)
    ranks score.

(** The endgame adjustment. *)
Definition evalEndgame (b : Board) (stm : Z) (score : Z) : Z :=
  let totalPieces := ix (pieceCount b) 0 + ix (pieceCount b) 1 in
  if totalPieces <=? 6 then
    fold_left (fun score rk =>
        let sq := ix (pieceSq b) (psIdx stm rk) in
        if sq <? 0 then score
        else
          let targetDen := if stm =? LIGHT then 1 else 0 in
          let d := pieceDist rk targetDen sq in
          if d <=? 3 then score + (4 - d) * 80 else score)
      ranks score
  else score.

(** [Board::evaluate]. *)
Definition evaluate (b : Board) : Z :=
  let score := 0 in
  let stm := sideToMove b in
  let opp := 1 - stm in
  let score := evalMaterial b stm score in
  let score := evalProximity b stm score in
  let score := evalTraps b stm opp score in
  let score := evalRatElephant b stm opp score in
  let score := evalDenSafety b stm opp score in
  let pieceDiff := ix (pieceCount b) stm - ix (pieceCount b) opp in
  let score := score + pieceDiff * 30 in
  evalEndgame b stm score.

(** Bounds of the tables [evaluate] reads. *)
Definition evalTablesOk : bool :=
  forallb (fun row => forallb (fun v => (-5 <=? v) && (v <=? 295)) row) PST
  && forallb (fun v => (0 <=? v) && (v <=? 1050)) MATERIAL_VAL
  && forallb (fun t => forallb (fun row => forallb (fun v => 0 <=? v) row) t)
             [distLand; distJumper; distSwimmer].

(** The most a piece on [sq] can add or take away in trap control. *)
Definition trapWeight (sq : Z) : Z :=
  if (ix terrain sq =? TERRAIN_TRAP_DARK) || (ix terrain sq =? TERRAIN_TRAP_LIGHT)
  then 350 else 0.

(** *** The position seen from the other side *)

(** A square after turning the board by 180 degrees; -1 stays. *)
Definition flipSq (s : Z) : Z := if s <? 0 then s else NUM_SQ - 1 - s.

(** The board turned by 180 degrees with the colours exchanged and the other
    side to move. *)
Definition mirror (b : Board) : Board :=
  mkBoard (map (fun s => - ix (squares b) (NUM_SQ - 1 - s)) (range NUM_SQ))
          (1 - sideToMove b) (hash b) (ply b) (halfmove b)
          (map (fun i => flipSq (ix (pieceSq b) (if i <? 9 then i + 9 else i - 9)))
               (range 18))
          [ix (pieceCount b) 1; ix (pieceCount b) 0]
          (undoStack b) (posHistory b) (histLen b).

(** The tables [evaluate] reads look the same from both sides. *)
Definition tablesSymmetric : bool :=
  forallb (fun s =>
      forallb (fun rk =>
          forallb (fun t => pieceDist rk (1 - t) (NUM_SQ - 1 - s) =? pieceDist rk t s)
                  [0; 1]) ranks
      && Bool.eqb (ix terrain (NUM_SQ - 1 - s) =? TERRAIN_TRAP_LIGHT)
                  (ix terrain s =? TERRAIN_TRAP_DARK)
      && Bool.eqb (ix terrain (NUM_SQ - 1 - s) =? TERRAIN_TRAP_DARK)
                  (ix terrain s =? TERRAIN_TRAP_LIGHT)
      && forallb (fun s' => manhattan (NUM_SQ - 1 - s) (NUM_SQ - 1 - s') =? manhattan s s')
                 (range NUM_SQ))
    (range NUM_SQ)
  && (NUM_SQ - 1 - DEN_LIGHT_SQ =? DEN_DARK_SQ).

(** What one piece adds in the first two loops of [evaluate], and one square
    in the third. *)
Definition matTerm (b : Board) (stm color rk : Z) : Z :=
  let sign := if color =? stm then 1 else -1 in
  let sq := ix (pieceSq b) (psIdx color rk) in
  if sq <? 0 then 0
  else sign * ix MATERIAL_VAL rk
       + sign * ix2 PST rk (if color =? LIGHT then sq else NUM_SQ - 1 - sq).

Definition proxTerm (b : Board) (stm color rk : Z) : Z :=
  let sign := if color =? stm then 1 else -1 in
  let sq := ix (pieceSq b) (psIdx color rk) in
  if sq <? 0 then 0
  else
    let d := pieceDist rk (if color =? LIGHT then 1 else 0) sq in
    if d <=? 1 then sign * 250
    else if d =? 2 then sign * 120
    else if d =? 3 then sign * 60
    else if d <=? 5 then sign * 20
    else 0.

Definition trapTerm (b : Board) (stm opp sq : Z) : Z :=
  let pc := ix (squares b) sq in
  if pc =? 0 then 0
  else if colorOf pc =? stm then
    if ((stm =? LIGHT) && (ix terrain sq =? TERRAIN_TRAP_DARK))
       || ((stm =? DARK) && (ix terrain sq =? TERRAIN_TRAP_LIGHT))
    then - Z.quot (ix MATERIAL_VAL (Z.abs pc)) 3 else 0
  else
    if ((opp =? LIGHT) && (ix terrain sq =? TERRAIN_TRAP_DARK))
       || ((opp =? DARK) && (ix terrain sq =? TERRAIN_TRAP_LIGHT))
    then Z.quot (ix MATERIAL_VAL (Z.abs pc)) 3 else 0.



(** [unmakeMove] called [n] times. *)
Definition unmakeMoves (n : nat) (b : Board) : Board := Nat.iter n unmakeMove b.

(** *** Texts that stay on the board *)

(** Every piece letter that the loop of [setFEN] reads is read at a column
    inside its row ([col <= 6]); the walk through the text is that of
    [fenLoop]. *)
Fixpoint fenInRow (fen : list Z) (row col : Z) : bool :=
  match fen with
  | [] => true
  | ch :: fen' =>
      if negb (row >=? 0) then true
      else if ch =? 47 then fenInRow fen' (row - 1) 0
      else if ch =? 32 then true
      else if (ch >=? 49) && (ch <=? 55) then fenInRow fen' row (col + (ch - 48))
      else if charToRank ch =? 0 then true
      else (col <=? 6) && fenInRow fen' row (col + 1)
  end.

(** No piece (colour and rank) is named twice by the letters the loop reads;
    [seen] lists the slots of the reverse index used so far. *)
Fixpoint fenOnce (fen : list Z) (row : Z) (seen : list Z) : bool :=
  match fen with
  | [] => true
  | ch :: fen' =>
      if negb (row >=? 0) then true
      else if ch =? 47 then fenOnce fen' (row - 1) seen
      else if ch =? 32 then true
      else if (ch >=? 49) && (ch <=? 55) then fenOnce fen' row seen
      else
        let rk := charToRank ch in
        if rk =? 0 then true
        else
          let color := if isupper ch then LIGHT else DARK in
          negb (existsb (Z.eqb (psIdx color rk)) seen)
          && fenOnce fen' row (psIdx color rk :: seen)
  end.

(** Positions of a game that starts from the start position or from a text
    that keeps its letters inside the rows and names no piece twice. *)
Inductive inGame : Board -> Prop :=
| game_init b : storage b -> inGame (init b)
| game_fen b fen P :
    storage b -> setFEN b fen = Some (true, P) ->
    fenInRow (chars fen) 8 0 = true -> fenOnce (chars fen) 8 [] = true ->
    inGame P
| game_make P m :
    inGame P -> In m (generateMoves P) -> histLen P < MAX_GAME_LEN ->
    inGame (makeMove P m)
| game_null P :
    inGame P -> histLen P < MAX_GAME_LEN -> inGame (makeNullMove P)
| game_dead P Q : inGame P -> sameLive P Q -> inGame Q.

(** The board and the reverse index of a parsing state agree, the squares
    written so far lie before the cursor, and the slots of the reverse index
    in use are listed in [seen]. *)
Record fenInv (st : FenState) (row col : Z) (seen : list Z) : Prop := mkFenInv {
  fi_squares : length (f_squares st) = 63%nat;
  fi_pieceSq : length (f_pieceSq st) = 18%nat;
  fi_before : forall s, 0 <= s < NUM_SQ -> ix (f_squares st) s <> 0 ->
                row * 7 <= s /\ (s < row * 7 + col \/ row * 7 + 7 <= s);
  fi_board : forall s, 0 <= s < NUM_SQ -> ix (f_squares st) s <> 0 ->
               1 <= Z.abs (ix (f_squares st) s) <= 8
               /\ ix (f_pieceSq st)
                     (psIdx (colorOf (ix (f_squares st) s)) (Z.abs (ix (f_squares st) s)))
                  = s;
  fi_index : forall c rk, (c = LIGHT \/ c = DARK) -> 1 <= rk <= 8 ->
               ix (f_pieceSq st) (psIdx c rk) = -1
               \/ (0 <= ix (f_pieceSq st) (psIdx c rk) < NUM_SQ
                   /\ ix (f_squares st) (ix (f_pieceSq st) (psIdx c rk)) = signed c rk);
  fi_seen : forall c rk, (c = LIGHT \/ c = DARK) -> 1 <= rk <= 8 ->
              ix (f_pieceSq st) (psIdx c rk) <> -1 ->
              existsb (Z.eqb (psIdx c rk)) seen = true
}.

Arguments zobristTable : simpl never.
Arguments zobristPiece : simpl never.
Arguments zobristSide : simpl never.
Arguments hashOf : simpl never.
Arguments makeMove : simpl never.
Arguments unmakeMove : simpl never.
Arguments makeNullMove : simpl never.
Arguments unmakeNullMove : simpl never.
Arguments init : simpl never.
Arguments generateMoves : simpl never.
Arguments terrain : simpl never.
Arguments isWater : simpl never.
Arguments sqJumpLookup : simpl never.

(** ** Properties *)

(** *** Arrays *)

Lemma ix_upd_eq (a : list Z) i v :
  0 <= i < Z.of_nat (length a) -> ix (upd a i v) i = v.
Proof.
  intros H. unfold ix, upd.
  destruct (i <? 0) eqn:E; [apply Z.ltb_lt in E; lia|].
  rewrite nth_lookup, list_lookup_insert_eq; [reflexivity | lia].
Qed.

Lemma ix_upd_ne (a : list Z) i j v : i <> j -> ix (upd a i v) j = ix a j.
Proof.
  intros H. unfold ix, upd.
  destruct (j <? 0) eqn:Ej; [reflexivity|].
  destruct (i <? 0) eqn:Ei; [reflexivity|].
  apply Z.ltb_ge in Ej, Ei.
  rewrite !nth_lookup, list_lookup_insert_ne; [reflexivity | lia].
Qed.

Lemma upd_length {A} (a : list A) i v : length (upd a i v) = length a.
Proof. unfold upd. destruct (i <? 0); [reflexivity | apply length_insert]. Qed.

Lemma upd_upd_eq {A} (a : list A) i v w : upd (upd a i v) i w = upd a i w.
Proof. unfold upd. destruct (i <? 0); [reflexivity | apply list_insert_insert_eq]. Qed.

Lemma upd_comm {A} (a : list A) i j v w :
  i <> j -> upd (upd a i v) j w = upd (upd a j w) i v.
Proof.
  intros H. unfold upd.
  destruct (i <? 0) eqn:Ei; destruct (j <? 0) eqn:Ej; try reflexivity.
  apply Z.ltb_ge in Ei, Ej. apply list_insert_insert_ne. lia.
Qed.

Lemma upd_same (a : list Z) i : upd a i (ix a i) = a.
Proof.
  unfold upd, ix. destruct (i <? 0); [reflexivity|].
  destruct (decide (Z.to_nat i < length a)%nat) as [Hlt|Hge].
  - apply list_insert_id. rewrite nth_lookup.
    destruct (lookup_lt_is_Some_2 a (Z.to_nat i) Hlt) as [x Hx].
    rewrite Hx. reflexivity.
  - apply list_insert_ge. lia.
Qed.

Lemma ixU_upd_eq (a : list UndoInfo) i v :
  0 <= i < Z.of_nat (length a) -> ixU (upd a i v) i = v.
Proof.
  intros H. unfold ixU, upd.
  destruct (i <? 0) eqn:E; [apply Z.ltb_lt in E; lia|].
  rewrite nth_lookup, list_lookup_insert_eq; [reflexivity | lia].
Qed.

Lemma In_range n x : In x (range n) <-> 0 <= x < n.
Proof.
  unfold range. rewrite in_map_iff. split.
  - intros [k [<- Hk]]. apply in_seq in Hk. lia.
  - intros H. exists (Z.to_nat x). split; [lia|]. apply in_seq. lia.
Qed.

Ltac split_Forall :=
  repeat match goal with
  | |- Forall _ (_ :: _) => apply List.Forall_cons
  | |- Forall _ [] => apply List.Forall_nil
  end.

Lemma In_existsb (x : Z) (l : list Z) : existsb (Z.eqb x) l = true -> In x l.
Proof.
  intros H. apply existsb_exists in H. destruct H as (y & Hy & E).
  apply Z.eqb_eq in E. subst y. exact Hy.
Qed.

Lemma int8_id x : -128 <= x < 128 -> int8 x = x.
Proof. intros H. unfold int8. rewrite Z.mod_small; lia. Qed.

(** *** Transposition-table scores *)

Ltac cmp_cases :=
  repeat match goal with
  | |- context [?a >=? ?b] => destruct (Z.geb_spec a b)
  | |- context [?a <=? ?b] => destruct (Z.leb_spec a b)
  | |- context [?a <? ?b] => destruct (Z.ltb_spec a b)
  | |- context [?a =? ?b] => destruct (Z.eqb_spec a b)
  end.

(** C8: for every score within [SCORE_MATE] and every ply below [MAX_PLY],
    [scoreFromTT] undoes [scoreToTT], also through the 16-bit score field of
    a table entry. *)
Theorem score_tt_roundtrip (s ply : Z) :
  - SCORE_MATE <= s <= SCORE_MATE -> 0 <= ply < MAX_PLY ->
  scoreFromTT (scoreToTT s ply) ply = s
  /\ scoreFromTT (int16 (scoreToTT s ply)) ply = s.
Proof.
  unfold SCORE_MATE, MAX_PLY. intros Hs Hp.
  assert (Hr : int16 (scoreToTT s ply) = scoreToTT s ply).
  { unfold int16, scoreToTT, SCORE_MATE, MAX_PLY.
    cmp_cases; rewrite Z.mod_small; lia. }
  rewrite Hr. split; unfold scoreFromTT, scoreToTT, SCORE_MATE, MAX_PLY.
  all: destruct (Z.geb_spec s (29000 - 128));
    [|destruct (Z.leb_spec s (-29000 + 128))]; cmp_cases; lia.
Qed.

Lemma score_tt_roundtrip_witness :
  scoreFromTT (scoreToTT 28990 10) 10 = 28990
  /\ scoreFromTT (int16 (scoreToTT 28990 10)) 10 = 28990.
Proof. apply score_tt_roundtrip; unfold SCORE_MATE, MAX_PLY; lia. Defined.

(** *** The start position *)

(** C7: from the position set up by [Board::init], [generateMoves] produces
    exactly 24 moves, listed here in the order of generation. *)
Theorem startpos_moves (b : Board) :
  length (generateMoves (init b)) = 24%nat
  /\ generateMoves (init b) =
     map (fun p => encodeMove (fst p) (snd p))
       [(20, 27); (20, 13); (20, 19); (8, 15); (8, 1); (8, 9); (8, 7);
        (12, 19); (12, 5); (12, 13); (12, 11); (16, 9); (16, 17); (16, 15);
        (18, 11); (18, 19); (18, 17); (0, 7); (0, 1); (6, 13); (6, 5);
        (14, 21); (14, 7); (14, 15)].
Proof. split; vm_compute; reflexivity. Qed.

(** *** Loading a text *)

(** C10: [setFEN] checks nothing beyond the piece letters.  The text below
    puts a Light Elephant on the water square b4 (index 22); it is accepted,
    the Elephant stands in the water, and the resulting position breaks the
    water invariant. *)
Theorem fen_accepts_elephant_in_water (b : Board) :
  exists b',
    setFEN b "7/7/7/7/7/1E5/7/7/7 w"%string = Some (true, b')
    /\ isWaterSq 22 = true
    /\ ix (squares b') 22 = signed LIGHT ELEPHANT
    /\ ELEPHANT <> RAT
    /\ waterInv b' = false.
Proof.
  exists (match setFEN b "7/7/7/7/7/1E5/7/7/7 w" with Some (_, b') => b' | None => b end).
  split; [vm_compute; reflexivity|].
  split; [vm_compute; reflexivity|].
  split; [vm_compute; reflexivity|].
  split; [discriminate|].
  vm_compute; reflexivity.
Qed.





(** *** Capture rule *)

(** C3 as stated fails: between two water squares [canCapture] answers true
    for an Elephant attacking a Cat, where the rule asks for two Rats. *)
Lemma canCapture_rule_counterexample :
  isWaterSq 22 = true /\ isWaterSq 23 = true
  /\ canCapture ELEPHANT CAT LIGHT 22 23 = true
  /\ captureRule ELEPHANT CAT LIGHT 22 23 = false
  /\ canCapture ELEPHANT CAT LIGHT 22 23 <> captureRule ELEPHANT CAT LIGHT 22 23.
Proof. repeat split; try (vm_compute; reflexivity). vm_compute. discriminate. Qed.

(** C3, amended: [canCapture] permits exactly when both squares have the same
    terrain class and either both are water (whatever the ranks), or the
    target is a trap of the attacker's side, or a Rat attacks an Elephant, or
    the attacker is not an Elephant attacking a Rat and its rank is at least
    the defender's.  Whenever the pieces on two water squares are Rats this
    is the capture rule of the specification. *)
Theorem canCapture_rule (a d c from to : Z) :
  (canCapture a d c from to = true <->
     isWaterSq from = isWaterSq to
     /\ (isWaterSq from = true
         \/ ownTrap c to = true
         \/ (a = RAT /\ d = ELEPHANT)
         \/ (~ (a = ELEPHANT /\ d = RAT) /\ a >= d)))
  /\ ((isWaterSq from = true -> isWaterSq to = true -> a = RAT /\ d = RAT) ->
      canCapture a d c from to = captureRule a d c from to).
Proof.
  unfold canCapture, captureRule, ownTrap, isWaterSq, RAT, ELEPHANT.
  destruct (ixb isWater from) eqn:Ef, (ixb isWater to) eqn:Et; simpl.
  - split; [split; [intros _; split; auto | auto] |].
    intros H. destruct (H eq_refl eq_refl) as [-> ->]. reflexivity.
  - split; [split; [discriminate | intros [H _]; discriminate] | reflexivity].
  - split; [split; [discriminate | intros [H _]; discriminate] | reflexivity].
  - split; [| intros _; destruct ((c =? LIGHT) && (ix terrain to =? TERRAIN_TRAP_LIGHT));
                destruct ((c =? DARK) && (ix terrain to =? TERRAIN_TRAP_DARK)); reflexivity].
    destruct ((c =? LIGHT) && (ix terrain to =? TERRAIN_TRAP_LIGHT)); simpl;
      [split; auto|].
    destruct ((c =? DARK) && (ix terrain to =? TERRAIN_TRAP_DARK)); simpl;
      [split; auto|].
    rewrite Z.geb_leb.
    destruct (Z.eqb_spec a 1), (Z.eqb_spec d 8), (Z.eqb_spec a 8), (Z.eqb_spec d 1),
      (Z.leb_spec d a); simpl; subst; try lia.
    all: split; [try discriminate; intros _; split; [reflexivity|] | try reflexivity].
    all: try (right; right; left; split; reflexivity).
    all: try (right; right; right; split; [intros [? ?]|]; lia).
    all: intros [_ [H|[H|[[H1 H2]|[H1 H2]]]]]; try discriminate; try lia.
    all: exfalso; apply H1; split; reflexivity.
Qed.

Lemma canCapture_rule_witness :
  canCapture RAT RAT LIGHT 22 23 = captureRule RAT RAT LIGHT 22 23.
Proof.
  apply (proj2 (canCapture_rule RAT RAT LIGHT 22 23)).
  intros _ _. split; reflexivity.
Defined.

(** *** Game status *)

(** C5 as stated fails on the empty board (both counts zero): the opponent
    has no piece, yet the side to move is reported lost, not won. *)
Lemma game_status_counterexample :
  let b := fenBoard "7/7/7/7/7/7/7/7/7 w" in
  ix (pieceCount b) (1 - sideToMove b) = 0 /\ checkGameOver b = -1
  /\ ~ (checkGameOver b = 1 <-> ix (pieceCount b) (1 - sideToMove b) = 0).
Proof.
  repeat split; try (vm_compute; reflexivity).
  intros [_ H]. specialize (H eq_refl). vm_compute in H. discriminate.
Qed.

(** C5, amended: [checkGameOver] reports LOST (-1) exactly when an enemy
    piece stands on the own den or the side to move has no piece; WON (+1)
    exactly when the opponent has no piece and the side to move has not
    lost; and 0 exactly in the remaining case. *)
Theorem game_status (b : Board) :
  (checkGameOver b = -1 <->
     enemyOnOwnDen b = true \/ ix (pieceCount b) (sideToMove b) = 0)
  /\ (checkGameOver b = 1 <->
        ix (pieceCount b) (1 - sideToMove b) = 0
        /\ ~ (enemyOnOwnDen b = true \/ ix (pieceCount b) (sideToMove b) = 0))
  /\ (checkGameOver b = 0 <->
        ix (pieceCount b) (1 - sideToMove b) <> 0
        /\ ~ (enemyOnOwnDen b = true \/ ix (pieceCount b) (sideToMove b) = 0)).
Proof.
  unfold checkGameOver, enemyOnOwnDen.
  destruct (negb _ && _); simpl.
  - repeat split; try discriminate; auto; intros [_ H]; exfalso; apply H; auto.
  - destruct (Z.eqb_spec (ix (pieceCount b) (sideToMove b)) 0) as [E|E].
    + repeat split; try discriminate; auto; intros [_ H]; exfalso; apply H; auto.
    + destruct (Z.eqb_spec (ix (pieceCount b) (1 - sideToMove b)) 0) as [E'|E'].
      * repeat split; try discriminate; auto; try tauto; try lia.
        all: intros [H|H]; [discriminate | tauto].
      * repeat split; try discriminate; auto; try tauto; try lia.
        all: intros [H|H]; [discriminate | tauto].
Qed.

(** *** Repetition *)

Lemma matches_nonneg hist h l : 0 <= matches hist h l.
Proof. unfold matches. lia. Qed.

Lemma matches_cons hist h x l :
  matches hist h (x :: l) = (if ix hist x =? h then 1 else 0) + matches hist h l.
Proof. unfold matches. simpl. destruct (ix hist x =? h); simpl; lia. Qed.

Lemma matches_perm hist h l l' :
  Permutation l l' -> matches hist h l = matches hist h l'.
Proof.
  induction 1; rewrite ?matches_cons; lia.
Qed.

Lemma repLoop_count n : forall hist h i c, 0 <= c <= 1 ->
  repLoop n hist h i c = (2 <=? c + matches hist h (descFrom n i)).
Proof.
  induction n as [|n IH]; intros hist h i c Hc; simpl.
  - symmetry. apply Z.leb_gt. unfold matches. simpl. lia.
  - destruct (i >=? 0); simpl.
    + rewrite matches_cons. destruct (ix hist i =? h).
      * destruct (Z.geb_spec (c + 1) 2) as [H|H].
        -- symmetry. apply Z.leb_le. pose proof (matches_nonneg hist h (descFrom n (i - 2))). lia.
        -- rewrite IH by lia. f_equal. lia.
      * rewrite IH by lia. f_equal.
    + symmetry. apply Z.leb_gt. unfold matches. simpl. lia.
Qed.

Lemma In_descFrom n : forall i x,
  In x (descFrom n i) <-> 0 <= x <= i /\ Z.even (i - x) = true /\ i - x < 2 * Z.of_nat n.
Proof.
  induction n as [|n IH]; intros i x; simpl.
  - split; [tauto | lia].
  - destruct (Z.geb_spec i 0) as [H|H]; simpl.
    + rewrite IH. split.
      * intros [<-|(H1 & H2 & H3)].
        -- rewrite Z.sub_diag. repeat split; try lia.
        -- replace (i - x) with (i - 2 - x + 2) by lia.
           rewrite Z.even_add, H2. repeat split; try lia.
      * intros (H1 & H2 & H3).
        destruct (Z.eq_dec i x) as [E|E]; [left; exact E | right].
        assert (i - x <> 1).
        { intros E1. rewrite E1 in H2. discriminate. }
        replace (i - 2 - x) with (i - x - 2) by lia.
        rewrite Z.even_sub, H2. repeat split; try lia.
    + split; [tauto | lia].
Qed.

Lemma NoDup_descFrom n : forall i, List.NoDup (descFrom n i).
Proof.
  induction n as [|n IH]; intros i; simpl; [constructor|].
  destruct (i >=? 0); simpl; [|constructor].
  constructor; [|apply IH].
  rewrite In_descFrom. lia.
Qed.

Lemma NoDup_range n : List.NoDup (range n).
Proof.
  unfold range. apply Injective_map_NoDup; [|apply seq_NoDup].
  intros x y. lia.
Qed.

Lemma sameSidePrior_desc len :
  Permutation (sameSidePrior len) (descFrom (Z.to_nat len) (len - 3)).
Proof.
  apply Permutation.NoDup_Permutation.
  - unfold sameSidePrior. apply List.NoDup_filter, NoDup_range.
  - apply NoDup_descFrom.
  - intros x. unfold sameSidePrior.
    rewrite filter_In, In_range, In_descFrom.
    replace (len - 1 - x) with (len - 3 - x + 2) by lia.
    rewrite Z.even_add. change (Z.even 2) with true.
    destruct (Z.even (len - 3 - x)) eqn:Ev; simpl.
    + assert (len - 3 - x <> -1) by (intros E; rewrite E in Ev; discriminate).
      split; intros; repeat split; try lia; tauto.
    + split; [intros [_ H] | intros (_ & H & _)]; discriminate.
Qed.

Lemma descFrom_short n i : i < 2 -> (length (descFrom n i) <= 1)%nat.
Proof.
  intros H. destruct n as [|n]; simpl; [lia|].
  destruct (Z.geb_spec i 0); simpl; [|lia].
  destruct n as [|n]; simpl; [lia|].
  destruct (Z.geb_spec (i - 2) 0); simpl; lia.
Qed.

Lemma isRepetition_count (b : Board) :
  isRepetition b = true <-> (2 <= priorOccurrences b)%nat.
Proof.
  unfold isRepetition, priorOccurrences.
  pose proof (matches_perm (posHistory b) (hash b) _ _ (sameSidePrior_desc (histLen b))) as Hp.
  unfold matches in Hp. apply Nat2Z.inj in Hp. rewrite Hp.
  destruct (Z.ltb_spec (histLen b) 5) as [H|H].
  - split; [discriminate|]. intros H2.
    pose proof (descFrom_short (Z.to_nat (histLen b)) (histLen b - 3) ltac:(lia)) as Hs.
    pose proof (filter_length_le (fun j => ix (posHistory b) j =? hash b)
                  (descFrom (Z.to_nat (histLen b)) (histLen b - 3))). lia.
  - rewrite repLoop_count by lia. unfold matches. rewrite Z.leb_le. lia.
Qed.

Lemma ix_firstn (l : list Z) n j : 0 <= j < Z.of_nat n -> ix (firstn n l) j = ix l j.
Proof.
  intros H. unfold ix. destruct (j <? 0); [reflexivity|].
  rewrite !nth_lookup, lookup_take_lt by lia. reflexivity.
Qed.

Lemma matches_ext hist hist' h l :
  (forall j, In j l -> ix hist j = ix hist' j) ->
  matches hist h l = matches hist' h l.
Proof.
  induction l as [|x l IH]; intros H; [reflexivity|].
  rewrite !matches_cons, (H x), IH; auto with datatypes.
Qed.

Lemma isRepetition_history (b : Board) :
  0 <= histLen b <= Z.of_nat (length (posHistory b)) ->
  isRepetition b = repOn (history b) (hash b).
Proof.
  intros H. unfold isRepetition, repOn, history.
  rewrite length_take, Nat.min_l by lia. rewrite Z2Nat.id by lia.
  destruct (histLen b <? 5); [reflexivity|].
  rewrite !repLoop_count by lia. f_equal. f_equal.
  apply matches_ext. intros j Hj. apply In_descFrom in Hj.
  symmetry. apply ix_firstn. lia.
Qed.

Lemma history_make (b : Board) (m : Z) :
  0 <= histLen b < Z.of_nat (length (posHistory b)) ->
  history (makeMove b m) = history b ++ [hash (makeMove b m)].
Proof.
  intros H. unfold history.
  change (posHistory (makeMove b m))
    with (upd (posHistory b) (histLen b) (hash (makeMove b m))).
  change (histLen (makeMove b m)) with (histLen b + 1).
  unfold upd. destruct (Z.ltb_spec (histLen b) 0); [lia|].
  replace (Z.to_nat (histLen b + 1)) with (S (Z.to_nat (histLen b))) by lia.
  erewrite take_S_r by (apply list_lookup_insert_eq; lia).
  rewrite take_insert_ge by lia. reflexivity.
Qed.

Lemma history_init (b : Board) :
  (1 <= length (posHistory b))%nat -> history (init b) = [hash (init b)].
Proof.
  intros H. unfold history.
  change (posHistory (init b)) with (upd (posHistory b) 0 (hash (init b))).
  change (histLen (init b)) with 1.
  destruct (posHistory b); [cbn [length] in H; lia | reflexivity].
Qed.

Lemma playMoves_bounds ms : forall b,
  histLen (playMoves b ms) = histLen b + Z.of_nat (length ms)
  /\ length (posHistory (playMoves b ms)) = length (posHistory b).
Proof.
  induction ms as [|m ms IH]; intros b; cbn [playMoves fold_left length];
    [split; [lia | reflexivity]|].
  destruct (IH (makeMove b m)) as [H1 H2]. unfold playMoves in H1, H2. rewrite H1, H2.
  unfold makeMove; cbn [histLen posHistory]. rewrite upd_length. split; [lia | reflexivity].
Qed.

Lemma history_playMoves ms : forall b,
  0 <= histLen b ->
  histLen b + Z.of_nat (length ms) <= Z.of_nat (length (posHistory b)) ->
  history (playMoves b ms) = history b ++ map hash (trace b ms).
Proof.
  induction ms as [|m ms IH]; intros b H0 H; cbn [playMoves fold_left trace map].
  - rewrite app_nil_r. reflexivity.
  - cbn [length] in H. fold (playMoves (makeMove b m) ms). rewrite IH.
    + rewrite history_make by lia. rewrite <- app_assoc. reflexivity.
    + unfold makeMove; cbn [histLen]. lia.
    + unfold makeMove; cbn [histLen posHistory]. rewrite upd_length. lia.
Qed.

Lemma isRepetition_play (b : Board) (ms : list Z) :
  storage b -> (length ms <= 100)%nat ->
  isRepetition (playMoves (init b) ms)
  = repOn (hash (init b) :: map hash (trace (init b) ms)) (hash (playMoves (init b) ms)).
Proof.
  intros (_ & _ & Hs) Hl.
  assert (Hlen : length (posHistory (init b)) = 2048%nat).
  { unfold init; cbn [posHistory]. rewrite upd_length. exact Hs. }
  destruct (playMoves_bounds ms (init b)) as [H1 H2].
  rewrite isRepetition_history.
  - rewrite history_playMoves.
    + rewrite history_init by (rewrite Hs; cbv; lia). reflexivity.
    + change (histLen (init b)) with 1. lia.
    + rewrite Hlen. change (histLen (init b)) with 1. lia.
  - rewrite H1, H2, Hlen. change (histLen (init b)) with 1. lia.
Qed.


(** *** Move generation *)

Section AppendOnly.

Context {X : Type} (step : list Z -> X -> list Z).
Hypothesis step_app : forall moves x, step moves x = moves ++ step [] x.

Lemma fold_append_only (l : list X) : forall acc,
  fold_left step l acc = acc ++ flat_map (step []) l.
Proof.
  induction l as [|x l IH]; intros acc; cbn [fold_left flat_map].
  - rewrite app_nil_r. reflexivity.
  - rewrite IH, step_app, <- app_assoc. reflexivity.
Qed.

End AppendOnly.

Lemma tryTarget_app b sq rank color to moves :
  tryTarget b sq rank color to moves = moves ++ tryTarget b sq rank color to [].
Proof.
  unfold tryTarget.
  destruct (ix (squares b) to =? 0); [reflexivity|].
  destruct (colorOf (ix (squares b) to) =? color); [rewrite app_nil_r; reflexivity|].
  destruct (canCapture _ _ _ _ _); [reflexivity | rewrite app_nil_r; reflexivity].
Qed.

Lemma normalStep_app b sq rank color moves d :
  normalStep b sq rank color moves d = moves ++ normalStep b sq rank color [] d.
Proof.
  unfold normalStep.
  repeat match goal with
  | |- context [if ?c then _ else _] =>
      destruct c; [rewrite app_nil_r; reflexivity|]
  end.
  apply tryTarget_app.
Qed.

Lemma jumpStep_app b sq rank color sj moves i :
  jumpStep b sq rank color sj moves i = moves ++ jumpStep b sq rank color sj [] i.
Proof.
  unfold jumpStep.
  repeat match goal with
  | |- context [if ?c then _ else _] =>
      destruct c; [rewrite app_nil_r; reflexivity|]
  end.
  apply tryTarget_app.
Qed.

Lemma tryTarget_nil b sq rank color to :
  tryTarget b sq rank color to [] =
  if (ix (squares b) to =? 0)
     || (negb (colorOf (ix (squares b) to) =? color)
         && canCapture rank (Z.abs (ix (squares b) to)) color sq to)
  then [encodeMove sq to] else [].
Proof.
  unfold tryTarget.
  destruct (ix (squares b) to =? 0); [reflexivity|].
  destruct (colorOf (ix (squares b) to) =? color); [reflexivity|].
  destruct (canCapture _ _ _ _ _); reflexivity.
Qed.

Lemma normalStep_nil b sq rank color d :
  normalStep b sq rank color [] d =
  if canStep sq d && stepOk b sq rank color (sq + d)
  then [encodeMove sq (sq + d)] else [].
Proof.
  unfold normalStep, stepOk, landingOk, ownDen. rewrite tryTarget_nil.
  destruct (canStep sq d); [|reflexivity]. cbn [negb andb].
  destruct ((color =? LIGHT) && (ix terrain (sq + d) =? TERRAIN_DEN_LIGHT)); [reflexivity|].
  destruct ((color =? DARK) && (ix terrain (sq + d) =? TERRAIN_DEN_DARK)); [reflexivity|].
  cbn [orb negb andb].
  destruct ((ix terrain (sq + d) =? TERRAIN_WATER) && negb (rank =? RAT)).
  - rewrite andb_false_r. reflexivity.
  - rewrite andb_true_r. reflexivity.
Qed.

Lemma jumpBlocked_jumpsOf b sq i :
  jumpBlocked b (ixJ sqJumpLookup sq) i =
  existsb (occupied b)
    (map (fun j => ix (sj_blockingSqs (ixJ sqJumpLookup sq))
                      (ix (sj_blockStart (ixJ sqJumpLookup sq)) i + j))
         (range (ix (sj_blockCount (ixJ sqJumpLookup sq)) i))).
Proof.
  unfold jumpBlocked, occupied.
  induction (range _) as [|j l IH]; [reflexivity|].
  cbn [existsb map]. rewrite IH. reflexivity.
Qed.

Lemma jumpStep_nil b sq rank color i :
  let sj := ixJ sqJumpLookup sq in
  jumpStep b sq rank color sj [] i =
  if landingOk b sq rank color (ix (sj_dest sj) i) && negb (jumpBlocked b sj i)
  then [encodeMove sq (ix (sj_dest sj) i)] else [].
Proof.
  intros sj. unfold jumpStep, landingOk, ownDen. rewrite tryTarget_nil.
  destruct ((color =? LIGHT) && (ix terrain (ix (sj_dest sj) i) =? TERRAIN_DEN_LIGHT));
    [reflexivity|].
  destruct ((color =? DARK) && (ix terrain (ix (sj_dest sj) i) =? TERRAIN_DEN_DARK));
    [reflexivity|].
  cbn [orb negb andb].
  destruct (jumpBlocked b sj i).
  - rewrite andb_false_r. reflexivity.
  - rewrite andb_true_r. reflexivity.
Qed.

Lemma addNormalMoves_In b sq rank color m :
  In m (addNormalMoves b sq rank color []) <->
  exists d, In d DIRS /\ canStep sq d = true
            /\ stepOk b sq rank color (sq + d) = true
            /\ m = encodeMove sq (sq + d).
Proof.
  unfold addNormalMoves.
  rewrite (fold_append_only _ (normalStep_app b sq rank color)).
  cbn [app]. rewrite in_flat_map. split.
  - intros (d & Hd & Hm). rewrite normalStep_nil in Hm.
    destruct (canStep sq d) eqn:E1; [|destruct Hm].
    destruct (stepOk b sq rank color (sq + d)) eqn:E2; [|destruct Hm].
    destruct Hm as [<-|[]]. exists d. auto.
  - intros (d & Hd & E1 & E2 & ->). exists d. split; [exact Hd|].
    rewrite normalStep_nil, E1, E2. left. reflexivity.
Qed.

Lemma addJumpMoves_In b sq rank color m :
  In m (addJumpMoves b sq rank color []) <->
  exists to ws, In (to, ws) (jumpsOf sq)
                /\ landingOk b sq rank color to = true
                /\ existsb (occupied b) ws = false
                /\ m = encodeMove sq to.
Proof.
  unfold addJumpMoves.
  rewrite (fold_append_only _ (jumpStep_app b sq rank color (ixJ sqJumpLookup sq))).
  cbn [app]. rewrite in_flat_map. unfold jumpsOf. split.
  - intros (i & Hi & Hm). rewrite jumpStep_nil in Hm.
    destruct (landingOk _ _ _ _ _) eqn:E1; [|destruct Hm].
    destruct (jumpBlocked _ _ _) eqn:E2; [destruct Hm|].
    destruct Hm as [<-|[]].
    eexists _, _. split; [apply in_map_iff; exists i; split; [reflexivity | exact Hi]|].
    rewrite <- jumpBlocked_jumpsOf. auto.
  - intros (to & ws & Hin & E1 & E2 & ->).
    apply in_map_iff in Hin. destruct Hin as (i & Hi & Hin).
    injection Hi as <- <-. exists i. split; [exact Hin|].
    rewrite jumpStep_nil. rewrite <- jumpBlocked_jumpsOf in E2.
    rewrite E1, E2. left. reflexivity.
Qed.

Lemma addNormalMoves_app b sq rank color moves :
  addNormalMoves b sq rank color moves = moves ++ addNormalMoves b sq rank color [].
Proof.
  unfold addNormalMoves.
  rewrite (fold_append_only _ (normalStep_app b sq rank color) DIRS moves).
  rewrite (fold_append_only _ (normalStep_app b sq rank color) DIRS []).
  reflexivity.
Qed.

Lemma addJumpMoves_app b sq rank color moves :
  addJumpMoves b sq rank color moves = moves ++ addJumpMoves b sq rank color [].
Proof.
  unfold addJumpMoves.
  rewrite (fold_append_only _ (jumpStep_app b sq rank color (ixJ sqJumpLookup sq)) _ moves).
  rewrite (fold_append_only _ (jumpStep_app b sq rank color (ixJ sqJumpLookup sq)) _ []).
  reflexivity.
Qed.

Lemma genRank_app b color moves rk :
  genRank b color moves rk = moves ++ genRank b color [] rk.
Proof.
  unfold genRank.
  destruct (_ <? 0); [rewrite app_nil_r; reflexivity|].
  rewrite (addNormalMoves_app _ _ _ _ moves).
  destruct ((rk =? LION) || (rk =? TIGER)); [|reflexivity].
  rewrite (addJumpMoves_app _ _ _ _ (moves ++ _)).
  rewrite (addJumpMoves_app _ _ _ _ (addNormalMoves _ _ _ _ [])).
  rewrite <- !app_assoc. reflexivity.
Qed.

Lemma genRank_In b color rk m :
  In m (genRank b color [] rk) <->
  let sq := ix (pieceSq b) (psIdx color rk) in
  0 <= sq
  /\ (In m (addNormalMoves b sq rk color [])
      \/ ((rk = LION \/ rk = TIGER) /\ In m (addJumpMoves b sq rk color []))).
Proof.
  unfold genRank. cbv zeta.
  set (sq := ix (pieceSq b) (psIdx color rk)).
  destruct (Z.ltb_spec sq 0) as [H|H].
  { split; [intros [] | lia]. }
  destruct (Z.eqb_spec rk LION) as [E1|E1]; cbn [orb].
  { rewrite addJumpMoves_app, in_app_iff.
    split; [intros [H1|H1]; auto | intros [_ [H1|[_ H1]]]; auto]. }
  destruct (Z.eqb_spec rk TIGER) as [E2|E2].
  { rewrite addJumpMoves_app, in_app_iff.
    split; [intros [H1|H1]; auto | intros [_ [H1|[_ H1]]]; auto]. }
  split; [intros H1; auto | intros [_ [H1|[[H2|H2] _]]]; auto; contradiction].
Qed.

Lemma generateMoves_In b m :
  In m (generateMoves b) <->
  exists rk, In rk ranks /\
    let sq := ix (pieceSq b) (psIdx (sideToMove b) rk) in
    0 <= sq
    /\ (In m (addNormalMoves b sq rk (sideToMove b) [])
        \/ ((rk = LION \/ rk = TIGER)
            /\ In m (addJumpMoves b sq rk (sideToMove b) []))).
Proof.
  unfold generateMoves.
  rewrite (fold_append_only _ (genRank_app b (sideToMove b))).
  cbn [app]. rewrite in_flat_map.
  split; intros (rk & Hrk & Hm); exists rk; (split; [exact Hrk|]);
    apply genRank_In; exact Hm.
Qed.

Lemma listEqb_eq l : forall l', listEqb l l' = true -> l = l'.
Proof.
  induction l as [|x l IH]; intros [|y l'] H; try discriminate; [reflexivity|].
  cbn [listEqb] in H. apply andb_true_iff in H. destruct H as [H1 H2].
  apply Z.eqb_eq in H1. subst y. f_equal. apply IH. exact H2.
Qed.

Lemma listEqb_refl l : listEqb l l = true.
Proof. induction l as [|x l IH]; [reflexivity|]. cbn [listEqb]. rewrite Z.eqb_refl. exact IH. Qed.

Lemma jumpEqb_eq x y : jumpEqb x y = true -> x = y.
Proof.
  destruct x as [a l], y as [a' l']. unfold jumpEqb. cbn [fst snd]. intros H.
  apply andb_true_iff in H. destruct H as [H1 H2].
  apply Z.eqb_eq in H1. apply listEqb_eq in H2. subst. reflexivity.
Qed.

Lemma encode_decode f t :
  0 <= f < 64 -> 0 <= t < 64 ->
  moveFrom (encodeMove f t) = f /\ moveTo (encodeMove f t) = t.
Proof.
  intros Hf Ht.
  assert (H : encodeOk = true) by (vm_compute; reflexivity).
  unfold encodeOk in H. rewrite forallb_forall in H.
  specialize (H f (proj2 (In_range 64 f) Hf)).
  rewrite forallb_forall in H.
  specialize (H t (proj2 (In_range 64 t) Ht)).
  apply andb_true_iff in H. destruct H as [H1 H2].
  apply Z.eqb_eq in H1, H2. auto.
Qed.

Lemma jumpsOf_ok sq to ws :
  0 <= sq < NUM_SQ -> In (to, ws) (jumpsOf sq) ->
  isWaterSq sq = false /\ 0 <= to < NUM_SQ /\ to <> sq /\ isWaterSq to = false
  /\ forall w, In w ws -> 0 <= w < NUM_SQ /\ isWaterSq w = true.
Proof.
  intros Hsq Hin.
  assert (H : jumpTableOk = true) by (vm_compute; reflexivity).
  unfold jumpTableOk in H. rewrite forallb_forall in H.
  specialize (H sq (proj2 (In_range _ sq) Hsq)).
  rewrite forallb_forall in H. specialize (H _ Hin).
  unfold jumpEntryOk, inSq in H. cbn [fst snd] in H.
  apply andb_true_iff in H. destruct H as [H H5].
  apply andb_true_iff in H. destruct H as [H H4].
  apply andb_true_iff in H. destruct H as [H H3].
  apply andb_true_iff in H. destruct H as [H1 H2].
  apply andb_true_iff in H2. destruct H2 as [H2 H2'].
  apply negb_true_iff in H1, H3, H4.
  apply Z.leb_le in H2. apply Z.ltb_lt in H2'. apply Z.eqb_neq in H3.
  split; [exact H1|]. split; [lia|]. split; [exact H3|]. split; [exact H4|].
  intros w Hw. rewrite forallb_forall in H5. specialize (H5 _ Hw).
  apply andb_true_iff in H5. destruct H5 as [H6 H7].
  apply andb_true_iff in H6. destruct H6 as [H6 H8].
  apply Z.leb_le in H6. apply Z.ltb_lt in H8. split; [lia | exact H7].
Qed.

Lemma jumps_geometry sq e :
  0 <= sq < NUM_SQ -> isWaterSq sq = false ->
  In e (jumpsOf sq) <-> In e (geomJumps sq).
Proof.
  intros Hsq Hw.
  assert (H : jumpsMatchGeometry = true) by (vm_compute; reflexivity).
  unfold jumpsMatchGeometry in H. rewrite forallb_forall in H.
  specialize (H sq (proj2 (In_range _ sq) Hsq)).
  rewrite Hw in H. cbn [orb] in H.
  apply andb_true_iff in H. destruct H as [H1 H2].
  rewrite forallb_forall in H1, H2.
  split; intros Hin.
  - specialize (H1 _ Hin). apply existsb_exists in H1.
    destruct H1 as (y & Hy & E). apply jumpEqb_eq in E. subst y. exact Hy.
  - specialize (H2 _ Hin). apply existsb_exists in H2.
    destruct H2 as (y & Hy & E). apply jumpEqb_eq in E. subst y. exact Hy.
Qed.

Lemma geomJumps_In sq to ws :
  In (to, ws) (geomJumps sq) <-> exists d, In d DIRS /\ jumpLine sq d = Some (ws, to).
Proof.
  unfold geomJumps. rewrite in_flat_map. split.
  - intros (d & Hd & H). exists d. split; [exact Hd|].
    destruct (jumpLine sq d) as [[ws' to']|]; [|destruct H].
    destruct H as [H|[]]. injection H as -> ->. reflexivity.
  - intros (d & Hd & H). exists d. split; [exact Hd|]. rewrite H. left. reflexivity.
Qed.

Lemma waterInv_sq b sq :
  waterInv b = true -> 0 <= sq < NUM_SQ -> isWaterSq sq = true ->
  ix (squares b) sq = 0 \/ Z.abs (ix (squares b) sq) = RAT.
Proof.
  intros H Hsq Hw. unfold waterInv in H. rewrite forallb_forall in H.
  specialize (H sq (proj2 (In_range _ sq) Hsq)). rewrite Hw in H. cbn [negb orb] in H.
  apply orb_true_iff in H. destruct H as [H|H]; apply Z.eqb_eq in H; auto.
Qed.

Lemma waterInv_blockers b ws :
  waterInv b = true ->
  (forall w, In w ws -> 0 <= w < NUM_SQ /\ isWaterSq w = true) ->
  existsb (occupied b) ws = existsb (holdsRat b) ws.
Proof.
  intros H Hws. induction ws as [|w ws IH]; [reflexivity|].
  cbn [existsb]. rewrite IH by (intros; apply Hws; right; assumption).
  f_equal. destruct (Hws w (or_introl eq_refl)) as [H1 H2].
  unfold occupied, holdsRat.
  destruct (waterInv_sq b w H H1 H2) as [E|E]; rewrite E.
  - reflexivity.
  - destruct (Z.eqb_spec (ix (squares b) w) 0) as [E0|E0]; [|reflexivity].
    rewrite E0 in E. discriminate.
Qed.

Lemma jumpRule_spec b sq rank color to :
  jumpRule b sq rank color to = true <->
  exists ws, In (to, ws) (geomJumps sq)
             /\ existsb (holdsRat b) ws = false
             /\ landingOk b sq rank color to = true.
Proof.
  unfold jumpRule. rewrite existsb_exists. split.
  - intros (d & Hd & H). destruct (jumpLine sq d) as [[ws land]|] eqn:E; [|discriminate].
    apply andb_true_iff in H. destruct H as [H H3].
    apply andb_true_iff in H. destruct H as [H1 H2].
    apply Z.eqb_eq in H1. subst land. apply negb_true_iff in H2.
    exists ws. split; [|auto]. apply geomJumps_In. exists d. auto.
  - intros (ws & Hin & H2 & H3). apply geomJumps_In in Hin.
    destruct Hin as (d & Hd & E). exists d. split; [exact Hd|].
    rewrite E, Z.eqb_refl, H2, H3. reflexivity.
Qed.

Lemma not_In_existsb (x : Z) (l : list Z) : existsb (Z.eqb x) l = false -> ~ In x l.
Proof.
  intros H Hin. assert (E : existsb (Z.eqb x) l = true).
  { apply existsb_exists. exists x. split; [exact Hin | apply Z.eqb_refl]. }
  rewrite E in H. discriminate.
Qed.

Lemma encodeMove_inj f t f' t' :
  0 <= f < 64 -> 0 <= t < 64 -> 0 <= f' < 64 -> 0 <= t' < 64 ->
  encodeMove f t = encodeMove f' t' -> f = f' /\ t = t'.
Proof.
  intros Hf Ht Hf' Ht' E.
  destruct (encode_decode f t Hf Ht) as [H1 H2].
  destruct (encode_decode f' t' Hf' Ht') as [H1' H2'].
  rewrite E in H1, H2. split; congruence.
Qed.

Lemma canStep_range sq d : canStep sq d = true -> 0 <= sq + d < NUM_SQ.
Proof.
  unfold canStep. destruct (Z.ltb_spec (sq + d) 0); [discriminate|].
  destruct (Z.geb_spec (sq + d) NUM_SQ); [discriminate|]. cbn [orb]. lia.
Qed.

Lemma indexToBoard_sq b c rk :
  indexToBoard b = true -> (c = LIGHT \/ c = DARK) -> In rk ranks ->
  let s := ix (pieceSq b) (psIdx c rk) in
  s = -1 \/ (0 <= s < NUM_SQ /\ ix (squares b) s = signed c rk).
Proof.
  intros H Hc Hrk s. unfold indexToBoard in H. rewrite forallb_forall in H.
  assert (Hc' : In c [LIGHT; DARK]) by (destruct Hc as [-> | ->]; cbn; auto).
  specialize (H c Hc'). rewrite forallb_forall in H. specialize (H rk Hrk).
  fold s in H. apply orb_true_iff in H. destruct H as [H|H].
  - left. apply Z.eqb_eq. exact H.
  - right. apply andb_true_iff in H. destruct H as [H H3].
    apply andb_true_iff in H. destruct H as [H1 H2].
    apply Z.leb_le in H1. apply Z.ltb_lt in H2. apply Z.eqb_eq in H3. auto.
Qed.

Lemma addJumpMoves_rule b sq rank color to :
  waterInv b = true -> 0 <= sq < NUM_SQ -> 0 <= to < NUM_SQ ->
  isWaterSq sq = false ->
  In (encodeMove sq to) (addJumpMoves b sq rank color []) <->
  jumpRule b sq rank color to = true.
Proof.
  intros Hw Hsq Hto Hland. rewrite addJumpMoves_In, jumpRule_spec. split.
  - intros (to' & ws & Hin & H1 & H2 & E).
    destruct (jumpsOf_ok sq to' ws Hsq Hin) as (_ & Hto' & _ & _ & Hws).
    unfold NUM_SQ in *.
    destruct (encodeMove_inj sq to sq to' ltac:(lia) ltac:(lia) ltac:(lia) ltac:(lia) E) as [_ <-].
    exists ws. split; [apply jumps_geometry; assumption|].
    rewrite <- (waterInv_blockers b ws Hw Hws). auto.
  - intros (ws & Hin & H1 & H2). apply jumps_geometry in Hin; try assumption.
    destruct (jumpsOf_ok sq to ws Hsq Hin) as (_ & _ & _ & _ & Hws).
    exists to, ws. rewrite (waterInv_blockers b ws Hw Hws). auto.
Qed.

Lemma jumpRuleOccupied_spec b sq rank color to :
  jumpRuleOccupied b sq rank color to = true <->
  exists ws, In (to, ws) (geomJumps sq)
             /\ existsb (occupied b) ws = false
             /\ landingOk b sq rank color to = true.
Proof.
  unfold jumpRuleOccupied. rewrite existsb_exists. split.
  - intros (d & Hd & H). destruct (jumpLine sq d) as [[ws land]|] eqn:E; [|discriminate].
    apply andb_true_iff in H. destruct H as [H H3].
    apply andb_true_iff in H. destruct H as [H1 H2].
    apply Z.eqb_eq in H1. subst land. apply negb_true_iff in H2.
    exists ws. split; [|auto]. apply geomJumps_In. exists d. auto.
  - intros (ws & Hin & H2 & H3). apply geomJumps_In in Hin.
    destruct Hin as (d & Hd & E). exists d. split; [exact Hd|].
    unfold occupied in H2. rewrite E, Z.eqb_refl, H2, H3. reflexivity.
Qed.

Lemma addJumpMoves_occupied b sq rank color to :
  0 <= sq < NUM_SQ -> 0 <= to < NUM_SQ -> isWaterSq sq = false ->
  In (encodeMove sq to) (addJumpMoves b sq rank color []) <->
  jumpRuleOccupied b sq rank color to = true.
Proof.
  intros Hsq Hto Hland. rewrite addJumpMoves_In, jumpRuleOccupied_spec. split.
  - intros (to' & ws & Hin & H1 & H2 & E).
    destruct (jumpsOf_ok sq to' ws Hsq Hin) as (_ & Hto' & _).
    unfold NUM_SQ in *.
    destruct (encodeMove_inj sq to sq to' ltac:(lia) ltac:(lia) ltac:(lia) ltac:(lia) E)
      as [_ <-].
    exists ws. split; [apply jumps_geometry; assumption | auto].
  - intros (ws & Hin & H1 & H2). apply jumps_geometry in Hin; try assumption.
    exists to, ws. auto.
Qed.

Lemma signed_abs c rk : 0 < rk -> Z.abs (signed c rk) = rk.
Proof. unfold signed. destruct (c =? LIGHT); lia. Qed.

Lemma jumper_on_land b sq rank :
  waterInv b = true -> 0 <= sq < NUM_SQ -> (rank = LION \/ rank = TIGER) ->
  Z.abs (ix (squares b) sq) = rank -> isWaterSq sq = false.
Proof.
  intros Hw Hsq Hr Ha. destruct (isWaterSq sq) eqn:E; [|reflexivity].
  destruct (waterInv_sq b sq Hw Hsq E) as [H|H]; rewrite H in Ha;
    destruct Hr as [-> | ->]; discriminate.
Qed.

Lemma a3d3_never b : indexToBoard b = true ->
  (sideToMove b = LIGHT \/ sideToMove b = DARK) -> ~ In a3d3 (generateMoves b).
Proof.
  intros Hi Hc Hin. apply generateMoves_In in Hin.
  destruct Hin as (rk & Hrk & Hsq & Hm).
  destruct (indexToBoard_sq b _ rk Hi Hc Hrk) as [E|[Hr _]]; [lia|].
  set (sq := ix (pieceSq b) (psIdx (sideToMove b) rk)) in *.
  unfold NUM_SQ in Hr.
  destruct Hm as [Hm|[_ Hm]].
  - apply addNormalMoves_In in Hm. destruct Hm as (d & Hd & Hs & _ & E).
    apply canStep_range in Hs. unfold NUM_SQ in Hs.
    destruct (encodeMove_inj 14 17 sq (sq + d) ltac:(lia) ltac:(lia) ltac:(lia) ltac:(lia) E) as [E1 E2].
    unfold DIRS, DIR_N, DIR_S, DIR_E, DIR_W in Hd. cbn [In] in Hd. lia.
  - apply addJumpMoves_In in Hm. destruct Hm as (to & ws & Hj & _ & _ & E).
    destruct (jumpsOf_ok sq to ws ltac:(unfold NUM_SQ; lia) Hj) as (_ & Hto & _).
    unfold NUM_SQ in Hto.
    destruct (encodeMove_inj 14 17 sq to ltac:(lia) ltac:(lia) ltac:(lia) ltac:(lia) E) as [E1 E2].
    rewrite <- E1 in Hj. vm_compute in Hj. exact Hj.
Qed.

(** C4, amended: in every position whose water squares hold at most Rats, a
    Lion or Tiger jump from its square to [to] is emitted by [addJumpMoves],
    and appears among the generated moves as a move to a non-adjacent square,
    exactly when the jump rule of the specification allows it: some direction
    has a water line from the square ending on [to], no cell of the line
    holds a Rat, and the landing is not the own den and is empty or holds an
    enemy that [canCapture] permits.  In any position, from a land square,
    the jump is emitted exactly when that rule allows it with "occupied" in
    place of "holds a Rat"; the two agree under the water invariant.  No
    position generates a3d3, since no jump starts on a3; in particular not
    the position with the Light Lion on a3 and the Dark Rat on b4.  With the
    Lion on a4 the jump a4d4 is generated without the Rat and not with it. *)
Theorem river_jump_rule :
  (forall b sq rank color to,
      waterInv b = true -> 0 <= sq < NUM_SQ -> 0 <= to < NUM_SQ ->
      (rank = LION \/ rank = TIGER) -> Z.abs (ix (squares b) sq) = rank ->
      (In (encodeMove sq to) (addJumpMoves b sq rank color []) <->
       jumpRule b sq rank color to = true))
  /\ (forall b rank to,
        waterInv b = true -> indexToBoard b = true ->
        (sideToMove b = LIGHT \/ sideToMove b = DARK) ->
        (rank = LION \/ rank = TIGER) ->
        let sq := ix (pieceSq b) (psIdx (sideToMove b) rank) in
        0 <= sq -> 0 <= to < NUM_SQ ->
        (forall d, In d DIRS -> to <> sq + d) ->
        (In (encodeMove sq to) (generateMoves b) <->
         jumpRule b sq rank (sideToMove b) to = true))
  /\ (forall b sq rank color to,
        0 <= sq < NUM_SQ -> 0 <= to < NUM_SQ -> isWaterSq sq = false ->
        (In (encodeMove sq to) (addJumpMoves b sq rank color []) <->
         jumpRuleOccupied b sq rank color to = true))
  /\ (forall b, indexToBoard b = true ->
        (sideToMove b = LIGHT \/ sideToMove b = DARK) ->
        ~ In a3d3 (generateMoves b))
  /\ (ix (squares s4Board) 14 = signed LIGHT LION
      /\ ix (squares s4Board) 22 = signed DARK RAT
      /\ sideToMove s4Board = LIGHT
      /\ ~ In a3d3 (generateMoves s4Board))
  /\ (~ In a4d4 (generateMoves lionRatBoard) /\ In a4d4 (generateMoves lionBoard)).
Proof.
  split; [|split; [|split; [exact addJumpMoves_occupied | split; [|split]]]].
  - intros b sq rank color to Hw Hsq Hto Hr Ha.
    apply addJumpMoves_rule; try assumption.
    apply (jumper_on_land b sq rank); assumption.
  - intros b rank to Hw Hi Hc Hr sq Hsq Hto Hfar.
    assert (Hrk : In rank ranks) by (destruct Hr as [-> | ->]; cbn; auto 10).
    destruct (indexToBoard_sq b _ rank Hi Hc Hrk) as [E|[Hs Hp]]; [fold sq in E; lia|].
    fold sq in Hs, Hp.
    assert (Ha : Z.abs (ix (squares b) sq) = rank).
    { rewrite Hp. apply signed_abs. destruct Hr as [-> | ->]; reflexivity. }
    assert (Hland : isWaterSq sq = false) by (apply (jumper_on_land b sq rank); assumption).
    rewrite <- (addJumpMoves_rule b sq rank (sideToMove b) to Hw Hs Hto Hland).
    rewrite generateMoves_In. split.
    + intros (rk & Hrk' & Hsq' & Hm).
      destruct (indexToBoard_sq b _ rk Hi Hc Hrk') as [E|[Hs' Hp']]; [lia|].
      set (sq' := ix (pieceSq b) (psIdx (sideToMove b) rk)) in *.
      unfold NUM_SQ in *.
      assert (Hsame : sq = sq' /\ (In (encodeMove sq to) (addNormalMoves b sq rk (sideToMove b) [])
                 \/ (rk = LION \/ rk = TIGER) /\ In (encodeMove sq to) (addJumpMoves b sq rk (sideToMove b) []))).
      { destruct Hm as [Hm|[Hr' Hm]].
        - pose proof Hm as Hm'. apply addNormalMoves_In in Hm'.
          destruct Hm' as (d & Hd & Hst & _ & E).
          apply canStep_range in Hst. unfold NUM_SQ in Hst.
          destruct (encodeMove_inj sq to sq' (sq' + d) ltac:(lia) ltac:(lia) ltac:(lia) ltac:(lia) E) as [E1 E2].
          subst sq'. rewrite <- E1 in Hm. auto.
        - pose proof Hm as Hm'. apply addJumpMoves_In in Hm'.
          destruct Hm' as (to' & ws & Hj & _ & _ & E).
          destruct (jumpsOf_ok sq' to' ws ltac:(unfold NUM_SQ; lia) Hj) as (_ & Hto' & _).
          unfold NUM_SQ in Hto'.
          destruct (encodeMove_inj sq to sq' to' ltac:(lia) ltac:(lia) ltac:(lia) ltac:(lia) E) as [E1 E2].
          subst sq'. rewrite <- E1 in Hm. auto. }
      destruct Hsame as [Es Hm']. rewrite <- Es in Hp'.
      assert (rk = rank).
      { rewrite Hp in Hp'. unfold signed in Hp'. destruct (sideToMove b =? LIGHT); lia. }
      subst rk. destruct Hm' as [Hm'|[_ Hm']]; [|exact Hm'].
      apply addNormalMoves_In in Hm'. destruct Hm' as (d & Hd & Hst & _ & E).
      apply canStep_range in Hst. unfold NUM_SQ in Hst.
      destruct (encodeMove_inj sq to sq (sq + d) ltac:(lia) ltac:(lia) ltac:(lia) ltac:(lia) E) as [_ E2].
      exfalso. exact (Hfar d Hd E2).
    + intros Hm. exists rank. split; [exact Hrk|]. fold sq. split; [exact Hsq|].
      right. auto.
  - exact a3d3_never.
  - repeat split; try (vm_compute; reflexivity).
    apply not_In_existsb. vm_compute. reflexivity.
  - split; [apply not_In_existsb | apply In_existsb]; vm_compute; reflexivity.
Qed.

(** C4 as stated fails where the water invariant is broken: with a Dark Cat
    on b4 no cell of the line holds a Rat, so the rule allows a4d4, but the
    code blocks the jump. *)
Lemma river_jump_rule_counterexample :
  ix (squares lionCatBoard) 21 = signed LIGHT LION
  /\ ix (squares lionCatBoard) 22 = signed DARK CAT
  /\ jumpRule lionCatBoard 21 LION LIGHT 24 = true
  /\ ~ In (encodeMove 21 24) (addJumpMoves lionCatBoard 21 LION LIGHT [])
  /\ ~ In (encodeMove 21 24) (generateMoves lionCatBoard).
Proof.
  repeat split; try (vm_compute; reflexivity).
  all: apply not_In_existsb; vm_compute; reflexivity.
Qed.

Lemma river_jump_rule_witness :
  In (encodeMove 21 24) (addJumpMoves lionBoard 21 LION LIGHT []) <->
  jumpRule lionBoard 21 LION LIGHT 24 = true.
Proof.
  apply (proj1 river_jump_rule lionBoard 21 LION LIGHT 24).
  - vm_compute. reflexivity.
  - unfold NUM_SQ. lia.
  - unfold NUM_SQ. lia.
  - left. reflexivity.
  - vm_compute. reflexivity.
Defined.

(** *** Zobrist hash *)

Ltac xor_solve :=
  apply Z.bits_inj'; intros ?n ?Hn;
  rewrite ?Z.lxor_spec, ?Z.bits_0;
  repeat match goal with
  | |- context [Z.testbit ?x ?n] => destruct (Z.testbit x n)
  end; reflexivity.

Lemma xorKeys_cons sqs j idx h :
  xorKeys sqs (j :: idx) h = xorKeys sqs idx (Z.lxor h (pieceKey j (ix sqs j))).
Proof. reflexivity. Qed.

Lemma xorKeys_acc sqs idx : forall h,
  xorKeys sqs idx h = Z.lxor h (xorKeys sqs idx 0).
Proof.
  induction idx as [|i idx IH]; intros h.
  - cbn. rewrite Z.lxor_0_r. reflexivity.
  - rewrite !xorKeys_cons, IH, (IH (Z.lxor 0 _)). xor_solve.
Qed.

Lemma xorKeys_upd_out sqs idx i v : forall h,
  ~ In i idx -> xorKeys (upd sqs i v) idx h = xorKeys sqs idx h.
Proof.
  induction idx as [|j idx IH]; intros h Hn; [reflexivity|].
  rewrite !xorKeys_cons.
  rewrite ix_upd_ne by (intros ->; apply Hn; left; reflexivity).
  apply IH. intros H. apply Hn. right. exact H.
Qed.

Lemma xorKeys_upd sqs idx i v : forall h,
  List.NoDup idx -> In i idx -> 0 <= i < Z.of_nat (length sqs) ->
  xorKeys (upd sqs i v) idx h
  = Z.lxor (Z.lxor (xorKeys sqs idx h) (pieceKey i (ix sqs i))) (pieceKey i v).
Proof.
  induction idx as [|j idx IH]; intros h Hnd Hin Hi; [destruct Hin|].
  inversion Hnd as [|? ? Hnj Hnd']; subst.
  rewrite !xorKeys_cons.
  destruct (Z.eq_dec j i) as [->|Hne].
  - rewrite ix_upd_eq by exact Hi.
    rewrite xorKeys_upd_out by exact Hnj.
    rewrite (xorKeys_acc sqs idx (Z.lxor h (pieceKey i v))).
    rewrite (xorKeys_acc sqs idx (Z.lxor h (pieceKey i (ix sqs i)))).
    xor_solve.
  - rewrite ix_upd_ne by congruence.
    destruct Hin as [E|Hin]; [congruence|].
    apply IH; assumption.
Qed.

Lemma hashOf_xorKeys sqs stm :
  hashOf sqs stm = Z.lxor (xorKeys sqs (range NUM_SQ) 0) (sideKey stm).
Proof. unfold hashOf, xorKeys. reflexivity. Qed.

Lemma hashOf_upd sqs stm i v :
  length sqs = 63%nat -> 0 <= i < NUM_SQ ->
  hashOf (upd sqs i v) stm
  = Z.lxor (Z.lxor (hashOf sqs stm) (pieceKey i (ix sqs i))) (pieceKey i v).
Proof.
  intros Hl Hi. rewrite !hashOf_xorKeys.
  rewrite xorKeys_upd.
  - xor_solve.
  - apply NoDup_range.
  - apply In_range. exact Hi.
  - rewrite Hl. unfold NUM_SQ in Hi. lia.
Qed.

Lemma sideKey_flip stm :
  stm = LIGHT \/ stm = DARK -> sideKey (1 - stm) = Z.lxor (sideKey stm) zobristSide.
Proof.
  intros [-> | ->]; unfold sideKey; cbn [Z.sub Z.eqb LIGHT DARK Z.opp Z.add Z.pos_sub Pos.eqb].
  - change (1 - LIGHT =? DARK) with true. change (LIGHT =? DARK) with false.
    cbv iota. rewrite Z.lxor_0_l. reflexivity.
  - change (1 - DARK =? DARK) with false. change (DARK =? DARK) with true.
    cbv iota. rewrite Z.lxor_nilpotent. reflexivity.
Qed.

Lemma hashOf_side sqs stm :
  stm = LIGHT \/ stm = DARK ->
  hashOf sqs (1 - stm) = Z.lxor (hashOf sqs stm) zobristSide.
Proof.
  intros H. rewrite !hashOf_xorKeys, (sideKey_flip stm H). xor_solve.
Qed.

(** *** Legal moves and the invariant *)

Lemma In_ranks rk : In rk ranks <-> 1 <= rk <= 8.
Proof. unfold ranks. cbn [In]. lia. Qed.

Lemma colorOf_signed c rk :
  (c = LIGHT \/ c = DARK) -> 0 < rk -> colorOf (signed c rk) = c.
Proof.
  intros [-> | ->] H; unfold colorOf, signed, LIGHT, DARK; cbn [Z.eqb].
  - destruct (Z.gtb_spec rk 0); [reflexivity | lia].
  - destruct (Z.gtb_spec (- rk) 0); [lia | reflexivity].
Qed.

Lemma signed_nonzero c rk : 0 < rk -> signed c rk <> 0.
Proof. unfold signed. destruct (c =? LIGHT); lia. Qed.

Lemma colorOf_cases pc : colorOf pc = LIGHT \/ colorOf pc = DARK.
Proof. unfold colorOf. destruct (pc >? 0); auto. Qed.

Lemma signed_colorOf_abs pc : pc <> 0 -> signed (colorOf pc) (Z.abs pc) = pc.
Proof.
  intros H. unfold signed, colorOf, LIGHT, DARK.
  destruct (Z.gtb_spec pc 0); cbn [Z.eqb]; lia.
Qed.

Lemma psIdx_inj c rk c' rk' :
  (c = LIGHT \/ c = DARK) -> (c' = LIGHT \/ c' = DARK) ->
  1 <= rk <= 8 -> 1 <= rk' <= 8 ->
  psIdx c rk = psIdx c' rk' -> c = c' /\ rk = rk'.
Proof.
  unfold psIdx, NUM_PIECE_TYPES, LIGHT, DARK. intros [-> | ->] [-> | ->]; lia.
Qed.

Lemma psIdx_range c rk :
  (c = LIGHT \/ c = DARK) -> 1 <= rk <= 8 -> 0 <= psIdx c rk < 18.
Proof. unfold psIdx, NUM_PIECE_TYPES, LIGHT, DARK. intros [-> | ->]; lia. Qed.

Lemma boardToIndex_sq b s :
  boardToIndex b = true -> 0 <= s < NUM_SQ -> ix (squares b) s <> 0 ->
  1 <= Z.abs (ix (squares b) s) <= 8
  /\ ix (pieceSq b) (psIdx (colorOf (ix (squares b) s)) (Z.abs (ix (squares b) s))) = s.
Proof.
  intros H Hs Hv. unfold boardToIndex in H. rewrite forallb_forall in H.
  specialize (H s (proj2 (In_range _ s) Hs)). cbv zeta in H.
  apply orb_true_iff in H. destruct H as [H|H].
  - apply Z.eqb_eq in H. contradiction.
  - apply andb_true_iff in H. destruct H as [H H3].
    apply andb_true_iff in H. destruct H as [H1 H2].
    apply Z.leb_le in H1, H2. apply Z.eqb_eq in H3. auto.
Qed.

Lemma indexToBoard_intro b :
  (forall c rk, (c = LIGHT \/ c = DARK) -> 1 <= rk <= 8 ->
     let s := ix (pieceSq b) (psIdx c rk) in
     s = -1 \/ (0 <= s < NUM_SQ /\ ix (squares b) s = signed c rk)) ->
  indexToBoard b = true.
Proof.
  intros H. unfold indexToBoard. apply forallb_forall. intros c Hc.
  apply forallb_forall. intros rk Hrk. apply In_ranks in Hrk.
  assert (Hc' : c = LIGHT \/ c = DARK) by (destruct Hc as [<-|[<-|[]]]; auto).
  destruct (H c rk Hc' Hrk) as [E|[[E1 E2] E3]]; cbv zeta.
  - rewrite E. reflexivity.
  - apply orb_true_iff. right.
    rewrite (proj2 (Z.leb_le _ _) E1), (proj2 (Z.ltb_lt _ _) E2), E3, Z.eqb_refl.
    reflexivity.
Qed.

Lemma boardToIndex_intro b :
  (forall s, 0 <= s < NUM_SQ -> ix (squares b) s <> 0 ->
     1 <= Z.abs (ix (squares b) s) <= 8
     /\ ix (pieceSq b) (psIdx (colorOf (ix (squares b) s)) (Z.abs (ix (squares b) s))) = s) ->
  boardToIndex b = true.
Proof.
  intros H. unfold boardToIndex. apply forallb_forall. intros s Hs.
  apply In_range in Hs. cbv zeta.
  destruct (Z.eqb_spec (ix (squares b) s) 0) as [E|E]; [reflexivity|].
  destruct (H s Hs E) as [[E1 E2] E3]. cbn [orb].
  rewrite (proj2 (Z.leb_le _ _) E1), (proj2 (Z.leb_le _ _) E2), E3, Z.eqb_refl.
  reflexivity.
Qed.

Lemma legal_move b m :
  indexToBoard b = true -> (sideToMove b = LIGHT \/ sideToMove b = DARK) ->
  In m (generateMoves b) -> exists rk sq to, legalAt b m rk sq to.
Proof.
  intros Hi Hc Hin. apply generateMoves_In in Hin.
  destruct Hin as (rk & Hrk & Hsq & Hm).
  destruct (indexToBoard_sq b _ rk Hi Hc Hrk) as [E|[Hr Hp]]; [lia|].
  set (sq := ix (pieceSq b) (psIdx (sideToMove b) rk)) in *.
  assert (Hland : forall to, landingOk b sq rk (sideToMove b) to = true ->
            ix (squares b) to = 0 \/ colorOf (ix (squares b) to) <> sideToMove b).
  { intros to H. unfold landingOk in H. apply andb_true_iff in H. destruct H as [_ H].
    apply orb_true_iff in H. destruct H as [H|H].
    - left. apply Z.eqb_eq. exact H.
    - right. apply andb_true_iff in H. destruct H as [H _].
      apply negb_true_iff, Z.eqb_neq in H. exact H. }
  destruct Hm as [Hm|[_ Hm]].
  - apply addNormalMoves_In in Hm. destruct Hm as (d & Hd & Hs & Hok & E).
    exists rk, sq, (sq + d). constructor; auto.
    + apply canStep_range. exact Hs.
    + unfold DIRS, DIR_N, DIR_S, DIR_E, DIR_W in Hd. cbn [In] in Hd. lia.
    + apply Hland. unfold stepOk in Hok. apply andb_true_iff in Hok. tauto.
  - apply addJumpMoves_In in Hm. destruct Hm as (to & ws & Hj & Hok & _ & E).
    destruct (jumpsOf_ok sq to ws Hr Hj) as (_ & Hto & Hne & _).
    exists rk, sq, to. constructor; auto.
Qed.

Lemma makeMove_moved b m rk sq to :
  (sideToMove b = LIGHT \/ sideToMove b = DARK) ->
  legalAt b m rk sq to -> makeMove b m = moved b m rk sq to.
Proof.
  intros Hc [Hrk Hsq Hsr Htr Hne Hm Hp Ht]. apply In_ranks in Hrk.
  unfold NUM_SQ in *.
  destruct (encode_decode sq to ltac:(lia) ltac:(lia)) as [Hf Hto].
  rewrite <- Hm in Hf, Hto.
  unfold makeMove, moved. cbv zeta. rewrite Hf, Hto, Hp.
  rewrite (signed_abs _ rk) by lia.
  rewrite (colorOf_signed _ rk Hc) by lia.
  rewrite (int8_id to) by lia.
  assert (Hk1 : zobristPiece sq rk (sideToMove b) = pieceKey sq (signed (sideToMove b) rk)).
  { unfold pieceKey. destruct (Z.eqb_spec (signed (sideToMove b) rk) 0) as [E|E].
    - exfalso. apply (signed_nonzero (sideToMove b) rk); [lia | exact E].
    - rewrite (signed_abs _ rk) by lia. rewrite (colorOf_signed _ rk Hc) by lia. reflexivity. }
  assert (Hk2 : zobristPiece to rk (sideToMove b) = pieceKey to (signed (sideToMove b) rk)).
  { unfold pieceKey. destruct (Z.eqb_spec (signed (sideToMove b) rk) 0) as [E|E].
    - exfalso. apply (signed_nonzero (sideToMove b) rk); [lia | exact E].
    - rewrite (signed_abs _ rk) by lia. rewrite (colorOf_signed _ rk Hc) by lia. reflexivity. }
  rewrite Hk1, Hk2.
  assert (Hh : (if ix (squares b) to =? 0 then hash b
                else Z.lxor (hash b)
                       (zobristPiece to (Z.abs (ix (squares b) to)) (colorOf (ix (squares b) to))))
               = Z.lxor (hash b) (pieceKey to (ix (squares b) to))).
  { unfold pieceKey. destruct (ix (squares b) to =? 0); [rewrite Z.lxor_0_r|]; reflexivity. }
  rewrite Hh. reflexivity.
Qed.

Ltac proj_simpl :=
  cbn [squares sideToMove hash ply halfmove pieceSq pieceCount undoStack
       posHistory histLen u_captured u_hash u_halfmove u_move].

Lemma squares_restore (s : list Z) sq to p c :
  sq <> to -> p = ix s sq -> c = ix s to ->
  upd (upd (upd (upd s to p) sq 0) sq p) to c = s.
Proof.
  intros Hne -> ->.
  rewrite upd_upd_eq, (upd_comm _ to sq) by congruence.
  rewrite upd_upd_eq, upd_same, upd_same. reflexivity.
Qed.

Lemma index_restore_quiet (ps : list Z) i sq to :
  ix ps i = sq -> upd (upd ps i to) i sq = ps.
Proof. intros <-. rewrite upd_upd_eq. apply upd_same. Qed.

Lemma index_restore_capture (ps : list Z) i j sq to :
  i <> j -> ix ps i = sq -> ix ps j = to ->
  upd (upd (upd (upd ps j (-1)) i to) i sq) j to = ps.
Proof.
  intros Hne <- <-.
  rewrite upd_upd_eq, (upd_comm _ j i) by congruence.
  rewrite upd_upd_eq, upd_same, upd_same. reflexivity.
Qed.

Lemma count_restore (pc : list Z) c :
  0 <= c < Z.of_nat (length pc) ->
  upd (upd pc c (ix pc c - 1)) c (ix (upd pc c (ix pc c - 1)) c + 1) = pc.
Proof.
  intros H. rewrite ix_upd_eq by exact H. rewrite upd_upd_eq.
  replace (ix pc c - 1 + 1) with (ix pc c) by lia. apply upd_same.
Qed.

Lemma roundtrip_moved b m rk sq to :
  wf b -> legalAt b m rk sq to -> histLen b < MAX_GAME_LEN ->
  let Q := unmakeMove (moved b m rk sq to) in
  squares Q = squares b /\ pieceSq Q = pieceSq b /\ pieceCount Q = pieceCount b
  /\ hash Q = hash b /\ halfmove Q = halfmove b /\ histLen Q = histLen b
  /\ sideToMove Q = sideToMove b /\ ply Q = ply b.
Proof.
  intros W [Hrk Hsq Hsr Htr Hne Hm Hp Ht] Hcap.
  destruct W as [Ws Wps Wpc Wu Wh Wc Wi Wb Whash Wply Wlen Wtop].
  apply In_ranks in Hrk. unfold NUM_SQ, MAX_GAME_LEN in *.
  destruct (encode_decode sq to ltac:(lia) ltac:(lia)) as [Hf Hto].
  rewrite <- Hm in Hf, Hto.
  unfold unmakeMove, moved. cbv zeta. proj_simpl.
  replace (ply b + 1 - 1) with (ply b) by lia.
  rewrite ixU_upd_eq by (rewrite Wu; lia). proj_simpl.
  rewrite Hf, Hto.
  assert (Hrd : ix (upd (upd (squares b) to (signed (sideToMove b) rk)) sq 0) to
                = signed (sideToMove b) rk).
  { rewrite ix_upd_ne by congruence. apply ix_upd_eq. rewrite Ws. lia. }
  rewrite Hrd.
  rewrite (signed_abs _ rk) by lia.
  rewrite (colorOf_signed _ rk Wc) by lia.
  rewrite (int8_id sq), (int8_id to) by lia.
  split; [|split; [|split; [|repeat split; lia]]].
  - apply squares_restore; [congruence | symmetry; exact Hp | reflexivity].
  - destruct (Z.eqb_spec (ix (squares b) to) 0) as [E|E].
    + apply index_restore_quiet. symmetry. exact Hsq.
    + destruct (boardToIndex_sq b to Wb ltac:(unfold NUM_SQ; lia) E) as [Hr Hidx].
      destruct Ht as [Ht|Ht]; [contradiction|].
      apply index_restore_capture; [| symmetry; exact Hsq | exact Hidx].
      intros Heq.
      destruct (psIdx_inj _ _ _ _ Wc (colorOf_cases _) Hrk Hr Heq) as [Ec _].
      congruence.
  - destruct (Z.eqb_spec (ix (squares b) to) 0) as [E|E]; [reflexivity|].
    apply count_restore. rewrite Wpc.
    destruct (colorOf_cases (ix (squares b) to)) as [-> | ->]; unfold LIGHT, DARK; lia.
Qed.

Lemma signed_inj c rk c' rk' :
  (c = LIGHT \/ c = DARK) -> (c' = LIGHT \/ c' = DARK) -> 0 < rk -> 0 < rk' ->
  signed c rk = signed c' rk' -> c = c' /\ rk = rk'.
Proof.
  unfold signed, LIGHT, DARK. intros [-> | ->] [-> | ->]; cbn [Z.eqb]; lia.
Qed.

Lemma pieceKey_zero sq : pieceKey sq 0 = 0.
Proof. unfold pieceKey. rewrite Z.eqb_refl. reflexivity. Qed.

Opaque hashOf pieceKey zobristPiece zobristSide zobristTable.

Lemma hash_moved b m rk sq to :
  wf b -> legalAt b m rk sq to ->
  hash (moved b m rk sq to) = computeHash (moved b m rk sq to).
Proof.
  intros W [Hrk Hsq Hsr Htr Hne Hm Hp Ht].
  destruct W as [Ws Wps Wpc Wu Wh Wc Wi Wb Whash Wply Wlen Wtop].
  unfold computeHash, moved. cbv zeta. proj_simpl.
  rewrite hashOf_upd by (rewrite ?upd_length; assumption).
  rewrite ix_upd_ne by congruence.
  rewrite hashOf_upd by assumption.
  rewrite (hashOf_side _ _ Wc), pieceKey_zero, Hp.
  unfold computeHash in Whash. rewrite <- Whash.
  xor_solve.
Qed.

Lemma wf_moved b m rk sq to :
  wf b -> legalAt b m rk sq to -> histLen b < MAX_GAME_LEN ->
  wf (moved b m rk sq to).
Proof.
  intros W L Hcap. pose proof (hash_moved b m rk sq to W L) as Hh.
  destruct L as [Hrk Hsq Hsr Htr Hne Hm Hp Ht].
  destruct W as [Ws Wps Wpc Wu Wh Wc Wi Wb Whash Wply Wlen Wtop].
  apply In_ranks in Hrk.
  set (stm := sideToMove b) in *. set (piece := signed stm rk) in *.
  set (cap := ix (squares b) to) in *.
  set (i := psIdx stm rk) in *.
  set (j := psIdx (colorOf cap) (Z.abs cap)) in *.
  assert (Hi : 0 <= i < 18) by (apply psIdx_range; assumption).
  assert (Hcapidx : cap <> 0 -> 1 <= Z.abs cap <= 8 /\ ix (pieceSq b) j = to /\ i <> j).
  { intros E. destruct (boardToIndex_sq b to Wb Htr E) as [Hr Hidx].
    repeat split; try lia; [exact Hidx|].
    destruct Ht as [Ht|Ht]; [contradiction|].
    intros Heq. destruct (psIdx_inj _ _ _ _ Wc (colorOf_cases _) Hrk Hr Heq) as [Ec _].
    fold cap in Ht. congruence. }
  assert (Hsqs : forall s, s <> sq -> s <> to ->
            ix (upd (upd (squares b) to piece) sq 0) s = ix (squares b) s).
  { intros s H1 H2. rewrite !ix_upd_ne by congruence. reflexivity. }
  assert (Hto : ix (upd (upd (squares b) to piece) sq 0) to = piece).
  { rewrite ix_upd_ne by congruence. apply ix_upd_eq. rewrite Ws. unfold NUM_SQ in Htr. lia. }
  assert (Hfrom : ix (upd (upd (squares b) to piece) sq 0) sq = 0).
  { apply ix_upd_eq. rewrite upd_length, Ws. unfold NUM_SQ in Hsr. lia. }
  set (ps1 := if cap =? 0 then pieceSq b else upd (pieceSq b) j (-1)).
  assert (Hps1len : length ps1 = 18%nat).
  { unfold ps1. destruct (cap =? 0); rewrite ?upd_length; exact Wps. }
  assert (Hpsi : ix (upd ps1 i to) i = to).
  { apply ix_upd_eq. rewrite Hps1len. lia. }
  assert (Hpsk : forall k, k <> i -> (cap <> 0 -> k <> j) ->
            ix (upd ps1 i to) k = ix (pieceSq b) k).
  { intros k H1 H2. rewrite ix_upd_ne by congruence. unfold ps1.
    destruct (Z.eqb_spec cap 0) as [E|E]; [reflexivity|].
    rewrite ix_upd_ne; [reflexivity|]. intros Ej. apply (H2 E). congruence. }
  assert (Hpsj : cap <> 0 -> ix (upd ps1 i to) j = -1).
  { intros E. destruct (Hcapidx E) as (Hr & Hidx & Hij).
    rewrite ix_upd_ne by exact Hij. unfold ps1.
    destruct (Z.eqb_spec cap 0) as [E'|_]; [contradiction|].
    apply ix_upd_eq. rewrite Wps.
    pose proof (psIdx_range _ _ (colorOf_cases cap) Hr). fold j in H. lia. }
  constructor; unfold moved; cbv zeta; proj_simpl;
    fold stm; fold piece; fold cap; fold i; fold j; fold ps1.
  - rewrite !upd_length. exact Ws.
  - rewrite upd_length. exact Hps1len.
  - destruct (cap =? 0); rewrite ?upd_length; exact Wpc.
  - rewrite upd_length. exact Wu.
  - rewrite upd_length. exact Wh.
  - destruct Wc as [-> | ->]; [right | left]; reflexivity.
  - apply indexToBoard_intro. proj_simpl. intros c r Hc Hr.
    cbv zeta.
    destruct (Z.eq_dec (psIdx c r) i) as [Ei|Ei].
    { rewrite Ei, Hpsi. right. split; [exact Htr|]. rewrite Hto.
      destruct (psIdx_inj _ _ _ _ Hc Wc Hr Hrk Ei) as [-> ->]. reflexivity. }
    destruct (Z.eq_dec cap 0) as [Ec|Ec].
    + rewrite Hpsk by (auto; contradiction).
      destruct (indexToBoard_sq b c r Wi Hc (proj2 (In_ranks r) Hr)) as [E|[Hs Hv]];
        [left; exact E | right].
      split; [exact Hs|]. rewrite Hsqs; [exact Hv| |].
      * intros Es. rewrite Es, Hp in Hv.
        destruct (signed_inj stm rk c r Wc Hc ltac:(lia) ltac:(lia) Hv) as [E1 E2].
        subst c r.
        apply Ei. reflexivity.
      * intros Es. rewrite Es in Hv. fold cap in Hv. rewrite Ec in Hv.
        symmetry in Hv. apply signed_nonzero in Hv; [exact Hv | lia].
    + destruct (Z.eq_dec (psIdx c r) j) as [Ej|Ej].
      { rewrite Ej, (Hpsj Ec). left. reflexivity. }
      rewrite Hpsk by auto.
      destruct (indexToBoard_sq b c r Wi Hc (proj2 (In_ranks r) Hr)) as [E|[Hs Hv]];
        [left; exact E | right].
      split; [exact Hs|]. rewrite Hsqs; [exact Hv| |].
      * intros Es. rewrite Es, Hp in Hv.
        destruct (signed_inj stm rk c r Wc Hc ltac:(lia) ltac:(lia) Hv) as [E1 E2].
        subst c r.
        apply Ei. reflexivity.
      * intros Es. rewrite Es in Hv. fold cap in Hv.
        apply Ej. unfold j. rewrite Hv.
        rewrite (colorOf_signed _ _ Hc) by lia. rewrite signed_abs by lia. reflexivity.
  - apply boardToIndex_intro. proj_simpl. intros s Hs Hv.
    destruct (Z.eq_dec s sq) as [Es|Es].
    { exfalso. apply Hv. rewrite Es. exact Hfrom. }
    destruct (Z.eq_dec s to) as [Et|Et].
    { rewrite Et, Hto. unfold piece.
      rewrite signed_abs by lia. rewrite (colorOf_signed _ _ Wc) by lia.
      split; [lia | exact Hpsi]. }
    rewrite Hsqs in * by assumption.
    destruct (boardToIndex_sq b s Wb Hs Hv) as [Hr Hidx].
    split; [exact Hr|]. rewrite Hpsk; [exact Hidx | |].
    + intros Ek. rewrite Ek in Hidx. congruence.
    + intros Ec Ek. destruct (Hcapidx Ec) as (_ & Hj & _).
      rewrite Ek in Hidx. congruence.
  - exact Hh.
  - lia.
  - lia.
  - replace (histLen b + 1 - 1) with (histLen b) by lia.
    apply ix_upd_eq. rewrite Wh. unfold MAX_GAME_LEN in *. lia.
Qed.

Lemma indexToBoard_ext b b' :
  squares b = squares b' -> pieceSq b = pieceSq b' -> indexToBoard b = indexToBoard b'.
Proof. unfold indexToBoard. intros -> ->. reflexivity. Qed.

Lemma boardToIndex_ext b b' :
  squares b = squares b' -> pieceSq b = pieceSq b' -> boardToIndex b = boardToIndex b'.
Proof. unfold boardToIndex. intros -> ->. reflexivity. Qed.

Lemma wf_null b : wf b -> histLen b < MAX_GAME_LEN -> wf (makeNullMove b).
Proof.
  intros [Ws Wps Wpc Wu Wh Wc Wi Wb Whash Wply Wlen Wtop] Hcap.
  constructor; unfold makeNullMove; proj_simpl.
  - exact Ws.
  - exact Wps.
  - exact Wpc.
  - rewrite upd_length. exact Wu.
  - rewrite upd_length. exact Wh.
  - destruct Wc as [-> | ->]; [right | left]; reflexivity.
  - rewrite <- Wi. apply indexToBoard_ext; reflexivity.
  - rewrite <- Wb. apply boardToIndex_ext; reflexivity.
  - unfold computeHash. proj_simpl. rewrite (hashOf_side _ _ Wc).
    unfold computeHash in Whash. rewrite <- Whash. reflexivity.
  - lia.
  - lia.
  - replace (histLen b + 1 - 1) with (histLen b) by lia.
    apply ix_upd_eq. rewrite Wh. unfold MAX_GAME_LEN in *. lia.
Qed.

Lemma roundtrip_null b :
  wf b -> histLen b < MAX_GAME_LEN ->
  let N := unmakeNullMove (makeNullMove b) in
  squares N = squares b /\ pieceSq N = pieceSq b /\ pieceCount N = pieceCount b
  /\ hash N = hash b /\ halfmove N = halfmove b /\ histLen N = histLen b
  /\ sideToMove N = sideToMove b /\ ply N = ply b.
Proof.
  intros [Ws Wps Wpc Wu Wh Wc Wi Wb Whash Wply Wlen Wtop] Hcap.
  unfold MAX_GAME_LEN in *.
  unfold unmakeNullMove, makeNullMove. cbv zeta. proj_simpl.
  replace (ply b + 1 - 1) with (ply b) by lia.
  rewrite ixU_upd_eq by (rewrite Wu; lia). proj_simpl.
  repeat split; lia.
Qed.

Lemma wf_init b : storage b -> wf (init b).
Proof.
  intros (S1 & S2 & S3).
  constructor; unfold init; proj_simpl.
  - vm_compute. reflexivity.
  - vm_compute. reflexivity.
  - rewrite !upd_length. exact S1.
  - exact S2.
  - rewrite upd_length. exact S3.
  - left. reflexivity.
  - vm_compute. reflexivity.
  - vm_compute. reflexivity.
  - reflexivity.
  - lia.
  - reflexivity.
  - apply ix_upd_eq. rewrite S3. unfold MAX_GAME_LEN. lia.
Qed.

Lemma fenLoop_lengths cs : forall row col st st' rest,
  fenLoop cs row col st = FenDone st' rest ->
  length (f_squares st') = length (f_squares st)
  /\ length (f_pieceSq st') = length (f_pieceSq st)
  /\ length (f_pieceCount st') = length (f_pieceCount st).
Proof.
  induction cs as [|ch cs IH]; intros row col st st' rest H; cbn [fenLoop] in H.
  - injection H as <- _. auto.
  - destruct (negb (row >=? 0)); [injection H as <- _; auto|].
    destruct (ch =? 47); [exact (IH _ _ _ _ _ H)|].
    destruct (ch =? 32); [injection H as <- _; auto|].
    destruct ((ch >=? 49) && (ch <=? 55)); [exact (IH _ _ _ _ _ H)|].
    destruct (charToRank ch =? 0); [discriminate|].
    destruct (negb ((0 <=? makeSq row col) && (makeSq row col <? NUM_SQ)));
      [discriminate|].
    destruct (IH _ _ _ _ _ H) as (H1 & H2 & H3).
    cbn [f_squares f_pieceSq f_pieceCount] in H1, H2, H3.
    rewrite upd_length in H1, H2, H3. auto.
Qed.

Lemma fenSide_cases rest : fenSide rest = LIGHT \/ fenSide rest = DARK.
Proof.
  unfold fenSide. destruct (skipSpaces rest) as [|ch ?]; [left; reflexivity|].
  destruct (ch =? 98); auto.
Qed.

Lemma wf_fen b fen P :
  storage b -> setFEN b fen = Some (true, P) ->
  indexToBoard P = true ->
  boardToIndex P = true ->
  wf P.
Proof.
  intros (S1 & S2 & S3). unfold setFEN, setFENc.
  set (st0 := mkFen _ _ _).
  destruct (fenLoop (chars fen) 8 0 st0) as [st|st rest|] eqn:E;
    [discriminate| |discriminate].
  intros H Hi Hb. injection H as <-.
  destruct (fenLoop_lengths _ _ _ _ _ _ E) as (H1 & H2 & H3).
  unfold st0 in H1, H2, H3. cbn [f_squares f_pieceSq f_pieceCount] in H1, H2, H3.
  rewrite !upd_length in H3. rewrite length_replicate in H1, H2.
  constructor; proj_simpl.
  - exact H1.
  - exact H2.
  - rewrite H3. exact S1.
  - exact S2.
  - rewrite upd_length. exact S3.
  - apply fenSide_cases.
  - exact Hi.
  - exact Hb.
  - reflexivity.
  - lia.
  - reflexivity.
  - apply ix_upd_eq. rewrite S3. unfold MAX_GAME_LEN. lia.
Qed.

Lemma wf_sameLive P Q : wf P -> sameLive P Q -> wf Q.
Proof.
  intros [Ws Wps Wpc Wu Wh Wc Wi Wb Whash Wply Wlen Wtop]
         (E1 & E2 & E3 & E4 & E5 & E6 & E7 & E8 & E9 & E10 & _ & E12).
  constructor.
  - rewrite E1. exact Ws.
  - rewrite E6. exact Wps.
  - rewrite E7. exact Wpc.
  - rewrite E9. exact Wu.
  - rewrite E10. exact Wh.
  - rewrite E2. exact Wc.
  - rewrite <- Wi. apply indexToBoard_ext; assumption.
  - rewrite <- Wb. apply boardToIndex_ext; assumption.
  - unfold computeHash. rewrite E1, E2, E3. exact Whash.
  - rewrite E4. exact Wply.
  - rewrite E4, E8. exact Wlen.
  - rewrite E8, E3, <- Wtop.
    rewrite <- (ix_firstn (posHistory Q) (Z.to_nat (histLen P))) by lia.
    rewrite <- (ix_firstn (posHistory P) (Z.to_nat (histLen P))) by lia.
    rewrite E12. reflexivity.
Qed.

Lemma reachable_wf P : reachable P -> wf P.
Proof.
  induction 1 as [b Hs | b fen P Hs Hok Hi Hb | P m HP IH Hm Hcap | P HP IH Hcap
                 | P Q HP IH HQ].
  - apply wf_init. exact Hs.
  - apply (wf_fen b fen); assumption.
  - destruct (legal_move P m (wf_index P IH) (wf_side P IH) Hm) as (rk & sq & to & L).
    rewrite (makeMove_moved P m rk sq to (wf_side P IH) L).
    apply wf_moved; assumption.
  - apply wf_null; assumption.
  - apply (wf_sameLive P Q); assumption.
Qed.

(** Undoing a move or a null move leads back into the set of reachable
    positions. *)
Lemma reachable_unmake P m :
  reachable P -> In m (generateMoves P) -> histLen P < MAX_GAME_LEN ->
  reachable (unmakeMove (makeMove P m)).
Proof.
  intros HP Hm Hcap. pose proof (reachable_wf P HP) as W.
  apply (reach_dead P); [exact HP|].
  destruct (legal_move P m (wf_index P W) (wf_side P W) Hm) as (rk & sq & to & L).
  rewrite (makeMove_moved P m rk sq to (wf_side P W) L).
  destruct (roundtrip_moved P m rk sq to W L Hcap)
    as (Q1 & Q2 & Q3 & Q4 & Q5 & Q6 & Q7 & Q8).
  cbv zeta in Q1, Q2, Q3, Q4, Q5, Q6, Q7, Q8.
  destruct W as [Ws Wps Wpc Wu Wh Wc Wi Wb Whash Wply Wlen Wtop].
  unfold sameLive. rewrite Q1, Q2, Q3, Q4, Q5, Q6, Q7, Q8.
  do 8 (split; [reflexivity|]).
  unfold unmakeMove, moved. cbv zeta. proj_simpl. rewrite !upd_length.
  do 2 (split; [reflexivity|]).
  unfold upd. destruct (Z.ltb_spec (ply P) 0); [lia|].
  destruct (Z.ltb_spec (histLen P) 0); [lia|].
  rewrite !take_insert_ge by lia. split; reflexivity.
Qed.

Lemma reachable_unmakeNull P :
  reachable P -> histLen P < MAX_GAME_LEN ->
  reachable (unmakeNullMove (makeNullMove P)).
Proof.
  intros HP Hcap. pose proof (reachable_wf P HP) as W.
  apply (reach_dead P); [exact HP|].
  destruct (roundtrip_null P W Hcap) as (Q1 & Q2 & Q3 & Q4 & Q5 & Q6 & Q7 & Q8).
  cbv zeta in Q1, Q2, Q3, Q4, Q5, Q6, Q7, Q8.
  destruct W as [Ws Wps Wpc Wu Wh Wc Wi Wb Whash Wply Wlen Wtop].
  unfold sameLive. rewrite Q1, Q2, Q3, Q4, Q5, Q6, Q7, Q8.
  do 8 (split; [reflexivity|]).
  unfold unmakeNullMove, makeNullMove. cbv zeta. proj_simpl. rewrite !upd_length.
  do 2 (split; [reflexivity|]).
  unfold upd. destruct (Z.ltb_spec (ply P) 0); [lia|].
  destruct (Z.ltb_spec (histLen P) 0); [lia|].
  rewrite !take_insert_ge by lia. split; reflexivity.
Qed.

(** *** Make / unmake *)

(** C1: for every reachable position and every generated move, within the
    capacity of the stacks, [makeMove] followed by [unmakeMove] restores the
    board, the reverse index, the piece counts, the hash, the halfmove clock
    and the history length (and the side to move and the ply); so does
    [makeNullMove] followed by [unmakeNullMove]. *)
Theorem make_unmake_roundtrip (P : Board) (m : Z) :
  reachable P -> In m (generateMoves P) -> histLen P < MAX_GAME_LEN ->
  (let Q := unmakeMove (makeMove P m) in
   squares Q = squares P /\ pieceSq Q = pieceSq P /\ pieceCount Q = pieceCount P
   /\ hash Q = hash P /\ halfmove Q = halfmove P /\ histLen Q = histLen P
   /\ sideToMove Q = sideToMove P /\ ply Q = ply P)
  /\ (let N := unmakeNullMove (makeNullMove P) in
      squares N = squares P /\ pieceSq N = pieceSq P /\ pieceCount N = pieceCount P
      /\ hash N = hash P /\ halfmove N = halfmove P /\ histLen N = histLen P
      /\ sideToMove N = sideToMove P /\ ply N = ply P).
Proof.
  intros HP Hm Hcap. pose proof (reachable_wf P HP) as W.
  split; [|apply roundtrip_null; assumption].
  destruct (legal_move P m (wf_index P W) (wf_side P W) Hm) as (rk & sq & to & L).
  rewrite (makeMove_moved P m rk sq to (wf_side P W) L).
  apply roundtrip_moved; assumption.
Qed.

(** C2: in every reachable position the hash equals its full recomputation;
    for every generated move, within the capacity of the stacks, the hash
    after [makeMove] equals [computeHash] of the resulting position, and after
    [unmakeMove] it is the hash of the position before, again equal to its
    recomputation; likewise for [makeNullMove] and [unmakeNullMove]. *)
Theorem zobrist_incremental (P : Board) (m : Z) :
  reachable P -> In m (generateMoves P) -> histLen P < MAX_GAME_LEN ->
  hash P = computeHash P
  /\ hash (makeMove P m) = computeHash (makeMove P m)
  /\ hash (unmakeMove (makeMove P m)) = hash P
  /\ hash (unmakeMove (makeMove P m)) = computeHash (unmakeMove (makeMove P m))
  /\ hash (makeNullMove P) = computeHash (makeNullMove P)
  /\ hash (unmakeNullMove (makeNullMove P)) = hash P
  /\ hash (unmakeNullMove (makeNullMove P))
     = computeHash (unmakeNullMove (makeNullMove P)).
Proof.
  intros HP Hm Hcap. pose proof (reachable_wf P HP) as W.
  destruct (legal_move P m (wf_index P W) (wf_side P W) Hm) as (rk & sq & to & L).
  rewrite (makeMove_moved P m rk sq to (wf_side P W) L).
  destruct (roundtrip_moved P m rk sq to W L Hcap) as (Q1 & _ & _ & Q4 & _ & _ & Q7 & _).
  destruct (roundtrip_null P W Hcap) as (N1 & _ & _ & N4 & _ & _ & N7 & _).
  cbv zeta in Q1, Q4, Q7, N1, N4, N7.
  split; [exact (wf_hash P W)|].
  split; [exact (hash_moved P m rk sq to W L)|].
  split; [exact Q4|].
  split; [unfold computeHash; rewrite Q1, Q4, Q7; exact (wf_hash P W)|].
  split; [exact (wf_hash _ (wf_null P W Hcap))|].
  split; [exact N4|].
  unfold computeHash. rewrite N1, N4, N7. exact (wf_hash P W).
Qed.

Lemma start_reachable : reachable (init zeroBoard).
Proof. apply reach_init. repeat split; reflexivity. Qed.

Lemma make_unmake_roundtrip_witness :
  (let Q := unmakeMove (makeMove (init zeroBoard) a3a4) in
   squares Q = squares (init zeroBoard) /\ pieceSq Q = pieceSq (init zeroBoard)
   /\ pieceCount Q = pieceCount (init zeroBoard)
   /\ hash Q = hash (init zeroBoard) /\ halfmove Q = halfmove (init zeroBoard)
   /\ histLen Q = histLen (init zeroBoard)
   /\ sideToMove Q = sideToMove (init zeroBoard) /\ ply Q = ply (init zeroBoard))
  /\ (let N := unmakeNullMove (makeNullMove (init zeroBoard)) in
      squares N = squares (init zeroBoard) /\ pieceSq N = pieceSq (init zeroBoard)
      /\ pieceCount N = pieceCount (init zeroBoard)
      /\ hash N = hash (init zeroBoard) /\ halfmove N = halfmove (init zeroBoard)
      /\ histLen N = histLen (init zeroBoard)
      /\ sideToMove N = sideToMove (init zeroBoard) /\ ply N = ply (init zeroBoard)).
Proof.
  apply (make_unmake_roundtrip (init zeroBoard) a3a4).
  - apply reach_init. repeat split; reflexivity.
  - apply In_existsb. vm_compute. reflexivity.
  - vm_compute. reflexivity.
Defined.

Lemma zobrist_incremental_witness :
  hash (init zeroBoard) = computeHash (init zeroBoard)
  /\ hash (makeMove (init zeroBoard) a3a4) = computeHash (makeMove (init zeroBoard) a3a4)
  /\ hash (unmakeMove (makeMove (init zeroBoard) a3a4)) = hash (init zeroBoard)
  /\ hash (unmakeMove (makeMove (init zeroBoard) a3a4))
     = computeHash (unmakeMove (makeMove (init zeroBoard) a3a4))
  /\ hash (makeNullMove (init zeroBoard)) = computeHash (makeNullMove (init zeroBoard))
  /\ hash (unmakeNullMove (makeNullMove (init zeroBoard))) = hash (init zeroBoard)
  /\ hash (unmakeNullMove (makeNullMove (init zeroBoard)))
     = computeHash (unmakeNullMove (makeNullMove (init zeroBoard))).
Proof.
  apply (zobrist_incremental (init zeroBoard) a3a4).
  - apply reach_init. repeat split; reflexivity.
  - apply In_existsb. vm_compute. reflexivity.
  - vm_compute. reflexivity.
Defined.

(** Scenario S2: after a3a4 from the start position the Elephant stands on
    a4, the hash has changed, and [unmakeMove] brings back the start hash. *)
Example s2_elephant_advances (b : Board) :
  ix (squares (makeMove (init b) a3a4)) 21 = signed LIGHT ELEPHANT
  /\ ix (squares (makeMove (init b) a3a4)) 14 = 0
  /\ hash (makeMove (init b) a3a4) <> hash (init b).
Proof.
  repeat split; try (vm_compute; reflexivity). vm_compute. discriminate.
Qed.

(** *** Repetition along a cycle *)

Lemma isRepetition_matches (b : Board) :
  isRepetition b
  = (2 <=? matches (posHistory b) (hash b)
             (descFrom (Z.to_nat (histLen b)) (histLen b - 3))).
Proof.
  unfold isRepetition.
  destruct (Z.ltb_spec (histLen b) 5) as [H|H].
  - symmetry. apply Z.leb_gt. unfold matches.
    pose proof (descFrom_short (Z.to_nat (histLen b)) (histLen b - 3) ltac:(lia)) as Hs.
    pose proof (filter_length_le (fun j => ix (posHistory b) j =? hash b)
                  (descFrom (Z.to_nat (histLen b)) (histLen b - 3))). lia.
  - rewrite repLoop_count by lia. reflexivity.
Qed.

Lemma matches_fresh hist h n : forall i,
  (forall j, 0 <= j <= i -> ix hist j <> h) ->
  matches hist h (descFrom n i) = 0.
Proof.
  induction n as [|n IH]; intros i Hf; [reflexivity|].
  cbn [descFrom]. destruct (Z.geb_spec i 0) as [Hi|Hi]; cbn [negb]; [|reflexivity].
  rewrite matches_cons, IH by (intros; apply Hf; lia).
  destruct (Z.eqb_spec (ix hist i) h) as [E|E]; [|reflexivity].
  exfalso. apply (Hf i); [lia | exact E].
Qed.

Lemma matches_countBack hist h hs L :
  1 <= L ->
  (forall j, 0 <= j < L - 1 -> ix hist j <> h) ->
  forall k,
    (forall i, (i <= k)%nat -> ix hist (L - 1 + Z.of_nat i) = hs i) ->
    (forall n, L + Z.of_nat k - 2 <= Z.of_nat n ->
       matches hist h (descFrom n (L - 3 + Z.of_nat k)) = countBack hs h k)
    /\ (forall n, L + Z.of_nat k - 1 <= Z.of_nat n ->
          matches hist h (descFrom n (L - 3 + Z.of_nat (S k))) = countBack hs h (S k)).
Proof.
  intros HL Hf. induction k as [|k IH]; intros Hs.
  - split; intros n Hn; cbn [countBack]; apply matches_fresh; intros; apply Hf; lia.
  - destruct IH as [IH1 IH2]; [intros; apply Hs; lia|].
    split; [intros n Hn; apply IH2; lia|]. intros n Hn.
    destruct n as [|n]; [lia|].
    cbn [descFrom countBack].
    destruct (Z.geb_spec (L - 3 + Z.of_nat (S (S k))) 0) as [Hj|Hj]; cbn [negb]; [|lia].
    rewrite matches_cons.
    replace (L - 3 + Z.of_nat (S (S k))) with (L - 1 + Z.of_nat k) by lia.
    rewrite Hs by lia.
    replace (L - 1 + Z.of_nat k - 2) with (L - 3 + Z.of_nat k) by lia.
    rewrite IH1 by lia. reflexivity.
Qed.

Lemma playMoves_app b ms ms' :
  playMoves b (ms ++ ms') = playMoves (playMoves b ms) ms'.
Proof. unfold playMoves. apply fold_left_app. Qed.

Lemma posHistory_playMoves ms : forall b j,
  0 <= histLen b ->
  histLen b + Z.of_nat (length ms) <= Z.of_nat (length (posHistory b)) ->
  ix (posHistory (playMoves b ms)) j =
  if (histLen b <=? j) && (j <? histLen b + Z.of_nat (length ms))
  then hash (playMoves b (firstn (Z.to_nat (j - histLen b + 1)) ms))
  else ix (posHistory b) j.
Proof.
  induction ms as [|m ms IH]; intros b j H0 Hl.
  - cbn [playMoves fold_left length].
    destruct (Z.leb_spec (histLen b) j); destruct (Z.ltb_spec j (histLen b + Z.of_nat 0));
      cbn [andb]; try reflexivity. lia.
  - cbn [length] in Hl. change (playMoves b (m :: ms)) with (playMoves (makeMove b m) ms).
    assert (E1 : histLen (makeMove b m) = histLen b + 1) by reflexivity.
    assert (E2 : posHistory (makeMove b m)
                 = upd (posHistory b) (histLen b) (hash (makeMove b m))) by reflexivity.
    rewrite IH by (rewrite ?E1, ?E2, ?upd_length; lia).
    rewrite E1, E2.
    destruct (Z.leb_spec (histLen b + 1) j) as [Ha|Ha];
      destruct (Z.ltb_spec j (histLen b + 1 + Z.of_nat (length ms))) as [Hb|Hb];
      cbn [andb].
    + destruct (Z.leb_spec (histLen b) j); [|lia].
      destruct (Z.ltb_spec j (histLen b + Z.of_nat (length (m :: ms)))) as [_|Hc];
        [|cbn [length] in Hc; lia].
      cbn [andb].
      replace (Z.to_nat (j - histLen b + 1)) with (S (Z.to_nat (j - (histLen b + 1) + 1))) by lia.
      reflexivity.
    + destruct (Z.ltb_spec j (histLen b + Z.of_nat (length (m :: ms)))) as [Hc|_];
        [cbn [length] in Hc; lia|].
      rewrite andb_false_r. apply ix_upd_ne. lia.
    + destruct (Z.ltb_spec j (histLen b + Z.of_nat (length (m :: ms)))) as [_|Hc];
        [|cbn [length] in Hc; lia].
      destruct (Z.leb_spec (histLen b) j) as [Hd|Hd]; cbn [andb].
      * assert (j = histLen b) by lia. subst j.
        rewrite ix_upd_eq by lia.
        replace (Z.to_nat (histLen b - histLen b + 1)) with 1%nat by lia.
        reflexivity.
      * apply ix_upd_ne. lia.
    + cbn [length] in *. lia.
Qed.

Lemma makeMove_depends b b' m :
  squares b = squares b' -> hash b = hash b' ->
  squares (makeMove b m) = squares (makeMove b' m)
  /\ hash (makeMove b m) = hash (makeMove b' m).
Proof.
  intros E1 E2. unfold makeMove. cbv zeta. proj_simpl. rewrite E1, E2.
  split; reflexivity.
Qed.

Lemma playMoves_depends ms : forall b b',
  squares b = squares b' -> hash b = hash b' ->
  squares (playMoves b ms) = squares (playMoves b' ms)
  /\ hash (playMoves b ms) = hash (playMoves b' ms).
Proof.
  induction ms as [|m ms IH]; intros b b' E1 E2; [split; assumption|].
  change (playMoves b (m :: ms)) with (playMoves (makeMove b m) ms).
  change (playMoves b' (m :: ms)) with (playMoves (makeMove b' m) ms).
  destruct (makeMove_depends b b' m E1 E2). apply IH; assumption.
Qed.

Lemma reachable_play ms : forall P,
  reachable P -> legalChain P ms ->
  histLen P + Z.of_nat (length ms) <= MAX_GAME_LEN ->
  reachable (playMoves P ms).
Proof.
  induction ms as [|m ms IH]; intros P HP Hc Hl; [exact HP|].
  destruct Hc as [Hm Hc]. cbn [length] in Hl.
  change (playMoves P (m :: ms)) with (playMoves (makeMove P m) ms).
  apply IH; [apply reach_make; [exact HP | exact Hm | lia] | exact Hc |].
  change (histLen (makeMove P m)) with (histLen P + 1). lia.
Qed.

Lemma sideToMove_four b m1 m2 m3 m4 :
  sideToMove (playMoves b [m1; m2; m3; m4]) = sideToMove b.
Proof.
  cbn [playMoves fold_left].
  change (sideToMove (makeMove (makeMove (makeMove (makeMove b m1) m2) m3) m4))
    with (1 - (1 - (1 - (1 - sideToMove b)))).
  lia.
Qed.

Section Cycle.

Variables (P : Board) (m1 m2 m3 m4 : Z).
Let cyc : list Z := [m1; m2; m3; m4].
Let hs (k : nat) : Z := hash (along P cyc k).

Hypothesis P_reachable : reachable P.
Hypothesis capacity : histLen P + 8 <= MAX_GAME_LEN.
Hypothesis cycle_legal : legalChain P cyc.
Hypothesis cycle_closes : squares (along P cyc 4) = squares P.
Hypothesis distinct_02 : hs 2 <> hs 0.
Hypothesis distinct_13 : hs 3 <> hs 1.
Hypothesis fresh :
  forall j k, 0 <= j < histLen P - 1 -> (k <= 3)%nat -> ix (posHistory P) j <> hs k.

Lemma cycle_hash_closes : hs 4 = hs 0.
Proof.
  unfold hs, along. cbn [firstn app cyc].
  fold (playMoves P []). change (playMoves P []) with P.
  assert (R : reachable (playMoves P [m1; m2; m3; m4])).
  { apply reachable_play; [exact P_reachable | exact cycle_legal |].
    cbn [length]. lia. }
  rewrite (wf_hash _ (reachable_wf _ R)), (wf_hash _ (reachable_wf _ P_reachable)).
  unfold computeHash. rewrite sideToMove_four.
  unfold along in cycle_closes. cbn [firstn app cyc] in cycle_closes.
  rewrite cycle_closes. reflexivity.
Qed.

Lemma cycle_second_round k :
  (k <= 4)%nat -> hs (4 + k) = hs k.
Proof.
  intros Hk. unfold hs, along.
  assert (E1 : firstn (4 + k) (cyc ++ cyc) = cyc ++ firstn k cyc).
  { do 5 (destruct k as [|k]; [reflexivity|]). lia. }
  assert (E2 : firstn k (cyc ++ cyc) = firstn k cyc).
  { do 5 (destruct k as [|k]; [reflexivity|]). lia. }
  rewrite E1, E2, playMoves_app.
  apply playMoves_depends.
  - unfold along in cycle_closes. cbn [firstn app cyc] in cycle_closes. exact cycle_closes.
  - pose proof cycle_hash_closes as H. unfold hs, along in H.
    cbn [firstn app cyc] in H. exact H.
Qed.

Lemma cycle_entries k i :
  (i <= k)%nat -> (k <= 8)%nat ->
  ix (posHistory (along P cyc k)) (histLen P - 1 + Z.of_nat i) = hs i.
Proof.
  intros Hi Hk. pose proof (reachable_wf _ P_reachable) as W.
  destruct W as [Ws Wps Wpc Wu Wh Wc Wi Wb Whash Wply Wlen Wtop].
  unfold MAX_GAME_LEN in *.
  assert (Hlen : length (firstn k (cyc ++ cyc)) = k).
  { rewrite length_take. cbn [length app cyc]. lia. }
  unfold along. rewrite posHistory_playMoves by (rewrite ?Hlen, ?Wh; lia).
  rewrite Hlen.
  destruct i as [|i].
  - destruct (Z.leb_spec (histLen P) (histLen P - 1 + Z.of_nat 0)); [lia|].
    cbn [andb]. replace (histLen P - 1 + Z.of_nat 0) with (histLen P - 1) by lia.
    rewrite Wtop. reflexivity.
  - destruct (Z.leb_spec (histLen P) (histLen P - 1 + Z.of_nat (S i))); [|lia].
    destruct (Z.ltb_spec (histLen P - 1 + Z.of_nat (S i)) (histLen P + Z.of_nat k)); [|lia].
    cbn [andb].
    replace (Z.to_nat (histLen P - 1 + Z.of_nat (S i) - histLen P + 1)) with (S i) by lia.
    rewrite take_take, Nat.min_l by lia. reflexivity.
Qed.

Lemma cycle_isRepetition k :
  (k <= 8)%nat ->
  (forall j, 0 <= j < histLen P - 1 -> ix (posHistory P) j <> hs k) ->
  isRepetition (along P cyc k) = (2 <=? countBack hs (hs k) k).
Proof.
  intros Hk Hf. pose proof (reachable_wf _ P_reachable) as W.
  destruct W as [Ws Wps Wpc Wu Wh Wc Wi Wb Whash Wply Wlen Wtop].
  unfold MAX_GAME_LEN in *.
  assert (Hlen : length (firstn k (cyc ++ cyc)) = k).
  { rewrite length_take. cbn [length app cyc]. lia. }
  assert (HL : histLen (along P cyc k) = histLen P + Z.of_nat k).
  { unfold along. rewrite (proj1 (playMoves_bounds _ P)), Hlen. reflexivity. }
  rewrite isRepetition_matches, HL. fold (hs k). f_equal.
  replace (histLen P + Z.of_nat k - 3) with (histLen P - 3 + Z.of_nat k) by lia.
  apply (matches_countBack _ _ hs (histLen P)); try lia.
  - intros j Hj. unfold along.
    rewrite posHistory_playMoves by (rewrite ?Hlen, ?Wh; lia).
    destruct (Z.leb_spec (histLen P) j); [lia|]. cbn [andb]. apply Hf. exact Hj.
  - intros i Hi. apply cycle_entries; assumption.
Qed.

Lemma cycle_repetition :
  Forall (fun k => isRepetition (along P cyc k) = false) (seq 0 8)
  /\ isRepetition (along P cyc 8) = true.
Proof.
  pose proof cycle_hash_closes as E4.
  pose proof (cycle_second_round 1 ltac:(lia)) as E5.
  pose proof (cycle_second_round 2 ltac:(lia)) as E6.
  pose proof (cycle_second_round 3 ltac:(lia)) as E7.
  pose proof (cycle_second_round 4 ltac:(lia)) as E8.
  cbn [Nat.add] in E5, E6, E7, E8. rewrite E4 in E8.
  assert (N02 : (hs 0 =? hs 2) = false) by (apply Z.eqb_neq; congruence).
  assert (N20 : (hs 2 =? hs 0) = false) by (apply Z.eqb_neq; congruence).
  assert (N13 : (hs 1 =? hs 3) = false) by (apply Z.eqb_neq; congruence).
  assert (N31 : (hs 3 =? hs 1) = false) by (apply Z.eqb_neq; congruence).
  assert (Hfr : forall k, (k <= 8)%nat -> forall j, 0 <= j < histLen P - 1 ->
            ix (posHistory P) j <> hs k).
  { intros k Hk j Hj.
    do 4 (destruct k as [|k]; [apply fresh; [exact Hj | lia]|]).
    destruct k as [|k]; [rewrite E4; apply fresh; [exact Hj | lia]|].
    destruct k as [|k]; [rewrite E5; apply fresh; [exact Hj | lia]|].
    destruct k as [|k]; [rewrite E6; apply fresh; [exact Hj | lia]|].
    destruct k as [|k]; [rewrite E7; apply fresh; [exact Hj | lia]|].
    destruct k as [|k]; [rewrite E8; apply fresh; [exact Hj | lia]|].
    lia. }
  split.
  - cbv [seq]. split_Forall.
    all: cbv beta; (rewrite cycle_isRepetition; [ | lia | apply Hfr; lia]).
    all: cbn [countBack].
    all: rewrite ?E8, ?E7, ?E6, ?E5, ?E4, ?Z.eqb_refl, ?N02, ?N20, ?N13, ?N31.
    all: reflexivity.
  - rewrite cycle_isRepetition; [ | lia | apply Hfr; lia].
    cbn [countBack].
    rewrite ?E8, ?E7, ?E6, ?E5, ?E4, ?Z.eqb_refl, ?N02, ?N20, ?N13, ?N31.
    reflexivity.
Qed.

End Cycle.

(** C6: [isRepetition] is true exactly when the current hash occurs at least
    twice among the earlier history entries of the same side to move (every
    second entry below the current one).  In particular, along a cycle of
    four legal moves that leads from a reachable position back to the same
    board, played twice, [isRepetition] is false at the first eight positions
    and true at the ninth, the third occurrence of the position, provided the
    two positions of each side in the cycle have different hashes and none of
    the four hashes occurs earlier in the history.  With the engine's keys
    this is the case for the four reversible Tiger moves from the start
    position: every move is legal, the start position recurs after four and
    after eight moves, and [isRepetition] first becomes true at the ninth
    position. *)
Theorem repetition_threefold :
  (forall b, isRepetition b = true <-> (2 <= priorOccurrences b)%nat)
  /\ (forall P m1 m2 m3 m4,
        let cyc := [m1; m2; m3; m4] in
        reachable P -> histLen P + 8 <= MAX_GAME_LEN ->
        legalChain P cyc ->
        squares (along P cyc 4) = squares P ->
        hash (along P cyc 2) <> hash (along P cyc 0) ->
        hash (along P cyc 3) <> hash (along P cyc 1) ->
        (forall j k, 0 <= j < histLen P - 1 -> (k <= 3)%nat ->
           ix (posHistory P) j <> hash (along P cyc k)) ->
        Forall (fun k => isRepetition (along P cyc k) = false) (seq 0 8)
        /\ isRepetition (along P cyc 8) = true)
  /\ (forall b, storage b ->
        let P k := playMoves (init b) (firstn k tigerCycle2) in
        Forall (fun k => In (nth k tigerCycle2 0) (generateMoves (P k))) (seq 0 8)
        /\ squares (P 4%nat) = squares (P 0%nat) /\ sideToMove (P 4%nat) = sideToMove (P 0%nat)
        /\ hash (P 4%nat) = hash (P 0%nat)
        /\ squares (P 8%nat) = squares (P 0%nat) /\ sideToMove (P 8%nat) = sideToMove (P 0%nat)
        /\ hash (P 8%nat) = hash (P 0%nat)
        /\ Forall (fun k => isRepetition (P k) = false) (seq 0 8)
        /\ isRepetition (P 8%nat) = true).
Proof.
  split; [exact isRepetition_count|].
  split; [intros P m1 m2 m3 m4 cyc; apply cycle_repetition|].
  intros b Hb P. unfold P.
  split; [|split; [|split; [|split; [|split; [|split; [|split; [|split]]]]]]].
  - cbv [seq]. split_Forall.
    all: apply In_existsb; vm_compute; reflexivity.
  - vm_compute. reflexivity.
  - vm_compute. reflexivity.
  - vm_compute. reflexivity.
  - vm_compute. reflexivity.
  - vm_compute. reflexivity.
  - vm_compute. reflexivity.
  - cbv [seq]. split_Forall.
    all: cbv beta; rewrite isRepetition_play.
    all: try exact Hb.
    all: try (vm_compute; reflexivity).
    all: cbv; lia.
  - rewrite isRepetition_play.
    + vm_compute; reflexivity.
    + exact Hb.
    + cbv; lia.
Qed.

Lemma repetition_threefold_witness :
  (Forall (fun k => isRepetition (along (init zeroBoard) tigerCycle k) = false) (seq 0 8)
   /\ isRepetition (along (init zeroBoard) tigerCycle 8) = true)
  /\ (let P k := playMoves (init zeroBoard) (firstn k tigerCycle2) in
      Forall (fun k => isRepetition (P k) = false) (seq 0 8)
      /\ isRepetition (P 8%nat) = true).
Proof.
  split.
  - apply (proj1 (proj2 repetition_threefold) (init zeroBoard) a1a2 g9g8 a2a1 g8g9).
    + apply reach_init. repeat split; reflexivity.
    + vm_compute. discriminate.
    + cbn [legalChain].
      split; [apply In_existsb; vm_compute; reflexivity|].
      split; [apply In_existsb; vm_compute; reflexivity|].
      split; [apply In_existsb; vm_compute; reflexivity|].
      split; [apply In_existsb; vm_compute; reflexivity|].
      exact I.
    + vm_compute. reflexivity.
    + vm_compute. discriminate.
    + vm_compute. discriminate.
    + intros j k Hj. change (histLen (init zeroBoard)) with 1 in Hj. lia.
  - assert (Hs : storage zeroBoard) by (repeat split; reflexivity).
    destruct (proj2 (proj2 repetition_threefold) zeroBoard Hs)
      as (_ & _ & _ & _ & _ & _ & _ & H7 & H8).
    exact (conj H7 H8).
Defined.

(** *** Squares and moves as text *)

Lemma sqRowCol_make r c :
  0 <= r < BOARD_H -> 0 <= c < BOARD_W ->
  sqRow (makeSq r c) = r /\ sqCol (makeSq r c) = c.
Proof.
  intros Hr Hc. assert (H : rowColOk = true) by (vm_compute; reflexivity).
  unfold rowColOk in H. rewrite forallb_forall in H.
  specialize (H r (proj2 (In_range _ r) Hr)). rewrite forallb_forall in H.
  specialize (H c (proj2 (In_range _ c) Hc)).
  apply andb_true_iff in H. destruct H as [H1 H2].
  apply Z.eqb_eq in H1, H2. auto.
Qed.

Lemma make_sqRowCol sq :
  0 <= sq < NUM_SQ ->
  makeSq (sqRow sq) (sqCol sq) = sq
  /\ 0 <= sqRow sq < BOARD_H /\ 0 <= sqCol sq < BOARD_W.
Proof.
  intros Hs. assert (H : sqRowColOk = true) by (vm_compute; reflexivity).
  unfold sqRowColOk in H. rewrite forallb_forall in H.
  specialize (H sq (proj2 (In_range _ sq) Hs)).
  repeat (apply andb_true_iff in H; destruct H as [H ?]).
  repeat match goal with
  | H : (_ =? _) = true |- _ => apply Z.eqb_eq in H
  | H : (_ <=? _) = true |- _ => apply Z.leb_le in H
  | H : (_ <? _) = true |- _ => apply Z.ltb_lt in H
  end. auto.
Qed.

Lemma strToSq_sqToStr sq : 0 <= sq < NUM_SQ -> strToSq (sqToStr sq) = sq.
Proof.
  intros Hs. destruct (make_sqRowCol sq Hs) as (E & Hr & Hc).
  unfold BOARD_H, BOARD_W in *.
  unfold sqToStr, strToSq, charOf. cbn [app].
  rewrite !Z.mod_small by lia.
  replace (97 + sqCol sq - 97) with (sqCol sq) by lia.
  replace (49 + sqRow sq - 49) with (sqRow sq) by lia.
  unfold BOARD_W, BOARD_H.
  destruct (Z.ltb_spec (sqCol sq) 0); [lia|].
  destruct (Z.geb_spec (sqCol sq) 7); [lia|].
  destruct (Z.ltb_spec (sqRow sq) 0); [lia|].
  destruct (Z.geb_spec (sqRow sq) 9); [lia|].
  exact E.
Qed.

Lemma strToSq_range s : strToSq s = -1 \/ 0 <= strToSq s < NUM_SQ.
Proof.
  unfold strToSq. destruct s as [|c0 [|c1 s]]; auto.
  cbv zeta. unfold BOARD_W, BOARD_H, NUM_SQ, makeSq.
  destruct (Z.ltb_spec (c0 - 97) 0); cbn [orb]; auto.
  destruct (Z.geb_spec (c0 - 97) 7); cbn [orb]; auto.
  destruct (Z.ltb_spec (c1 - 49) 0); cbn [orb]; auto.
  destruct (Z.geb_spec (c1 - 49) 9); cbn [orb]; auto.
  right. unfold BOARD_W. lia.
Qed.

Lemma sqToStr_strToSq s :
  0 <= strToSq s -> sqToStr (strToSq s) = firstn 2 s.
Proof.
  unfold strToSq. destruct s as [|c0 [|c1 s]]; try lia.
  cbv zeta. unfold BOARD_W, BOARD_H.
  destruct (Z.ltb_spec (c0 - 97) 0); cbn [orb]; try lia.
  destruct (Z.geb_spec (c0 - 97) 7); cbn [orb]; try lia.
  destruct (Z.ltb_spec (c1 - 49) 0); cbn [orb]; try lia.
  destruct (Z.geb_spec (c1 - 49) 9); cbn [orb]; try lia.
  intros _.
  destruct (sqRowCol_make (c1 - 49) (c0 - 97)) as [E1 E2];
    [unfold BOARD_H; lia | unfold BOARD_W; lia |].
  unfold sqToStr, charOf. rewrite E1, E2. cbn [app firstn].
  rewrite !Z.mod_small by lia. f_equal; [lia | f_equal; lia].
Qed.

(** X1: on the 63 board squares [strToSq] undoes [sqToStr]; and whenever
    [strToSq] accepts a text, the square it returns prints as the first two
    characters of that text. *)
Theorem square_text_roundtrip :
  (forall sq, 0 <= sq < NUM_SQ -> strToSq (sqToStr sq) = sq)
  /\ (forall s, 0 <= strToSq s ->
        strToSq s < NUM_SQ /\ sqToStr (strToSq s) = firstn 2 s).
Proof.
  split; [exact strToSq_sqToStr|].
  intros s H. split; [|apply sqToStr_strToSq; exact H].
  destruct (strToSq_range s); lia.
Qed.

Lemma square_text_roundtrip_witness :
  strToSq (sqToStr 27) = 27
  /\ (strToSq [103; 52; 33] < NUM_SQ
      /\ sqToStr (strToSq [103; 52; 33]) = firstn 2 [103; 52; 33]).
Proof.
  split.
  - apply (proj1 square_text_roundtrip). unfold NUM_SQ. lia.
  - apply (proj2 square_text_roundtrip). vm_compute. discriminate.
Defined.

Lemma encodeMove_small f t :
  0 <= f < 64 -> 0 <= t < 64 -> encodeMove f t = f + 64 * t.
Proof.
  intros Hf Ht.
  unfold encodeMove. rewrite Z.shiftl_mul_pow2 by lia.
  assert (Hl : Z.lor f (t * 2 ^ 6) = f + t * 2 ^ 6).
  { rewrite <- Z.shiftl_mul_pow2 by lia. rewrite <- Z.lxor_lor.
    - symmetry. apply Z.add_nocarry_lxor.
      apply Z.bits_inj'. intros n Hn. rewrite Z.land_spec, Z.bits_0.
      destruct (Z.ltb_spec n 6).
      + rewrite Z.shiftl_spec_low by lia. apply andb_false_r.
      + rewrite (Z.bits_above_log2 f n); [reflexivity | lia |].
        destruct (Z.eq_dec f 0) as [->|]; [cbn; lia|].
        apply Z.lt_le_trans with 6; [|lia].
        apply Z.log2_lt_pow2; lia.
    - apply Z.bits_inj'. intros n Hn. rewrite Z.land_spec, Z.bits_0.
      destruct (Z.ltb_spec n 6).
      + rewrite Z.shiftl_spec_low by lia. apply andb_false_r.
      + rewrite (Z.bits_above_log2 f n); [reflexivity | lia |].
        destruct (Z.eq_dec f 0) as [->|]; [cbn; lia|].
        apply Z.lt_le_trans with 6; [|lia].
        apply Z.log2_lt_pow2; lia. }
  rewrite Hl. rewrite Z.mod_small; lia.
Qed.

Lemma strToMove_moveToStr_board f t :
  0 <= f < NUM_SQ -> 0 <= t < NUM_SQ ->
  strToMove (moveToStr (encodeMove f t)) = encodeMove f t.
Proof.
  intros Hf Ht. unfold NUM_SQ in *.
  pose proof (encodeMove_small f t ltac:(lia) ltac:(lia)) as Hs.
  destruct (encode_decode f t ltac:(lia) ltac:(lia)) as [E1 E2].
  unfold moveToStr. destruct (Z.eqb_spec (encodeMove f t) MOVE_NONE) as [E|_].
  { unfold MOVE_NONE in E. lia. }
  rewrite E1, E2. unfold strToMove.
  change (Z.of_nat (length (sqToStr f ++ sqToStr t)) <? 4) with false.
  cbv iota.
  change (substr2 (sqToStr f ++ sqToStr t) 0) with (sqToStr f).
  change (substr2 (sqToStr f ++ sqToStr t) 2) with (sqToStr t).
  rewrite !strToSq_sqToStr by (unfold NUM_SQ; lia).
  destruct (Z.ltb_spec f 0); [lia|]. destruct (Z.ltb_spec t 0); [lia|].
  reflexivity.
Qed.

(** X2: a move between two board squares survives printing and parsing,
    and so does [MOVE_NONE], which prints as ["0000"]. *)
Theorem move_text_roundtrip :
  moveToStr MOVE_NONE = noMoveText
  /\ strToMove noMoveText = MOVE_NONE
  /\ forall f t, 0 <= f < NUM_SQ -> 0 <= t < NUM_SQ ->
       strToMove (moveToStr (encodeMove f t)) = encodeMove f t.
Proof.
  split; [reflexivity|]. split; [reflexivity|].
  exact strToMove_moveToStr_board.
Qed.

Lemma move_text_roundtrip_witness :
  strToMove (moveToStr (encodeMove 14 21)) = encodeMove 14 21.
Proof.
  apply (proj2 (proj2 move_text_roundtrip)); unfold NUM_SQ; lia.
Defined.

(** X3: [strToMove] never returns a move that leaves the board: the result
    is [MOVE_NONE], or its two squares are below [NUM_SQ], they are the
    squares [strToSq] reads from the two halves of the text, and the move
    prints as the first four characters of the text.  Shorter texts and
    texts with a bad square give [MOVE_NONE]. *)
Theorem strToMove_on_board s :
  (strToMove s = MOVE_NONE
   /\ (Z.of_nat (length s) < 4
       \/ strToSq (substr2 s 0) = -1 \/ strToSq (substr2 s 2) = -1))
  \/ (4 <= Z.of_nat (length s)
      /\ strToMove s <> MOVE_NONE
      /\ 0 <= moveFrom (strToMove s) < NUM_SQ
      /\ 0 <= moveTo (strToMove s) < NUM_SQ
      /\ moveFrom (strToMove s) = strToSq (substr2 s 0)
      /\ moveTo (strToMove s) = strToSq (substr2 s 2)
      /\ moveToStr (strToMove s) = firstn 4 s).
Proof.
  unfold strToMove.
  destruct (Z.ltb_spec (Z.of_nat (length s)) 4) as [Hl|Hl]; [left; auto|].
  cbv zeta.
  destruct (strToSq_range (substr2 s 0)) as [Ef|Hf].
  { left. rewrite Ef. cbn [Z.ltb orb]. auto. }
  destruct (strToSq_range (substr2 s 2)) as [Et|Ht].
  { left. rewrite Et. rewrite orb_true_r. auto. }
  right.
  set (f := strToSq (substr2 s 0)) in *. set (t := strToSq (substr2 s 2)) in *.
  destruct (Z.ltb_spec f 0); [lia|]. destruct (Z.ltb_spec t 0); [lia|].
  cbn [orb].
  unfold NUM_SQ in Hf, Ht.
  pose proof (encodeMove_small f t ltac:(lia) ltac:(lia)) as Hs.
  destruct (encode_decode f t ltac:(lia) ltac:(lia)) as [E1 E2].
  rewrite E1, E2. unfold NUM_SQ.
  split; [lia|]. split; [unfold MOVE_NONE; lia|].
  split; [lia|]. split; [lia|]. split; [reflexivity|]. split; [reflexivity|].
  unfold moveToStr.
  destruct (Z.eqb_spec (encodeMove f t) MOVE_NONE) as [E|_];
    [unfold MOVE_NONE in E; lia|].
  rewrite E1, E2. unfold f, t. rewrite !sqToStr_strToSq by (fold f; fold t; lia).
  destruct s as [|a [|b [|c [|d s]]]]; cbn [length] in Hl; try lia.
  reflexivity.
Qed.

(** X4: on arguments below 64, [encodeMove] packs [from] into the low six
    bits and [to] into the next six: the value is [from + 64 * to], both
    squares are read back by [moveFrom] and [moveTo], and the result is never
    [MOVE_NONE]. *)
Theorem move_encoding f t :
  0 <= f < 64 -> 0 <= t < 64 ->
  encodeMove f t = f + 64 * t
  /\ moveFrom (encodeMove f t) = f
  /\ moveTo (encodeMove f t) = t
  /\ encodeMove f t <> MOVE_NONE.
Proof.
  intros Hf Ht. pose proof (encodeMove_small f t Hf Ht) as E.
  destruct (encode_decode f t Hf Ht) as [E1 E2].
  split; [exact E|]. split; [exact E1|]. split; [exact E2|].
  rewrite E. unfold MOVE_NONE. lia.
Qed.

Lemma move_encoding_witness :
  encodeMove 62 55 = 62 + 64 * 55
  /\ moveFrom (encodeMove 62 55) = 62
  /\ moveTo (encodeMove 62 55) = 55
  /\ encodeMove 62 55 <> MOVE_NONE.
Proof. apply move_encoding; lia. Defined.

(** *** Captures *)

Lemma capStep_app b sq rk color moves d :
  capStep b sq rk color moves d = moves ++ capStep b sq rk color [] d.
Proof.
  unfold capStep.
  repeat match goal with
  | |- context [if ?c then _ else _] =>
      destruct c; [rewrite app_nil_r; reflexivity|]
  end.
  cbv zeta.
  repeat match goal with
  | |- context [if ?c then _ else _] =>
      destruct c; try (rewrite app_nil_r; reflexivity); try reflexivity
  end.
Qed.

Lemma capJumpStep_app b sq rk color sj moves i :
  capJumpStep b sq rk color sj moves i = moves ++ capJumpStep b sq rk color sj [] i.
Proof.
  unfold capJumpStep. cbv zeta.
  repeat match goal with
  | |- context [if ?c then _ else _] =>
      destruct c; try (rewrite app_nil_r; reflexivity); try reflexivity
  end.
Qed.

Lemma capRank_app b color moves rk :
  capRank b color moves rk = moves ++ capRank b color [] rk.
Proof.
  unfold capRank. cbv zeta.
  destruct (_ <? 0); [rewrite app_nil_r; reflexivity|].
  rewrite (fold_append_only _ (capStep_app b _ rk color) DIRS moves).
  rewrite (fold_append_only _ (capStep_app b _ rk color) DIRS []).
  destruct ((rk =? LION) || (rk =? TIGER)); [|reflexivity].
  rewrite (fold_append_only _ (capJumpStep_app b _ rk color _) _ (moves ++ _)).
  rewrite (fold_append_only _ (capJumpStep_app b _ rk color _) _ ([] ++ _)).
  rewrite <- !app_assoc. reflexivity.
Qed.

Lemma filter_flat_map {A B} (P : B -> bool) (F G : A -> list B) l :
  (forall x, In x l -> G x = List.filter P (F x)) ->
  flat_map G l = List.filter P (flat_map F l).
Proof.
  induction l as [|x l IH]; intros H; cbn [flat_map]; [reflexivity|].
  rewrite List.filter_app, (H x (or_introl eq_refl)), IH; [reflexivity|].
  intros y Hy. apply H. right. exact Hy.
Qed.

Lemma capStep_filter b sq rk color d :
  0 <= sq < NUM_SQ ->
  capStep b sq rk color [] d
  = List.filter (isCapture b) (normalStep b sq rk color [] d).
Proof.
  intros Hsq. unfold capStep, normalStep.
  destruct (canStep sq d) eqn:Hs; [|reflexivity]. cbn [negb].
  apply canStep_range in Hs. unfold NUM_SQ in *. cbv zeta.
  destruct (_ && _); [reflexivity|].
  destruct (_ && _); [reflexivity|].
  destruct (_ && _); [reflexivity|].
  unfold tryTarget. cbv zeta.
  destruct (encode_decode sq (sq + d) ltac:(lia) ltac:(lia)) as [_ E].
  destruct (ix (squares b) (sq + d) =? 0) eqn:Ht.
  { cbn [app List.filter]. unfold isCapture, occupied. rewrite E, Ht. reflexivity. }
  destruct (_ =? color); [reflexivity|].
  destruct (canCapture _ _ _ _ _); [|reflexivity].
  cbn [app List.filter]. unfold isCapture, occupied. rewrite E, Ht. reflexivity.
Qed.

Lemma capJumpStep_filter b sq rk color i :
  0 <= sq < NUM_SQ -> In i (range (sj_count (ixJ sqJumpLookup sq))) ->
  capJumpStep b sq rk color (ixJ sqJumpLookup sq) [] i
  = List.filter (isCapture b) (jumpStep b sq rk color (ixJ sqJumpLookup sq) [] i).
Proof.
  intros Hsq Hi. unfold capJumpStep, jumpStep. cbv zeta.
  set (sj := ixJ sqJumpLookup sq) in *.
  assert (Hto : 0 <= ix (sj_dest sj) i < NUM_SQ).
  { destruct (jumpsOf_ok sq (ix (sj_dest sj) i)
       (map (fun j => ix (sj_blockingSqs sj) (ix (sj_blockStart sj) i + j))
            (range (ix (sj_blockCount sj) i))) Hsq) as (_ & H & _).
    - unfold jumpsOf. apply in_map_iff. exists i. split; [reflexivity | exact Hi].
    - exact H. }
  unfold NUM_SQ in *.
  destruct (encode_decode sq (ix (sj_dest sj) i) ltac:(lia) ltac:(lia)) as [_ E].
  destruct (_ && _); [reflexivity|].
  destruct (_ && _); [reflexivity|].
  unfold tryTarget. cbv zeta.
  destruct (ix (squares b) (ix (sj_dest sj) i) =? 0) eqn:Ht.
  { destruct (jumpBlocked b sj i); [reflexivity|].
    cbn [app List.filter]. unfold isCapture, occupied. rewrite E, Ht. reflexivity. }
  destruct (_ =? color).
  { destruct (jumpBlocked b sj i); reflexivity. }
  destruct (jumpBlocked b sj i); [reflexivity|].
  destruct (canCapture _ _ _ _ _); [|reflexivity].
  cbn [app List.filter]. unfold isCapture, occupied. rewrite E, Ht. reflexivity.
Qed.

Lemma capRank_filter b color rk :
  indexToBoard b = true -> (color = LIGHT \/ color = DARK) -> In rk ranks ->
  capRank b color [] rk = List.filter (isCapture b) (genRank b color [] rk).
Proof.
  intros Hi Hc Hrk. unfold capRank, genRank. cbv zeta.
  destruct (indexToBoard_sq b color rk Hi Hc Hrk) as [E|[Hsq _]].
  { rewrite E. reflexivity. }
  set (sq := ix (pieceSq b) (psIdx color rk)) in *.
  destruct (Z.ltb_spec sq 0); [reflexivity|].
  unfold addNormalMoves, addJumpMoves.
  rewrite (fold_append_only _ (capStep_app b sq rk color) DIRS []).
  rewrite (fold_append_only _ (normalStep_app b sq rk color) DIRS []).
  cbn [app].
  assert (E1 : flat_map (capStep b sq rk color []) DIRS
               = List.filter (isCapture b) (flat_map (normalStep b sq rk color []) DIRS)).
  { apply filter_flat_map. intros d _. apply capStep_filter. exact Hsq. }
  destruct ((rk =? LION) || (rk =? TIGER)); [|exact E1].
  rewrite (fold_append_only _ (capJumpStep_app b sq rk color _)).
  rewrite (fold_append_only _ (jumpStep_app b sq rk color _)).
  rewrite List.filter_app, E1. f_equal.
  apply filter_flat_map. intros i Hin. apply capJumpStep_filter; assumption.
Qed.

(** X5: when the reverse index agrees with the board, [generateCaptures]
    writes exactly the moves of [generateMoves] whose target square is
    occupied, in the same order. *)
Theorem generateCaptures_filter b :
  indexToBoard b = true -> (sideToMove b = LIGHT \/ sideToMove b = DARK) ->
  generateCaptures b = List.filter (isCapture b) (generateMoves b).
Proof.
  intros Hi Hc. unfold generateCaptures, generateMoves.
  rewrite (fold_append_only _ (capRank_app b (sideToMove b))).
  rewrite (fold_append_only _ (genRank_app b (sideToMove b))).
  cbn [app]. apply filter_flat_map. intros rk Hrk.
  apply capRank_filter; assumption.
Qed.

Lemma generateCaptures_filter_witness :
  generateCaptures lionPreyBoard
  = List.filter (isCapture lionPreyBoard) (generateMoves lionPreyBoard)
  /\ generateCaptures lionPreyBoard = [encodeMove 14 21; encodeMove 14 15].
Proof.
  split.
  - apply generateCaptures_filter; [vm_compute; reflexivity | left; reflexivity].
  - vm_compute. reflexivity.
Defined.

(** *** What a generated move is *)

Lemma isWaterSq_terrain sq :
  0 <= sq < NUM_SQ -> isWaterSq sq = (ix terrain sq =? TERRAIN_WATER).
Proof.
  intros Hs. assert (H : waterTerrainOk = true) by (vm_compute; reflexivity).
  unfold waterTerrainOk in H. rewrite forallb_forall in H.
  specialize (H sq (proj2 (In_range _ sq) Hs)).
  apply eqb_prop in H. exact H.
Qed.

(** X6: every move written by [generateMoves], in a position whose reverse
    index agrees with the board, starts on a square holding a piece of the
    side to move and ends on a different square of the board that is not the
    mover's own den; the target is empty or holds an enemy piece that
    [canCapture] lets the mover take; a move onto a water square is a move
    of a Rat; and the move is not [MOVE_NONE]. *)
Theorem generated_move_sound b m :
  indexToBoard b = true -> (sideToMove b = LIGHT \/ sideToMove b = DARK) ->
  In m (generateMoves b) ->
  let f := moveFrom m in
  let t := moveTo m in
  let piece := ix (squares b) f in
  let target := ix (squares b) t in
  m = encodeMove f t /\ m <> MOVE_NONE
  /\ 0 <= f < NUM_SQ /\ 0 <= t < NUM_SQ /\ t <> f
  /\ piece <> 0 /\ colorOf piece = sideToMove b
  /\ ownDen (sideToMove b) t = false
  /\ (target = 0
      \/ (colorOf target <> sideToMove b
          /\ canCapture (Z.abs piece) (Z.abs target) (sideToMove b) f t = true))
  /\ (isWaterSq t = true -> Z.abs piece = RAT).
Proof.
  intros Hi Hc Hin. apply generateMoves_In in Hin.
  destruct Hin as (rk & Hrk & Hsq & Hm).
  destruct (indexToBoard_sq b _ rk Hi Hc Hrk) as [E|[Hr Hp]]; [lia|].
  set (sq := ix (pieceSq b) (psIdx (sideToMove b) rk)) in *.
  assert (Hrk' := Hrk). apply In_ranks in Hrk'.
  assert (Hgen : exists to, m = encodeMove sq to /\ 0 <= to < NUM_SQ /\ to <> sq
            /\ landingOk b sq rk (sideToMove b) to = true
            /\ (isWaterSq to = true -> rk = RAT)).
  { destruct Hm as [Hm|[_ Hm]].
    - apply addNormalMoves_In in Hm. destruct Hm as (d & Hd & Hs & Hok & E).
      exists (sq + d). pose proof (canStep_range _ _ Hs) as Hto.
      unfold stepOk in Hok. apply andb_true_iff in Hok. destruct Hok as [Hl Hw].
      split; [exact E|]. split; [exact Hto|].
      split; [unfold DIRS, DIR_N, DIR_S, DIR_E, DIR_W in Hd; cbn [In] in Hd; lia|].
      split; [exact Hl|].
      intros Hwt. rewrite (isWaterSq_terrain _ Hto) in Hwt. rewrite Hwt in Hw.
      cbn [andb] in Hw. apply negb_true_iff, negb_false_iff, Z.eqb_eq in Hw. exact Hw.
    - apply addJumpMoves_In in Hm. destruct Hm as (to & ws & Hj & Hok & _ & E).
      destruct (jumpsOf_ok sq to ws Hr Hj) as (_ & Hto & Hne & Hland & _).
      exists to. split; [exact E|]. split; [exact Hto|]. split; [exact Hne|].
      split; [exact Hok|]. intros Hw. rewrite Hw in Hland. discriminate. }
  destruct Hgen as (to & E & Hto & Hne & Hl & Hw).
  unfold NUM_SQ in Hr, Hto.
  destruct (encode_decode sq to ltac:(lia) ltac:(lia)) as [E1 E2].
  pose proof (encodeMove_small sq to ltac:(lia) ltac:(lia)) as Es.
  cbv zeta. rewrite E, E1, E2, Hp. unfold NUM_SQ.
  split; [reflexivity|]. split; [rewrite Es; unfold MOVE_NONE; lia|].
  split; [lia|]. split; [lia|]. split; [exact Hne|].
  split; [apply signed_nonzero; lia|].
  split; [apply colorOf_signed; [assumption | lia]|].
  rewrite signed_abs by lia.
  unfold landingOk in Hl. apply andb_true_iff in Hl. destruct Hl as [Hd Ht].
  split; [apply negb_true_iff in Hd; exact Hd|].
  split; [|exact Hw].
  apply orb_true_iff in Ht. destruct Ht as [Ht|Ht].
  - left. apply Z.eqb_eq. exact Ht.
  - right. apply andb_true_iff in Ht. destruct Ht as [Ht1 Ht2].
    apply negb_true_iff, Z.eqb_neq in Ht1. auto.
Qed.

Lemma generated_move_sound_witness :
  let b := lionPreyBoard in
  let m := encodeMove 14 15 in
  let f := moveFrom m in
  let t := moveTo m in
  let piece := ix (squares b) f in
  let target := ix (squares b) t in
  m = encodeMove f t /\ m <> MOVE_NONE
  /\ 0 <= f < NUM_SQ /\ 0 <= t < NUM_SQ /\ t <> f
  /\ piece <> 0 /\ colorOf piece = sideToMove b
  /\ ownDen (sideToMove b) t = false
  /\ (target = 0
      \/ (colorOf target <> sideToMove b
          /\ canCapture (Z.abs piece) (Z.abs target) (sideToMove b) f t = true))
  /\ (isWaterSq t = true -> Z.abs piece = RAT).
Proof.
  apply (generated_move_sound lionPreyBoard (encodeMove 14 15)).
  - vm_compute. reflexivity.
  - left. reflexivity.
  - apply In_existsb. vm_compute. reflexivity.
Defined.

(** *** How many moves are generated *)

Lemma flat_map_length_le {A B} (F : A -> list B) (P : A -> bool) l :
  (forall x, (length (F x) <= (if P x then 1 else 0))%nat) ->
  (length (flat_map F l) <= length (List.filter P l))%nat.
Proof.
  intros H. induction l as [|x l IH]; cbn [flat_map List.filter]; [cbn [length]; lia|].
  rewrite length_app. pose proof (H x) as Hx.
  destruct (P x); cbn [length]; lia.
Qed.

Lemma addNormalMoves_length b sq rk color :
  (length (addNormalMoves b sq rk color []) <= length (stepDirs sq rk))%nat.
Proof.
  unfold addNormalMoves, stepDirs.
  rewrite (fold_append_only _ (normalStep_app b sq rk color)). cbn [app].
  apply flat_map_length_le. intros d. rewrite normalStep_nil.
  unfold stepOk. destruct (canStep sq d); cbn [andb length]; [|lia].
  destruct (landingOk _ _ _ _ _); cbn [andb length]; [|destruct (negb _); lia].
  destruct (negb _); cbn [length]; lia.
Qed.

Lemma addJumpMoves_length b sq rk color :
  0 <= sj_count (ixJ sqJumpLookup sq) ->
  Z.of_nat (length (addJumpMoves b sq rk color [])) <= sj_count (ixJ sqJumpLookup sq).
Proof.
  intros Hc. unfold addJumpMoves. cbv zeta.
  rewrite (fold_append_only _ (jumpStep_app b sq rk color _)). cbn [app].
  pose proof (flat_map_length_le
    (jumpStep b sq rk color (ixJ sqJumpLookup sq) []) (fun _ => true)
    (range (sj_count (ixJ sqJumpLookup sq)))) as H.
  assert (E : forall l : list Z, List.filter (fun _ => true) l = l).
  { induction l as [|x l IH]; cbn [List.filter]; [reflexivity | rewrite IH; reflexivity]. }
  assert (Hlen : length (List.filter (fun _ : Z => true)
                   (range (sj_count (ixJ sqJumpLookup sq))))
                 = Z.to_nat (sj_count (ixJ sqJumpLookup sq))).
  { rewrite E. unfold range. rewrite length_map, length_seq. reflexivity. }
  rewrite Hlen in H.
  assert (H' : (length (flat_map (jumpStep b sq rk color (ixJ sqJumpLookup sq) [])
                  (range (sj_count (ixJ sqJumpLookup sq))))
                <= Z.to_nat (sj_count (ixJ sqJumpLookup sq)))%nat).
  { apply H. intros i. rewrite jumpStep_nil. cbv zeta.
    destruct (_ && _); cbn [length]; lia. }
  lia.
Qed.

Lemma stepDirs_length sq rk : (length (stepDirs sq rk) <= 4)%nat.
Proof.
  unfold stepDirs. etransitivity; [apply List.filter_length_le|].
  cbn [DIRS length]. lia.
Qed.

Lemma jumper_budget sq :
  0 <= sq < NUM_SQ ->
  0 <= sj_count (ixJ sqJumpLookup sq)
  /\ Z.of_nat (length (stepDirs sq LION)) + sj_count (ixJ sqJumpLookup sq) <= 4.
Proof.
  intros Hs.
  assert (H : jumpBudgetOk = true) by (vm_compute; reflexivity).
  unfold jumpBudgetOk in H. rewrite forallb_forall in H. specialize (H sq (proj2 (In_range _ sq) Hs)).
  apply andb_true_iff in H. destruct H as [H1 H2].
  apply Z.leb_le in H1, H2. auto.
Qed.

Lemma genRank_length b color rk :
  indexToBoard b = true -> (color = LIGHT \/ color = DARK) -> In rk ranks ->
  (length (genRank b color [] rk) <= 4)%nat.
Proof.
  intros Hi Hc Hrk. unfold genRank. cbv zeta.
  destruct (indexToBoard_sq b color rk Hi Hc Hrk) as [E|[Hsq _]].
  { rewrite E. cbn [Z.ltb Z.compare length]. lia. }
  set (sq := ix (pieceSq b) (psIdx color rk)) in *.
  destruct (Z.ltb_spec sq 0); [cbn [length]; lia|].
  pose proof (addNormalMoves_length b sq rk color) as Hn.
  pose proof (stepDirs_length sq rk) as H4.
  destruct ((rk =? LION) || (rk =? TIGER)) eqn:Ej; [|lia].
  rewrite addJumpMoves_app, length_app.
  destruct (jumper_budget sq Hsq) as [H0 Hb].
  pose proof (addJumpMoves_length b sq rk color H0) as Hj.
  assert (Es : stepDirs sq rk = stepDirs sq LION).
  { unfold stepDirs. apply List.filter_ext. intros d.
    apply orb_true_iff in Ej.
    assert (En : (rk =? RAT) = false).
    { destruct Ej as [Ej|Ej]; apply Z.eqb_eq in Ej; rewrite Ej; reflexivity. }
    rewrite En. reflexivity. }
  rewrite Es in Hn. lia.
Qed.

(** X7: in a position whose reverse index agrees with the board,
    [generateMoves] writes at most 32 moves, four for each of the eight
    ranks (for Lion and Tiger a jump takes the place of the step
    into the water), so the caller's array of [MAX_MOVES] entries is never
    overrun. *)
Theorem generateMoves_count b :
  indexToBoard b = true -> (sideToMove b = LIGHT \/ sideToMove b = DARK) ->
  Z.of_nat (length (generateMoves b)) <= 32 /\ 32 < MAX_MOVES.
Proof.
  intros Hi Hc. split; [|reflexivity].
  unfold generateMoves.
  rewrite (fold_append_only _ (genRank_app b (sideToMove b))). cbn [app].
  assert (H : forall l, (forall rk, In rk l -> In rk ranks) ->
            (length (flat_map (genRank b (sideToMove b) []) l) <= 4 * length l)%nat).
  { induction l as [|rk l IH]; intros Hl; cbn [flat_map length]; [lia|].
    rewrite length_app.
    pose proof (genRank_length b (sideToMove b) rk Hi Hc (Hl rk (or_introl eq_refl))).
    assert ((length (flat_map (genRank b (sideToMove b) []) l) <= 4 * length l)%nat).
    { apply IH. intros r Hr. apply Hl. right. exact Hr. }
    lia. }
  specialize (H ranks (fun _ h => h)). cbn [ranks length] in H.
  change (length ranks) with 8%nat in H. lia.
Qed.

Lemma generateMoves_count_witness :
  Z.of_nat (length (generateMoves (init zeroBoard))) <= 32 /\ 32 < MAX_MOVES.
Proof.
  apply generateMoves_count; [vm_compute; reflexivity | left; reflexivity].
Defined.

(** *** Invariants kept by legal moves *)

(** Checks a chain of concrete moves by running the generator. *)
Ltac legal_chain :=
  cbn [legalChain];
  repeat match goal with
  | |- In _ (generateMoves _) /\ _ =>
      split; [apply In_existsb; vm_compute; reflexivity|]
  end;
  exact I.

Lemma generated_landing b m :
  indexToBoard b = true -> (sideToMove b = LIGHT \/ sideToMove b = DARK) ->
  In m (generateMoves b) ->
  exists rk sq to, legalAt b m rk sq to
    /\ landingOk b sq rk (sideToMove b) to = true
    /\ (isWaterSq to = true -> rk = RAT).
Proof.
  intros Hi Hc Hin. apply generateMoves_In in Hin.
  destruct Hin as (rk & Hrk & Hsq & Hm).
  destruct (indexToBoard_sq b _ rk Hi Hc Hrk) as [E|[Hr Hp]]; [lia|].
  set (sq := ix (pieceSq b) (psIdx (sideToMove b) rk)) in *.
  assert (Hland : forall to, landingOk b sq rk (sideToMove b) to = true ->
            ix (squares b) to = 0 \/ colorOf (ix (squares b) to) <> sideToMove b).
  { intros to H. unfold landingOk in H. apply andb_true_iff in H. destruct H as [_ H].
    apply orb_true_iff in H. destruct H as [H|H].
    - left. apply Z.eqb_eq. exact H.
    - right. apply andb_true_iff in H. destruct H as [H _].
      apply negb_true_iff, Z.eqb_neq in H. exact H. }
  destruct Hm as [Hm|[_ Hm]].
  - apply addNormalMoves_In in Hm. destruct Hm as (d & Hd & Hs & Hok & E).
    pose proof (canStep_range _ _ Hs) as Hto.
    unfold stepOk in Hok. apply andb_true_iff in Hok. destruct Hok as [Hl Hw].
    exists rk, sq, (sq + d). split; [|split; [exact Hl|]].
    + constructor; auto.
      unfold DIRS, DIR_N, DIR_S, DIR_E, DIR_W in Hd. cbn [In] in Hd. lia.
    + intros Hwt. rewrite (isWaterSq_terrain _ Hto) in Hwt. rewrite Hwt in Hw.
      cbn [andb] in Hw. apply negb_true_iff, negb_false_iff, Z.eqb_eq in Hw. exact Hw.
  - apply addJumpMoves_In in Hm. destruct Hm as (to & ws & Hj & Hok & _ & E).
    destruct (jumpsOf_ok sq to ws Hr Hj) as (_ & Hto & Hne & Hland' & _).
    exists rk, sq, to. split; [|split; [exact Hok|]].
    + constructor; auto.
    + intros Hw. rewrite Hw in Hland'. discriminate.
Qed.

Lemma chain_invariant (Inv : Board -> Prop) :
  (forall P m, wf P -> Inv P -> In m (generateMoves P) -> Inv (makeMove P m)) ->
  forall ms P, reachable P -> Inv P -> legalChain P ms ->
    histLen P + Z.of_nat (length ms) <= MAX_GAME_LEN ->
    Inv (playMoves P ms).
Proof.
  intros Hstep. induction ms as [|m ms IH]; intros P HP HI Hc Hl; [exact HI|].
  destruct Hc as [Hm Hc]. cbn [length] in Hl.
  change (playMoves P (m :: ms)) with (playMoves (makeMove P m) ms).
  apply IH.
  - apply reach_make; [exact HP | exact Hm | lia].
  - apply Hstep; [apply reachable_wf; exact HP | exact HI | exact Hm].
  - exact Hc.
  - change (histLen (makeMove P m)) with (histLen P + 1). lia.
Qed.

Lemma squares_inv_moved (Q : Z -> Z -> bool) (sqs : list Z) sq to piece :
  length sqs = 63%nat -> 0 <= sq < NUM_SQ -> 0 <= to < NUM_SQ ->
  (forall s, Q s 0 = true) -> Q to piece = true ->
  forallb (fun s => Q s (ix sqs s)) (range NUM_SQ) = true ->
  forallb (fun s => Q s (ix (upd (upd sqs to piece) sq 0) s)) (range NUM_SQ) = true.
Proof.
  intros Hlen Hsq Hto H0 Hp H. rewrite forallb_forall in *. intros s Hs.
  unfold NUM_SQ in *.
  destruct (Z.eq_dec s sq) as [->|Hne].
  { rewrite ix_upd_eq by (rewrite upd_length, Hlen; lia). apply H0. }
  rewrite ix_upd_ne by congruence.
  destruct (Z.eq_dec s to) as [->|Hne'].
  { rewrite ix_upd_eq by (rewrite Hlen; lia). exact Hp. }
  rewrite ix_upd_ne by congruence. apply H. exact Hs.
Qed.

Lemma waterInv_step P m :
  wf P -> waterInv P = true -> In m (generateMoves P) ->
  waterInv (makeMove P m) = true.
Proof.
  intros W Hinv Hm.
  destruct (generated_landing P m (wf_index P W) (wf_side P W) Hm)
    as (rk & sq & to & L & Hl & Hw).
  rewrite (makeMove_moved P m rk sq to (wf_side P W) L).
  unfold waterInv, moved. cbn [squares].
  apply (squares_inv_moved
           (fun s v => negb (isWaterSq s) || (v =? 0) || (Z.abs v =? RAT))).
  - apply (wf_squares P W).
  - apply (la_sq_range _ _ _ _ _ L).
  - apply (la_to_range _ _ _ _ _ L).
  - intros s. rewrite orb_true_r. reflexivity.
  - pose proof (la_rk _ _ _ _ _ L) as Hrk. apply In_ranks in Hrk.
    rewrite signed_abs by lia.
    destruct (isWaterSq to) eqn:E; [|reflexivity].
    rewrite (Hw eq_refl). rewrite orb_true_r. reflexivity.
  - exact Hinv.
Qed.

(** X8: the start position has no piece other than a Rat on a water square,
    and legal moves keep it so: from a reachable position with only Rats in
    the water, every position reached through generated moves (within the
    capacity of the history) has only Rats in the water. *)
Theorem water_invariant_kept :
  (forall b, waterInv (init b) = true)
  /\ (forall P ms, reachable P -> waterInv P = true -> legalChain P ms ->
        histLen P + Z.of_nat (length ms) <= MAX_GAME_LEN ->
        waterInv (playMoves P ms) = true).
Proof.
  split; [intros b; vm_compute; reflexivity|].
  intros P ms HP HI. revert ms P HP HI.
  apply (chain_invariant (fun b => waterInv b = true)). exact waterInv_step.
Qed.

Lemma water_invariant_kept_witness :
  waterInv (playMoves (init zeroBoard) tigerCycle) = true.
Proof.
  apply (proj2 water_invariant_kept).
  - exact start_reachable.
  - vm_compute. reflexivity.
  - unfold tigerCycle. legal_chain.
  - vm_compute. discriminate.
Defined.

Lemma denInv_step P m :
  wf P -> denInv P = true -> In m (generateMoves P) ->
  denInv (makeMove P m) = true.
Proof.
  intros W Hinv Hm.
  destruct (generated_landing P m (wf_index P W) (wf_side P W) Hm)
    as (rk & sq & to & L & Hl & Hw).
  rewrite (makeMove_moved P m rk sq to (wf_side P W) L).
  unfold denInv, moved. cbn [squares].
  apply (squares_inv_moved (fun s v => (v =? 0) || negb (ownDen (colorOf v) s))).
  - apply (wf_squares P W).
  - apply (la_sq_range _ _ _ _ _ L).
  - apply (la_to_range _ _ _ _ _ L).
  - intros s. reflexivity.
  - pose proof (la_rk _ _ _ _ _ L) as Hrk. apply In_ranks in Hrk.
    rewrite colorOf_signed by (try apply (wf_side P W); lia).
    unfold landingOk in Hl. apply andb_true_iff in Hl. destruct Hl as [Hd _].
    rewrite Hd. apply orb_true_r.
  - exact Hinv.
Qed.

(** X9: no piece stands on the den of its own side in the start position,
    and legal moves keep it so in every position they lead to. *)
Theorem den_invariant_kept :
  (forall b, denInv (init b) = true)
  /\ (forall P ms, reachable P -> denInv P = true -> legalChain P ms ->
        histLen P + Z.of_nat (length ms) <= MAX_GAME_LEN ->
        denInv (playMoves P ms) = true).
Proof.
  split; [intros b; vm_compute; reflexivity|].
  intros P ms HP HI. revert ms P HP HI.
  apply (chain_invariant (fun b => denInv b = true)). exact denInv_step.
Qed.

Lemma den_invariant_kept_witness :
  denInv (playMoves (init zeroBoard) [a1a2; g9g8]) = true.
Proof.
  apply (proj2 den_invariant_kept).
  - exact start_reachable.
  - vm_compute. reflexivity.
  - legal_chain.
  - vm_compute. discriminate.
Defined.

Lemma filter_count_out (p : Z -> bool) (a : list Z) i v l :
  ~ In i l ->
  List.filter (fun s => p (ix (upd a i v) s)) l = List.filter (fun s => p (ix a s)) l.
Proof.
  intros Hn. apply List.filter_ext_in. intros s Hs.
  rewrite ix_upd_ne; [reflexivity|]. intros ->. exact (Hn Hs).
Qed.

Lemma filter_count_upd (p : Z -> bool) (a : list Z) i v l :
  List.NoDup l -> In i l -> 0 <= i < Z.of_nat (length a) ->
  Z.of_nat (length (List.filter (fun s => p (ix (upd a i v) s)) l))
  = Z.of_nat (length (List.filter (fun s => p (ix a s)) l))
    - Z.b2z (p (ix a i)) + Z.b2z (p v).
Proof.
  intros Hnd Hin Hi. induction l as [|x l IH]; [destruct Hin|].
  inversion Hnd as [|? ? Hx Hnd']; subst.
  cbn [List.filter].
  destruct (Z.eq_dec x i) as [->|Hne].
  - rewrite ix_upd_eq by exact Hi. rewrite (filter_count_out p a i v l Hx).
    destruct (p v), (p (ix a i)); cbn [length Z.b2z]; lia.
  - destruct Hin as [E|Hin]; [congruence|].
    rewrite ix_upd_ne by congruence. specialize (IH Hnd' Hin).
    destruct (p (ix a x)); cbn [length]; lia.
Qed.

Lemma piecesOn_upd sqs c i v :
  0 <= i < NUM_SQ -> length sqs = 63%nat ->
  piecesOn (upd sqs i v) c
  = piecesOn sqs c - Z.b2z (holdsColor c (ix sqs i)) + Z.b2z (holdsColor c v).
Proof.
  intros Hi Hlen. unfold piecesOn.
  apply (filter_count_upd (holdsColor c)).
  - apply NoDup_range.
  - apply In_range. exact Hi.
  - rewrite Hlen. unfold NUM_SQ in Hi. lia.
Qed.

Lemma countInv_step P m :
  wf P -> countInv P = true -> In m (generateMoves P) ->
  countInv (makeMove P m) = true.
Proof.
  intros W Hinv Hm.
  destruct (legal_move P m (wf_index P W) (wf_side P W) Hm) as (rk & sq & to & L).
  rewrite (makeMove_moved P m rk sq to (wf_side P W) L).
  destruct L as [Hrk Hsq Hsr Htr Hne Hmm Hp Ht]. apply In_ranks in Hrk.
  pose proof (wf_squares P W) as Hlen. pose proof (wf_pieceCount P W) as Hpc.
  pose proof (wf_side P W) as Hc.
  unfold countInv in *. rewrite forallb_forall in *. intros c Hcin.
  specialize (Hinv c Hcin). apply Z.eqb_eq in Hinv. apply Z.eqb_eq.
  assert (Hc' : c = LIGHT \/ c = DARK) by (cbn [In] in Hcin; intuition auto).
  unfold moved. cbn [squares pieceCount].
  rewrite piecesOn_upd by (rewrite ?upd_length; assumption).
  rewrite ix_upd_ne by congruence.
  rewrite piecesOn_upd by assumption.
  rewrite Hp.
  replace (holdsColor c 0) with false by reflexivity. cbn [Z.b2z].
  set (cap := ix (squares P) to) in *.
  assert (Hcap : ix (if cap =? 0 then pieceCount P
                     else upd (pieceCount P) (colorOf cap)
                            (ix (pieceCount P) (colorOf cap) - 1)) c
                 = ix (pieceCount P) c - Z.b2z (holdsColor c cap)).
  { unfold holdsColor. destruct (Z.eqb_spec cap 0) as [E0|E0]; cbn [negb andb Z.b2z].
    - lia.
    - destruct (Z.eqb_spec (colorOf cap) c) as [Ec|Ec]; cbn [Z.b2z].
      + rewrite Ec. rewrite ix_upd_eq; [reflexivity|].
        rewrite Hpc. unfold LIGHT, DARK in Hc'. lia.
      + rewrite ix_upd_ne by exact Ec. lia. }
  rewrite Hcap, Hinv. lia.
Qed.

(** X10: [pieceCount] holds, for each colour, the number of pieces of that
    colour on the board: in the start position (eight each), and after
    any sequence of generated moves from a reachable position where it
    holds. *)
Theorem piece_count_kept :
  (forall b, storage b -> countInv (init b) = true
                          /\ ix (pieceCount (init b)) LIGHT = 8
                          /\ ix (pieceCount (init b)) DARK = 8)
  /\ (forall P ms, reachable P -> countInv P = true -> legalChain P ms ->
        histLen P + Z.of_nat (length ms) <= MAX_GAME_LEN ->
        countInv (playMoves P ms) = true).
Proof.
  split.
  - intros b (Hpc & _ & _).
    destruct (pieceCount b) as [|x [|y [|z l]]] eqn:E; try discriminate.
    unfold countInv, init. cbn [pieceCount squares]. rewrite E.
    vm_compute. auto.
  - intros P ms HP HI. revert ms P HP HI.
    apply (chain_invariant (fun b => countInv b = true)). exact countInv_step.
Qed.

Lemma piece_count_kept_witness :
  (countInv (init zeroBoard) = true
   /\ ix (pieceCount (init zeroBoard)) LIGHT = 8
   /\ ix (pieceCount (init zeroBoard)) DARK = 8)
  /\ countInv (playMoves (init zeroBoard) [a1a2; g9g8]) = true.
Proof.
  split.
  - apply (proj1 piece_count_kept). repeat split; reflexivity.
  - apply (proj2 piece_count_kept).
    + exact start_reachable.
    + vm_compute. reflexivity.
    + legal_chain.
    + vm_compute. discriminate.
Defined.

(** X11: a generated move that lands on the den of the other side ends the
    game: in the position after it, [checkGameOver] returns -1, the side
    now to move has lost. *)
Theorem den_entry_wins P m :
  wf P -> In m (generateMoves P) ->
  moveTo m = denOf (1 - sideToMove P) ->
  checkGameOver (makeMove P m) = -1.
Proof.
  intros W Hm Hden.
  destruct (legal_move P m (wf_index P W) (wf_side P W) Hm) as (rk & sq & to & L).
  rewrite (makeMove_moved P m rk sq to (wf_side P W) L).
  destruct L as [Hrk Hsq Hsr Htr Hne Hmm Hp Ht]. apply In_ranks in Hrk.
  pose proof (wf_squares P W) as Hlen. pose proof (wf_side P W) as Hc.
  assert (Eto : moveTo m = to).
  { rewrite Hmm. unfold NUM_SQ in *.
    apply (encode_decode sq to); lia. }
  rewrite Eto in Hden.
  unfold checkGameOver, moved. cbn [squares sideToMove pieceCount].
  assert (Eden : (if 1 - sideToMove P =? LIGHT then DEN_LIGHT_SQ else DEN_DARK_SQ) = to).
  { rewrite Hden. reflexivity. }
  rewrite Eden.
  rewrite ix_upd_ne by congruence.
  rewrite ix_upd_eq by (rewrite Hlen; unfold NUM_SQ in Htr; lia).
  destruct (Z.eqb_spec (signed (sideToMove P) rk) 0) as [E|_].
  { exfalso. apply (signed_nonzero (sideToMove P) rk); [lia | exact E]. }
  rewrite colorOf_signed by (try exact Hc; lia).
  replace (1 - (1 - sideToMove P)) with (sideToMove P) by lia.
  rewrite Z.eqb_refl. reflexivity.
Qed.

Lemma den_entry_wins_witness :
  checkGameOver (makeMove denBoard (encodeMove 52 59)) = -1.
Proof.
  apply den_entry_wins.
  - apply (wf_fen zeroBoard "6r/3R3/7/7/7/7/7/7/7 w");
      [repeat split; reflexivity | vm_compute; reflexivity ..].
  - apply In_existsb. vm_compute. reflexivity.
  - vm_compute. reflexivity.
Defined.

(** *** Perft *)

Lemma sameLive_refl P : sameLive P P.
Proof. unfold sameLive. repeat split; reflexivity. Qed.

Lemma sameLive_trans P Q R : sameLive P Q -> sameLive Q R -> sameLive P R.
Proof.
  intros (E1 & E2 & E3 & E4 & E5 & E6 & E7 & E8 & E9 & E10 & E11 & E12)
         (F1 & F2 & F3 & F4 & F5 & F6 & F7 & F8 & F9 & F10 & F11 & F12).
  rewrite E4 in F11. rewrite E8 in F12.
  unfold sameLive.
  split; [congruence|]. split; [congruence|]. split; [congruence|].
  split; [congruence|]. split; [congruence|]. split; [congruence|].
  split; [congruence|]. split; [congruence|]. split; [congruence|].
  split; [congruence|]. split; congruence.
Qed.

Lemma ixU_firstn (l : list UndoInfo) n j :
  0 <= j < Z.of_nat n -> ixU (firstn n l) j = ixU l j.
Proof.
  intros H. unfold ixU. destruct (j <? 0); [reflexivity|].
  rewrite !nth_lookup, lookup_take_lt by lia. reflexivity.
Qed.

Lemma firstn_upd_last {A} (l l' : list A) n u :
  0 <= n -> (Z.to_nat n < length l)%nat -> length l' = length l ->
  firstn (Z.to_nat n) l' = firstn (Z.to_nat n) l ->
  firstn (Z.to_nat (n + 1)) (upd l' n u) = firstn (Z.to_nat (n + 1)) (upd l n u).
Proof.
  intros Hn Hl Hlen E. unfold upd. destruct (Z.ltb_spec n 0); [lia|].
  replace (Z.to_nat (n + 1)) with (S (Z.to_nat n)) by lia.
  rewrite (take_S_r (<[Z.to_nat n:=u]> l') (Z.to_nat n) u)
    by (apply list_lookup_insert_eq; lia).
  rewrite (take_S_r (<[Z.to_nat n:=u]> l) (Z.to_nat n) u)
    by (apply list_lookup_insert_eq; lia).
  rewrite !take_insert_ge by lia. rewrite E. reflexivity.
Qed.

Lemma firstn_shorter {A} (l l' : list A) n k :
  (k <= n)%nat -> firstn n l' = firstn n l -> firstn k l' = firstn k l.
Proof.
  intros Hk E.
  replace k with (Nat.min k n) by lia.
  rewrite <- (take_take l' k n), <- (take_take l k n), E. reflexivity.
Qed.

Lemma sameLive_makeMove P Q m :
  sameLive P Q -> 0 <= ply P -> 0 <= histLen P ->
  (Z.to_nat (ply P) < length (undoStack P))%nat ->
  (Z.to_nat (histLen P) < length (posHistory P))%nat ->
  sameLive (makeMove P m) (makeMove Q m).
Proof.
  intros (E1 & E2 & E3 & E4 & E5 & E6 & E7 & E8 & E9 & E10 & E11 & E12) Hp Hh Hu Hl.
  unfold sameLive, makeMove. cbv zeta. proj_simpl.
  rewrite E1, E2, E3, E4, E5, E6, E7, E8. rewrite !upd_length.
  do 8 (split; [reflexivity|]).
  split; [exact E9|]. split; [exact E10|].
  split; apply firstn_upd_last; assumption.
Qed.

Lemma sameLive_unmakeMove P Q :
  sameLive P Q -> 1 <= ply P -> 1 <= histLen P ->
  sameLive (unmakeMove P) (unmakeMove Q).
Proof.
  intros (E1 & E2 & E3 & E4 & E5 & E6 & E7 & E8 & E9 & E10 & E11 & E12) Hp Hh.
  assert (Eu : ixU (undoStack Q) (ply P - 1) = ixU (undoStack P) (ply P - 1)).
  { rewrite <- (ixU_firstn (undoStack Q) (Z.to_nat (ply P))) by lia.
    rewrite <- (ixU_firstn (undoStack P) (Z.to_nat (ply P))) by lia.
    rewrite E11. reflexivity. }
  unfold sameLive, unmakeMove. cbv zeta. proj_simpl.
  rewrite E1, E2, E4, E6, E7, E8, Eu.
  do 8 (split; [reflexivity|]).
  split; [exact E9|]. split; [exact E10|].
  split.
  - apply (firstn_shorter _ _ (Z.to_nat (ply P))); [lia | exact E11].
  - apply (firstn_shorter _ _ (Z.to_nat (histLen P))); [lia | exact E12].
Qed.

Lemma sameLive_unmake_make P m :
  wf P -> In m (generateMoves P) -> histLen P < MAX_GAME_LEN ->
  sameLive P (unmakeMove (makeMove P m)).
Proof.
  intros W Hm Hcap.
  destruct (legal_move P m (wf_index P W) (wf_side P W) Hm) as (rk & sq & to & L).
  rewrite (makeMove_moved P m rk sq to (wf_side P W) L).
  destruct (roundtrip_moved P m rk sq to W L Hcap)
    as (Q1 & Q2 & Q3 & Q4 & Q5 & Q6 & Q7 & Q8).
  cbv zeta in Q1, Q2, Q3, Q4, Q5, Q6, Q7, Q8.
  destruct W as [Ws Wps Wpc Wu Wh Wc Wi Wb Whash Wply Wlen Wtop].
  unfold sameLive. rewrite Q1, Q2, Q3, Q4, Q5, Q6, Q7, Q8.
  do 8 (split; [reflexivity|]).
  unfold unmakeMove, moved. cbv zeta. proj_simpl. rewrite !upd_length.
  do 2 (split; [reflexivity|]).
  unfold upd. destruct (Z.ltb_spec (ply P) 0); [lia|].
  destruct (Z.ltb_spec (histLen P) 0); [lia|].
  rewrite !take_insert_ge by lia. split; reflexivity.
Qed.

Lemma sameLive_reads P Q :
  sameLive P Q ->
  checkGameOver Q = checkGameOver P /\ generateMoves Q = generateMoves P.
Proof.
  intros (E1 & E2 & E3 & E4 & E5 & E6 & E7 & _).
  split.
  - unfold checkGameOver. rewrite E1, E2, E7. reflexivity.
  - unfold generateMoves, genRank, addNormalMoves, addJumpMoves, normalStep, jumpStep,
      tryTarget, jumpBlocked.
    rewrite E1, E2, E6. reflexivity.
Qed.

Lemma u64_add_l a b : u64 (u64 a + b) = u64 (a + b).
Proof. unfold u64. apply Z.add_mod_idemp_l. lia. Qed.

Lemma u64_add_r a b : u64 (a + u64 b) = u64 (a + b).
Proof. unfold u64. apply Z.add_mod_idemp_r. lia. Qed.

Lemma perft_spec d : forall P Q,
  reachable P -> sameLive P Q -> histLen P + Z.of_nat d <= MAX_GAME_LEN ->
  fst (perft d Q) = u64 (leafCount d P) /\ sameLive P (snd (perft d Q)).
Proof.
  induction d as [|d IH]; intros P Q HP HS Hcap.
  { cbn [perft leafCount fst snd]. split; [reflexivity | exact HS]. }
  cbn [perft leafCount].
  destruct (sameLive_reads P Q HS) as [Eg Em]. rewrite Eg, Em.
  destruct (negb (checkGameOver P =? 0)).
  { cbn [fst snd]. split; [reflexivity | exact HS]. }
  pose proof (reachable_wf P HP) as W.
  assert (Hloop : forall l n Qi,
            (forall m, In m l -> In m (generateMoves P)) ->
            sameLive P Qi ->
            let r := fold_left (fun (st : Z * Board) (m : Z) =>
                       let r := perft d (makeMove (snd st) m) in
                       (u64 (fst st + fst r), unmakeMove (snd r))) l (n, Qi) in
            u64 (fst r)
            = u64 (n + fold_right (fun m acc => leafCount d (makeMove P m) + acc) 0 l)
            /\ (l <> [] -> fst r = u64 (fst r))
            /\ sameLive P (snd r)).
  { induction l as [|m l IHl]; intros n Qi Hl HQi; cbn [fold_left fold_right fst snd].
    { split; [rewrite Z.add_0_r; reflexivity|]. split; [congruence | exact HQi]. }
    assert (Hm : In m (generateMoves P)) by (apply Hl; left; reflexivity).
    assert (Hcap' : histLen P < MAX_GAME_LEN) by lia.
    assert (HS1 : sameLive (makeMove P m) (makeMove Qi m)).
    { apply sameLive_makeMove; [exact HQi | apply (wf_ply P W) | | |].
      - rewrite (wf_len P W). pose proof (wf_ply P W). lia.
      - rewrite (wf_undo P W). pose proof (wf_ply P W). pose proof (wf_len P W).
        unfold MAX_GAME_LEN in *. lia.
      - rewrite (wf_hist P W). pose proof (wf_ply P W). pose proof (wf_len P W).
        unfold MAX_GAME_LEN in *. lia. }
    destruct (IH (makeMove P m) (makeMove Qi m)) as [E1 E2].
    { apply reach_make; assumption. }
    { exact HS1. }
    { change (histLen (makeMove P m)) with (histLen P + 1). lia. }
    assert (HS2 : sameLive P (unmakeMove (snd (perft d (makeMove Qi m))))).
    { apply (sameLive_trans _ (unmakeMove (makeMove P m))).
      - apply sameLive_unmake_make; assumption.
      - apply sameLive_unmakeMove; [exact E2 | |].
        + change (ply (makeMove P m)) with (ply P + 1). pose proof (wf_ply P W). lia.
        + change (histLen (makeMove P m)) with (histLen P + 1).
          pose proof (wf_ply P W). pose proof (wf_len P W). lia. }
    destruct (IHl (u64 (n + fst (perft d (makeMove Qi m))))
                  (unmakeMove (snd (perft d (makeMove Qi m))))) as (F1 & F2 & F3).
    { intros m' Hm'. apply Hl. right. exact Hm'. }
    { exact HS2. }
    cbv zeta in F1, F2, F3.
    split; [|split; [|exact F3]].
    - rewrite F1, E1, u64_add_l.
      replace (n + u64 (leafCount d (makeMove P m))
               + fold_right (fun m0 acc => leafCount d (makeMove P m0) + acc) 0 l)
        with (n + fold_right (fun m0 acc => leafCount d (makeMove P m0) + acc) 0 l
              + u64 (leafCount d (makeMove P m))) by lia.
      rewrite u64_add_r. f_equal. lia.
    - intros _. destruct l as [|m' l'].
      + cbn [fold_left fst]. unfold u64. rewrite Z.mod_mod by lia. reflexivity.
      + apply F2. discriminate. }
  destruct (Hloop (generateMoves P) 0 Q (fun _ h => h) HS) as (G1 & G2 & G3).
  cbv zeta in G1, G2, G3. split; [|exact G3].
  destruct (generateMoves P) as [|m l] eqn:El.
  - cbn [fold_left fold_right fst]. reflexivity.
  - rewrite G2 by discriminate. rewrite G1. reflexivity.
Qed.

(** X13: [perft] on a reachable position, with room in the stacks for
    [depth] more plies, returns the number of lines of play of that length
    (a position where the game is over has none), and leaves the board as it
    found it: every field and every live stack entry is restored. *)
Theorem perft_counts_and_restores P depth :
  reachable P -> histLen P + Z.of_nat depth <= MAX_GAME_LEN ->
  fst (perft depth P) = u64 (leafCount depth P)
  /\ sameLive P (snd (perft depth P)).
Proof.
  intros HP Hcap. apply perft_spec; [exact HP | apply sameLive_refl | exact Hcap].
Qed.

Lemma perft_counts_and_restores_witness :
  fst (perft 2 (init zeroBoard)) = u64 (leafCount 2 (init zeroBoard))
  /\ sameLive (init zeroBoard) (snd (perft 2 (init zeroBoard))).
Proof.
  apply perft_counts_and_restores; [exact start_reachable | vm_compute; discriminate].
Defined.

(** *** The transposition table *)

Lemma land_le a b : 0 <= b -> Z.land a b <= b.
Proof.
  intros Hb.
  assert (E : b = Z.land a b + Z.ldiff b a).
  { rewrite Z.add_nocarry_lxor.
    - apply Z.bits_inj'. intros n Hn.
      rewrite Z.lxor_spec, Z.land_spec, Z.ldiff_spec.
      destruct (Z.testbit a n), (Z.testbit b n); reflexivity.
    - apply Z.bits_inj'. intros n Hn.
      rewrite !Z.land_spec, Z.ldiff_spec, Z.bits_0.
      destruct (Z.testbit a n), (Z.testbit b n); reflexivity. }
  assert (0 <= Z.ldiff b a) by (apply Z.ldiff_nonneg; left; exact Hb).
  lia.
Qed.

Lemma slot_range s key :
  tableOk s -> 0 <= key -> 0 <= slot s key < Z.of_nat (length (tt s)).
Proof.
  intros [Hm Hl] Hk. unfold slot. rewrite Hl.
  pose proof (land_le key (ttMask s) Hm).
  assert (0 <= Z.land key (ttMask s)) by (apply Z.land_nonneg; left; exact Hk).
  lia.
Qed.

Lemma ixT_upd_eq (a : list TTEntry) i v :
  0 <= i < Z.of_nat (length a) -> ixT (upd a i v) i = v.
Proof.
  intros H. unfold ixT, upd. destruct (Z.ltb_spec i 0); [lia|].
  rewrite nth_lookup, list_lookup_insert_eq by lia. reflexivity.
Qed.

Lemma ixT_upd_ne (a : list TTEntry) i j v : i <> j -> ixT (upd a i v) j = ixT a j.
Proof.
  intros H. unfold ixT, upd.
  destruct (Z.ltb_spec j 0); [reflexivity|].
  destruct (Z.ltb_spec i 0); [reflexivity|].
  rewrite !nth_lookup, list_lookup_insert_ne by lia. reflexivity.
Qed.

Lemma storeTT_ok s key score bestMove depth flag :
  tableOk s -> tableOk (storeTT s key score bestMove depth flag).
Proof.
  intros [Hm Hl]. unfold storeTT, tableOk. cbv zeta.
  destruct (_ || _); cbn [tt ttMask]; rewrite ?upd_length; auto.
Qed.

(** X14: a store that replaces is found again.  When the slot of [key] is
    empty, holds the same key, or holds an entry whose depth is not greater
    than the new one, a probe for [key] after [storeTT] with a flag other
    than [TT_NONE] returns the stored entry, with the score and depth cut
    to 16 and 8 bits; scores within [SCORE_INF + MAX_PLY] and depths within
    [MAX_PLY - 1] are stored unchanged. *)
Theorem store_then_probe s key score bestMove depth flag :
  tableOk s -> 0 <= key -> flag <> TT_NONE ->
  let e := ixT (tt s) (slot s key) in
  (tt_flag e = TT_NONE \/ tt_key e = key \/ tt_depth e <= depth) ->
  probeTT (storeTT s key score bestMove depth flag) key
  = Some (mkTT key (int16 score) bestMove (int8 depth) flag)
  /\ (- (SCORE_INF + MAX_PLY) <= score <= SCORE_INF + MAX_PLY -> int16 score = score)
  /\ (- MAX_PLY <= depth < MAX_PLY -> int8 depth = depth).
Proof.
  intros Hok Hk Hf e Hrep.
  split; [|split].
  - unfold storeTT, probeTT. cbv zeta. fold (slot s key). fold e.
    assert (C : (tt_flag e =? TT_NONE) || (tt_key e =? key) || (tt_depth e <=? depth) = true).
    { destruct Hrep as [H|[H|H]].
      - rewrite (proj2 (Z.eqb_eq _ _) H). reflexivity.
      - rewrite (proj2 (Z.eqb_eq _ _) H). apply orb_true_iff. left. apply orb_true_r.
      - rewrite (proj2 (Z.leb_le _ _) H). apply orb_true_r. }
    rewrite C. cbn [tt ttMask]. fold (slot s key).
    rewrite ixT_upd_eq by (apply slot_range; assumption).
    cbn [tt_flag tt_key]. rewrite Z.eqb_refl.
    destruct (Z.eqb_spec flag TT_NONE); [contradiction | reflexivity].
  - unfold SCORE_INF, MAX_PLY, int16. intros H. rewrite Z.mod_small; lia.
  - unfold MAX_PLY. intros H. apply int8_id. lia.
Qed.

Lemma store_then_probe_witness :
  probeTT (storeTT (ttInit 1) 12345 (-250) 7 5 TT_EXACT) 12345
  = Some (mkTT 12345 (int16 (-250)) 7 (int8 5) TT_EXACT)
  /\ (- (SCORE_INF + MAX_PLY) <= -250 <= SCORE_INF + MAX_PLY -> int16 (-250) = -250)
  /\ (- MAX_PLY <= 5 < MAX_PLY -> int8 5 = 5).
Proof.
  apply (store_then_probe (ttInit 1) 12345 (-250) 7 5 TT_EXACT).
  - split; vm_compute; [discriminate | reflexivity].
  - lia.
  - discriminate.
  - left. vm_compute. reflexivity.
Defined.

(** X15: [storeTT] is depth-preferred and local.  When the slot holds an
    entry of another position searched deeper than the new depth, the table
    is left as it is; in every case, probes for keys of other slots answer
    as before. *)
Theorem store_keeps s key score bestMove depth flag :
  tableOk s -> 0 <= key ->
  let e := ixT (tt s) (slot s key) in
  (tt_flag e <> TT_NONE -> tt_key e <> key -> depth < tt_depth e ->
     storeTT s key score bestMove depth flag = s)
  /\ (forall key', slot s key' <> slot s key ->
        probeTT (storeTT s key score bestMove depth flag) key' = probeTT s key').
Proof.
  intros Hok Hk e. split.
  - intros H1 H2 H3. unfold storeTT. cbv zeta. fold (slot s key). fold e.
    destruct (Z.eqb_spec (tt_flag e) TT_NONE); [contradiction|].
    destruct (Z.eqb_spec (tt_key e) key); [contradiction|].
    destruct (Z.leb_spec (tt_depth e) depth); [lia|]. reflexivity.
  - intros key' Hne. unfold storeTT, probeTT. cbv zeta.
    destruct (_ || _); [|reflexivity].
    cbn [tt ttMask]. fold (slot s key) (slot s key').
    rewrite ixT_upd_ne by congruence. reflexivity.
Qed.

Lemma store_keeps_witness :
  let s := storeTT (ttInit 1) 12345 (-250) 7 5 TT_EXACT in
  let e := ixT (tt s) (slot s (12345 + 65536)) in
  (tt_flag e <> TT_NONE -> tt_key e <> 12345 + 65536 -> 3 < tt_depth e ->
     storeTT s (12345 + 65536) 10 8 3 TT_BETA = s)
  /\ (forall key', slot s key' <> slot s (12345 + 65536) ->
        probeTT (storeTT s (12345 + 65536) 10 8 3 TT_BETA) key' = probeTT s key').
Proof.
  apply (store_keeps (storeTT (ttInit 1) 12345 (-250) 7 5 TT_EXACT)).
  - split; vm_compute; [discriminate | reflexivity].
  - lia.
Defined.

Lemma roundDown_spec fuel : forall j n,
  0 <= j -> 2 ^ j <= Z.max n 1 -> n < 2 ^ (j + Z.of_nat fuel) -> n < 2 ^ 63 ->
  exists k, j <= k /\ roundDown fuel (2 ^ j) n = 2 ^ k
            /\ 2 ^ k <= Z.max n 1 /\ n < 2 ^ (k + 1).
Proof.
  induction fuel as [|fuel IH]; intros j n Hj Hle Hlt H63.
  { cbn [roundDown]. rewrite Z.add_0_r in Hlt. exists j.
    split; [lia|]. split; [reflexivity|]. split; [exact Hle|].
    rewrite Z.pow_add_r by lia. lia. }
  cbn [roundDown].
  assert (Hj63 : j < 63).
  { destruct (Z.lt_ge_cases j 63) as [H|H]; [exact H|].
    assert (2 ^ 63 <= 2 ^ j) by (apply Z.pow_le_mono_r; lia).
    assert (1 < 2 ^ 63) by (apply Z.pow_gt_1; lia). lia. }
  assert (E2 : u64 (2 ^ j * 2) = 2 ^ (j + 1)).
  { rewrite Z.pow_add_r by lia. change (2 ^ 1) with 2. unfold u64.
    apply Z.mod_small. split; [apply Z.mul_nonneg_nonneg; lia|].
    replace (2 ^ j * 2) with (2 ^ (j + 1)) by (rewrite Z.pow_add_r by lia; reflexivity).
    apply Z.pow_lt_mono_r; lia. }
  rewrite E2.
  destruct (Z.leb_spec (2 ^ (j + 1)) n) as [H|H].
  - destruct (IH (j + 1) n) as (k & Hk & E & H1 & H2); try lia.
    { replace (j + 1 + Z.of_nat fuel) with (j + Z.of_nat (S fuel)) by lia. exact Hlt. }
    exists k. split; [lia|]. auto.
  - exists j. split; [lia|]. split; [reflexivity|]. split; [exact Hle | exact H].
Qed.

Lemma ixT_replicate n i : ixT (replicate n ttZero) i = ttZero.
Proof.
  unfold ixT. destruct (i <? 0); [reflexivity|].
  generalize (Z.to_nat i). intros k. revert k.
  induction n as [|n IH]; intros [|k]; cbn [replicate nth]; auto.
Qed.

(** X16: [Search::init] rounds the number of entries down to a power of
    two.  For a size below 2^44 MB the loop ends within the 64 iterations
    that [size_t] allows; the table gets [2^k] zeroed entries with
    [ttMask = 2^k - 1], where [2^k] is the greatest power of two not above
    the number [n] of entries that fit (one entry when none fits); the slot
    of every key lies inside the table, and every probe of the fresh table
    misses. *)
Theorem ttInit_power_of_two mb :
  0 <= mb < 2 ^ 44 ->
  let s := ttInit mb in
  let n := mb * 1024 * 1024 / TT_ENTRY_SIZE in
  exists k, 0 <= k
    /\ ttEntries s = 2 ^ k /\ ttMask s = 2 ^ k - 1
    /\ Z.of_nat (length (tt s)) = 2 ^ k
    /\ 2 ^ k <= Z.max n 1 /\ n < 2 ^ (k + 1)
    /\ tableOk s
    /\ (forall key, 0 <= key -> 0 <= slot s key < Z.of_nat (length (tt s)))
    /\ forall key, probeTT s key = None.
Proof.
  intros Hmb. cbv zeta.
  assert (Eb : u64 (u64 (mb * 1024) * 1024) = mb * 1024 * 1024).
  { unfold u64. change (2 ^ 44) with 17592186044416 in Hmb.
    change (2 ^ 64) with 18446744073709551616.
    rewrite (Z.mod_small (mb * 1024)) by lia. apply Z.mod_small. lia. }
  unfold ttInit. cbv zeta. rewrite Eb.
  set (n := mb * 1024 * 1024 / TT_ENTRY_SIZE).
  assert (Hn : 0 <= n < 2 ^ 63).
  { unfold n, TT_ENTRY_SIZE. change (2 ^ 44) with 17592186044416 in Hmb.
    change (2 ^ 63) with 9223372036854775808.
    replace (mb * 1024 * 1024) with ((mb * 65536) * 16) by lia.
    rewrite Z.div_mul by lia. lia. }
  destruct (roundDown_spec 64 0 n) as (k & Hk & E & H1 & H2).
  { lia. } { change (2 ^ 0) with 1. lia. }
  { change (0 + Z.of_nat 64) with 64. change (2 ^ 64) with 18446744073709551616.
    change (2 ^ 63) with 9223372036854775808 in Hn. lia. }
  { lia. }
  change (2 ^ 0) with 1 in E. rewrite E.
  assert (Hp : 0 < 2 ^ k) by (apply Z.pow_pos_nonneg; lia).
  exists k. cbn [tt ttMask ttEntries]. rewrite length_replicate.
  split; [exact Hk|]. split; [reflexivity|]. split; [reflexivity|].
  split; [lia|]. split; [exact H1|]. split; [exact H2|].
  assert (Hok : tableOk (mkTable (replicate (Z.to_nat (2 ^ k)) ttZero) (2 ^ k - 1) (2 ^ k))).
  { unfold tableOk. cbn [tt ttMask]. rewrite length_replicate. lia. }
  split; [exact Hok|]. split.
  - intros key Hkey. pose proof (slot_range _ key Hok Hkey) as Hs.
    cbn [tt] in Hs. rewrite length_replicate in Hs. exact Hs.
  - intros key. unfold probeTT. cbn [tt ttMask]. rewrite ixT_replicate. reflexivity.
Qed.

Lemma ttInit_power_of_two_witness :
  exists k, 0 <= k
    /\ ttEntries (ttInit 1) = 2 ^ k /\ ttMask (ttInit 1) = 2 ^ k - 1
    /\ Z.of_nat (length (tt (ttInit 1))) = 2 ^ k
    /\ 2 ^ k <= Z.max (1 * 1024 * 1024 / TT_ENTRY_SIZE) 1
    /\ 1 * 1024 * 1024 / TT_ENTRY_SIZE < 2 ^ (k + 1)
    /\ tableOk (ttInit 1)
    /\ (forall key, 0 <= key ->
          0 <= slot (ttInit 1) key < Z.of_nat (length (tt (ttInit 1))))
    /\ forall key, probeTT (ttInit 1) key = None.
Proof. apply (ttInit_power_of_two 1). vm_compute. split; [discriminate | reflexivity]. Defined.

(** *** Picking the best move *)

Lemma pickFold_spec scores l : forall bi,
  let r := fold_left (pickStep scores) l (bi, ix scores bi) in
  snd r = ix scores (fst r)
  /\ (fst r = bi \/ In (fst r) l)
  /\ ix scores bi <= snd r
  /\ (forall i, In i l -> ix scores i <= snd r).
Proof.
  induction l as [|x l IH]; intros bi; cbn [fold_left].
  { cbn [fst snd]. split; [reflexivity|]. split; [left; reflexivity|].
    split; [lia | intros i []]. }
  assert (Es : pickStep scores (bi, ix scores bi) x
               = if ix scores x >? ix scores bi then (x, ix scores x)
                 else (bi, ix scores bi)) by reflexivity.
  rewrite Es. clear Es.
  destruct (Z.gtb_spec (ix scores x) (ix scores bi)) as [H|H].
  - destruct (IH x) as (H1 & H2 & H3 & H4). cbv zeta in *.
    split; [exact H1|]. split; [right; destruct H2 as [->|H2]; [left; reflexivity | right; exact H2]|].
    split; [lia|]. intros i [<-|Hi]; [exact H3 | apply H4; exact Hi].
  - destruct (IH bi) as (H1 & H2 & H3 & H4). cbv zeta in *.
    split; [exact H1|]. split; [destruct H2 as [->|H2]; [left; reflexivity | right; right; exact H2]|].
    split; [exact H3|]. intros i [<-|Hi]; [lia | apply H4; exact Hi].
Qed.

Lemma In_shift_range cur count i :
  In i (map (fun k => cur + 1 + k) (range (count - (cur + 1)))) <-> cur < i < count.
Proof.
  rewrite in_map_iff. split.
  - intros (k & <- & Hk). apply In_range in Hk. lia.
  - intros H. exists (i - (cur + 1)). split; [lia|]. apply In_range. lia.
Qed.

Lemma pickLoop_spec scores count cur :
  cur < count ->
  let b := fst (pickLoop scores count cur) in
  cur <= b < count /\ forall i, cur <= i < count -> ix scores i <= ix scores b.
Proof.
  intros Hc. unfold pickLoop.
  destruct (pickFold_spec scores
              (map (fun k => cur + 1 + k) (range (count - (cur + 1)))) cur)
    as (H1 & H2 & H3 & H4).
  cbv zeta in *. rewrite H1 in H3, H4. split.
  - destruct H2 as [->|H2]; [lia|]. apply In_shift_range in H2. lia.
  - intros i Hi. destruct (Z.eq_dec i cur) as [->|Hne]; [exact H3|].
    apply H4. apply In_shift_range. lia.
Qed.

Lemma ix_swap a i j k :
  0 <= i < Z.of_nat (length a) -> 0 <= j < Z.of_nat (length a) ->
  ix (swap a i j) k = if k =? j then ix a i else if k =? i then ix a j else ix a k.
Proof.
  intros Hi Hj. unfold swap.
  destruct (Z.eqb_spec k j) as [->|Hkj].
  { rewrite ix_upd_eq by (rewrite upd_length; exact Hj). reflexivity. }
  rewrite ix_upd_ne by congruence.
  destruct (Z.eqb_spec k i) as [->|Hki].
  { rewrite ix_upd_eq by exact Hi. reflexivity. }
  rewrite ix_upd_ne by congruence. reflexivity.
Qed.

Lemma swap_length a i j : length (swap a i j) = length a.
Proof. unfold swap. rewrite !upd_length. reflexivity. Qed.

Lemma delete_insert_same {A} (l : list A) i y : delete i (<[i:=y]> l) = delete i l.
Proof.
  revert i. induction l as [|x l IH]; intros [|i]; cbn; try reflexivity.
  f_equal. apply IH.
Qed.

Lemma insert_insert_Permutation {A} (l : list A) i j x y :
  i <> j -> l !! i = Some x -> l !! j = Some y ->
  <[j:=x]> (<[i:=y]> l) ≡ₚ l.
Proof.
  intros Hne Hi Hj.
  assert (Li : (i < length l)%nat) by (apply lookup_lt_is_Some; eauto).
  assert (Lj : (j < length l)%nat) by (apply lookup_lt_is_Some; eauto).
  set (l1 := <[i:=y]> l).
  assert (H1i : l1 !! i = Some y) by (apply list_lookup_insert_eq; exact Li).
  assert (H1j : l1 !! j = Some y).
  { unfold l1. rewrite list_lookup_insert_ne by exact Hne. exact Hj. }
  assert (P1 : l1 ≡ₚ y :: delete i l).
  { rewrite (delete_Permutation l1 i y H1i). unfold l1.
    rewrite delete_insert_same. reflexivity. }
  assert (P2 : l1 ≡ₚ y :: delete j l1) by (apply delete_Permutation; exact H1j).
  assert (P3 : delete j l1 ≡ₚ delete i l).
  { apply (Permutation_cons_inv (a := y)). rewrite <- P1, <- P2. reflexivity. }
  assert (L1j : (j < length l1)%nat) by (unfold l1; rewrite length_insert; exact Lj).
  assert (P4 : <[j:=x]> l1 ≡ₚ x :: delete j l1).
  { rewrite (delete_Permutation (<[j:=x]> l1) j x)
      by (apply list_lookup_insert_eq; exact L1j).
    rewrite delete_insert_same. reflexivity. }
  rewrite P4, P3. symmetry. apply delete_Permutation. exact Hi.
Qed.

Lemma ix_lookup (a : list Z) i :
  0 <= i < Z.of_nat (length a) -> a !! Z.to_nat i = Some (ix a i).
Proof.
  intros H. unfold ix. destruct (Z.ltb_spec i 0); [lia|].
  rewrite nth_lookup. destruct (a !! Z.to_nat i) eqn:E; [reflexivity|].
  apply lookup_ge_None in E. lia.
Qed.

Lemma swap_zip_Permutation moves scores i j :
  length moves = length scores ->
  0 <= i < Z.of_nat (length scores) -> 0 <= j < Z.of_nat (length scores) -> i <> j ->
  zip (swap moves i j) (swap scores i j) ≡ₚ zip moves scores.
Proof.
  intros Hlen Hi Hj Hne. unfold swap, upd.
  destruct (Z.ltb_spec i 0); [lia|]. destruct (Z.ltb_spec j 0); [lia|].
  rewrite <- !insert_zip_with.
  apply insert_insert_Permutation; [lia | |].
  - apply lookup_zip_Some. split; apply ix_lookup; lia.
  - apply lookup_zip_Some. split; apply ix_lookup; lia.
Qed.

Lemma pickBest_swap moves scores count cur :
  0 <= cur < count -> count <= Z.of_nat (length scores) ->
  length moves = length scores ->
  let r := pickBest moves scores count cur in
  length (fst r) = length moves /\ length (snd r) = length scores
  /\ zip (fst r) (snd r) ≡ₚ zip moves scores
  /\ (forall i, cur <= i < count -> ix (snd r) i <= ix (snd r) cur)
  /\ (forall i, cur <= i < count -> ix scores i <= ix (snd r) cur)
  /\ (forall i, ~ cur <= i < count ->
        ix (fst r) i = ix moves i /\ ix (snd r) i = ix scores i)
  /\ (exists b, cur <= b < count /\ ix (snd r) cur = ix scores b).
Proof.
  intros Hc Hcount Hlen. unfold pickBest.
  destruct (pickLoop_spec scores count cur ltac:(lia)) as [Hb Hmax].
  cbv zeta in *. set (b := fst (pickLoop scores count cur)) in *.
  destruct (Z.eqb_spec b cur) as [E|E]; cbn [negb fst snd].
  { rewrite E in Hmax. split; [reflexivity|]. split; [reflexivity|].
    split; [reflexivity|]. split; [exact Hmax|]. split; [exact Hmax|].
    split; [auto|]. exists cur. split; [lia | reflexivity]. }
  rewrite !swap_length.
  split; [reflexivity|]. split; [reflexivity|].
  split; [apply swap_zip_Permutation; [exact Hlen | lia | lia | congruence]|].
  assert (Ecur : ix (swap scores cur b) cur = ix scores b).
  { rewrite ix_swap by lia. destruct (Z.eqb_spec cur b); [congruence|].
    rewrite Z.eqb_refl. reflexivity. }
  rewrite Ecur.
  split; [|split; [|split]].
  - intros i Hi. rewrite ix_swap by lia.
    destruct (i =? b); [apply Hmax; lia|].
    destruct (i =? cur); [lia | apply Hmax; exact Hi].
  - exact Hmax.
  - intros i Hi. rewrite !ix_swap by lia.
    destruct (Z.eqb_spec i b); [lia|]. destruct (Z.eqb_spec i cur); [lia|]. auto.
  - exists b. split; [lia | reflexivity].
Qed.

(** X17: [pickBest] with [0 <= cur < count] on two arrays of the same
    length moves a best-scored entry of the range [cur .. count - 1] to
    index [cur]: afterwards no score in that range exceeds the one at
    [cur].  Moves travel with their scores (the pairs are a permutation of
    the pairs before), and nothing outside the range changes. *)
Theorem pickBest_selects moves scores count cur :
  0 <= cur < count -> count <= Z.of_nat (length scores) ->
  length moves = length scores ->
  let r := pickBest moves scores count cur in
  zip (fst r) (snd r) ≡ₚ zip moves scores
  /\ (forall i, cur <= i < count -> ix (snd r) i <= ix (snd r) cur)
  /\ (forall i, cur <= i < count -> ix scores i <= ix (snd r) cur)
  /\ (forall i, ~ cur <= i < count ->
        ix (fst r) i = ix moves i /\ ix (snd r) i = ix scores i).
Proof.
  intros Hc Hcount Hlen.
  destruct (pickBest_swap moves scores count cur Hc Hcount Hlen)
    as (_ & _ & H3 & H4 & H5 & H6 & _).
  cbv zeta in *. auto.
Qed.

Lemma pickBest_selects_witness :
  let r := pickBest [7; 8; 9; 10] [5; 300; 40; 300] 4 1 in
  zip (fst r) (snd r) ≡ₚ zip [7; 8; 9; 10] [5; 300; 40; 300]
  /\ (forall i, 1 <= i < 4 -> ix (snd r) i <= ix (snd r) 1)
  /\ (forall i, 1 <= i < 4 -> ix [5; 300; 40; 300] i <= ix (snd r) 1)
  /\ (forall i, ~ 1 <= i < 4 ->
        ix (fst r) i = ix [7; 8; 9; 10] i /\ ix (snd r) i = ix [5; 300; 40; 300] i).
Proof.
  apply (pickBest_selects [7; 8; 9; 10] [5; 300; 40; 300] 4 1);
    [lia | cbn [length]; lia | reflexivity].
Defined.

Lemma pickUpTo_S moves scores count n :
  pickUpTo moves scores count (S n)
  = pickBest (fst (pickUpTo moves scores count n))
             (snd (pickUpTo moves scores count n)) count (Z.of_nat n).
Proof.
  unfold pickUpTo. rewrite seq_S, map_app, fold_left_app. reflexivity.
Qed.

Lemma pickUpTo_spec moves scores count n :
  Z.of_nat n <= count -> count <= Z.of_nat (length scores) ->
  length moves = length scores ->
  let r := pickUpTo moves scores count n in
  length (fst r) = length moves /\ length (snd r) = length scores
  /\ zip (fst r) (snd r) ≡ₚ zip moves scores
  /\ (forall i j, 0 <= i < Z.of_nat n -> i <= j < count ->
        ix (snd r) j <= ix (snd r) i)
  /\ (forall i, count <= i ->
        ix (fst r) i = ix moves i /\ ix (snd r) i = ix scores i).
Proof.
  intros Hn Hcount Hlen. induction n as [|n IH].
  { cbn. split; [reflexivity|]. split; [reflexivity|]. split; [reflexivity|].
    split; [intros; lia | auto]. }
  destruct IH as (L1 & L2 & P & Hs & U); [lia|]. cbv zeta in *.
  rewrite pickUpTo_S.
  set (r := pickUpTo moves scores count n) in *.
  destruct (pickBest_swap (fst r) (snd r) count (Z.of_nat n))
    as (K1 & K2 & K3 & K4 & K5 & K6 & (b & Hb & K7)); [lia | lia | congruence |].
  cbv zeta in *.
  set (r' := pickBest (fst r) (snd r) count (Z.of_nat n)) in *.
  split; [congruence|]. split; [congruence|].
  split; [rewrite K3; exact P|].
  split.
  - intros i j Hi Hj.
    destruct (Z.eq_dec i (Z.of_nat n)) as [->|Hne].
    { apply K4. lia. }
    assert (Ei : ix (snd r') i = ix (snd r) i) by (apply K6; lia).
    rewrite Ei.
    destruct (Z.lt_ge_cases j (Z.of_nat n)) as [Hjn|Hjn].
    + assert (Ej : ix (snd r') j = ix (snd r) j) by (apply K6; lia).
      rewrite Ej. apply Hs; lia.
    + transitivity (ix (snd r') (Z.of_nat n)); [apply K4; lia|].
      rewrite K7. apply Hs; lia.
  - intros i Hi. destruct (K6 i ltac:(lia)) as [E1 E2].
    destruct (U i Hi) as [E3 E4]. split; congruence.
Qed.

(** X18: the search loops call [pickBest] at the head of iteration
    [0, 1, 2, ...].  After the first [n] calls ([n <= count]) the entries
    [0 .. n - 1] are in descending order of score and none of them is below
    any later entry of the range, so the loops meet the generated moves best
    score first; the moves have travelled with their scores (the pairs are
    a permutation of the pairs before), and the entries from [count] on are
    untouched. *)
Theorem pickBest_sorts moves scores count n :
  Z.of_nat n <= count -> count <= Z.of_nat (length scores) ->
  length moves = length scores ->
  let r := pickUpTo moves scores count n in
  zip (fst r) (snd r) ≡ₚ zip moves scores
  /\ (forall i j, 0 <= i < Z.of_nat n -> i <= j < count ->
        ix (snd r) j <= ix (snd r) i)
  /\ (forall i, count <= i ->
        ix (fst r) i = ix moves i /\ ix (snd r) i = ix scores i).
Proof.
  intros Hn Hc Hlen.
  destruct (pickUpTo_spec moves scores count n Hn Hc Hlen) as (_ & _ & P & Hs & U).
  cbv zeta in *. auto.
Qed.

Lemma pickBest_sorts_witness :
  let r := pickUpTo [7; 8; 9; 10] [5; 300; 40; 300] 3 2 in
  zip (fst r) (snd r) ≡ₚ zip [7; 8; 9; 10] [5; 300; 40; 300]
  /\ (forall i j, 0 <= i < Z.of_nat 2 -> i <= j < 3 ->
        ix (snd r) j <= ix (snd r) i)
  /\ (forall i, 3 <= i ->
        ix (fst r) i = ix [7; 8; 9; 10] i /\ ix (snd r) i = ix [5; 300; 40; 300] i).
Proof.
  apply (pickBest_sorts [7; 8; 9; 10] [5; 300; 40; 300] 3 2);
    [lia | cbn [length]; lia | reflexivity].
Defined.

(** *** Scoring moves *)

Lemma Forall_ix (P : Z -> Prop) (a : list Z) i : P 0 -> Forall P a -> P (ix a i).
Proof.
  intros H0 H. unfold ix. destruct (i <? 0); [exact H0|].
  rewrite nth_lookup. destruct (a !! Z.to_nat i) eqn:E; [|exact H0].
  cbn. rewrite Forall_lookup in H. apply (H _ _ E).
Qed.

Lemma material_range rk :
  1 <= rk <= 8 -> 250 <= ix MATERIAL_VAL rk <= 1050.
Proof.
  intros H.
  assert (E : rk = 1 \/ rk = 2 \/ rk = 3 \/ rk = 4 \/ rk = 5 \/ rk = 6 \/ rk = 7 \/ rk = 8)
    by lia.
  destruct E as [->|[->|[->|[->|[->|[->|[->| ->]]]]]]]; vm_compute; split; discriminate.
Qed.

(** X19: the tiers of [scoreMove] never overlap.  The hash move scores
    1000000; any other move onto the den of the other side scores 900000;
    any other capture between pieces of ranks 1 to 8 scores between 501450
    and 510250; every remaining move scores at most 400000 and at least 0
    as long as the history entries lie in 0..100000. *)
Theorem scoreMove_tiers sqs o m ply hashMove :
  historyOk (historyTab o) ->
  let from := moveFrom m in
  let to := moveTo m in
  let target := ix sqs to in
  let piece := ix sqs from in
  let oppDen := if colorOf piece =? LIGHT then DEN_DARK_SQ else DEN_LIGHT_SQ in
  let s := scoreMove sqs o m ply hashMove in
  (m = hashMove -> s = 1000000)
  /\ (m <> hashMove -> to = oppDen -> s = 900000)
  /\ (m <> hashMove -> to <> oppDen -> target <> 0 ->
        1 <= Z.abs target <= 8 -> 1 <= Z.abs piece <= 8 ->
        501450 <= s <= 510250)
  /\ (m <> hashMove -> to <> oppDen -> target = 0 -> 0 <= s <= 400000).
Proof.
  intros Hh. cbv zeta. unfold scoreMove.
  split; [|split; [|split]].
  - intros ->. rewrite Z.eqb_refl. reflexivity.
  - intros Hm Hd. destruct (Z.eqb_spec m hashMove); [contradiction|].
    cbv zeta. rewrite Hd at 1. rewrite Z.eqb_refl. reflexivity.
  - intros Hm Hd Ht Hrt Hrp. destruct (Z.eqb_spec m hashMove); [contradiction|].
    cbv zeta.
    destruct (Z.eqb_spec (moveTo m)
                (if colorOf (ix sqs (moveFrom m)) =? LIGHT then DEN_DARK_SQ
                 else DEN_LIGHT_SQ)); [contradiction|].
    destruct (Z.eqb_spec (ix sqs (moveTo m)) 0); [contradiction|]. cbn [negb].
    pose proof (material_range _ Hrt). pose proof (material_range _ Hrp). lia.
  - intros Hm Hd Ht. destruct (Z.eqb_spec m hashMove); [contradiction|].
    cbv zeta.
    destruct (Z.eqb_spec (moveTo m)
                (if colorOf (ix sqs (moveFrom m)) =? LIGHT then DEN_DARK_SQ
                 else DEN_LIGHT_SQ)); [contradiction|].
    rewrite Ht. cbn [Z.eqb negb].
    destruct (_ && _); [lia|]. destruct (_ && _); [lia|].
    pose proof (Forall_ix (fun v => 0 <= v <= 100000) (historyTab o)
                  (historyIdx (colorOf (ix sqs (moveFrom m))) (moveFrom m) (moveTo m))
                  ltac:(cbv beta; lia) Hh).
    cbv beta in H. lia.
Qed.

Lemma scoreMove_tiers_witness :
  let sqs := squares lionPreyBoard in
  let o := clearHistory in
  let m := encodeMove 14 15 in
  let from := moveFrom m in
  let to := moveTo m in
  let target := ix sqs to in
  let piece := ix sqs from in
  let oppDen := if colorOf piece =? LIGHT then DEN_DARK_SQ else DEN_LIGHT_SQ in
  let s := scoreMove sqs o m 0 MOVE_NONE in
  (m = MOVE_NONE -> s = 1000000)
  /\ (m <> MOVE_NONE -> to = oppDen -> s = 900000)
  /\ (m <> MOVE_NONE -> to <> oppDen -> target <> 0 ->
        1 <= Z.abs target <= 8 -> 1 <= Z.abs piece <= 8 ->
        501450 <= s <= 510250)
  /\ (m <> MOVE_NONE -> to <> oppDen -> target = 0 -> 0 <= s <= 400000).
Proof.
  apply (scoreMove_tiers (squares lionPreyBoard) clearHistory (encodeMove 14 15) 0 MOVE_NONE).
  unfold historyOk, clearHistory. cbn [historyTab].
  apply Forall_replicate. lia.
Defined.

(** X20: the history update keeps the table within bounds.  When every
    entry lies in 0..100000 and the bonus [depth * depth] is at most
    100000, every entry lies in 0..100000 afterwards, and the table keeps
    its length; the cleared table is within bounds. *)
Theorem history_bounded h stm from to depth :
  historyOk h -> depth * depth <= 100000 ->
  historyOk (historyBonus h stm from to depth)
  /\ length (historyBonus h stm from to depth) = length h
  /\ historyOk (historyTab clearHistory).
Proof.
  intros Hh Hd.
  assert (Hb : 0 <= depth * depth) by nia.
  set (i := historyIdx stm from to).
  assert (Hi : 0 <= ix h i <= 100000).
  { apply (Forall_ix (fun v => 0 <= v <= 100000)); [cbv beta; lia | exact Hh]. }
  assert (H1 : Forall (fun v => 0 <= v <= 200000) (upd h i (ix h i + depth * depth))).
  { unfold upd. destruct (i <? 0).
    - eapply Forall_impl; [exact Hh|]. cbv beta. intros; lia.
    - apply Forall_insert; [|lia].
      eapply Forall_impl; [exact Hh|]. cbv beta. intros; lia. }
  split; [|split].
  - unfold historyBonus. cbv zeta. fold i.
    destruct (Z.gtb_spec (ix (upd h i (ix h i + depth * depth)) i) 100000) as [Hg|Hg].
    + unfold historyOk. apply Forall_map.
      eapply Forall_impl; [exact H1|]. cbv beta. intros v Hv.
      pose proof (Z.quot_pos v 2 ltac:(lia) ltac:(lia)).
      assert (Z.quot v 2 <= 100000); [|lia].
      rewrite Z.quot_div_nonneg by lia.
      apply Z.div_le_upper_bound; lia.
    + unfold historyOk, upd in *. destruct (Z.ltb_spec i 0); [exact Hh|].
      destruct (Z.lt_ge_cases i (Z.of_nat (length h))) as [Hlt|Hge].
      * apply Forall_insert; [exact Hh|].
        assert (E : ix (<[Z.to_nat i:=ix h i + depth * depth]> h) i
                    = ix h i + depth * depth).
        { pose proof (ix_upd_eq h i (ix h i + depth * depth) ltac:(lia)) as E.
          unfold upd in E. destruct (Z.ltb_spec i 0); [lia | exact E]. }
        rewrite E in Hg. lia.
      * rewrite list_insert_ge by lia. exact Hh.
  - unfold historyBonus. cbv zeta. destruct (_ >? _);
      rewrite ?length_map, upd_length; reflexivity.
  - unfold historyOk, clearHistory. cbn [historyTab]. apply Forall_replicate. lia.
Qed.

Lemma history_bounded_witness :
  historyOk (historyBonus (historyTab clearHistory) LIGHT 14 21 12)
  /\ length (historyBonus (historyTab clearHistory) LIGHT 14 21 12)
     = length (historyTab clearHistory)
  /\ historyOk (historyTab clearHistory).
Proof.
  apply history_bounded; [|lia].
  unfold historyOk, clearHistory. cbn [historyTab]. apply Forall_replicate. lia.
Defined.

(** *** Writing a position as text and reading it back *)

Lemma fenFlush_app fen e : fenFlush fen e = fen ++ fenFlush [] e.
Proof. unfold fenFlush. destruct (e >? 0); [reflexivity | rewrite app_nil_r; reflexivity]. Qed.

Lemma fenCol_fold sqs r cs : forall fen e,
  let st := fold_left (fenCol sqs r) cs (fen, e) in
  fenFlush (fst st) (snd st) = fen ++ fenEmit sqs r cs e.
Proof.
  induction cs as [|c cs IH]; intros fen e; cbn [fold_left fenEmit].
  { cbn [fst snd]. apply fenFlush_app. }
  assert (Es : fenCol sqs r (fen, e) c
               = if ix sqs (makeSq r c) =? 0 then (fen, e + 1)
                 else (fenFlush fen e
                       ++ [pieceChar (Z.abs (ix sqs (makeSq r c)))
                                     (colorOf (ix sqs (makeSq r c)))], 0))
    by reflexivity.
  rewrite Es. clear Es.
  destruct (ix sqs (makeSq r c) =? 0).
  - apply IH.
  - rewrite IH. rewrite (fenFlush_app fen e). rewrite <- !app_assoc. reflexivity.
Qed.

Lemma fenRow_app sqs fen r :
  fenRow sqs fen r = fen ++ fenEmit sqs r (range 7) 0 ++ (if r >? 0 then [47] else []).
Proof.
  unfold fenRow. cbv zeta. rewrite fenCol_fold.
  destruct (r >? 0); [rewrite <- app_assoc | rewrite app_nil_r]; reflexivity.
Qed.

Lemma toFEN_text b :
  toFEN b = fenRows (squares b) (rowsDownFrom 8)
            ++ [32; if sideToMove b =? LIGHT then 119 else 98].
Proof.
  unfold toFEN, fenRows. cbv zeta.
  assert (H : forall rows fen,
            fold_left (fenRow (squares b)) rows fen
            = fen ++ flat_map (fun r => fenEmit (squares b) r (range 7) 0
                                        ++ (if r >? 0 then [47] else [])) rows).
  { induction rows as [|r rows IH]; intros fen; cbn [fold_left flat_map].
    - rewrite app_nil_r. reflexivity.
    - rewrite IH, fenRow_app, <- !app_assoc. reflexivity. }
  rewrite H. cbn [app]. rewrite <- app_assoc. reflexivity.
Qed.

Lemma pieceChar_ok rk color :
  1 <= rk <= 8 -> (color = LIGHT \/ color = DARK) ->
  let ch := pieceChar rk color in
  charToRank ch = rk /\ isupper ch = (color =? LIGHT)
  /\ ch <> 47 /\ ch <> 32 /\ (ch >=? 49) && (ch <=? 55) = false.
Proof.
  intros Hrk Hc. assert (H : pieceCharOk = true) by (vm_compute; reflexivity).
  unfold pieceCharOk in H. rewrite forallb_forall in H.
  assert (Hc' : In color [LIGHT; DARK]) by (destruct Hc as [-> | ->]; cbn; auto).
  specialize (H color Hc'). rewrite forallb_forall in H.
  specialize (H rk (proj2 (In_ranks rk) Hrk)). cbv zeta in *.
  repeat (apply andb_true_iff in H; destruct H as [H ?]).
  apply Z.eqb_eq in H. apply eqb_prop in H3.
  repeat match goal with
  | H : negb _ = true |- _ => apply negb_true_iff in H
  end.
  repeat match goal with
  | H : (_ =? _) = false |- _ => apply Z.eqb_neq in H
  end. auto.
Qed.

Lemma fenFlush_digit e rest r col st :
  0 <= r -> 0 <= e <= 7 ->
  fenLoop (fenFlush [] e ++ rest) r col st = fenLoop rest r (col + e) st
  \/ (e = 0 /\ fenFlush [] e = []).
Proof.
  intros Hr He. unfold fenFlush.
  destruct (Z.gtb_spec e 0) as [H|H]; [left | right; split; [lia | reflexivity]].
  cbn [app]. unfold charOf. rewrite Z.mod_small by lia.
  cbn [fenLoop].
  destruct (Z.geb_spec r 0); [|lia]. cbn [negb].
  destruct (Z.eqb_spec (48 + e) 47); [lia|].
  destruct (Z.eqb_spec (48 + e) 32); [lia|].
  destruct (Z.geb_spec (48 + e) 49); [|lia].
  destruct (Z.leb_spec (48 + e) 55); [|lia].
  cbn [andb]. f_equal. lia.
Qed.

Lemma parse_emit sqs r n : forall k e st rest,
  (k + n = 7)%nat -> 0 <= e <= Z.of_nat k -> 0 <= r <= 8 ->
  (forall s, 0 <= s < NUM_SQ -> ix sqs s = 0 \/ 1 <= Z.abs (ix sqs s) <= 8) ->
  fenLoop (fenEmit sqs r (map Z.of_nat (seq k n)) e ++ rest) r (Z.of_nat k - e) st
  = fenLoop rest r 7
      (fold_left (placeCell sqs) (map (makeSq r) (map Z.of_nat (seq k n))) st).
Proof.
  induction n as [|n IH]; intros k e st rest Hk He Hr Hv.
  { cbn [seq map fenEmit fold_left].
    destruct (fenFlush_digit e rest r (Z.of_nat k - e) st ltac:(lia) ltac:(lia))
      as [E|[E1 E2]].
    - rewrite E. f_equal. lia.
    - rewrite E2. cbn [app]. f_equal. lia. }
  cbn [seq map fenEmit fold_left].
  set (sq := makeSq r (Z.of_nat k)).
  assert (Hsq : 0 <= sq < NUM_SQ) by (unfold sq, makeSq, NUM_SQ, BOARD_W; lia).
  unfold placeCell at 2. fold sq. cbv zeta.
  destruct (Z.eqb_spec (ix sqs sq) 0) as [E0|E0].
  { replace (Z.of_nat k - e) with (Z.of_nat (S k) - (e + 1)) by lia.
    apply IH; [lia | lia | exact Hr | exact Hv]. }
  destruct (Hv sq Hsq) as [Hz|Hrk]; [contradiction|].
  set (v := ix sqs sq) in *.
  destruct (pieceChar_ok (Z.abs v) (colorOf v) Hrk (colorOf_cases v))
    as (C1 & C2 & C3 & C4 & C5).
  cbv zeta in *. set (ch := pieceChar (Z.abs v) (colorOf v)) in *.
  rewrite <- !app_assoc.
  assert (Estep : forall col, col = Z.of_nat k ->
            fenLoop ([ch] ++ fenEmit sqs r (map Z.of_nat (seq (S k) n)) 0 ++ rest) r col st
            = fenLoop rest r 7
                (fold_left (placeCell sqs) (map (makeSq r) (map Z.of_nat (seq (S k) n)))
                   (mkFen (upd (f_squares st) sq v)
                          (upd (f_pieceSq st) (psIdx (colorOf v) (Z.abs v)) sq)
                          (upd (f_pieceCount st) (colorOf v)
                               (ix (f_pieceCount st) (colorOf v) + 1))))).
  { intros col ->. cbn [app fenLoop].
    destruct (Z.geb_spec r 0); [|lia]. cbn [negb].
    destruct (Z.eqb_spec ch 47); [contradiction|].
    destruct (Z.eqb_spec ch 32); [contradiction|].
    rewrite C5, C1. cbv zeta.
    destruct (Z.eqb_spec (Z.abs v) 0); [lia|].
    fold sq.
    destruct (Z.leb_spec 0 sq); [|lia].
    destruct (Z.ltb_spec sq NUM_SQ); [|lia]. cbn [andb negb].
    rewrite C2.
    assert (Ecol : (if colorOf v =? LIGHT then LIGHT else DARK) = colorOf v).
    { destruct (colorOf_cases v) as [-> | ->]; reflexivity. }
    rewrite Ecol.
    assert (Ev : int8 (if colorOf v =? LIGHT then Z.abs v else - Z.abs v) = v).
    { change (if colorOf v =? LIGHT then Z.abs v else - Z.abs v)
        with (signed (colorOf v) (Z.abs v)).
      rewrite signed_colorOf_abs by exact E0. apply int8_id. lia. }
    rewrite Ev. fold sq. rewrite (int8_id sq) by (unfold NUM_SQ in Hsq; lia).
    replace (Z.of_nat k + 1) with (Z.of_nat (S k) - 0) by lia.
    apply IH; [lia | lia | exact Hr | exact Hv]. }
  destruct (fenFlush_digit e
              ([ch] ++ fenEmit sqs r (map Z.of_nat (seq (S k) n)) 0 ++ rest)
              r (Z.of_nat k - e) st ltac:(lia) ltac:(lia)) as [E|[E1 E2]].
  - rewrite E. apply Estep. lia.
  - rewrite E2. rewrite E1, Z.sub_0_r. apply (Estep (Z.of_nat k) eq_refl).
Qed.

Lemma parse_rows sqs n : forall st tail,
  (n <= 8)%nat ->
  (forall s, 0 <= s < NUM_SQ -> ix sqs s = 0 \/ 1 <= Z.abs (ix sqs s) <= 8) ->
  fenLoop (fenRows sqs (rowsDownFrom n) ++ 32 :: tail) (Z.of_nat n) 0 st
  = FenDone (fold_left (placeCell sqs) (cellsOf (rowsDownFrom n)) st) tail.
Proof.
  induction n as [|n IH]; intros st tail Hn Hv.
  - unfold fenRows, cellsOf. cbn [rowsDownFrom flat_map].
    change (0 >? 0) with false. cbv iota. rewrite !app_nil_r.
    pose proof (parse_emit sqs 0 7 0 0 st (32 :: tail) eq_refl ltac:(lia) ltac:(lia) Hv)
      as E.
    change (map Z.of_nat (seq 0 7)) with (range 7) in E.
    change (Z.of_nat 0 - 0) with 0 in E. change (Z.of_nat 0) with 0.
    rewrite E. reflexivity.
  - unfold fenRows, cellsOf. cbn [rowsDownFrom flat_map].
    fold (fenRows sqs (rowsDownFrom n)). fold (cellsOf (rowsDownFrom n)).
    destruct (Z.gtb_spec (Z.of_nat (S n)) 0) as [_|H]; [|lia].
    rewrite <- !app_assoc.
    pose proof (parse_emit sqs (Z.of_nat (S n)) 7 0 0 st
                  ([47] ++ fenRows sqs (rowsDownFrom n) ++ 32 :: tail)
                  eq_refl ltac:(lia) ltac:(lia) Hv) as E.
    change (map Z.of_nat (seq 0 7)) with (range 7) in E.
    change (Z.of_nat 0 - 0) with 0 in E.
    rewrite E. rewrite fold_left_app.
    cbn [app fenLoop].
    destruct (Z.geb_spec (Z.of_nat (S n)) 0); [|lia]. cbn [negb].
    change (47 =? 47) with true. cbv iota.
    replace (Z.of_nat (S n) - 1) with (Z.of_nat n) by lia.
    apply IH; [lia | exact Hv].
Qed.

Lemma cells_cover s :
  In s (cellsOf (rowsDownFrom 8)) <-> 0 <= s < NUM_SQ.
Proof.
  assert (H : cellsCover = true) by (vm_compute; reflexivity).
  unfold cellsCover in H. apply andb_true_iff in H. destruct H as [H1 H2].
  rewrite forallb_forall in H1, H2. split.
  - intros Hs. specialize (H2 s Hs). apply andb_true_iff in H2.
    destruct H2 as [A B]. apply Z.leb_le in A. apply Z.ltb_lt in B. lia.
  - intros Hs. apply In_existsb. apply H1. apply In_range. exact Hs.
Qed.

Lemma placed_squares sqs L : forall st s,
  (forall s', In s' L -> 0 <= s' < Z.of_nat (length (f_squares st))) ->
  ix (f_squares (fold_left (placeCell sqs) L st)) s
  = if existsb (fun s' => (s' =? s) && negb (ix sqs s' =? 0)) L then ix sqs s
    else ix (f_squares st) s.
Proof.
  induction L as [|x L IH]; intros st s Hr; cbn [fold_left existsb]; [reflexivity|].
  unfold placeCell at 2. cbv zeta.
  destruct (Z.eqb_spec (ix sqs x) 0) as [E0|E0].
  { rewrite andb_false_r. cbn [orb]. apply IH. intros s' Hs'. apply Hr. right. exact Hs'. }
  rewrite andb_true_r. rewrite IH.
  2:{ cbn [f_squares]. rewrite upd_length. intros s' Hs'. apply Hr. right. exact Hs'. }
  cbn [f_squares].
  destruct (Z.eqb_spec x s) as [->|Hne]; cbn [orb].
  - rewrite ix_upd_eq by (apply Hr; left; reflexivity).
    destruct (existsb _ L); reflexivity.
  - rewrite ix_upd_ne by exact Hne. reflexivity.
Qed.

Lemma placed_count sqs c L : forall st,
  (c = LIGHT \/ c = DARK) -> length (f_pieceCount st) = 2%nat ->
  ix (f_pieceCount (fold_left (placeCell sqs) L st)) c
  = ix (f_pieceCount st) c
    + Z.of_nat (length (List.filter (fun s => holdsColor c (ix sqs s)) L)).
Proof.
  induction L as [|x L IH]; intros st Hc Hl; cbn [fold_left List.filter].
  { cbn [length]. lia. }
  unfold placeCell at 2. cbv zeta.
  assert (Eh : holdsColor c (ix sqs x)
               = negb (ix sqs x =? 0) && (colorOf (ix sqs x) =? c)) by reflexivity.
  rewrite Eh. clear Eh.
  destruct (Z.eqb_spec (ix sqs x) 0) as [E0|E0]; cbn [negb andb].
  { apply IH; assumption. }
  rewrite IH by (cbn [f_pieceCount]; rewrite ?upd_length; assumption).
  cbn [f_pieceCount].
  destruct (Z.eqb_spec (colorOf (ix sqs x)) c) as [Ec|Ec].
  - rewrite Ec. rewrite ix_upd_eq by (rewrite Hl; unfold LIGHT, DARK in Hc; lia).
    cbn [length]. lia.
  - rewrite ix_upd_ne by exact Ec. reflexivity.
Qed.

Lemma placed_pieceSq sqs (ps : list Z) c rk L : forall st,
  (c = LIGHT \/ c = DARK) -> 1 <= rk <= 8 ->
  (forall s, In s L -> ix sqs s <> 0 ->
     1 <= Z.abs (ix sqs s) <= 8
     /\ ix ps (psIdx (colorOf (ix sqs s)) (Z.abs (ix sqs s))) = s) ->
  length (f_pieceSq st) = 18%nat ->
  ix (f_pieceSq (fold_left (placeCell sqs) L st)) (psIdx c rk)
  = if existsb (fun s => ix sqs s =? signed c rk) L then ix ps (psIdx c rk)
    else ix (f_pieceSq st) (psIdx c rk).
Proof.
  induction L as [|x L IH]; intros st Hc Hrk Hv Hl; cbn [fold_left existsb];
    [reflexivity|].
  assert (Hv' : forall s, In s L -> ix sqs s <> 0 ->
            1 <= Z.abs (ix sqs s) <= 8
            /\ ix ps (psIdx (colorOf (ix sqs s)) (Z.abs (ix sqs s))) = s).
  { intros s Hs. apply Hv. right. exact Hs. }
  unfold placeCell at 2. cbv zeta.
  destruct (Z.eqb_spec (ix sqs x) 0) as [E0|E0].
  { destruct (Z.eqb_spec (ix sqs x) (signed c rk)) as [E|_].
    - exfalso. apply (signed_nonzero c rk); [lia | congruence].
    - cbn [orb]. apply IH; assumption. }
  destruct (Hv x (or_introl eq_refl) E0) as [Hr Hp].
  rewrite IH by (cbn [f_pieceSq]; rewrite ?upd_length; assumption).
  cbn [f_pieceSq].
  destruct (Z.eqb_spec (ix sqs x) (signed c rk)) as [E|E]; cbn [orb].
  - assert (Ec : colorOf (ix sqs x) = c) by (rewrite E; apply colorOf_signed; [exact Hc | lia]).
    assert (Er : Z.abs (ix sqs x) = rk) by (rewrite E; apply signed_abs; lia).
    rewrite Ec, Er in *.
    rewrite ix_upd_eq by (rewrite Hl; pose proof (psIdx_range c rk Hc Hrk); lia).
    rewrite Hp. destruct (existsb _ L); reflexivity.
  - rewrite ix_upd_ne; [reflexivity|].
    intros Eidx.
    destruct (psIdx_inj _ _ _ _ (colorOf_cases (ix sqs x)) Hc Hr Hrk Eidx) as [Ec Er].
    apply E. rewrite <- Ec, <- Er. symmetry. apply signed_colorOf_abs. exact E0.
Qed.

Lemma ix_ext (a b : list Z) :
  length a = length b ->
  (forall i, 0 <= i < Z.of_nat (length a) -> ix a i = ix b i) -> a = b.
Proof.
  intros Hl H. apply (nth_ext a b 0 0 Hl). intros n Hn.
  specialize (H (Z.of_nat n) ltac:(lia)). unfold ix in H.
  destruct (Z.ltb_spec (Z.of_nat n) 0); [lia|].
  rewrite Nat2Z.id in H. exact H.
Qed.

Lemma placed_lengths sqs L : forall st,
  length (f_squares (fold_left (placeCell sqs) L st)) = length (f_squares st)
  /\ length (f_pieceSq (fold_left (placeCell sqs) L st)) = length (f_pieceSq st)
  /\ length (f_pieceCount (fold_left (placeCell sqs) L st)) = length (f_pieceCount st).
Proof.
  induction L as [|x L IH]; intros st; cbn [fold_left]; [auto|].
  destruct (IH (placeCell sqs st x)) as (H1 & H2 & H3).
  rewrite H1, H2, H3. unfold placeCell. cbv zeta.
  destruct (_ =? 0); cbn [f_squares f_pieceSq f_pieceCount]; rewrite ?upd_length; auto.
Qed.

Lemma filter_length_Permutation {A} (f : A -> bool) (l l' : list A) :
  Permutation l l' -> length (List.filter f l) = length (List.filter f l').
Proof.
  induction 1 as [|x l l' _ IH|x y l|l l' l'' _ IH1 _ IH2]; cbn [List.filter].
  - reflexivity.
  - destruct (f x); cbn [length]; congruence.
  - destruct (f x), (f y); reflexivity.
  - congruence.
Qed.

Lemma cells_Permutation : Permutation (cellsOf (rowsDownFrom 8)) (range NUM_SQ).
Proof.
  apply Permutation.NoDup_Permutation.
  - apply NoDup_ListNoDup.
    apply (bool_decide_unpack (NoDup (cellsOf (rowsDownFrom 8)))).
    vm_compute. exact I.
  - apply NoDup_range.
  - intros s. rewrite cells_cover, In_range. reflexivity.
Qed.

Lemma ix_replicate n (v : Z) i :
  0 <= i < Z.of_nat n -> ix (replicate n v) i = v.
Proof.
  intros H. unfold ix. destruct (Z.ltb_spec i 0); [lia|].
  rewrite nth_lookup, lookup_replicate_2 by lia. reflexivity.
Qed.

(** X21: reading back what [toFEN] writes restores the position.  For a
    well-formed board, [setFEN] accepts the text of [toFEN] and leaves the
    same squares, side to move and hash, the same square for every piece in
    the reverse index, piece counts equal to the number of pieces of each
    colour, and the counters of a fresh game. *)
Theorem fen_roundtrip b0 b :
  storage b0 -> wf b ->
  exists r,
    setFENc b0 (toFEN b) = Some (true, r)
    /\ squares r = squares b
    /\ sideToMove r = sideToMove b
    /\ hash r = hash b
    /\ (forall c rk, (c = LIGHT \/ c = DARK) -> 1 <= rk <= 8 ->
          ix (pieceSq r) (psIdx c rk) = ix (pieceSq b) (psIdx c rk))
    /\ (forall c, (c = LIGHT \/ c = DARK) ->
          ix (pieceCount r) c = piecesOn (squares b) c)
    /\ ply r = 0 /\ halfmove r = 0 /\ histLen r = 1.
Proof.
  intros (Hpc & _ & _) W.
  pose proof (wf_squares b W) as Hlen. pose proof (wf_side b W) as Hc.
  pose proof (wf_index b W) as Hi. pose proof (wf_board b W) as Hb.
  assert (Hv : forall s, 0 <= s < NUM_SQ ->
            ix (squares b) s = 0 \/ 1 <= Z.abs (ix (squares b) s) <= 8).
  { intros s Hs. destruct (Z.eq_dec (ix (squares b) s) 0) as [E|E]; [left; exact E|].
    right. apply (boardToIndex_sq b s Hb Hs E). }
  unfold setFENc. rewrite toFEN_text.
  set (st0 := mkFen (replicate 63 0) (replicate 18 (-1))
                    (upd (upd (pieceCount b0) LIGHT 0) DARK 0)).
  pose proof (parse_rows (squares b) 8 st0
                [if sideToMove b =? LIGHT then 119 else 98] ltac:(lia) Hv) as E.
  change (Z.of_nat 8) with 8 in E. cbv zeta. rewrite E. clear E.
  set (st := fold_left (placeCell (squares b)) (cellsOf (rowsDownFrom 8)) st0).
  destruct (placed_lengths (squares b) (cellsOf (rowsDownFrom 8)) st0) as (L1 & L2 & L3).
  fold st in L1, L2, L3. cbn [f_squares f_pieceSq f_pieceCount st0] in L1, L2, L3.
  rewrite length_replicate in L1, L2. rewrite !upd_length in L3.
  assert (Eside : fenSide [if sideToMove b =? LIGHT then 119 else 98] = sideToMove b).
  { destruct Hc as [-> | ->]; reflexivity. }
  assert (Esq : f_squares st = squares b).
  { apply ix_ext; [congruence|]. intros s Hs. rewrite L1 in Hs. unfold st.
    rewrite placed_squares.
    2:{ intros s' Hs'. apply cells_cover in Hs'. cbn [f_squares st0].
        rewrite length_replicate. unfold NUM_SQ in Hs'. lia. }
    destruct (existsb _ _) eqn:Ex; [reflexivity|].
    cbn [f_squares st0]. rewrite ix_replicate by lia.
    destruct (Z.eq_dec (ix (squares b) s) 0) as [E0|E0]; [congruence|].
    exfalso. assert (Ht : existsb (fun s' => (s' =? s) && negb (ix (squares b) s' =? 0))
                            (cellsOf (rowsDownFrom 8)) = true).
    { apply existsb_exists. exists s. split.
      - apply cells_cover. unfold NUM_SQ. lia.
      - rewrite Z.eqb_refl. destruct (Z.eqb_spec (ix (squares b) s) 0); [contradiction|].
        reflexivity. }
    congruence. }
  eexists. split; [reflexivity|].
  cbn [squares sideToMove hash pieceSq pieceCount ply halfmove histLen].
  rewrite Eside, Esq.
  split; [reflexivity|]. split; [reflexivity|].
  split; [symmetry; apply (wf_hash b W)|].
  split; [|split; [|auto]].
  - intros c rk Hcc Hrk. unfold st.
    rewrite (placed_pieceSq (squares b) (pieceSq b) c rk) by
      (try assumption; try reflexivity;
       intros s Hs E0; apply cells_cover in Hs; apply (boardToIndex_sq b s Hb Hs E0)).
    destruct (existsb _ _) eqn:Ex; [reflexivity|].
    cbn [f_pieceSq st0].
    rewrite ix_replicate by (pose proof (psIdx_range c rk Hcc Hrk); lia).
    destruct (indexToBoard_sq b c rk Hi Hcc (proj2 (In_ranks rk) Hrk)) as [E1|[Hr Hp]];
      [symmetry; exact E1|].
    exfalso.
    assert (Ht : existsb (fun s => ix (squares b) s =? signed c rk)
                   (cellsOf (rowsDownFrom 8)) = true).
    { apply existsb_exists. exists (ix (pieceSq b) (psIdx c rk)). split.
      - apply cells_cover. exact Hr.
      - apply Z.eqb_eq. exact Hp. }
    congruence.
  - intros c Hcc. unfold st.
    rewrite (placed_count (squares b) c) by
      (try assumption; cbn [f_pieceCount st0]; rewrite !upd_length; exact Hpc).
    cbn [f_pieceCount st0].
    assert (E0 : ix (upd (upd (pieceCount b0) LIGHT 0) DARK 0) c = 0).
    { destruct Hcc as [-> | ->].
      - rewrite ix_upd_ne by (unfold LIGHT, DARK; lia).
        apply ix_upd_eq. rewrite Hpc. unfold LIGHT. lia.
      - apply ix_upd_eq. rewrite upd_length, Hpc. unfold DARK. lia. }
    rewrite E0. unfold piecesOn.
    rewrite (filter_length_Permutation _ _ _ cells_Permutation). lia.
Qed.

Lemma fen_roundtrip_witness :
  exists r,
    setFENc zeroBoard (toFEN (init zeroBoard)) = Some (true, r)
    /\ squares r = squares (init zeroBoard)
    /\ sideToMove r = sideToMove (init zeroBoard)
    /\ hash r = hash (init zeroBoard)
    /\ (forall c rk, (c = LIGHT \/ c = DARK) -> 1 <= rk <= 8 ->
          ix (pieceSq r) (psIdx c rk) = ix (pieceSq (init zeroBoard)) (psIdx c rk))
    /\ (forall c, (c = LIGHT \/ c = DARK) ->
          ix (pieceCount r) c = piecesOn (squares (init zeroBoard)) c)
    /\ ply r = 0 /\ halfmove r = 0 /\ histLen r = 1.
Proof.
  apply (fen_roundtrip zeroBoard (init zeroBoard)).
  - repeat split; reflexivity.
  - apply wf_init. repeat split; reflexivity.
Defined.

(** *** No move is generated twice *)

Lemma NoDup_flat_map_keyed {A} (g : A -> list Z) (key : A -> Z) (l : list A) :
  List.NoDup l ->
  (forall x, In x l -> g x = [] \/ g x = [key x]) ->
  (forall x y, In x l -> In y l -> g x = [key x] -> g y = [key y] ->
     key x = key y -> x = y) ->
  List.NoDup (flat_map g l).
Proof.
  induction l as [|a l IH]; intros Hnd Hg Hinj; cbn [flat_map]; [constructor|].
  inversion Hnd as [|? ? Ha Hnd']; subst.
  assert (IHl : List.NoDup (flat_map g l)).
  { apply IH; [exact Hnd' | intros x Hx; apply Hg; right; exact Hx |].
    intros x y Hx Hy. apply Hinj; right; assumption. }
  destruct (Hg a (or_introl eq_refl)) as [E|E]; rewrite E; [exact IHl|].
  cbn [app]. constructor; [|exact IHl].
  intros Hin. apply in_flat_map in Hin. destruct Hin as (y & Hy & Hk).
  destruct (Hg y (or_intror Hy)) as [Ey|Ey]; rewrite Ey in Hk; [destruct Hk|].
  destruct Hk as [Hk|[]].
  assert (a = y) by (apply Hinj; auto; [left; reflexivity | right; exact Hy]).
  subst y. exact (Ha Hy).
Qed.

Lemma NoDup_app_disjoint {A} (l l' : list A) :
  List.NoDup l -> List.NoDup l' -> (forall x, In x l -> In x l' -> False) ->
  List.NoDup (l ++ l').
Proof.
  intros H1 H2 Hd. induction l as [|a l IH]; [exact H2|].
  inversion H1 as [|? ? Ha H1']; subst. cbn [app]. constructor.
  - rewrite in_app_iff. intros [H|H]; [exact (Ha H) | exact (Hd a (or_introl eq_refl) H)].
  - apply IH; [exact H1' | intros x Hx; apply Hd; right; exact Hx].
Qed.

Lemma NoDup_flat_map_disjoint {A B} (f : A -> list B) (l : list A) :
  List.NoDup l ->
  (forall x, In x l -> List.NoDup (f x)) ->
  (forall x y m, In x l -> In y l -> In m (f x) -> In m (f y) -> x = y) ->
  List.NoDup (flat_map f l).
Proof.
  induction l as [|a l IH]; intros Hnd Hf Hd; cbn [flat_map]; [constructor|].
  inversion Hnd as [|? ? Ha Hnd']; subst.
  apply NoDup_app_disjoint.
  - apply Hf. left. reflexivity.
  - apply IH; [exact Hnd' | intros x Hx; apply Hf; right; exact Hx |].
    intros x y m Hx Hy. apply Hd; right; assumption.
  - intros m Hm Hm'. apply in_flat_map in Hm'. destruct Hm' as (y & Hy & Hmy).
    assert (a = y) by (apply (Hd a y m); auto; [left; reflexivity | right; exact Hy]).
    subst y. exact (Ha Hy).
Qed.

Lemma jump_dests sq i :
  0 <= sq < NUM_SQ -> In i (range (sj_count (ixJ sqJumpLookup sq))) ->
  let sj := ixJ sqJumpLookup sq in
  0 <= ix (sj_dest sj) i < NUM_SQ
  /\ (forall j, In j (range (sj_count sj)) -> ix (sj_dest sj) i = ix (sj_dest sj) j -> i = j)
  /\ (forall d, In d DIRS -> ix (sj_dest sj) i <> sq + d).
Proof.
  intros Hsq Hi. cbv zeta.
  assert (H : jumpDestsOk = true) by (vm_compute; reflexivity).
  unfold jumpDestsOk in H. rewrite forallb_forall in H.
  specialize (H sq (proj2 (In_range _ sq) Hsq)). cbv zeta in H.
  rewrite forallb_forall in H. specialize (H i Hi).
  apply andb_true_iff in H. destruct H as [H1 H2].
  rewrite forallb_forall in H1, H2.
  split; [|split].
  - destruct (jumpsOf_ok sq (ix (sj_dest (ixJ sqJumpLookup sq)) i)
       (map (fun j => ix (sj_blockingSqs (ixJ sqJumpLookup sq))
                        (ix (sj_blockStart (ixJ sqJumpLookup sq)) i + j))
            (range (ix (sj_blockCount (ixJ sqJumpLookup sq)) i))) Hsq) as (_ & H & _).
    + unfold jumpsOf. apply in_map_iff. exists i. split; [reflexivity | exact Hi].
    + exact H.
  - intros j Hj E. specialize (H1 j Hj). apply orb_true_iff in H1.
    destruct H1 as [H1|H1]; [apply Z.eqb_eq; exact H1|].
    apply negb_true_iff, Z.eqb_neq in H1. contradiction.
  - intros d Hd. specialize (H2 d Hd). apply negb_true_iff, Z.eqb_neq in H2. exact H2.
Qed.

Lemma NoDup_DIRS : List.NoDup DIRS.
Proof.
  unfold DIRS, DIR_N, DIR_S, DIR_E, DIR_W.
  repeat (constructor; [cbn [In]; lia|]). constructor.
Qed.

Lemma NoDup_ranks : List.NoDup ranks.
Proof. unfold ranks. repeat (constructor; [cbn [In]; lia|]). constructor. Qed.

Lemma NoDup_addNormalMoves b sq rk color :
  0 <= sq < NUM_SQ -> List.NoDup (addNormalMoves b sq rk color []).
Proof.
  intros Hsq. unfold addNormalMoves.
  rewrite (fold_append_only _ (normalStep_app b sq rk color)). cbn [app].
  apply (NoDup_flat_map_keyed _ (fun d => encodeMove sq (sq + d))).
  - apply NoDup_DIRS.
  - intros d _. rewrite normalStep_nil. destruct (_ && _); auto.
  - intros d d' _ _ E1 E2 E.
    rewrite normalStep_nil in E1, E2.
    destruct (canStep sq d) eqn:C1; [|discriminate].
    destruct (canStep sq d') eqn:C2; [|discriminate].
    apply canStep_range in C1, C2. unfold NUM_SQ in *.
    destruct (encodeMove_inj sq (sq + d) sq (sq + d')
                ltac:(lia) ltac:(lia) ltac:(lia) ltac:(lia) E) as [_ Ed]. lia.
Qed.

Lemma NoDup_addJumpMoves b sq rk color :
  0 <= sq < NUM_SQ -> List.NoDup (addJumpMoves b sq rk color []).
Proof.
  intros Hsq. unfold addJumpMoves. cbv zeta.
  rewrite (fold_append_only _ (jumpStep_app b sq rk color _)). cbn [app].
  apply (NoDup_flat_map_keyed _
           (fun i => encodeMove sq (ix (sj_dest (ixJ sqJumpLookup sq)) i))).
  - apply NoDup_range.
  - intros i _. rewrite jumpStep_nil. cbv zeta. destruct (_ && _); auto.
  - intros i j Hi Hj _ _ E.
    destruct (jump_dests sq i Hsq Hi) as (Ri & Inj & _).
    destruct (jump_dests sq j Hsq Hj) as (Rj & _ & _).
    cbv zeta in *. unfold NUM_SQ in *.
    set (di := ix (sj_dest (ixJ sqJumpLookup sq)) i) in *.
    set (dj := ix (sj_dest (ixJ sqJumpLookup sq)) j) in *.
    destruct (encodeMove_inj sq di sq dj
                ltac:(lia) ltac:(lia) ltac:(lia) ltac:(lia) E) as [_ Ed].
    apply Inj; assumption.
Qed.

Lemma genRank_from b color rk m :
  indexToBoard b = true -> (color = LIGHT \/ color = DARK) -> In rk ranks ->
  In m (genRank b color [] rk) ->
  let sq := ix (pieceSq b) (psIdx color rk) in
  0 <= sq < NUM_SQ /\ ix (squares b) sq = signed color rk /\ moveFrom m = sq.
Proof.
  intros Hi Hc Hrk Hm. apply genRank_In in Hm. cbv zeta in *.
  destruct Hm as [Hsq Hm].
  destruct (indexToBoard_sq b color rk Hi Hc Hrk) as [E|[Hr Hp]]; [lia|].
  split; [exact Hr|]. split; [exact Hp|].
  set (sq := ix (pieceSq b) (psIdx color rk)) in *. unfold NUM_SQ in Hr.
  destruct Hm as [Hm|[_ Hm]].
  - apply addNormalMoves_In in Hm. destruct Hm as (d & _ & Hs & _ & ->).
    apply canStep_range in Hs. unfold NUM_SQ in Hs.
    apply (encode_decode sq (sq + d)); lia.
  - apply addJumpMoves_In in Hm. destruct Hm as (to & ws & Hj & _ & _ & ->).
    destruct (jumpsOf_ok sq to ws ltac:(unfold NUM_SQ; lia) Hj) as (_ & Hto & _).
    unfold NUM_SQ in Hto. apply (encode_decode sq to); lia.
Qed.

Lemma NoDup_genRank b color rk :
  indexToBoard b = true -> (color = LIGHT \/ color = DARK) -> In rk ranks ->
  List.NoDup (genRank b color [] rk).
Proof.
  intros Hi Hc Hrk. unfold genRank. cbv zeta.
  destruct (indexToBoard_sq b color rk Hi Hc Hrk) as [E|[Hr _]].
  { rewrite E. cbn. constructor. }
  set (sq := ix (pieceSq b) (psIdx color rk)) in *.
  destruct (Z.ltb_spec sq 0); [constructor|].
  destruct ((rk =? LION) || (rk =? TIGER)); [|apply NoDup_addNormalMoves; exact Hr].
  rewrite addJumpMoves_app. apply NoDup_app_disjoint.
  - apply NoDup_addNormalMoves. exact Hr.
  - apply NoDup_addJumpMoves. exact Hr.
  - intros m Hn Hj.
    apply addNormalMoves_In in Hn. destruct Hn as (d & Hd & Hs & _ & ->).
    apply addJumpMoves_In in Hj. destruct Hj as (to & ws & Hin & _ & _ & E).
    unfold jumpsOf in Hin. apply in_map_iff in Hin. destruct Hin as (i & Ei & Hin).
    injection Ei as Eto _.
    destruct (jump_dests sq i Hr Hin) as (Rt & _ & Hnd). cbv zeta in *.
    rewrite Eto in Rt, Hnd.
    apply canStep_range in Hs. unfold NUM_SQ in *.
    destruct (encodeMove_inj sq (sq + d) sq to
                ltac:(lia) ltac:(lia) ltac:(lia) ltac:(lia) E) as [_ Ed].
    apply (Hnd d Hd). lia.
Qed.

(** X22: no move is generated twice.  In a position whose reverse index
    agrees with the board, the list written by [generateMoves] has no
    repeated entry, and neither has the list of [generateCaptures]. *)
Theorem generateMoves_NoDup b :
  indexToBoard b = true -> (sideToMove b = LIGHT \/ sideToMove b = DARK) ->
  List.NoDup (generateMoves b) /\ List.NoDup (generateCaptures b).
Proof.
  intros Hi Hc.
  assert (H : List.NoDup (generateMoves b)).
  { unfold generateMoves.
    rewrite (fold_append_only _ (genRank_app b (sideToMove b))). cbn [app].
    apply NoDup_flat_map_disjoint.
    - apply NoDup_ranks.
    - intros rk Hrk. apply NoDup_genRank; assumption.
    - intros rk rk' m Hrk Hrk' Hm Hm'.
      destruct (genRank_from b _ rk m Hi Hc Hrk Hm) as (_ & P1 & F1).
      destruct (genRank_from b _ rk' m Hi Hc Hrk' Hm') as (_ & P2 & F2).
      cbv zeta in *. rewrite <- F1 in P1. rewrite <- F2 in P2.
      apply In_ranks in Hrk, Hrk'.
      assert (E : signed (sideToMove b) rk = signed (sideToMove b) rk') by congruence.
      apply (signed_inj (sideToMove b) rk (sideToMove b) rk' Hc Hc
               ltac:(lia) ltac:(lia)) in E. apply E. }
  split; [exact H|].
  unfold generateCaptures.
  rewrite (fold_append_only _ (capRank_app b (sideToMove b))). cbn [app].
  rewrite (filter_flat_map (isCapture b) (genRank b (sideToMove b) [])
             (capRank b (sideToMove b) []) ranks).
  - apply List.NoDup_filter. unfold generateMoves in H.
    rewrite (fold_append_only _ (genRank_app b (sideToMove b))) in H. exact H.
  - intros rk Hrk. apply capRank_filter; assumption.
Qed.

Lemma generateMoves_NoDup_witness :
  List.NoDup (generateMoves lionPreyBoard) /\ List.NoDup (generateCaptures lionPreyBoard).
Proof.
  apply generateMoves_NoDup; [vm_compute; reflexivity | left; reflexivity].
Defined.

(** *** The distance tables *)

Lemma bfsTable_ok type den :
  In type [0; 1; 2] -> In den [0; 1] -> bfsTableOk type den = true.
Proof.
  intros Ht Hd. cbn [In] in Ht, Hd.
  destruct Ht as [<-|[<-|[<-|[]]]]; destruct Hd as [<-|[<-|[]]];
    vm_compute; reflexivity.
Qed.

Lemma dist_tables :
  distLand = [distOf 0 0; distOf 0 1]
  /\ distJumper = [distOf 1 0; distOf 1 1]
  /\ distSwimmer = [distOf 2 0; distOf 2 1].
Proof. repeat split; vm_compute; reflexivity. Qed.

Lemma distOf_eq type den : fst (computeBFS (denSqOf den) type) = distOf type den.
Proof. unfold distOf. exact eq_refl. Qed.

Opaque computeBFS distOf.

Section Shortest.

Variables type den : Z.
Hypothesis type_ok : In type [0; 1; 2].
Hypothesis den_ok : In den [0; 1].

Lemma bfs_facts :
  snd (computeBFS (denSqOf den) type) = []
  /\ ix (distOf type den) (denSqOf den) = 0
  /\ (forall s, 0 <= s < NUM_SQ ->
        ix (distOf type den) s = 99 \/ 0 <= ix (distOf type den) s <= 62)
  /\ (forall t u, 0 <= t < NUM_SQ -> ix (distOf type den) t <> 99 ->
        In u (succs type t) ->
        0 <= u < NUM_SQ /\ ix (distOf type den) u <= ix (distOf type den) t + 1)
  /\ (forall u, 0 <= u < NUM_SQ -> ix (distOf type den) u <> 99 -> u <> denSqOf den ->
        exists t, 0 <= t < NUM_SQ
                  /\ ix (distOf type den) t + 1 = ix (distOf type den) u
                  /\ In u (succs type t)).
Proof.
  pose proof (bfsTable_ok type den type_ok den_ok) as H.
  unfold bfsTableOk in H. cbv zeta in H.
  rewrite distOf_eq in H.
  set (dist := distOf type den) in *. set (src := denSqOf den) in *.
  repeat (apply andb_true_iff in H; destruct H as [H ?]).
  rewrite forallb_forall in *.
  split; [destruct (snd (computeBFS src type)); [reflexivity | discriminate]|].
  split; [apply Z.eqb_eq; assumption|].
  split; [|split].
  - intros s Hs. specialize (H2 s (proj2 (In_range _ s) Hs)).
    apply orb_true_iff in H2. destruct H2 as [E|E]; [left; apply Z.eqb_eq; exact E|].
    right. apply andb_true_iff in E. destruct E as [A B].
    apply Z.leb_le in A, B. lia.
  - intros t u Ht Hd Hu. specialize (H1 t (proj2 (In_range _ t) Ht)).
    apply orb_true_iff in H1. destruct H1 as [E|E]; [apply Z.eqb_eq in E; contradiction|].
    rewrite forallb_forall in E. specialize (E u Hu).
    repeat (apply andb_true_iff in E; destruct E as [E ?]).
    repeat match goal with
    | H : (_ <=? _) = true |- _ => apply Z.leb_le in H
    | H : (_ <? _) = true |- _ => apply Z.ltb_lt in H
    end. lia.
  - intros u Hu Hd Hne. specialize (H0 u (proj2 (In_range _ u) Hu)).
    apply orb_true_iff in H0. destruct H0 as [E|E].
    + apply orb_true_iff in E. destruct E as [E|E]; apply Z.eqb_eq in E; contradiction.
    + apply existsb_exists in E. destruct E as (t & Ht & E).
      apply andb_true_iff in E. destruct E as [E1 E2].
      apply Z.eqb_eq in E1. apply In_existsb in E2. apply In_range in Ht.
      exists t. auto.
Qed.

Lemma src_range : 0 <= denSqOf den < NUM_SQ.
Proof.
  unfold denSqOf. cbn [In] in den_ok.
  destruct den_ok as [<-|[<-|[]]]; vm_compute; (split; [discriminate | reflexivity]).
Qed.

Lemma walk_bound s n :
  walk type (denSqOf den) s n ->
  0 <= s < NUM_SQ /\ 0 <= ix (distOf type den) s <= Z.of_nat n
  /\ ix (distOf type den) s <= 62.
Proof.
  destruct bfs_facts as (_ & F2 & F3 & F4 & _).
  induction 1 as [|t u n Hw IH Hu].
  - split; [apply src_range|]. rewrite F2. lia.
  - destruct IH as (Ht & Hd & H62).
    destruct (F4 t u Ht ltac:(lia) Hu) as [Hur Hle].
    split; [exact Hur|].
    destruct (F3 u Hur) as [E|E]; lia.
Qed.

Lemma walk_exists : forall k s,
  0 <= s < NUM_SQ -> ix (distOf type den) s = Z.of_nat k ->
  ix (distOf type den) s <> 99 ->
  walk type (denSqOf den) s k.
Proof.
  destruct bfs_facts as (_ & F2 & F3 & _ & F5).
  induction k as [|k IH]; intros s Hs Hd H99.
  - destruct (Z.eq_dec s (denSqOf den)) as [->|Hne]; [constructor|].
    destruct (F5 s Hs H99 Hne) as (t & Ht & E & _).
    destruct (F3 t Ht) as [E'|E']; lia.
  - destruct (Z.eq_dec s (denSqOf den)) as [->|Hne]; [lia|].
    destruct (F5 s Hs H99 Hne) as (t & Ht & E & Hu).
    apply (walk_step type (denSqOf den) t s k); [|exact Hu].
    apply IH; [exact Ht | lia |].
    destruct (F3 s Hs) as [E'|E']; [contradiction | lia].
Qed.

End Shortest.

(** X23: the distance tables hold shortest distances.  For each den and each
    kind of walker (by land; by land and river jumps; by land and water)
    [computeBFS] empties its queue, and its table gives for every square the
    least number of moves in which such a walker gets there from the den:
    the entry is below 99 exactly when the square can be reached at all,
    a walk of that length exists, and no walk is shorter.  [distLand],
    [distJumper] and [distSwimmer] are these tables. *)
Theorem bfs_shortest type den s :
  In type [0; 1; 2] -> In den [0; 1] -> 0 <= s < NUM_SQ ->
  let dist := distOf type den in
  snd (computeBFS (denSqOf den) type) = []
  /\ ((exists n, walk type (denSqOf den) s n) <-> ix dist s < 99)
  /\ (forall n, walk type (denSqOf den) s n -> ix dist s <= Z.of_nat n)
  /\ (ix dist s < 99 -> walk type (denSqOf den) s (Z.to_nat (ix dist s)))
  /\ ix2 distLand den s = ix (distOf 0 den) s
  /\ ix2 distJumper den s = ix (distOf 1 den) s
  /\ ix2 distSwimmer den s = ix (distOf 2 den) s.
Proof.
  intros Ht Hd Hs. cbv zeta.
  destruct (bfs_facts type den Ht Hd) as (F1 & _ & F3 & _).
  assert (Hex : ix (distOf type den) s < 99 ->
            walk type (denSqOf den) s (Z.to_nat (ix (distOf type den) s))).
  { intros Hlt. destruct (F3 s Hs) as [E|E]; [lia|].
    apply (walk_exists type den Ht Hd); [exact Hs | lia | lia]. }
  split; [exact F1|]. split; [|split; [|split; [exact Hex|]]].
  - split.
    + intros (n & Hw). destruct (walk_bound type den Ht Hd s n Hw) as (_ & _ & H). lia.
    + intros Hlt. eexists. apply Hex. exact Hlt.
  - intros n Hw. destruct (walk_bound type den Ht Hd s n Hw) as (_ & H & _). lia.
  - destruct dist_tables as (-> & -> & ->).
    cbn [In] in Hd. destruct Hd as [<-|[<-|[]]]; repeat split; reflexivity.
Qed.

Lemma bfs_shortest_witness :
  let dist := distOf 1 1 in
  snd (computeBFS (denSqOf 1) 1) = []
  /\ ((exists n, walk 1 (denSqOf 1) 0 n) <-> ix dist 0 < 99)
  /\ (forall n, walk 1 (denSqOf 1) 0 n -> ix dist 0 <= Z.of_nat n)
  /\ (ix dist 0 < 99 -> walk 1 (denSqOf 1) 0 (Z.to_nat (ix dist 0)))
  /\ ix2 distLand 1 0 = ix (distOf 0 1) 0
  /\ ix2 distJumper 1 0 = ix (distOf 1 1) 0
  /\ ix2 distSwimmer 1 0 = ix (distOf 2 1) 0.
Proof.
  apply (bfs_shortest 1 1 0); [right; left; reflexivity | right; left; reflexivity |].
  unfold NUM_SQ. lia.
Defined.

(** *** The static evaluation stays clear of mate scores *)

Lemma evalTables_ok : evalTablesOk = true.
Proof. vm_compute. reflexivity. Qed.

Lemma fold_left_bounds {A} (f : Z -> A -> Z) (lo hi : Z) (l : list A) :
  (forall acc x, In x l -> lo <= f acc x - acc <= hi) ->
  forall a, lo * Z.of_nat (length l) <= fold_left f l a - a <= hi * Z.of_nat (length l).
Proof.
  induction l as [|x l IH]; intros H a; cbn [fold_left length]; [lia|].
  specialize (IH (fun acc y Hy => H acc y (or_intror Hy)) (f a x)).
  pose proof (H a x (or_introl eq_refl)). lia.
Qed.

Lemma fold_left_weighted {A} (f : Z -> A -> Z) (g : A -> Z) (l : list A) :
  (forall acc x, In x l -> - g x <= f acc x - acc <= g x) ->
  forall a, - fold_right Z.add 0 (map g l) <= fold_left f l a - a
            <= fold_right Z.add 0 (map g l).
Proof.
  induction l as [|x l IH]; intros H a; cbn [fold_left fold_right map]; [lia|].
  specialize (IH (fun acc y Hy => H acc y (or_intror Hy)) (f a x)).
  pose proof (H a x (or_introl eq_refl)). lia.
Qed.

Lemma ix2_Forall (P : Z -> Prop) (t : list (list Z)) i j :
  P 0 -> Forall (Forall P) t -> P (ix2 t i j).
Proof.
  intros H0 H. unfold ix2. apply Forall_ix; [exact H0|].
  destruct (i <? 0); [constructor|].
  rewrite nth_lookup. destruct (t !! Z.to_nat i) eqn:E; [|constructor].
  cbn. rewrite Forall_lookup in H. apply (H _ _ E).
Qed.

Lemma forallb_Forall2 (p : Z -> bool) (P : Z -> Prop) (t : list (list Z)) :
  (forall v, p v = true -> P v) ->
  forallb (fun row => forallb p row) t = true -> Forall (Forall P) t.
Proof.
  intros Hp H. rewrite forallb_forall in H.
  apply List.Forall_forall. intros row Hr. apply List.Forall_forall. intros v Hv.
  apply Hp. specialize (H row Hr).
  rewrite forallb_forall in H. apply H. exact Hv.
Qed.

Lemma PST_range rk j : -5 <= ix2 PST rk j <= 295.
Proof.
  pose proof evalTables_ok as H. unfold evalTablesOk in H.
  apply andb_true_iff in H. destruct H as [H _].
  apply andb_true_iff in H. destruct H as [H _].
  apply (ix2_Forall (fun v => -5 <= v <= 295)); [lia|].
  apply (forallb_Forall2 (fun v => (-5 <=? v) && (v <=? 295))); [|exact H].
  intros v Hv. apply andb_true_iff in Hv. destruct Hv as [A B].
  apply Z.leb_le in A, B. lia.
Qed.

Lemma MATERIAL_range rk : 0 <= ix MATERIAL_VAL rk <= 1050.
Proof.
  pose proof evalTables_ok as H. unfold evalTablesOk in H.
  apply andb_true_iff in H. destruct H as [H _].
  apply andb_true_iff in H. destruct H as [_ H].
  apply (Forall_ix (fun v => 0 <= v <= 1050)); [lia|].
  apply List.Forall_forall. intros v Hv.
  rewrite forallb_forall in H. specialize (H v Hv).
  apply andb_true_iff in H. destruct H as [A B]. apply Z.leb_le in A, B. lia.
Qed.

Lemma pieceDist_nonneg rk den sq : 0 <= pieceDist rk den sq.
Proof.
  pose proof evalTables_ok as H. unfold evalTablesOk in H.
  apply andb_true_iff in H. destruct H as [_ H].
  cbn [forallb] in H.
  apply andb_true_iff in H. destruct H as [H1 H].
  apply andb_true_iff in H. destruct H as [H2 H].
  apply andb_true_iff in H. destruct H as [H3 _].
  assert (Hp : forall v, (0 <=? v) = true -> 0 <= v) by (intros v; apply Z.leb_le).
  unfold pieceDist.
  destruct (rk =? RAT); [|destruct ((rk =? LION) || (rk =? TIGER))];
    apply (ix2_Forall (fun v => 0 <= v)); try lia;
    eapply forallb_Forall2; eauto.
Qed.

Lemma material_own b color (idx : Z -> Z) a :
  -40 <= fold_left (fun score rk =>
           let sq := ix (pieceSq b) (psIdx color rk) in
           if sq <? 0 then score
           else
             let score := score + 1 * ix MATERIAL_VAL rk in
             let pstSq := idx sq in
             score + 1 * ix2 PST rk pstSq) ranks a - a <= 10760.
Proof.
  apply (fold_left_bounds _ (-5) 1345 ranks). intros acc rk _.
  cbv zeta. destruct (_ <? 0); [lia|].
  pose proof (MATERIAL_range rk).
  pose proof (PST_range rk (idx (ix (pieceSq b) (psIdx color rk)))). lia.
Qed.

Lemma material_opp b color (idx : Z -> Z) a :
  -10760 <= fold_left (fun score rk =>
           let sq := ix (pieceSq b) (psIdx color rk) in
           if sq <? 0 then score
           else
             let score := score + -1 * ix MATERIAL_VAL rk in
             let pstSq := idx sq in
             score + -1 * ix2 PST rk pstSq) ranks a - a <= 40.
Proof.
  apply (fold_left_bounds _ (-1345) 5 ranks). intros acc rk _.
  cbv zeta. destruct (_ <? 0); [lia|].
  pose proof (MATERIAL_range rk).
  pose proof (PST_range rk (idx (ix (pieceSq b) (psIdx color rk)))). lia.
Qed.

Lemma evalMaterial_bounds b stm score :
  (stm = LIGHT \/ stm = DARK) ->
  -10800 <= evalMaterial b stm score - score <= 10800.
Proof.
  intros Hs. unfold evalMaterial. cbn [fold_left].
  set (s1 := fold_left _ ranks score).
  set (s2 := fold_left _ ranks s1).
  destruct Hs as [-> | ->].
  - assert (H1 : -40 <= s1 - score <= 10760)
      by exact (material_own b 0 (fun sq => sq) score).
    assert (H2 : -10760 <= s2 - s1 <= 40) by exact (material_opp b 1 (fun sq => NUM_SQ - 1 - sq) s1).
    lia.
  - assert (H1 : -10760 <= s1 - score <= 40)
      by exact (material_opp b 0 (fun sq => sq) score).
    assert (H2 : -40 <= s2 - s1 <= 10760) by exact (material_own b 1 (fun sq => NUM_SQ - 1 - sq) s1).
    lia.
Qed.

Lemma proximity_own b color den a :
  0 <= fold_left (fun score rk =>
         let sq := ix (pieceSq b) (psIdx color rk) in
         if sq <? 0 then score
         else
           let d := pieceDist rk den sq in
           if d <=? 1 then score + 1 * 250
           else if d =? 2 then score + 1 * 120
           else if d =? 3 then score + 1 * 60
           else if d <=? 5 then score + 1 * 20
           else score) ranks a - a <= 2000.
Proof.
  apply (fold_left_bounds _ 0 250 ranks). intros acc rk _.
  cbv zeta. repeat (match goal with |- context [if ?c then _ else _] => destruct c end);
    lia.
Qed.

Lemma proximity_opp b color den a :
  -2000 <= fold_left (fun score rk =>
         let sq := ix (pieceSq b) (psIdx color rk) in
         if sq <? 0 then score
         else
           let d := pieceDist rk den sq in
           if d <=? 1 then score + -1 * 250
           else if d =? 2 then score + -1 * 120
           else if d =? 3 then score + -1 * 60
           else if d <=? 5 then score + -1 * 20
           else score) ranks a - a <= 0.
Proof.
  apply (fold_left_bounds _ (-250) 0 ranks). intros acc rk _.
  cbv zeta. repeat (match goal with |- context [if ?c then _ else _] => destruct c end);
    lia.
Qed.

Lemma evalProximity_bounds b stm score :
  (stm = LIGHT \/ stm = DARK) ->
  -2000 <= evalProximity b stm score - score <= 2000.
Proof.
  intros Hs. unfold evalProximity. cbn [fold_left].
  set (s1 := fold_left _ ranks score).
  set (s2 := fold_left _ ranks s1).
  destruct Hs as [-> | ->].
  - assert (H1 : 0 <= s1 - score <= 2000) by exact (proximity_own b 0 1 score).
    assert (H2 : -2000 <= s2 - s1 <= 0) by exact (proximity_opp b 1 0 s1).
    lia.
  - assert (H1 : -2000 <= s1 - score <= 0) by exact (proximity_opp b 0 1 score).
    assert (H2 : 0 <= s2 - s1 <= 2000) by exact (proximity_own b 1 0 s1).
    lia.
Qed.

Lemma evalTraps_bounds b stm opp score :
  -2100 <= evalTraps b stm opp score - score <= 2100.
Proof.
  unfold evalTraps.
  pose proof (fold_left_weighted
    (fun score sq =>
      if ix (squares b) sq =? 0 then score
      else
        let pc := ix (squares b) sq in
        let pcColor := colorOf pc in
        let pcRank := Z.abs pc in
        if pcColor =? stm then
          if ((stm =? LIGHT) && (ix terrain sq =? TERRAIN_TRAP_DARK))
             || ((stm =? DARK) && (ix terrain sq =? TERRAIN_TRAP_LIGHT))
          then score - Z.quot (ix MATERIAL_VAL pcRank) 3
          else score
        else
          if ((opp =? LIGHT) && (ix terrain sq =? TERRAIN_TRAP_DARK))
             || ((opp =? DARK) && (ix terrain sq =? TERRAIN_TRAP_LIGHT))
          then score + Z.quot (ix MATERIAL_VAL pcRank) 3
          else score)
    trapWeight (range NUM_SQ)) as H.
  assert (E : fold_right Z.add 0 (map trapWeight (range NUM_SQ)) = 2100)
    by (vm_compute; reflexivity).
  rewrite E in H. apply H. clear H E.
  intros acc sq _. cbv zeta. unfold trapWeight.
  assert (Hq : 0 <= Z.quot (ix MATERIAL_VAL (Z.abs (ix (squares b) sq))) 3 <= 350).
  { pose proof (MATERIAL_range (Z.abs (ix (squares b) sq))) as Hm.
    rewrite Z.quot_div_nonneg by lia. split.
    - apply Z.div_pos; lia.
    - apply Z.div_le_upper_bound; lia. }
  destruct (ix (squares b) sq =? 0).
  { destruct (_ || _); lia. }
  destruct (ix terrain sq =? TERRAIN_TRAP_DARK), (ix terrain sq =? TERRAIN_TRAP_LIGHT);
    rewrite ?andb_true_r, ?andb_false_r, ?orb_false_r, ?orb_false_l; cbn [orb];
    repeat (match goal with |- context [if ?c then _ else _] => destruct c end); lia.
Qed.

Lemma evalRatElephant_bounds b stm opp score :
  -130 <= evalRatElephant b stm opp score - score <= 180.
Proof.
  unfold evalRatElephant. cbv zeta.
  repeat (match goal with |- context [if ?c then _ else _] => destruct c end); lia.
Qed.

Lemma evalDenSafety_bounds b stm opp score :
  -2400 <= evalDenSafety b stm opp score - score <= 0.
Proof.
  unfold evalDenSafety. cbv zeta.
  pose proof (fold_left_bounds
    (fun score rk =>
      if ix (pieceSq b) (psIdx opp rk) <? 0 then score
      else if manhattan (ix (pieceSq b) (psIdx opp rk))
                (if stm =? LIGHT then DEN_LIGHT_SQ else DEN_DARK_SQ) <=? 1
           then score - 300
      else if manhattan (ix (pieceSq b) (psIdx opp rk))
                (if stm =? LIGHT then DEN_LIGHT_SQ else DEN_DARK_SQ) =? 2
           then score - 100
      else if manhattan (ix (pieceSq b) (psIdx opp rk))
                (if stm =? LIGHT then DEN_LIGHT_SQ else DEN_DARK_SQ) =? 3
           then score - 30
      else score) (-300) 0 ranks) as H.
  change (Z.of_nat (length ranks)) with 8 in H. apply H.
  intros acc rk _.
  repeat (match goal with |- context [if ?c then _ else _] => destruct c end); lia.
Qed.

Lemma evalEndgame_bounds b stm score :
  0 <= evalEndgame b stm score - score <= 2560.
Proof.
  unfold evalEndgame. cbv zeta. destruct (_ <=? 6); [|lia].
  pose proof (fold_left_bounds
    (fun score rk =>
      if ix (pieceSq b) (psIdx stm rk) <? 0 then score
      else if pieceDist rk (if stm =? LIGHT then 1 else 0)
                (ix (pieceSq b) (psIdx stm rk)) <=? 3
           then score + (4 - pieceDist rk (if stm =? LIGHT then 1 else 0)
                               (ix (pieceSq b) (psIdx stm rk))) * 80
      else score) 0 320 ranks) as H.
  change (Z.of_nat (length ranks)) with 8 in H. apply H.
  intros acc rk _. destruct (_ <? 0); [lia|].
  pose proof (pieceDist_nonneg rk (if stm =? LIGHT then 1 else 0)
                (ix (pieceSq b) (psIdx stm rk))) as Hd.
  destruct (Z.leb_spec (pieceDist rk (if stm =? LIGHT then 1 else 0)
                          (ix (pieceSq b) (psIdx stm rk))) 3); lia.
Qed.

(** X24: the static evaluation stays clear of the mate scores.  In a
    well-formed position with at most eight pieces counted for each side,
    [evaluate] returns a value between -17880 and 17880, below
    [SCORE_MATE - MAX_PLY], the threshold from which the search treats a
    score as a win or loss in a known number of plies. *)
Theorem evaluate_bounded b :
  wf b ->
  0 <= ix (pieceCount b) LIGHT <= 8 -> 0 <= ix (pieceCount b) DARK <= 8 ->
  -17880 <= evaluate b <= 17880 /\ 17880 < SCORE_MATE - MAX_PLY.
Proof.
  intros W HL HD. split; [|reflexivity].
  pose proof (wf_side b W) as Hs.
  unfold evaluate. cbv zeta.
  pose proof (evalMaterial_bounds b (sideToMove b) 0 Hs) as H1.
  set (s1 := evalMaterial b (sideToMove b) 0) in *.
  pose proof (evalProximity_bounds b (sideToMove b) s1 Hs) as H2.
  set (s2 := evalProximity b (sideToMove b) s1) in *.
  pose proof (evalTraps_bounds b (sideToMove b) (1 - sideToMove b) s2) as H3.
  set (s3 := evalTraps b (sideToMove b) (1 - sideToMove b) s2) in *.
  pose proof (evalRatElephant_bounds b (sideToMove b) (1 - sideToMove b) s3) as H4.
  set (s4 := evalRatElephant b (sideToMove b) (1 - sideToMove b) s3) in *.
  pose proof (evalDenSafety_bounds b (sideToMove b) (1 - sideToMove b) s4) as H5.
  set (s5 := evalDenSafety b (sideToMove b) (1 - sideToMove b) s4) in *.
  assert (H6 : -8 <= ix (pieceCount b) (sideToMove b)
                     - ix (pieceCount b) (1 - sideToMove b) <= 8).
  { destruct Hs as [-> | ->]; unfold LIGHT, DARK in *;
      change (1 - 0) with 1; change (1 - 1) with 0; lia. }
  set (diff := ix (pieceCount b) (sideToMove b)
               - ix (pieceCount b) (1 - sideToMove b)) in *.
  pose proof (evalEndgame_bounds b (sideToMove b) (s5 + diff * 30)) as H7.
  lia.
Qed.

Lemma evaluate_bounded_witness :
  -17880 <= evaluate (init zeroBoard) <= 17880 /\ 17880 < SCORE_MATE - MAX_PLY.
Proof.
  apply evaluate_bounded.
  - apply wf_init. repeat split; reflexivity.
  - vm_compute. split; discriminate.
  - vm_compute. split; discriminate.
Defined.

(** *** The evaluation treats both sides alike *)

Lemma tables_symmetric s :
  0 <= s < NUM_SQ ->
  (forall rk t, In rk ranks -> (t = 0 \/ t = 1) ->
     pieceDist rk (1 - t) (NUM_SQ - 1 - s) = pieceDist rk t s)
  /\ (ix terrain (NUM_SQ - 1 - s) =? TERRAIN_TRAP_LIGHT) = (ix terrain s =? TERRAIN_TRAP_DARK)
  /\ (ix terrain (NUM_SQ - 1 - s) =? TERRAIN_TRAP_DARK) = (ix terrain s =? TERRAIN_TRAP_LIGHT)
  /\ (forall s', 0 <= s' < NUM_SQ ->
        manhattan (NUM_SQ - 1 - s) (NUM_SQ - 1 - s') = manhattan s s').
Proof.
  intros Hs. assert (H : tablesSymmetric = true) by (vm_compute; reflexivity).
  unfold tablesSymmetric in H. apply andb_true_iff in H. destruct H as [H _].
  rewrite forallb_forall in H. specialize (H s (proj2 (In_range _ s) Hs)).
  apply andb_true_iff in H. destruct H as [H HD].
  apply andb_true_iff in H. destruct H as [H HC].
  apply andb_true_iff in H. destruct H as [HA HB].
  rewrite forallb_forall in HA. rewrite forallb_forall in HD.
  split; [|split; [|split]].
  - intros rk t Hrk Ht. specialize (HA rk Hrk). rewrite forallb_forall in HA.
    assert (Hin : In t [0; 1]) by (destruct Ht as [-> | ->]; cbn; auto).
    apply Z.eqb_eq. apply (HA t Hin).
  - apply eqb_prop. exact HB.
  - apply eqb_prop. exact HC.
  - intros s' Hs'. apply Z.eqb_eq. apply HD. apply In_range. exact Hs'.
Qed.

Lemma fold_left_add {A} (f : Z -> A -> Z) (t : A -> Z) (l : list A) :
  (forall acc x, In x l -> f acc x = acc + t x) ->
  forall a, fold_left f l a = a + fold_right Z.add 0 (map t l).
Proof.
  induction l as [|x l IH]; intros H a; cbn [fold_left fold_right map]; [lia|].
  rewrite (H a x (or_introl eq_refl)).
  rewrite IH by (intros acc y Hy; apply H; right; exact Hy). lia.
Qed.

Lemma fold_left_ext_in {A} (f g : Z -> A -> Z) (l : list A) :
  (forall acc x, In x l -> f acc x = g acc x) ->
  forall a, fold_left f l a = fold_left g l a.
Proof.
  induction l as [|x l IH]; intros H a; cbn [fold_left]; [reflexivity|].
  rewrite (H a x (or_introl eq_refl)).
  apply IH. intros acc y Hy. apply H. right. exact Hy.
Qed.

Lemma sum_map_ext {A} (t t' : A -> Z) (l : list A) :
  (forall x, In x l -> t x = t' x) ->
  fold_right Z.add 0 (map t l) = fold_right Z.add 0 (map t' l).
Proof.
  induction l as [|x l IH]; intros H; cbn [fold_right map]; [reflexivity|].
  rewrite (H x (or_introl eq_refl)), IH; [reflexivity|].
  intros y Hy. apply H. right. exact Hy.
Qed.

Lemma sum_app (l l' : list Z) :
  fold_right Z.add 0 (l ++ l') = fold_right Z.add 0 l + fold_right Z.add 0 l'.
Proof. induction l as [|x l IH]; cbn [fold_right app]; lia. Qed.

Lemma sum_rev (l : list Z) : fold_right Z.add 0 (rev l) = fold_right Z.add 0 l.
Proof.
  induction l as [|x l IH]; cbn [rev fold_right]; [reflexivity|].
  rewrite sum_app, IH. cbn [fold_right]. lia.
Qed.

Lemma sum_reflect (t : Z -> Z) :
  fold_right Z.add 0 (map (fun s => t (NUM_SQ - 1 - s)) (range NUM_SQ))
  = fold_right Z.add 0 (map t (range NUM_SQ)).
Proof.
  assert (E : map (fun s => NUM_SQ - 1 - s) (range NUM_SQ) = rev (range NUM_SQ))
    by (vm_compute; reflexivity).
  rewrite <- (map_map (fun s => NUM_SQ - 1 - s) t), E, map_rev, sum_rev. reflexivity.
Qed.

Lemma ix_map_range (f : Z -> Z) n i :
  0 <= i < n -> ix (map f (range n)) i = f i.
Proof.
  intros H. unfold ix, range. destruct (Z.ltb_spec i 0); [lia|].
  rewrite map_map. rewrite nth_lookup, list_lookup_fmap, lookup_seq_lt by lia.
  cbn. f_equal. lia.
Qed.

Section Mirror.

Variable b : Board.
Hypothesis W : wf b.

Lemma mirror_pieceSq c rk :
  (c = LIGHT \/ c = DARK) -> In rk ranks ->
  ix (pieceSq (mirror b)) (psIdx c rk) = flipSq (ix (pieceSq b) (psIdx (1 - c) rk)).
Proof.
  intros Hc Hrk. apply In_ranks in Hrk. unfold mirror. cbn [pieceSq].
  rewrite ix_map_range by (pose proof (psIdx_range c rk Hc Hrk); lia).
  f_equal. f_equal. unfold psIdx, NUM_PIECE_TYPES.
  destruct Hc as [-> | ->]; unfold LIGHT, DARK.
  - destruct (Z.ltb_spec (0 * 9 + rk) 9); lia.
  - destruct (Z.ltb_spec (1 * 9 + rk) 9); lia.
Qed.

Lemma pieceSq_range c rk :
  (c = LIGHT \/ c = DARK) -> In rk ranks ->
  ix (pieceSq b) (psIdx c rk) = -1 \/ 0 <= ix (pieceSq b) (psIdx c rk) < NUM_SQ.
Proof.
  intros Hc Hrk.
  destruct (indexToBoard_sq b c rk (wf_index b W) Hc Hrk) as [E|[E _]]; auto.
Qed.

Lemma flipSq_neg s : s = -1 \/ 0 <= s < NUM_SQ -> (flipSq s <? 0) = (s <? 0).
Proof.
  intros H. unfold flipSq, NUM_SQ in *.
  destruct (Z.ltb_spec s 0) as [H1|H1].
  - destruct (Z.ltb_spec s 0); [reflexivity | lia].
  - destruct (Z.ltb_spec (63 - 1 - s) 0); [lia | reflexivity].
Qed.

Lemma flipSq_geb s : s = -1 \/ 0 <= s < NUM_SQ -> (flipSq s >=? 0) = (s >=? 0).
Proof.
  intros H. rewrite !Z.geb_leb. pose proof (flipSq_neg s H) as E.
  destruct (Z.ltb_spec (flipSq s) 0), (Z.ltb_spec s 0); try discriminate;
    destruct (Z.leb_spec 0 (flipSq s)), (Z.leb_spec 0 s); try lia; reflexivity.
Qed.

Lemma flipSq_pos s : 0 <= s < NUM_SQ -> flipSq s = NUM_SQ - 1 - s.
Proof. intros H. unfold flipSq. destruct (Z.ltb_spec s 0); [lia | reflexivity]. Qed.

Lemma evalMaterial_add stm a :
  evalMaterial b stm a
  = a + (fold_right Z.add 0 (map (matTerm b stm 0) ranks)
         + fold_right Z.add 0 (map (matTerm b stm 1) ranks)).
Proof.
  unfold evalMaterial. cbn [fold_left].
  rewrite (fold_left_add _ (matTerm b stm 1) ranks).
  2:{ intros acc rk _. unfold matTerm. cbv zeta. destruct (_ <? 0); lia. }
  rewrite (fold_left_add _ (matTerm b stm 0) ranks).
  2:{ intros acc rk _. unfold matTerm. cbv zeta. destruct (_ <? 0); lia. }
  lia.
Qed.

Lemma evalProximity_add stm a :
  evalProximity b stm a
  = a + (fold_right Z.add 0 (map (proxTerm b stm 0) ranks)
         + fold_right Z.add 0 (map (proxTerm b stm 1) ranks)).
Proof.
  unfold evalProximity. cbn [fold_left].
  rewrite (fold_left_add _ (proxTerm b stm 1) ranks).
  2:{ intros acc rk _. unfold proxTerm. cbv zeta.
      repeat (match goal with |- context [if ?c then _ else _] => destruct c end); lia. }
  rewrite (fold_left_add _ (proxTerm b stm 0) ranks).
  2:{ intros acc rk _. unfold proxTerm. cbv zeta.
      repeat (match goal with |- context [if ?c then _ else _] => destruct c end); lia. }
  lia.
Qed.

Lemma evalTraps_add stm opp a :
  evalTraps b stm opp a
  = a + fold_right Z.add 0 (map (trapTerm b stm opp) (range NUM_SQ)).
Proof.
  unfold evalTraps. apply fold_left_add.
  intros acc sq _. unfold trapTerm. cbv zeta.
  repeat (match goal with |- context [if ?c then _ else _] => destruct c end); lia.
Qed.

End Mirror.

Lemma colorOf_opp v : v <> 0 -> colorOf (- v) = 1 - colorOf v.
Proof.
  intros H. unfold colorOf, LIGHT, DARK.
  destruct (Z.gtb_spec (- v) 0), (Z.gtb_spec v 0); lia.
Qed.

Lemma matTerm_mirror b stm c rk :
  wf b -> (stm = LIGHT \/ stm = DARK) -> (c = LIGHT \/ c = DARK) -> In rk ranks ->
  matTerm (mirror b) (1 - stm) c rk = matTerm b stm (1 - c) rk.
Proof.
  intros W Hs Hc Hrk. unfold matTerm. cbv zeta.
  rewrite (mirror_pieceSq b c rk Hc Hrk).
  assert (Hc' : 1 - c = LIGHT \/ 1 - c = DARK)
    by (destruct Hc as [-> | ->]; unfold LIGHT, DARK; auto).
  pose proof (pieceSq_range b W (1 - c) rk Hc' Hrk) as Hr.
  rewrite (flipSq_neg _ Hr).
  set (sq := ix (pieceSq b) (psIdx (1 - c) rk)) in *.
  destruct (Z.ltb_spec sq 0) as [Hn|Hn]; [reflexivity|].
  rewrite flipSq_pos by lia.
  assert (Es : (if c =? 1 - stm then 1 else -1) = (if 1 - c =? stm then 1 else -1)).
  { destruct (Z.eqb_spec c (1 - stm)), (Z.eqb_spec (1 - c) stm);
      unfold LIGHT, DARK in *; lia. }
  assert (Ei : (if c =? LIGHT then NUM_SQ - 1 - sq else NUM_SQ - 1 - (NUM_SQ - 1 - sq))
               = (if 1 - c =? LIGHT then sq else NUM_SQ - 1 - sq)).
  { destruct (Z.eqb_spec c LIGHT), (Z.eqb_spec (1 - c) LIGHT);
      unfold LIGHT, DARK in *; lia. }
  rewrite Es, Ei. reflexivity.
Qed.

Lemma proxTerm_mirror b stm c rk :
  wf b -> (stm = LIGHT \/ stm = DARK) -> (c = LIGHT \/ c = DARK) -> In rk ranks ->
  proxTerm (mirror b) (1 - stm) c rk = proxTerm b stm (1 - c) rk.
Proof.
  intros W Hs Hc Hrk. unfold proxTerm. cbv zeta.
  rewrite (mirror_pieceSq b c rk Hc Hrk).
  assert (Hc' : 1 - c = LIGHT \/ 1 - c = DARK)
    by (destruct Hc as [-> | ->]; unfold LIGHT, DARK; auto).
  pose proof (pieceSq_range b W (1 - c) rk Hc' Hrk) as Hr.
  rewrite (flipSq_neg _ Hr).
  set (sq := ix (pieceSq b) (psIdx (1 - c) rk)) in *.
  destruct (Z.ltb_spec sq 0) as [Hn|Hn]; [reflexivity|].
  assert (Hsq : 0 <= sq < NUM_SQ) by lia.
  rewrite flipSq_pos by exact Hsq.
  destruct (tables_symmetric sq Hsq) as (Hd & _).
  assert (Ed : pieceDist rk (if c =? LIGHT then 1 else 0) (NUM_SQ - 1 - sq)
               = pieceDist rk (if 1 - c =? LIGHT then 1 else 0) sq).
  { destruct Hc as [-> | ->].
    - exact (Hd rk 0 Hrk (or_introl eq_refl)).
    - exact (Hd rk 1 Hrk (or_intror eq_refl)). }
  rewrite Ed.
  assert (Es : (if c =? 1 - stm then 1 else -1) = (if 1 - c =? stm then 1 else -1)).
  { destruct (Z.eqb_spec c (1 - stm)), (Z.eqb_spec (1 - c) stm);
      unfold LIGHT, DARK in *; lia. }
  rewrite Es. reflexivity.
Qed.

Lemma mirror_squares b s :
  0 <= s < NUM_SQ -> ix (squares (mirror b)) s = - ix (squares b) (NUM_SQ - 1 - s).
Proof.
  intros H. unfold mirror. cbn [squares].
  apply (ix_map_range (fun s => - ix (squares b) (NUM_SQ - 1 - s))). exact H.
Qed.

Lemma trapTerm_mirror b stm s :
  (stm = LIGHT \/ stm = DARK) -> 0 <= s < NUM_SQ ->
  trapTerm (mirror b) (1 - stm) stm s = trapTerm b stm (1 - stm) (NUM_SQ - 1 - s).
Proof.
  intros Hs Hr. unfold trapTerm. cbv zeta.
  rewrite (mirror_squares b s Hr).
  set (v := ix (squares b) (NUM_SQ - 1 - s)).
  destruct (Z.eqb_spec v 0) as [E0|E0].
  { rewrite E0. reflexivity. }
  destruct (Z.eqb_spec (- v) 0) as [E1|_]; [lia|].
  rewrite (colorOf_opp v E0), Z.abs_opp.
  assert (Hr' : 0 <= NUM_SQ - 1 - s < NUM_SQ) by (unfold NUM_SQ in *; lia).
  destruct (tables_symmetric (NUM_SQ - 1 - s) Hr') as (_ & T1 & T2 & _).
  replace (NUM_SQ - 1 - (NUM_SQ - 1 - s)) with s in T1, T2 by lia.
  rewrite T1, T2.
  destruct (colorOf_cases v) as [Ec|Ec]; rewrite Ec;
    destruct Hs as [-> | ->];
    destruct (ix terrain (NUM_SQ - 1 - s) =? TERRAIN_TRAP_DARK),
             (ix terrain (NUM_SQ - 1 - s) =? TERRAIN_TRAP_LIGHT); reflexivity.
Qed.

Lemma manhattan_flip a c :
  (a = -1 \/ 0 <= a < NUM_SQ) -> (c = -1 \/ 0 <= c < NUM_SQ) ->
  (a >=? 0) && (c >=? 0) = true ->
  manhattan (flipSq a) (flipSq c) = manhattan a c.
Proof.
  intros Ha Hc H. apply andb_true_iff in H. destruct H as [H1 H2].
  rewrite Z.geb_leb in H1, H2. apply Z.leb_le in H1, H2.
  rewrite !flipSq_pos by lia.
  destruct (tables_symmetric a ltac:(lia)) as (_ & _ & _ & Hm). apply Hm. lia.
Qed.

Lemma evalRatElephant_mirror b stm a :
  wf b -> (stm = LIGHT \/ stm = DARK) ->
  evalRatElephant (mirror b) (1 - stm) stm a = evalRatElephant b stm (1 - stm) a.
Proof.
  intros W Hs.
  assert (Hs' : 1 - stm = LIGHT \/ 1 - stm = DARK)
    by (destruct Hs as [-> | ->]; unfold LIGHT, DARK; auto).
  assert (HR : In RAT ranks) by (apply In_ranks; unfold RAT; lia).
  assert (HE : In ELEPHANT ranks) by (apply In_ranks; unfold ELEPHANT; lia).
  unfold evalRatElephant. cbv zeta.
  rewrite (mirror_pieceSq b (1 - stm) RAT Hs' HR).
  rewrite (mirror_pieceSq b (1 - stm) ELEPHANT Hs' HE).
  rewrite (mirror_pieceSq b stm RAT Hs HR).
  rewrite (mirror_pieceSq b stm ELEPHANT Hs HE).
  replace (1 - (1 - stm)) with stm by lia.
  pose proof (pieceSq_range b W stm RAT Hs HR) as R1.
  pose proof (pieceSq_range b W (1 - stm) ELEPHANT Hs' HE) as R2.
  pose proof (pieceSq_range b W (1 - stm) RAT Hs' HR) as R3.
  pose proof (pieceSq_range b W stm ELEPHANT Hs HE) as R4.
  set (A := ix (pieceSq b) (psIdx stm RAT)) in *.
  set (B := ix (pieceSq b) (psIdx (1 - stm) ELEPHANT)) in *.
  set (C := ix (pieceSq b) (psIdx (1 - stm) RAT)) in *.
  set (D := ix (pieceSq b) (psIdx stm ELEPHANT)) in *.
  rewrite !flipSq_geb by assumption.
  destruct ((A >=? 0) && (B >=? 0)) eqn:E1;
    destruct ((C >=? 0) && (D >=? 0)) eqn:E2;
    rewrite ?(manhattan_flip A B R1 R2 E1), ?(manhattan_flip C D R3 R4 E2); reflexivity.
Qed.

Lemma evalDenSafety_mirror b stm a :
  wf b -> (stm = LIGHT \/ stm = DARK) ->
  evalDenSafety (mirror b) (1 - stm) stm a = evalDenSafety b stm (1 - stm) a.
Proof.
  intros W Hs.
  assert (Hs' : 1 - stm = LIGHT \/ 1 - stm = DARK)
    by (destruct Hs as [-> | ->]; unfold LIGHT, DARK; auto).
  unfold evalDenSafety. cbv zeta. apply fold_left_ext_in. intros acc rk Hrk.
  rewrite (mirror_pieceSq b stm rk Hs Hrk).
  pose proof (pieceSq_range b W (1 - stm) rk Hs' Hrk) as R.
  rewrite (flipSq_neg _ R).
  set (sq := ix (pieceSq b) (psIdx (1 - stm) rk)) in *.
  destruct (Z.ltb_spec sq 0) as [Hn|Hn]; [reflexivity|].
  assert (Hsq : 0 <= sq < NUM_SQ) by lia.
  rewrite flipSq_pos by exact Hsq.
  assert (Ed : manhattan (NUM_SQ - 1 - sq)
                 (if 1 - stm =? LIGHT then DEN_LIGHT_SQ else DEN_DARK_SQ)
               = manhattan sq (if stm =? LIGHT then DEN_LIGHT_SQ else DEN_DARK_SQ)).
  { destruct (tables_symmetric sq Hsq) as (_ & _ & _ & Hm).
    destruct Hs as [-> | ->].
    - change (1 - LIGHT =? LIGHT) with false. change (LIGHT =? LIGHT) with true.
      cbv iota. change DEN_DARK_SQ with (NUM_SQ - 1 - DEN_LIGHT_SQ).
      apply Hm. vm_compute. split; [discriminate | reflexivity].
    - change (1 - DARK =? LIGHT) with true. change (DARK =? LIGHT) with false.
      cbv iota. change DEN_LIGHT_SQ with (NUM_SQ - 1 - DEN_DARK_SQ).
      apply Hm. vm_compute. split; [discriminate | reflexivity]. }
  rewrite Ed. reflexivity.
Qed.

Lemma evalEndgame_mirror b stm a :
  wf b -> (stm = LIGHT \/ stm = DARK) ->
  evalEndgame (mirror b) (1 - stm) a = evalEndgame b stm a.
Proof.
  intros W Hs.
  assert (Hs' : 1 - stm = LIGHT \/ 1 - stm = DARK)
    by (destruct Hs as [-> | ->]; unfold LIGHT, DARK; auto).
  unfold evalEndgame. cbv zeta.
  assert (Et : ix (pieceCount (mirror b)) 0 + ix (pieceCount (mirror b)) 1
               = ix (pieceCount b) 0 + ix (pieceCount b) 1).
  { unfold mirror. cbn [pieceCount].
    change (ix [ix (pieceCount b) 1; ix (pieceCount b) 0] 0) with (ix (pieceCount b) 1).
    change (ix [ix (pieceCount b) 1; ix (pieceCount b) 0] 1) with (ix (pieceCount b) 0).
    lia. }
  rewrite Et. destruct (_ <=? 6); [|reflexivity].
  apply fold_left_ext_in. intros acc rk Hrk.
  rewrite (mirror_pieceSq b (1 - stm) rk Hs' Hrk).
  replace (1 - (1 - stm)) with stm by lia.
  pose proof (pieceSq_range b W stm rk Hs Hrk) as R.
  rewrite (flipSq_neg _ R).
  set (sq := ix (pieceSq b) (psIdx stm rk)) in *.
  destruct (Z.ltb_spec sq 0) as [Hn|Hn]; [reflexivity|].
  assert (Hsq : 0 <= sq < NUM_SQ) by lia.
  rewrite flipSq_pos by exact Hsq.
  destruct (tables_symmetric sq Hsq) as (Hd & _).
  assert (Ed : pieceDist rk (if 1 - stm =? LIGHT then 1 else 0) (NUM_SQ - 1 - sq)
               = pieceDist rk (if stm =? LIGHT then 1 else 0) sq).
  { destruct Hs as [-> | ->].
    - exact (Hd rk 1 Hrk (or_intror eq_refl)).
    - exact (Hd rk 0 Hrk (or_introl eq_refl)). }
  rewrite Ed. reflexivity.
Qed.

(** X25: the evaluation treats both sides alike.  Turning a well-formed
    position by 180 degrees, exchanging the colours and giving the move to
    the other side leaves [evaluate] unchanged. *)
Theorem evaluate_mirror b :
  wf b -> evaluate (mirror b) = evaluate b.
Proof.
  intros W. pose proof (wf_side b W) as Hs.
  assert (Hs' : 1 - sideToMove b = LIGHT \/ 1 - sideToMove b = DARK)
    by (destruct Hs as [-> | ->]; unfold LIGHT, DARK; auto).
  unfold evaluate. cbv zeta.
  change (sideToMove (mirror b)) with (1 - sideToMove b).
  replace (1 - (1 - sideToMove b)) with (sideToMove b) by lia.
  set (stm := sideToMove b) in *.
  assert (E1 : evalMaterial (mirror b) (1 - stm) 0 = evalMaterial b stm 0).
  { rewrite !evalMaterial_add.
    rewrite (sum_map_ext (matTerm (mirror b) (1 - stm) 0) (matTerm b stm 1) ranks)
      by (intros rk Hrk; apply (matTerm_mirror b stm 0 rk W Hs (or_introl eq_refl) Hrk)).
    rewrite (sum_map_ext (matTerm (mirror b) (1 - stm) 1) (matTerm b stm 0) ranks)
      by (intros rk Hrk; apply (matTerm_mirror b stm 1 rk W Hs (or_intror eq_refl) Hrk)).
    lia. }
  rewrite E1. set (s1 := evalMaterial b stm 0).
  assert (E2 : evalProximity (mirror b) (1 - stm) s1 = evalProximity b stm s1).
  { rewrite !evalProximity_add.
    rewrite (sum_map_ext (proxTerm (mirror b) (1 - stm) 0) (proxTerm b stm 1) ranks)
      by (intros rk Hrk; apply (proxTerm_mirror b stm 0 rk W Hs (or_introl eq_refl) Hrk)).
    rewrite (sum_map_ext (proxTerm (mirror b) (1 - stm) 1) (proxTerm b stm 0) ranks)
      by (intros rk Hrk; apply (proxTerm_mirror b stm 1 rk W Hs (or_intror eq_refl) Hrk)).
    lia. }
  rewrite E2. set (s2 := evalProximity b stm s1).
  assert (E3 : evalTraps (mirror b) (1 - stm) stm s2 = evalTraps b stm (1 - stm) s2).
  { rewrite !evalTraps_add. f_equal.
    rewrite (sum_map_ext (trapTerm (mirror b) (1 - stm) stm)
               (fun s => trapTerm b stm (1 - stm) (NUM_SQ - 1 - s)) (range NUM_SQ))
      by (intros s Hs0; apply trapTerm_mirror; [exact Hs | apply In_range; exact Hs0]).
    apply (sum_reflect (trapTerm b stm (1 - stm))). }
  rewrite E3. set (s3 := evalTraps b stm (1 - stm) s2).
  rewrite (evalRatElephant_mirror b stm s3 W Hs).
  set (s4 := evalRatElephant b stm (1 - stm) s3).
  rewrite (evalDenSafety_mirror b stm s4 W Hs).
  set (s5 := evalDenSafety b stm (1 - stm) s4).
  assert (E6 : ix (pieceCount (mirror b)) (1 - stm) - ix (pieceCount (mirror b)) stm
               = ix (pieceCount b) stm - ix (pieceCount b) (1 - stm)).
  { unfold mirror. cbn [pieceCount]. destruct Hs as [-> | ->]; reflexivity. }
  rewrite E6. apply evalEndgame_mirror; assumption.
Qed.

Lemma evaluate_mirror_witness :
  evaluate (mirror lionPreyBoard) = evaluate lionPreyBoard.
Proof.
  apply evaluate_mirror.
  apply (wf_fen zeroBoard "7/7/7/7/7/c6/Lr5/7/7 w");
    [repeat split; reflexivity | vm_compute; reflexivity ..].
Defined.

(** *** Mate scores through the table *)

Lemma int16_small x : -32768 <= x < 32768 -> int16 x = x.
Proof. intros H. unfold int16. rewrite Z.mod_small; lia. Qed.

Lemma probe_after_store s key score bestMove depth flag :
  tableOk s -> 0 <= key -> flag <> TT_NONE ->
  (tt_flag (ixT (tt s) (slot s key)) = TT_NONE
   \/ tt_key (ixT (tt s) (slot s key)) = key
   \/ tt_depth (ixT (tt s) (slot s key)) <= depth) ->
  probeTT (storeTT s key score bestMove depth flag) key
  = Some (mkTT key (int16 score) bestMove (int8 depth) flag).
Proof.
  intros Hok Hk Hf Hrep.
  unfold storeTT, probeTT. cbv zeta. fold (slot s key).
  set (e := ixT (tt s) (slot s key)) in *.
  assert (C : (tt_flag e =? TT_NONE) || (tt_key e =? key) || (tt_depth e <=? depth) = true).
  { destruct Hrep as [H|[H|H]].
    - rewrite (proj2 (Z.eqb_eq _ _) H). reflexivity.
    - rewrite (proj2 (Z.eqb_eq _ _) H). apply orb_true_iff. left. apply orb_true_r.
    - rewrite (proj2 (Z.leb_le _ _) H). apply orb_true_r. }
  rewrite C. cbn [tt ttMask]. fold (slot s key).
  rewrite ixT_upd_eq by (apply slot_range; assumption).
  cbn [tt_flag tt_key]. rewrite Z.eqb_refl.
  destruct (Z.eqb_spec flag TT_NONE); [contradiction | reflexivity].
Qed.

(** X26: mate scores are stored relative to the node and come back relative
    to the probing node.  A win in [k] plies seen at ply [p], stored through
    [scoreToTT] and [storeTT] and found again by [probeTT], reads through
    [scoreFromTT] at ply [q] as a win in [k] plies seen from ply [q]; the
    same holds for a loss, and a score outside the mate range comes back
    unchanged at any ply. *)
Theorem tt_mate_distance s key bestMove depth flag p q k v :
  tableOk s -> 0 <= key -> flag <> TT_NONE ->
  (tt_flag (ixT (tt s) (slot s key)) = TT_NONE
   \/ tt_key (ixT (tt s) (slot s key)) = key
   \/ tt_depth (ixT (tt s) (slot s key)) <= depth) ->
  0 <= p -> 0 <= q -> 0 <= k -> p + k <= MAX_PLY -> q + k <= MAX_PLY ->
  - (SCORE_MATE - MAX_PLY) < v < SCORE_MATE - MAX_PLY ->
  let back score :=
    match probeTT (storeTT s key (scoreToTT score p) bestMove depth flag) key with
    | Some e => Some (scoreFromTT (tt_score e) q)
    | None => None
    end in
  back (SCORE_MATE - (p + k)) = Some (SCORE_MATE - (q + k))
  /\ back (- (SCORE_MATE - (p + k))) = Some (- (SCORE_MATE - (q + k)))
  /\ back v = Some v.
Proof.
  intros Hok Hk Hf Hrep Hp Hq Hk0 Hpk Hqk Hv. cbv beta zeta.
  rewrite !(probe_after_store s key _ bestMove depth flag Hok Hk Hf Hrep).
  cbn [tt_score]. unfold SCORE_MATE, MAX_PLY in *.
  split; [|split]; f_equal.
  all: unfold scoreToTT, SCORE_MATE, MAX_PLY; cmp_cases; try lia.
  all: rewrite int16_small by lia.
  all: unfold scoreFromTT, SCORE_MATE, MAX_PLY; cmp_cases; lia.
Qed.

Lemma tt_mate_distance_witness :
  let back score :=
    match probeTT (storeTT (ttInit 1) 12345 (scoreToTT score 7) 9 4 TT_EXACT) 12345 with
    | Some e => Some (scoreFromTT (tt_score e) 3)
    | None => None
    end in
  back (SCORE_MATE - (7 + 5)) = Some (SCORE_MATE - (3 + 5))
  /\ back (- (SCORE_MATE - (7 + 5))) = Some (- (SCORE_MATE - (3 + 5)))
  /\ back 150 = Some 150.
Proof.
  apply (tt_mate_distance (ttInit 1) 12345 9 4 TT_EXACT 7 3 5 150).
  - split; vm_compute; [discriminate | reflexivity].
  - lia.
  - discriminate.
  - left. vm_compute. reflexivity.
  - lia.
  - lia.
  - lia.
  - unfold MAX_PLY. lia.
  - unfold MAX_PLY. lia.
  - unfold SCORE_MATE, MAX_PLY. lia.
Defined.

(** *** Taking back a line of play *)

(** X27: the undo stack works to any depth.  After a line of generated
    moves from a reachable position, within the capacity of the stacks,
    calling [unmakeMove] once for every move made leads back to the
    position the line started from: every field and every live stack entry
    is as before. *)
Theorem unmake_all ms : forall P,
  reachable P -> legalChain P ms ->
  histLen P + Z.of_nat (length ms) <= MAX_GAME_LEN ->
  sameLive P (unmakeMoves (length ms) (playMoves P ms)).
Proof.
  induction ms as [|m ms IH]; intros P HP Hc Hcap.
  { apply sameLive_refl. }
  destruct Hc as [Hm Hc]. cbn [length] in Hcap |- *.
  change (playMoves P (m :: ms)) with (playMoves (makeMove P m) ms).
  change (unmakeMoves (S (length ms)) (playMoves (makeMove P m) ms))
    with (unmakeMove (unmakeMoves (length ms) (playMoves (makeMove P m) ms))).
  pose proof (reachable_wf P HP) as W.
  assert (HQ : reachable (makeMove P m)) by (apply reach_make; [assumption | assumption | lia]).
  assert (IH' : sameLive (makeMove P m)
                  (unmakeMoves (length ms) (playMoves (makeMove P m) ms))).
  { apply IH; [exact HQ | exact Hc |].
    change (histLen (makeMove P m)) with (histLen P + 1). lia. }
  apply (sameLive_trans _ (unmakeMove (makeMove P m))).
  - apply sameLive_unmake_make; [exact W | exact Hm | lia].
  - apply sameLive_unmakeMove; [exact IH' | |].
    + change (ply (makeMove P m)) with (ply P + 1). pose proof (wf_ply P W). lia.
    + change (histLen (makeMove P m)) with (histLen P + 1).
      pose proof (wf_ply P W). pose proof (wf_len P W). lia.
Qed.

Lemma unmake_all_witness :
  sameLive (init zeroBoard)
    (unmakeMoves (length tigerCycle) (playMoves (init zeroBoard) tigerCycle)).
Proof.
  apply unmake_all.
  - exact start_reachable.
  - unfold tigerCycle. legal_chain.
  - vm_compute. discriminate.
Defined.

(** *** Texts that stay on the board *)

Lemma charToRank_range ch : 0 <= charToRank ch <= 8.
Proof.
  unfold charToRank, rankLetters. cbn [findLetter].
  repeat match goal with
  | |- context [if ?a =? ?b then _ else _] => destruct (Z.eqb_spec a b)
  end; lia.
Qed.

(** A text whose letters stay inside their rows never makes the loop store
    outside [squares]. *)
Lemma fenInRow_fenLoop cs : forall row col st,
  row <= 8 -> 0 <= col -> fenInRow cs row col = true ->
  fenLoop cs row col st <> FenOverrun.
Proof.
  induction cs as [|ch cs IH]; intros row col st Hr Hc H; cbn [fenLoop fenInRow] in *.
  - discriminate.
  - destruct (Z.geb_spec row 0) as [Hr0|Hr0]; cbn [negb] in *; [|discriminate].
    destruct (ch =? 47); [apply IH; [lia | lia | exact H]|].
    destruct (ch =? 32); [discriminate|].
    destruct (Z.geb_spec ch 49) as [H49|H49]; cbn [andb] in *.
    + destruct (Z.leb_spec ch 55) as [H55|H55].
      * apply IH; [lia | lia | exact H].
      * destruct (charToRank ch =? 0); [discriminate|].
        apply andb_true_iff in H. destruct H as [H6 H]. apply Z.leb_le in H6.
        unfold makeSq, BOARD_W, NUM_SQ.
        destruct (Z.leb_spec 0 (row * 7 + col)); [|lia].
        destruct (Z.ltb_spec (row * 7 + col) 63); [|lia]. cbn [andb negb].
        apply IH; [lia | lia | exact H].
    + destruct (charToRank ch =? 0); [discriminate|].
      apply andb_true_iff in H. destruct H as [H6 H]. apply Z.leb_le in H6.
      unfold makeSq, BOARD_W, NUM_SQ.
      destruct (Z.leb_spec 0 (row * 7 + col)); [|lia].
      destruct (Z.ltb_spec (row * 7 + col) 63); [|lia]. cbn [andb negb].
      apply IH; [lia | lia | exact H].
Qed.

Lemma fenInRow_defined b fen :
  fenInRow (chars fen) 8 0 = true -> exists r, setFEN b fen = Some r.
Proof.
  intros H. unfold setFEN, setFENc. set (st0 := mkFen _ _ _).
  pose proof (fenInRow_fenLoop (chars fen) 8 0 st0 ltac:(lia) ltac:(lia) H) as N.
  destruct (fenLoop (chars fen) 8 0 st0); [eexists; reflexivity ..|contradiction].
Qed.

Lemma fenInv_place st row col seen c rk :
  fenInv st row col seen ->
  0 <= row <= 8 -> 0 <= col <= 6 ->
  (c = LIGHT \/ c = DARK) -> 1 <= rk <= 8 ->
  existsb (Z.eqb (psIdx c rk)) seen = false ->
  fenInv (mkFen (upd (f_squares st) (makeSq row col) (int8 (if c =? LIGHT then rk else - rk)))
                (upd (f_pieceSq st) (psIdx c rk) (int8 (makeSq row col)))
                (upd (f_pieceCount st) c (ix (f_pieceCount st) c + 1)))
         row (col + 1) (psIdx c rk :: seen).
Proof.
  intros [L1 L2 Hbef Hb Hi Hseen] Hr Hcol Hc Hrk Hnew.
  set (sq := makeSq row col).
  assert (Hsq : 0 <= sq < NUM_SQ) by (unfold sq, makeSq, BOARD_W, NUM_SQ; lia).
  assert (Esq : sq = row * 7 + col) by reflexivity.
  change (if c =? LIGHT then rk else - rk) with (signed c rk).
  assert (Ev : int8 (signed c rk) = signed c rk).
  { apply int8_id. unfold signed. destruct (c =? LIGHT); lia. }
  rewrite Ev, (int8_id sq) by (unfold NUM_SQ in Hsq; lia).
  pose proof (psIdx_range c rk Hc Hrk) as Hps.
  assert (Hfree : ix (f_pieceSq st) (psIdx c rk) = -1).
  { destruct (Z.eq_dec (ix (f_pieceSq st) (psIdx c rk)) (-1)) as [E|E]; [exact E|].
    pose proof (Hseen c rk Hc Hrk E). congruence. }
  assert (Hempty : ix (f_squares st) sq = 0).
  { destruct (Z.eq_dec (ix (f_squares st) sq) 0) as [E|E]; [exact E|].
    destruct (Hbef sq Hsq E). lia. }
  assert (Hnz : signed c rk <> 0) by (apply signed_nonzero; lia).
  assert (Habs : Z.abs (signed c rk) = rk).
  { unfold signed. destruct (c =? LIGHT); lia. }
  assert (Hcol' : colorOf (signed c rk) = c) by (apply colorOf_signed; [exact Hc | lia]).
  constructor; cbn [f_squares f_pieceSq f_pieceCount].
  - rewrite upd_length. exact L1.
  - rewrite upd_length. exact L2.
  - intros s Hs Hv. destruct (Z.eq_dec s sq) as [->|Ne]; [lia|].
    rewrite ix_upd_ne in Hv by congruence.
    destruct (Hbef s Hs Hv). lia.
  - intros s Hs Hv. destruct (Z.eq_dec s sq) as [->|Ne].
    + rewrite ix_upd_eq by (rewrite L1; unfold NUM_SQ in Hsq; lia).
      rewrite Habs, Hcol'. split; [exact Hrk|].
      apply ix_upd_eq. rewrite L2. lia.
    + rewrite ix_upd_ne in * by congruence.
      destruct (Hb s Hs Hv) as [A B]. split; [exact A|].
      rewrite ix_upd_ne; [exact B|].
      intros E. rewrite <- E in B. rewrite Hfree in B. lia.
  - intros c' rk' Hc' Hrk'.
    destruct (Z.eq_dec (psIdx c rk) (psIdx c' rk')) as [E|Ne].
    + destruct (psIdx_inj c rk c' rk' Hc Hc' Hrk Hrk' E) as [<- <-].
      right. rewrite ix_upd_eq by (rewrite L2; lia).
      split; [exact Hsq|]. apply ix_upd_eq. rewrite L1. unfold NUM_SQ in Hsq. lia.
    + rewrite ix_upd_ne by exact Ne.
      destruct (Hi c' rk' Hc' Hrk') as [A|[A B]]; [left; exact A|].
      right. split; [exact A|]. rewrite ix_upd_ne; [exact B|].
      intros E. rewrite <- E in B. rewrite Hempty in B.
      symmetry in B. revert B. apply signed_nonzero. lia.
  - intros c' rk' Hc' Hrk' Hv. cbn [existsb].
    destruct (Z.eqb_spec (psIdx c rk) (psIdx c' rk')) as [E|Ne].
    + destruct (psIdx_inj c rk c' rk' Hc Hc' Hrk Hrk' E) as [<- <-].
      rewrite Z.eqb_refl. reflexivity.
    + rewrite ix_upd_ne in Hv by exact Ne.
      rewrite (Hseen c' rk' Hc' Hrk' Hv). apply orb_true_r.
Qed.

Lemma fenLoop_agree cs : forall row col seen st st' rest,
  fenLoop cs row col st = FenDone st' rest ->
  fenInRow cs row col = true -> fenOnce cs row seen = true ->
  row <= 8 -> 0 <= col ->
  fenInv st row col seen ->
  exists row' col' seen', fenInv st' row' col' seen'.
Proof.
  induction cs as [|ch cs IH]; intros row col seen st st' rest H Hin Hon Hr Hc Inv;
    cbn [fenLoop fenInRow fenOnce] in *.
  { injection H as <- _. eauto. }
  destruct (Z.geb_spec row 0) as [Hr0|Hr0]; cbn [negb] in *;
    [|injection H as <- _; eauto].
  destruct (ch =? 47).
  { apply (IH _ _ _ _ _ _ H Hin Hon); [lia | lia |].
    destruct Inv as [L1 L2 Hbef Hb Hi Hseen]. constructor; try assumption.
    intros s Hs Hv. destruct (Hbef s Hs Hv). lia. }
  destruct (ch =? 32); [injection H as <- _; eauto|].
  destruct ((ch >=? 49) && (ch <=? 55)) eqn:Ed.
  { apply andb_true_iff in Ed. destruct Ed as [E49 E55].
    apply Z.geb_le in E49. apply Z.leb_le in E55.
    apply (IH _ _ _ _ _ _ H Hin Hon); [lia | lia |].
    destruct Inv as [L1 L2 Hbef Hb Hi Hseen]. constructor; try assumption.
    intros s Hs Hv. destruct (Hbef s Hs Hv). lia. }
  cbv zeta in *.
  destruct (Z.eqb_spec (charToRank ch) 0) as [E0|E0]; [discriminate|].
  destruct (negb ((0 <=? makeSq row col) && (makeSq row col <? NUM_SQ)));
    [discriminate|].
  apply andb_true_iff in Hin. destruct Hin as [H6 Hin]. apply Z.leb_le in H6.
  apply andb_true_iff in Hon. destruct Hon as [Hnew Hon].
  apply negb_true_iff in Hnew.
  pose proof (charToRank_range ch) as Hrk.
  apply (IH _ _ _ _ _ _ H Hin Hon); [lia | lia |].
  apply fenInv_place; try assumption; try lia.
  destruct (isupper ch); auto.
Qed.

(** An accepted text with its letters inside the rows and no piece named
    twice leaves a board and a reverse index that agree. *)
Lemma setFEN_agreement b fen P :
  setFEN b fen = Some (true, P) ->
  fenInRow (chars fen) 8 0 = true -> fenOnce (chars fen) 8 [] = true ->
  indexToBoard P = true /\ boardToIndex P = true.
Proof.
  unfold setFEN, setFENc. set (st0 := mkFen _ _ _).
  destruct (fenLoop (chars fen) 8 0 st0) as [st|st rest|] eqn:E;
    [discriminate| |discriminate].
  intros H Hin Hon. injection H as <-.
  assert (Inv0 : fenInv st0 8 0 []).
  { constructor; cbn [f_squares f_pieceSq st0].
    - reflexivity.
    - reflexivity.
    - intros s Hs Hv. rewrite ix_replicate in Hv by (unfold NUM_SQ in Hs; lia).
      contradiction.
    - intros s Hs Hv. rewrite ix_replicate in Hv by (unfold NUM_SQ in Hs; lia).
      contradiction.
    - intros c rk Hc Hrk. left. apply ix_replicate.
      pose proof (psIdx_range c rk Hc Hrk). lia.
    - intros c rk Hc Hrk Hv. exfalso. apply Hv. apply ix_replicate.
      pose proof (psIdx_range c rk Hc Hrk). lia. }
  destruct (fenLoop_agree _ _ _ _ _ _ _ E Hin Hon ltac:(lia) ltac:(lia) Inv0)
    as (row' & col' & seen' & [L1 L2 Hbef Hb Hi Hseen]).
  split.
  - apply indexToBoard_intro. cbn [squares pieceSq]. intros c rk Hc Hrk. cbv zeta.
    apply Hi; assumption.
  - apply boardToIndex_intro. cbn [squares pieceSq]. exact Hb.
Qed.

Lemma inGame_reachable P : inGame P -> reachable P.
Proof.
  induction 1 as [b Hs | b fen P Hs Hok Hin Hon | P m HP IH Hm Hcap | P HP IH Hcap
                 | P Q HP IH HQ].
  - apply reach_init. exact Hs.
  - destruct (setFEN_agreement b fen P Hok Hin Hon) as [Hi Hb].
    apply (reach_fen b fen); assumption.
  - apply reach_make; assumption.
  - apply reach_null; assumption.
  - apply (reach_dead P Q); assumption.
Qed.

(** X12: in every position of a game (one that starts from the start
    position, or from an accepted text that keeps its letters inside the
    rows and names no piece twice, and goes on by generated moves and null
    moves) the board and the reverse index agree in both directions, so no
    piece stands on two squares; the side to move is Light or Dark; the
    history has one entry more than the game has plies and its last entry is
    the current hash. *)
Theorem game_index_agreement P :
  inGame P ->
  (forall c rk, (c = LIGHT \/ c = DARK) -> 1 <= rk <= 8 ->
     let s := ix (pieceSq P) (psIdx c rk) in
     s = -1 \/ (0 <= s < NUM_SQ /\ ix (squares P) s = signed c rk))
  /\ (forall s, 0 <= s < NUM_SQ -> ix (squares P) s <> 0 ->
        1 <= Z.abs (ix (squares P) s) <= 8
        /\ ix (pieceSq P) (psIdx (colorOf (ix (squares P) s))
                                 (Z.abs (ix (squares P) s))) = s)
  /\ (forall s s', 0 <= s < NUM_SQ -> 0 <= s' < NUM_SQ ->
        ix (squares P) s <> 0 -> ix (squares P) s = ix (squares P) s' -> s = s')
  /\ (sideToMove P = LIGHT \/ sideToMove P = DARK)
  /\ histLen P = ply P + 1
  /\ ix (posHistory P) (histLen P - 1) = hash P.
Proof.
  intros HP. pose proof (reachable_wf P (inGame_reachable P HP)) as W.
  split; [|split; [|split; [|split; [|split]]]].
  - intros c rk Hc Hrk. apply indexToBoard_sq;
      [apply (wf_index P W) | exact Hc | apply In_ranks; exact Hrk].
  - intros s Hs Hv. apply boardToIndex_sq; [apply (wf_board P W) | exact Hs | exact Hv].
  - intros s s' Hs Hs' Hv E.
    destruct (boardToIndex_sq P s (wf_board P W) Hs Hv) as [_ E1].
    assert (Hv' : ix (squares P) s' <> 0) by congruence.
    destruct (boardToIndex_sq P s' (wf_board P W) Hs' Hv') as [_ E2].
    rewrite <- E in E2. congruence.
  - apply (wf_side P W).
  - apply (wf_len P W).
  - apply (wf_top P W).
Qed.

Lemma game_index_agreement_witness :
  histLen (makeMove lionPreyBoard (encodeMove 14 15))
  = ply (makeMove lionPreyBoard (encodeMove 14 15)) + 1.
Proof.
  apply (game_index_agreement (makeMove lionPreyBoard (encodeMove 14 15))).
  apply game_make.
  - apply (game_fen zeroBoard "7/7/7/7/7/c6/Lr5/7/7 w");
      [repeat split; reflexivity | vm_compute; reflexivity ..].
  - apply In_existsb. vm_compute. reflexivity.
  - vm_compute. reflexivity.
Defined.

(** The boards used as examples are accepted texts. *)
Lemma example_boards_loaded :
  setFEN zeroBoard "7/7/7/7/7/1r5/L6/7/7 w" = Some (true, s4Board)
  /\ setFEN zeroBoard "7/7/7/7/7/Lr5/7/7/7 w" = Some (true, lionRatBoard)
  /\ setFEN zeroBoard "7/7/7/7/7/Lc5/7/7/7 w" = Some (true, lionCatBoard)
  /\ setFEN zeroBoard "7/7/7/7/7/L6/7/7/7 w" = Some (true, lionBoard)
  /\ setFEN zeroBoard "7/7/7/7/7/c6/Lr5/7/7 w" = Some (true, lionPreyBoard)
  /\ setFEN zeroBoard "6r/3R3/7/7/7/7/7/7/7 w" = Some (true, denBoard)
  /\ setFEN zeroBoard "7/7/7/7/7/7/7/7/7 w"
     = Some (true, fenBoard "7/7/7/7/7/7/7/7/7 w").
Proof. repeat split; vm_compute; reflexivity. Qed.

(** Texts that put a letter behind the last square have no result; a letter
    behind the end of a lower row is stored on the row above, and a piece
    named twice keeps its last square only: both are accepted and leave a
    board and a reverse index that disagree. *)
Lemma setFEN_unchecked_texts :
  setFEN (init zeroBoard) "71Rx" = None
  /\ setFEN zeroBoard "7773R/R6/7/7/7/7/7/7/7 w" = None
  /\ (exists P, setFEN zeroBoard "R6/7r w" = Some (true, P)
                /\ indexToBoard P = false)
  /\ (exists P, setFEN zeroBoard "RR w" = Some (true, P)
                /\ boardToIndex P = false).
Proof.
  split; [vm_compute; reflexivity|].
  split; [vm_compute; reflexivity|].
  split.
  - exists (fenBoard "R6/7r w"). split; vm_compute; reflexivity.
  - exists (fenBoard "RR w"). split; vm_compute; reflexivity.
Qed.
